(** * Multiple sequence alignments (msa.c): a shallow embedding and its checked properties

    The C functions of msa.c are rendered as Rocq functions over an explicit
    [MSA] record.  C [int] values are integers of [Z]: the functions only add
    and subtract indices bounded by the lengths involved (the largest is
    [alloc_len + 2 * length] in msa_concatenate), so the model is exact as
    long as these stay in the range of [int], outside of which the C code has
    no defined behaviour either.  C strings are lists of characters used as
    buffers: a row of the alignment is the buffer behind [msa->seqs[j]], of
    which the first [msa->length] cells are the row.  Functions that can stop
    the process ([assert], [die], [exit]) return a [result].

    The first part holds the definitions, function by function in the order
    of the source; the second part holds the lemmas and the theorems. *)

From Stdlib Require Import ZArith List Ascii String Lia Bool DecimalString.
From stdpp Require Import base tactics option list list_numbers strings gmap.

Open Scope Z_scope.

(** ** Characters and character buffers *)

Module Chr.

Definition NUL : ascii := Ascii.zero.

Definition code (c : ascii) : Z := Z.of_N (N_of_ascii c).

Definition eqb (a b : ascii) : bool := Ascii.eqb a b.

(** <ctype.h> in the C locale. *)
Definition isupper (c : ascii) : bool := (65 <=? code c) && (code c <=? 90).
Definition islower (c : ascii) : bool := (97 <=? code c) && (code c <=? 122).
Definition isalpha (c : ascii) : bool := isupper c || islower c.
Definition isspace (c : ascii) : bool :=
  (code c =? 32) || ((9 <=? code c) && (code c <=? 13)).
Definition toupper (c : ascii) : ascii :=
  if islower c then ascii_of_N (Z.to_N (code c - 32)) else c.

End Chr.

Notation "a =c? b" := (Chr.eqb a b) (at level 70, no associativity).

(** [s[i]] and [s[i] = c] on a buffer.  A read outside the buffer yields
    NUL and a write outside it is dropped; the well-formedness conditions
    below keep the modelled functions inside their buffers. *)
Definition get {A} (d : A) (s : list A) (i : Z) : A :=
  if i <? 0 then d else default d (s !! Z.to_nat i).

Definition set {A} (s : list A) (i : Z) (x : A) : list A :=
  if i <? 0 then s else <[Z.to_nat i := x]> s.

Abbreviation getc := (get Chr.NUL).

(** [for (i = lo; i < hi; i++) s = body i s]. *)
Definition for_loop {S} (lo hi : Z) (body : Z -> S -> S) (s : S) : S :=
  foldl (fun s i => body i s) s (seqZ lo (hi - lo)).

(** ** Process-terminating failures *)

Inductive result (A : Type) : Type :=
| Ok (a : A)
| Fatal (msg : string).
Arguments Ok {A} a.
Arguments Fatal {A} msg.

Definition bind {A B} (r : result A) (k : A -> result B) : result B :=
  match r with
  | Ok a => k a
  | Fatal msg => Fatal msg
  end.

Notation "'do' x <- r ; k" := (bind r (fun x => k))
  (at level 10, x name, r at level 100, k at level 200).

Definition assert (b : bool) (what : string) : result unit :=
  if b then Ok tt else Fatal what.

(** ** The alignment object *)

(** The sufficient-statistics view is owned by sufficient_stats.c.  Only the
    two fields msa.c reads are modelled; the rest is an opaque payload. *)
Record MSA_SS : Type := {
  tuple_size : Z;
  tuple_idx : option (list Z);
  ss_payload : list (list ascii * Z)
}.

Record MSA : Type := {
  msa_seqs : option (list (list ascii));
  msa_names : list string;
  msa_nseqs : Z;
  msa_length : Z;
  msa_alloc_len : Z;
  msa_categories : option (list Z);
  msa_ncats : Z;
  msa_ss : option MSA_SS;
  msa_idx_offset : Z;
  msa_alphabet : string;
  msa_missing : string;
  msa_inv_alphabet : ascii -> Z;
  msa_is_missing : ascii -> Z
}.

Definition set_seqs (m : MSA) (s : option (list (list ascii))) : MSA :=
  {| msa_seqs := s; msa_names := msa_names m; msa_nseqs := msa_nseqs m;
     msa_length := msa_length m; msa_alloc_len := msa_alloc_len m;
     msa_categories := msa_categories m; msa_ncats := msa_ncats m;
     msa_ss := msa_ss m; msa_idx_offset := msa_idx_offset m;
     msa_alphabet := msa_alphabet m; msa_missing := msa_missing m;
     msa_inv_alphabet := msa_inv_alphabet m;
     msa_is_missing := msa_is_missing m |}.

Definition set_ss (m : MSA) (s : option MSA_SS) : MSA :=
  {| msa_seqs := msa_seqs m; msa_names := msa_names m; msa_nseqs := msa_nseqs m;
     msa_length := msa_length m; msa_alloc_len := msa_alloc_len m;
     msa_categories := msa_categories m; msa_ncats := msa_ncats m;
     msa_ss := s; msa_idx_offset := msa_idx_offset m;
     msa_alphabet := msa_alphabet m; msa_missing := msa_missing m;
     msa_inv_alphabet := msa_inv_alphabet m;
     msa_is_missing := msa_is_missing m |}.

Definition set_length (m : MSA) (n : Z) : MSA :=
  {| msa_seqs := msa_seqs m; msa_names := msa_names m; msa_nseqs := msa_nseqs m;
     msa_length := n; msa_alloc_len := msa_alloc_len m;
     msa_categories := msa_categories m; msa_ncats := msa_ncats m;
     msa_ss := msa_ss m; msa_idx_offset := msa_idx_offset m;
     msa_alphabet := msa_alphabet m; msa_missing := msa_missing m;
     msa_inv_alphabet := msa_inv_alphabet m;
     msa_is_missing := msa_is_missing m |}.

Definition set_categories (m : MSA) (c : option (list Z)) : MSA :=
  {| msa_seqs := msa_seqs m; msa_names := msa_names m; msa_nseqs := msa_nseqs m;
     msa_length := msa_length m; msa_alloc_len := msa_alloc_len m;
     msa_categories := c; msa_ncats := msa_ncats m;
     msa_ss := msa_ss m; msa_idx_offset := msa_idx_offset m;
     msa_alphabet := msa_alphabet m; msa_missing := msa_missing m;
     msa_inv_alphabet := msa_inv_alphabet m;
     msa_is_missing := msa_is_missing m |}.

(** The matrix of an alignment; empty when it has none. *)
Definition rows_of (m : MSA) : list (list ascii) := default [] (msa_seqs m).

(** [msa->seqs[j][i]]. *)
Definition seq_at (rs : list (list ascii)) (j i : Z) : ascii :=
  getc (get [] rs j) i.

(** Representation invariant of an alignment with an explicit matrix:
    [nseqs] row buffers, each holding at least [length] characters. *)
Definition explicit_wf (m : MSA) : bool :=
  match msa_seqs m with
  | Some rs =>
      (msa_nseqs m =? Z.of_nat (List.length rs)) && (0 <=? msa_length m)
      && forallb (fun r => msa_length m <=? Z.of_nat (List.length r)) rs
  | None => false
  end.

(** The collaborator sufficient_stats.c, through the calls msa.c makes.  Each
    operation is typed by what it writes in the alignment it is given. *)
Class SuffStats : Type := {
  ss_to_msa : MSA -> list (list ascii);
  ss_from_msas : MSA -> Z -> bool -> MSA_SS;
  ss_reverse_compl : MSA -> MSA_SS;
  ss_strip_gaps : MSA -> Z -> MSA;
  ss_update_categories : MSA -> MSA_SS;
  ss_reorder_rows : MSA -> list Z -> Z -> MSA_SS;
  ss_get_char_pos : MSA -> Z -> Z -> Z -> ascii
}.

(** Constants of msa.h, which is not among the sources. *)

(** Modelled from the spec: msa.h is missing; the gap symbol of section 3
    ("gap and missing-data symbols"), which PHAST writes as a dash. *)
Definition GAP_CHAR : ascii := "-".

(** Modelled from the spec: msa.h is missing; the two column-removal modes
    of section 4.4 ("all rows gapped" or "any row gapped").  msa_strip_gaps
    treats every positive mode as a row to project on, so both are
    non-positive. *)
Definition STRIP_ALL_GAPS : Z := -2.
Definition STRIP_ANY_GAPS : Z := -1.

(** Modelled from the spec: msa.h is missing; the default alphabet and the
    missing-data symbols, the first of which stands for a synthesized
    row and for the dot of section 4.1. *)
Definition DEFAULT_ALPHABET : string := "ACGT".
Definition DEFAULT_MDATA_CHARS : string := "*N".

(** ** Reverse complement *)

Definition msa_compl_char (c : ascii) : ascii :=
  if c =c? "A" then "T"
  else if c =c? "C" then "G"
  else if c =c? "G" then "C"
  else if c =c? "T" then "A"
  else c.

Definition msa_reverse_compl_seq (seq : list ascii) (length : Z) : list ascii :=
  if length <=? 0 then seq
  else
    let midpt := Z.quot (length - 1) 2 in
    for_loop 0 (midpt + 1)
      (fun i seq =>
         let tmp := msa_compl_char (getc seq i) in
         let seq := set seq i (msa_compl_char (getc seq (length - i - 1))) in
         set seq (length - i - 1) tmp)
      seq.

Section Transforms.
Context {SS : SuffStats}.

(** [void msa_reverse_compl(MSA *msa)]. *)
Definition msa_reverse_compl (msa : MSA) : result MSA :=
  do _ <- match msa_ss msa with
          | None => assert (bool_decide (msa_categories msa = None))
                      "msa->categories == NULL"
          | Some _ => Ok tt
          end;
  let '(msa, tupsize, store_order) :=
    match msa_ss msa with
    | Some ss =>
        if 1 <? tuple_size ss then
          let msa := match msa_seqs msa with
                     | None => set_seqs msa (Some (ss_to_msa msa))
                     | Some _ => msa
                     end in
          (set_ss msa None, tuple_size ss, bool_decide (tuple_idx ss <> None))
        else (msa, -1, false)
    | None => (msa, -1, false)
    end in
  let msa :=
    match msa_seqs msa with
    | Some rs =>
        set_seqs msa
          (Some (for_loop 0 (msa_nseqs msa)
                   (fun i rs =>
                      set rs i (msa_reverse_compl_seq (get [] rs i) (msa_length msa)))
                   rs))
    | None => msa
    end in
  let msa :=
    match msa_ss msa with
    | Some _ => set_ss msa (Some (ss_reverse_compl msa))
    | None => msa
    end in
  let msa :=
    if negb (tupsize =? -1)
    then set_ss msa (Some (ss_from_msas msa tupsize store_order))
    else msa in
  Ok msa.

(** ** Gap stripping and projection *)

(** [for (j = 0; j < nseqs; j++) seqs[j][k] = seqs[j][i]], with the
    categories entry carried along. *)
Definition copy_column (nseqs : Z) (rs : list (list ascii)) (k i : Z)
  : list (list ascii) :=
  for_loop 0 nseqs (fun j rs => set rs j (set (get [] rs j) k (seq_at rs j i))) rs.

Definition copy_category (cats : option (list Z)) (k i : Z) : option (list Z) :=
  match cats with
  | Some c => Some (set c k (get 0 c i))
  | None => None
  end.

(** [void msa_project(MSA *msa, int refseq)]. *)
Definition msa_project (msa : MSA) (refseq : Z) : result MSA :=
  do _ <- assert ((1 <=? refseq) && (refseq <=? msa_nseqs msa))
            "refseq >= 1 && refseq <= msa->nseqs";
  match msa_seqs msa with
  | None => Fatal "msa->seqs is NULL"
  | Some rs =>
      let '(rs, cats, k) :=
        for_loop 0 (msa_length msa)
          (fun i '(rs, cats, k) =>
             if negb (seq_at rs (refseq - 1) i =c? GAP_CHAR) then
               let rs := if k =? i then rs else copy_column (msa_nseqs msa) rs k i in
               (rs, copy_category cats k i, k + 1)
             else (rs, cats, k))
          (rs, msa_categories msa, 0) in
      Ok (set_length (set_categories (set_seqs msa (Some rs)) cats) k)
  end.

(** The scan of column [i] over the rows, with its two [break]s; [js] are
    the row indices still to visit. *)
Fixpoint strip_scan (js : list Z) (rs : list (list ascii))
    (gap_strip_mode i : Z) (strip : bool) : bool :=
  match js with
  | [] => strip
  | j :: js =>
      let c := seq_at rs j i in
      if (gap_strip_mode =? STRIP_ANY_GAPS) && (c =c? GAP_CHAR) then true
      else if (gap_strip_mode =? STRIP_ALL_GAPS) && negb (c =c? GAP_CHAR) then false
      else strip_scan js rs gap_strip_mode i strip
  end.

(** The body of the column loop of msa_strip_gaps at column [i]; the state
    is the matrix, the categories and the write index [k]. *)
Definition strip_gaps_column (nseqs gap_strip_mode i : Z)
    (st : list (list ascii) * option (list Z) * Z)
  : list (list ascii) * option (list Z) * Z :=
  let '(rs, cats, k) := st in
  let strip :=
    strip_scan (seqZ 0 nseqs) rs gap_strip_mode i
      (gap_strip_mode =? STRIP_ALL_GAPS) in
  if (k =? i) && negb strip then (rs, cats, k + 1)
  else if negb strip then
    (copy_column nseqs rs k i, copy_category cats k i, k + 1)
  else (rs, cats, k).

(** [void msa_strip_gaps(MSA *msa, int gap_strip_mode)]. *)
Definition msa_strip_gaps (msa : MSA) (gap_strip_mode : Z) : result MSA :=
  let msa :=
    match msa_seqs msa, msa_ss msa with
    | Some _, Some _ => set_ss msa None
    | _, _ => msa
    end in
  match msa_ss msa with
  | Some _ => Ok (ss_strip_gaps msa gap_strip_mode)
  | None =>
      if 0 <? gap_strip_mode then msa_project msa gap_strip_mode
      else
        do _ <- assert ((gap_strip_mode =? STRIP_ALL_GAPS)
                        || (gap_strip_mode =? STRIP_ANY_GAPS))
                  "gap_strip_mode == STRIP_ALL_GAPS || gap_strip_mode == STRIP_ANY_GAPS";
        if bool_decide (msa_seqs msa = None) && (0 <? msa_length msa)
           && (0 <? msa_nseqs msa)
        then Fatal "msa->seqs is NULL"
        else
          let '(rs, cats, k) :=
            for_loop 0 (msa_length msa)
              (strip_gaps_column (msa_nseqs msa) gap_strip_mode)
              (default [] (msa_seqs msa), msa_categories msa, 0) in
          Ok (set_length
                (set_categories (set_seqs msa (fmap (fun _ => rs) (msa_seqs msa))) cats)
                k)
  end.

End Transforms.

(** No gap in the first [k] columns of the rows in [0, nseqs). *)
Definition gap_free (nseqs : Z) (rs : list (list ascii)) (k : Z) : Prop :=
  forall c j, 0 <= c < k -> 0 <= j < nseqs -> seq_at rs j c <> GAP_CHAR.

(** ** Coordinate maps *)

(** The integer lists of lists.c, which is not among the sources:
    [lst_size], [lst_get_int] and [lst_push_int] are the length, the read
    and the append of a list. *)
Definition lst_size (l : list Z) : Z := Z.of_nat (List.length l).
Definition lst_get_int (l : list Z) (i : Z) : Z := get 0 l i.
Definition lst_push_int (l : list Z) (x : Z) : list Z := l ++ [x].

(** Modelled from the spec: lists.c is missing; lst_bsearch_int is the
    "binary search for the governing anchor" of section 4.2: on a list in
    ascending order it yields the index of the match or, without a match, of
    the element before the place of the value ([-1] before the first), which
    is what the callers in msa.c test for ("idx < 0", "prec_match").  [n]
    bounds the iterations by the width of the interval. *)
Fixpoint lst_bsearch_loop (n : nat) (lst : list Z) (val l r : Z) : Z :=
  match n with
  | O => l - 1
  | S n' =>
      if l <=? r then
        let m := Z.quot (l + r) 2 in
        let candidate := lst_get_int lst m in
        if val =? candidate then m
        else if val <? candidate then lst_bsearch_loop n' lst val l (m - 1)
        else lst_bsearch_loop n' lst val (m + 1) r
      else l - 1
  end.

Definition lst_bsearch_int (lst : list Z) (val : Z) : Z :=
  lst_bsearch_loop (List.length lst) lst val 0 (lst_size lst - 1).

(** A list of integers in strictly ascending order. *)
Definition increasing (l : list Z) : Prop :=
  forall a b, 0 <= a < b -> b < lst_size l -> lst_get_int l a < lst_get_int l b.

Record msa_coord_map : Type := {
  msa_list : list Z;
  seq_list : list Z;
  msa_len : Z;
  seq_len : Z
}.

(** The body of the scan of msa_build_coord_map at column [i], given the
    character [c] of the reference row there; the state is the two lists,
    [j] and [last_char_gap]. *)
Definition coord_map_column (c : ascii) (i : Z)
    (st : list Z * list Z * Z * bool) : list Z * list Z * Z * bool :=
  let '(msa_list, seq_list, j, last_char_gap) := st in
  if c =c? GAP_CHAR then (msa_list, seq_list, j, true)
  else
    let '(msa_list, seq_list) :=
      if last_char_gap
      then (lst_push_int msa_list (i + 1), lst_push_int seq_list (j + 1))
      else (msa_list, seq_list) in
    (msa_list, seq_list, j + 1, false).

(** What the scan of msa_build_coord_map has established after [i]
    columns: the anchors pair up, consecutive anchors are separated by at
    least one gap column, the first anchor is sequence position 1, and the
    run of the last anchor ends at or before column [i] (strictly before it
    when the last character seen was a gap). *)
Definition anchors_ok (i : Z) (st : list Z * list Z * Z * bool) : Prop :=
  let '(ml, sl, j, last) := st in
  lst_size ml = lst_size sl /\ 0 <= j /\
  (forall a, 0 <= a -> a + 1 < lst_size sl ->
     lst_get_int sl a < lst_get_int sl (a + 1) /\
     lst_get_int sl (a + 1) - lst_get_int sl a
       < lst_get_int ml (a + 1) - lst_get_int ml a) /\
  (lst_size sl = 0 -> j = 0 /\ last = true) /\
  (0 < lst_size sl ->
     let z := lst_size sl - 1 in
     lst_get_int sl 0 = 1 /\ 1 <= lst_get_int ml 0 /\
     lst_get_int sl z <= j /\
     lst_get_int ml z + (j - lst_get_int sl z) <= i /\
     (last = true -> lst_get_int ml z + (j - lst_get_int sl z) < i)).

Section CoordinateMaps.
Context {SS : SuffStats}.

(** [msa_coord_map* msa_build_coord_map(MSA *msa, int refseq)]. *)
Definition msa_build_coord_map (msa : MSA) (refseq : Z) : result msa_coord_map :=
  do _ <- assert (bool_decide (msa_seqs msa <> None)
                  || bool_decide (msa_ss msa <> None))
            "msa->seqs != NULL || msa->ss != NULL";
  let '(ml, sl, j, _) :=
    for_loop 0 (msa_length msa)
      (fun i st =>
         let c := match msa_seqs msa with
                  | Some rs => seq_at rs (refseq - 1) i
                  | None => ss_get_char_pos msa i (refseq - 1) 0
                  end in
         coord_map_column c i st)
      ([], [], 0, true) in
  Ok {| msa_list := ml; seq_list := sl; msa_len := msa_length msa; seq_len := j |}.

End CoordinateMaps.

(** [int msa_map_seq_to_msa(msa_coord_map *map, int seq_pos)]. *)
Definition msa_map_seq_to_msa (map : msa_coord_map) (seq_pos : Z) : result Z :=
  if (seq_pos <? 1) || (seq_len map <? seq_pos) then Ok (-1)
  else
    let idx := lst_bsearch_int (seq_list map) seq_pos in
    do _ <- assert ((0 <=? idx) && (idx <? lst_size (msa_list map)))
              "idx >= 0 && idx < lst_size(map->msa_list)";
    let prec_match_msa_pos := lst_get_int (msa_list map) idx in
    let prec_match_seq_pos := lst_get_int (seq_list map) idx in
    Ok (prec_match_msa_pos + (seq_pos - prec_match_seq_pos)).

(** [int msa_map_msa_to_seq(msa_coord_map *map, int msa_pos)]. *)
Definition msa_map_msa_to_seq (map : msa_coord_map) (msa_pos : Z) : result Z :=
  if (msa_pos <? 1) || (msa_len map <? msa_pos) then Ok (-1)
  else
    let idx := lst_bsearch_int (msa_list map) msa_pos in
    if idx <? 0 then Ok (-1)
    else
      do _ <- assert (idx <? lst_size (msa_list map))
                "idx < lst_size(map->msa_list)";
      let prec_match_msa_pos := lst_get_int (msa_list map) idx in
      let prec_match_seq_pos := lst_get_int (seq_list map) idx in
      let next_match_seq_pos :=
        if idx <? lst_size (seq_list map) - 1
        then lst_get_int (seq_list map) (idx + 1)
        else seq_len map + 1 in
      let seq_pos := prec_match_seq_pos + (msa_pos - prec_match_msa_pos) in
      let seq_pos :=
        if next_match_seq_pos <=? seq_pos then next_match_seq_pos - 1 else seq_pos in
      Ok seq_pos.

(** [int msa_map_seq_to_seq(from_map, to_map, coord)]; an absent map stands
    for the frame of the whole alignment. *)
Definition msa_map_seq_to_seq (from_map to_map : option msa_coord_map) (coord : Z)
  : result Z :=
  do msa_coord <- match from_map with
                  | None => Ok coord
                  | Some m => msa_map_seq_to_msa m coord
                  end;
  if msa_coord =? -1 then Ok (-1)
  else match to_map with
       | None => Ok msa_coord
       | Some m => msa_map_msa_to_seq m msa_coord
       end.

(** ** Category labelling *)

Record GFF_Feature : Type := {
  feat_feature : string;
  feat_start : Z;
  feat_end : Z;
  feat_strand : ascii;
  feat_frame : Z
}.

Record GFF_Set : Type := { features : list GFF_Feature }.

Record CategoryRange : Type := {
  feature_types : list string;
  start_cat_no : Z;
  end_cat_no : Z
}.

Record CategoryMap : Type := {
  ncats : Z;
  ranges : list CategoryRange;
  labelling_precedence : list Z
}.

(** The collaborator category_map.c, through what msa_label_categories
    uses of it: the category of a feature type and the name of the
    background type. *)
Class CategoryMaps : Type := {
  cm_get_category : CategoryMap -> string -> Z;
  BACKGD_CAT_NAME : string
}.

(** What msa_label_categories writes to stderr. *)
Inductive stderr_item : Type :=
| Warning (text : string)
| PrintedFeature (feat : GFF_Feature).

Definition set_ncats (m : MSA) (n : Z) : MSA :=
  {| msa_seqs := msa_seqs m; msa_names := msa_names m; msa_nseqs := msa_nseqs m;
     msa_length := msa_length m; msa_alloc_len := msa_alloc_len m;
     msa_categories := msa_categories m; msa_ncats := n;
     msa_ss := msa_ss m; msa_idx_offset := msa_idx_offset m;
     msa_alphabet := msa_alphabet m; msa_missing := msa_missing m;
     msa_inv_alphabet := msa_inv_alphabet m;
     msa_is_missing := msa_is_missing m |}.

Section Labelling.
Context {SS : SuffStats} {CM : CategoryMaps}.

(** The body of the feature loop of msa_label_categories: the categories
    array and the stderr output after feature [feat]. *)
Definition label_feature (cm : CategoryMap) (length : Z)
    (st : list Z * list stderr_item) (feat : GFF_Feature)
  : list Z * list stderr_item :=
  let '(categories, err) := st in
  let cat := cm_get_category cm (feat_feature feat) in
  if (cat =? 0) && negb (String.eqb (feat_feature feat) BACKGD_CAT_NAME)
  then (categories, err)
  else if (feat_start feat =? -1) || (feat_end feat =? -1)
          || (length <=? feat_end feat)
  then (categories,
        err ++ [Warning "WARNING: ignoring out-of-range feature"; PrintedFeature feat])
  else
    let range := get {| feature_types := []; start_cat_no := 0; end_cat_no := 0 |}
                   (ranges cm) cat in
    if start_cat_no range =? end_cat_no range then
      (for_loop (feat_start feat) (feat_end feat + 1)
         (fun j categories =>
            let oldprec :=
              lst_get_int (labelling_precedence cm) (lst_get_int categories (j - 1)) in
            let newprec := lst_get_int (labelling_precedence cm) cat in
            if (oldprec =? -1) || (negb (newprec =? -1) && (newprec <? oldprec))
            then set categories (j - 1) cat
            else categories)
         categories, err)
    else
      let range_size := end_cat_no range - start_cat_no range + 1 in
      let frm := if (feat_frame feat <? 0) || (2 <? feat_frame feat)
                 then 0 else feat_frame feat in
      (for_loop (feat_start feat) (feat_end feat + 1)
         (fun j categories =>
            let offset := if feat_strand feat =c? "-"
                          then feat_end feat - j else j - feat_start feat in
            let thiscat := start_cat_no range + Z.rem (offset + frm) range_size in
            let oldprec :=
              lst_get_int (labelling_precedence cm) (lst_get_int categories (j - 1)) in
            let thisprec := lst_get_int (labelling_precedence cm) thiscat in
            if (oldprec =? -1) || (negb (thisprec =? -1) && (thisprec <? oldprec))
            then set categories (j - 1) thiscat
            else categories)
         categories, err).

(** [void msa_label_categories(MSA *msa, GFF_Set *gff, CategoryMap *cm)];
    a categories array allocated here has [length] cells, all of which the
    initialisation loop overwrites. *)
Definition msa_label_categories (msa : MSA) (gff : GFF_Set) (cm : CategoryMap)
  : MSA * list stderr_item :=
  let categories :=
    match msa_categories msa with
    | Some c => c
    | None => replicate (Z.to_nat (msa_length msa)) 0
    end in
  let msa := set_ncats (set_categories msa (Some categories)) (ncats cm) in
  let categories :=
    for_loop 0 (msa_length msa) (fun i categories => set categories i 0) categories in
  let '(categories, err) :=
    foldl (label_feature cm (msa_length msa)) (categories, []) (features gff) in
  let msa := set_categories msa (Some categories) in
  let msa :=
    match msa_ss msa with
    | Some _ => set_ss msa (Some (ss_update_categories msa))
    | None => msa
    end in
  (msa, err).

(** [msa->categories[x]] of a labelled alignment. *)
Definition category_at (msa : MSA) (x : Z) : Z :=
  lst_get_int (default [] (msa_categories msa)) x.

Definition precedence (cm : CategoryMap) (cat : Z) : Z :=
  lst_get_int (labelling_precedence cm) cat.

(** A feature that msa_label_categories labels column [col] (1-based) with,
    precedence permitting: its type is known (or is the background type), its
    category is not cyclic and has a precedence, and it covers [col] without
    reaching the last column of an alignment of [length] columns. *)
Definition covers_noncyclic (cm : CategoryMap) (length : Z) (feat : GFF_Feature)
    (col : Z) : bool :=
  let cat := cm_get_category cm (feat_feature feat) in
  let range := get {| feature_types := []; start_cat_no := 0; end_cat_no := 0 |}
                 (ranges cm) cat in
  (negb (cat =? 0) || String.eqb (feat_feature feat) BACKGD_CAT_NAME)
  && (start_cat_no range =? end_cat_no range)
  && negb (precedence cm cat =? -1)
  && (1 <=? feat_start feat) && (feat_start feat <=? col)
  && (col <=? feat_end feat) && (feat_end feat <? length).

(** A categories array, if the alignment has one, has a cell for every
    column. *)
Definition categories_fit (msa : MSA) : bool :=
  match msa_categories msa with
  | Some c => msa_length msa <=? Z.of_nat (List.length c)
  | None => true
  end.

End Labelling.

(** Modelled from the spec: category_map.c is missing; the category map
    "converts feature-type names to integer category ids" (section 6), here
    by the first range that lists the type, and 0 for a type listed nowhere
    (section 4.3: features whose type is unknown are skipped unless it is the
    background type). *)
Definition cm_by_feature_types : CategoryMaps :=
  {| cm_get_category := fun cm type =>
       for_loop 0 (ncats cm + 1)
         (fun i found =>
            if (found =? 0)
               && bool_decide (type ∈ feature_types
                    (get {| feature_types := []; start_cat_no := 0; end_cat_no := 0 |}
                       (ranges cm) i))
            then i else found)
         0;
     BACKGD_CAT_NAME := "background" |}.

(** ** Row reordering *)

Definition set_names (m : MSA) (n : list string) : MSA :=
  {| msa_seqs := msa_seqs m; msa_names := n; msa_nseqs := msa_nseqs m;
     msa_length := msa_length m; msa_alloc_len := msa_alloc_len m;
     msa_categories := msa_categories m; msa_ncats := msa_ncats m;
     msa_ss := msa_ss m; msa_idx_offset := msa_idx_offset m;
     msa_alphabet := msa_alphabet m; msa_missing := msa_missing m;
     msa_inv_alphabet := msa_inv_alphabet m;
     msa_is_missing := msa_is_missing m |}.

Definition set_nseqs (m : MSA) (n : Z) : MSA :=
  {| msa_seqs := msa_seqs m; msa_names := msa_names m; msa_nseqs := n;
     msa_length := msa_length m; msa_alloc_len := msa_alloc_len m;
     msa_categories := msa_categories m; msa_ncats := msa_ncats m;
     msa_ss := msa_ss m; msa_idx_offset := msa_idx_offset m;
     msa_alphabet := msa_alphabet m; msa_missing := msa_missing m;
     msa_inv_alphabet := msa_inv_alphabet m;
     msa_is_missing := msa_is_missing m |}.

(** [for (i = lo; i < hi; i++)] with a body that can stop the process. *)
Definition for_loop_r {S} (lo hi : Z) (body : Z -> S -> result S) (s : S) : result S :=
  foldl (fun r i => bind r (body i)) (Ok s) (seqZ lo (hi - lo)).

(** [int msa_get_seq_idx(MSA *msa, char *name)]; the loop condition
    [retval < 0] makes every iteration after the first match a no-op. *)
Definition msa_get_seq_idx (msa : MSA) (name : string) : Z :=
  for_loop 0 (msa_nseqs msa)
    (fun i retval =>
       if retval <? 0
       then if String.eqb name (get EmptyString (msa_names msa) i) then i else retval
       else retval)
    (-1).

(** [msa->missing[0]]. *)
Definition missing0 (msa : MSA) : ascii :=
  getc (list_ascii_of_string (msa_missing msa)) 0.

(** The body of the first loop of msa_reorder_rows at target index [i]; the
    state is [new_to_old] and [covered]. *)
Definition reorder_scan (msa : MSA) (target_order : list string) (i : Z)
    (st : list Z * list Z) : result (list Z * list Z) :=
  let '(new_to_old, covered) := st in
  let idx := msa_get_seq_idx msa (get EmptyString target_order i) in
  let new_to_old := set new_to_old i idx in
  if 0 <=? idx then
    do _ <- assert (lst_get_int covered idx =? 0) "covered[new_to_old[i]] == 0";
    Ok (new_to_old, set covered idx 1)
  else Ok (new_to_old, covered).

(** The body of the loop that looks for a row left out. *)
Definition reorder_check (msa : MSA) (covered : list Z) (i : Z) (_ : unit)
  : result unit :=
  if lst_get_int covered i =? 0
  then Fatal ("ERROR (msa_reorder_rows): name '"
              ++ get EmptyString (msa_names msa) i
              ++ "' missing from reorder list.")
  else Ok tt.

(** The row of missing data that stands for a name the alignment lacks. *)
Definition missing_row (msa : MSA) : list ascii :=
  replicate (Z.to_nat (msa_length msa)) (missing0 msa) ++ [Chr.NUL].

Section Reordering.
Context {SS : SuffStats}.

(** [void msa_reorder_rows(MSA *msa, List *target_order)]. *)
Definition msa_reorder_rows (msa : MSA) (target_order : list string) : result MSA :=
  let n := Z.of_nat (List.length target_order) in
  let covered := replicate (Z.to_nat (msa_nseqs msa)) 0 in
  do st <- for_loop_r 0 n (reorder_scan msa target_order)
             (replicate (List.length target_order) 0, covered);
  let '(new_to_old, covered) := st in
  do _ <- for_loop_r 0 (msa_nseqs msa) (reorder_check msa covered) tt;
  let msa :=
    match msa_seqs msa, msa_ss msa with
    | Some _, Some _ => set_ss msa None
    | _, _ => msa
    end in
  let new_names :=
    for_loop 0 n
      (fun i new_names =>
         set new_names i
           (if 0 <=? lst_get_int new_to_old i
            then get EmptyString (msa_names msa) (lst_get_int new_to_old i)
            else get EmptyString target_order i))
      (replicate (List.length target_order) EmptyString) in
  let msa := set_names msa new_names in
  do msa <- match msa_seqs msa with
            | Some rs =>
                let new_seqs :=
                  for_loop 0 n
                    (fun i new_seqs =>
                       set new_seqs i
                         (if 0 <=? lst_get_int new_to_old i
                          then get [] rs (lst_get_int new_to_old i)
                          else missing_row msa))
                    (replicate (List.length target_order) []) in
                Ok (set_seqs msa (Some new_seqs))
            | None =>
                do _ <- assert (bool_decide (msa_ss msa <> None)) "msa->ss != NULL";
                Ok (set_ss msa (Some (ss_reorder_rows msa new_to_old n)))
            end;
  Ok (set_nseqs msa n).

End Reordering.

(** ** Concatenation *)

Definition set_alloc_len (m : MSA) (n : Z) : MSA :=
  {| msa_seqs := msa_seqs m; msa_names := msa_names m; msa_nseqs := msa_nseqs m;
     msa_length := msa_length m; msa_alloc_len := n;
     msa_categories := msa_categories m; msa_ncats := msa_ncats m;
     msa_ss := msa_ss m; msa_idx_offset := msa_idx_offset m;
     msa_alphabet := msa_alphabet m; msa_missing := msa_missing m;
     msa_inv_alphabet := msa_inv_alphabet m;
     msa_is_missing := msa_is_missing m |}.

(** Alignments live in a store and are passed by address, so that a call
    can be asked what it did to each of its two arguments. *)
Abbreviation heap := (gmap nat MSA).

(** Representation invariant that msa_concatenate relies on: the row
    buffers have room for [alloc_len] characters and the terminator, and the
    alignment fits in them ([msa_new] sets [alloc_len] to [length]). *)
Definition alloc_wf (m : MSA) : bool :=
  (msa_length m <=? msa_alloc_len m)
  && forallb (fun r => msa_alloc_len m + 1 <=? Z.of_nat (List.length r))
       (default [] (msa_seqs m)).

Section Concatenation.
(** What a cell handed out by [smalloc] or [srealloc] holds before it is
    written. *)
Variable uninit : ascii.

Definition smalloc_chars (n : Z) : list ascii := replicate (Z.to_nat n) uninit.

Definition srealloc_chars (buf : list ascii) (n : Z) : list ascii :=
  take (Z.to_nat n) buf ++ replicate (Z.to_nat n - List.length buf) uninit.

(** The allocation part of msa_concatenate, for a source of [src_length]
    columns. *)
Definition concatenate_alloc (aggregate_msa : MSA) (src_length : Z) : MSA :=
  let aggregate_msa :=
    match msa_seqs aggregate_msa with
    | None =>
        set_alloc_len
          (set_seqs aggregate_msa
             (Some (replicate (Z.to_nat (msa_nseqs aggregate_msa)) [])))
          0
    | Some _ => aggregate_msa
    end in
  let rs := default [] (msa_seqs aggregate_msa) in
  if msa_alloc_len aggregate_msa =? 0 then
    let alloc_len := msa_length aggregate_msa + src_length in
    set_seqs (set_alloc_len aggregate_msa alloc_len)
      (Some (for_loop 0 (msa_nseqs aggregate_msa)
               (fun j rs => set rs j (smalloc_chars (alloc_len + 1))) rs))
  else if msa_alloc_len aggregate_msa <? msa_length aggregate_msa + src_length then
    let alloc_len := msa_alloc_len aggregate_msa + src_length * 2 in
    set_seqs (set_alloc_len aggregate_msa alloc_len)
      (Some (for_loop 0 (msa_nseqs aggregate_msa)
               (fun j rs => set rs j (srealloc_chars (get [] rs j) (alloc_len + 1))) rs))
  else aggregate_msa.

(** The copy loops and the update of the length.  [aliased] tells whether
    the two pointers are one: the source is then the aggregate as it
    currently stands. *)
Definition concatenate_copy (aliased : bool) (aggregate_msa source_msa : MSA) : MSA :=
  let src_length := msa_length (if aliased then aggregate_msa else source_msa) in
  let rs :=
    for_loop 0 src_length
      (fun i rs =>
         for_loop 0 (msa_nseqs aggregate_msa)
           (fun j rs =>
              let src_rs := if aliased then rs
                            else default [] (msa_seqs source_msa) in
              set rs j (set (get [] rs j) (i + msa_length aggregate_msa)
                          (seq_at src_rs j i)))
           rs)
      (default [] (msa_seqs aggregate_msa)) in
  let length := msa_length aggregate_msa + src_length in
  let rs :=
    for_loop 0 (msa_nseqs aggregate_msa)
      (fun j rs => set rs j (set (get [] rs j) length Chr.NUL)) rs in
  set_length (set_seqs aggregate_msa (Some rs)) length.

(** [void msa_concatenate(MSA *aggregate_msa, MSA *source_msa)]. *)
Definition msa_concatenate (aggregate_msa source_msa : nat) (h : heap)
  : result heap :=
  match h !! aggregate_msa, h !! source_msa with
  | Some agg, Some src =>
      do _ <- assert (msa_nseqs agg =? msa_nseqs src)
                "aggregate_msa->nseqs == source_msa->nseqs";
      let aliased := bool_decide (aggregate_msa = source_msa) in
      let agg := concatenate_alloc agg (msa_length src) in
      if negb aliased && bool_decide (msa_seqs src = None) && (0 <? msa_length src)
         && (0 <? msa_nseqs agg)
      then Fatal "source_msa->seqs is NULL"
      else Ok (<[aggregate_msa := concatenate_copy aliased agg src]> h)
  | _, _ => Fatal "invalid pointer"
  end.

End Concatenation.

(** ** Coding-sequence cleaning *)

Definition KEEP_STOP_CODONS : bool := false.

Definition IS_START (seq : list ascii) (i : Z) : bool :=
  (Chr.toupper (getc seq i) =c? "A")
  && (Chr.toupper (getc seq (i + 1)) =c? "T")
  && (Chr.toupper (getc seq (i + 2)) =c? "G").

Definition IS_STOP (seq : list ascii) (i : Z) : bool :=
  (Chr.toupper (getc seq i) =c? "T")
  && (((Chr.toupper (getc seq (i + 1)) =c? "A")
       && ((Chr.toupper (getc seq (i + 2)) =c? "A")
           || (Chr.toupper (getc seq (i + 2)) =c? "G")))
      || ((Chr.toupper (getc seq (i + 1)) =c? "G")
          && (Chr.toupper (getc seq (i + 2)) =c? "A"))).

(** The strings of stringsplus.c that msa_coding_clean appends to. *)
Definition str_append_charstr (s : string) (charstr : string) : string :=
  (s ++ charstr)%string.
Definition str_append_int (s : string) (i : Z) : string :=
  (s ++ NilZero.string_of_int (Z.to_int i))%string.

(** The locals [beg], [end] and [tmp_codon] are read on some paths before
    anything was assigned to them; what they hold then is indeterminate and
    is an input of the model. *)
Record indeterminate : Type := {
  indet_beg : Z;
  indet_end : Z;
  indet_tmp_codon : ascii * ascii * ascii
}.

(** [for (; i < length && ref[i] == GAP_CHAR; i++);], at most [n] steps. *)
Fixpoint skip_gaps_fwd (n : nat) (ref : list ascii) (length i : Z) : Z :=
  match n with
  | O => i
  | S n' =>
      if (i <? length) && (getc ref i =c? GAP_CHAR)
      then skip_gaps_fwd n' ref length (i + 1)
      else i
  end.

(** The loop that looks for the start codon, over the remaining values
    [poss] of [pos]; the state is [i], [beg] and [tmp_codon]. *)
Fixpoint find_start (poss : list Z) (ref : list ascii) (length : Z)
    (st : Z * Z * list ascii) : Z * Z * list ascii :=
  match poss with
  | [] => st
  | pos :: poss =>
      let '(i, beg, tmp_codon) := st in
      let i := skip_gaps_fwd (Z.to_nat (length - i)) ref length i in
      if i =? length then (i, beg, tmp_codon)
      else
        let beg := if pos =? 0 then i else beg in
        let tmp_codon := set tmp_codon pos (getc ref i) in
        find_start poss ref length (i + 1, beg, tmp_codon)
  end.

(** [for (; i > beg && ref[i] == GAP_CHAR; i--);], at most [n] steps. *)
Fixpoint skip_gaps_bwd (n : nat) (ref : list ascii) (beg i : Z) : Z :=
  match n with
  | O => i
  | S n' =>
      if (beg <? i) && (getc ref i =c? GAP_CHAR)
      then skip_gaps_bwd n' ref beg (i - 1)
      else i
  end.

(** The loop that looks for the stop codon; the state is [i], [end] and
    [tmp_codon]. *)
Fixpoint find_stop (poss : list Z) (ref : list ascii) (beg : Z)
    (st : Z * Z * list ascii) : Z * Z * list ascii :=
  match poss with
  | [] => st
  | pos :: poss =>
      let '(i, end_, tmp_codon) := st in
      let i := skip_gaps_bwd (Z.to_nat (i - beg)) ref beg i in
      if i =? beg then (i, end_, tmp_codon)
      else
        let end_ := if ((pos =? 2) && KEEP_STOP_CODONS) || (pos =? -1)
                    then i else end_ in
        let '(tmp_codon, i) :=
          if 0 <=? pos then (set tmp_codon pos (getc ref i), i - 1)
          else (tmp_codon, i) in
        find_stop poss ref beg (i, end_, tmp_codon)
  end.

(** [for (j = 0; j < nseqs && p(j); j++);]: the value of [j] after it. *)
Fixpoint scan_rows (n : nat) (p : Z -> bool) (nseqs j : Z) : Z :=
  match n with
  | O => j
  | S n' => if (j <? nseqs) && p j then scan_rows n' p nseqs (j + 1) else j
  end.

Definition all_rows (p : Z -> bool) (nseqs : Z) : bool :=
  scan_rows (Z.to_nat nseqs) p nseqs 0 =? nseqs.

(** The gap count of column [i]; the state is [ngaps] and
    [gapless_codon_col]. *)
Definition count_gaps (rs : list (list ascii)) (nseqs i : Z)
    (st : list Z * bool) : list Z * bool :=
  for_loop 0 nseqs
    (fun j '(ngaps, gapless_codon_col) =>
       if seq_at rs j i =c? GAP_CHAR
       then (set ngaps j (lst_get_int ngaps j + 1), false)
       else (ngaps, gapless_codon_col))
    st.

(** The inner [while (i <= end)] that finds the next gapless column of
    codons; the state is [i], [frame], [gapless_codon_col] and [ngaps].  It
    is left by [break] with [i <= end] or by its condition with [i > end]. *)
Fixpoint next_codon_column (n : nat) (rs : list (list ascii)) (nseqs : Z)
    (ref : list ascii) (end_ : Z) (st : Z * Z * bool * list Z)
  : Z * Z * bool * list Z :=
  match n with
  | O => st
  | S n' =>
      let '(i, frame, gapless_codon_col, ngaps) := st in
      if i <=? end_ then
        let '(ngaps, gapless_codon_col) :=
          count_gaps rs nseqs i (ngaps, gapless_codon_col) in
        if gapless_codon_col && (frame =? 2)
        then (i, frame, gapless_codon_col, ngaps)
        else
          let i := i + 1 in
          let '(frame, gapless_codon_col) :=
            if negb (getc ref i =c? GAP_CHAR) then
              let frame := frame + 1 in
              if frame =? 3 then (0, true) else (frame, gapless_codon_col)
            else (frame, gapless_codon_col) in
          next_codon_column n' rs nseqs ref end_ (i, frame, gapless_codon_col, ngaps)
      else st
  end.

(** [for (; i <= end; i++)] up to the next column with a gap. *)
Fixpoint next_gap_column (n : nat) (rs : list (list ascii)) (nseqs end_ i : Z) : Z :=
  match n with
  | O => i
  | S n' =>
      if i <=? end_ then
        if all_rows (fun j => negb (seq_at rs j i =c? GAP_CHAR)) nseqs
        then next_gap_column n' rs nseqs end_ (i + 1)
        else i
      else i
  end.

(** The row loop of the stop-codon check at codon [j]; the state is
    [trunc] and [blk_end]. *)
Definition stop_in_codon (rs : list (list ascii)) (nseqs j : Z) (st : Z * Z) : Z * Z :=
  for_loop 0 nseqs
    (fun k '(trunc, blk_end) =>
       if (trunc =? 0) && IS_STOP (get [] rs k) j then
         let v := if KEEP_STOP_CODONS then j + 2 else j - 1 in (v, v)
       else (trunc, blk_end))
    st.

(** The codon loop of the stop-codon check, from codon [j] on. *)
Fixpoint find_inframe_stop (n : nat) (rs : list (list ascii)) (nseqs end_ j : Z)
    (st : Z * Z) : Z * Z :=
  match n with
  | O => st
  | S n' =>
      let '(trunc, blk_end) := st in
      if (j <=? blk_end - 2) && (trunc =? 0) then
        if KEEP_STOP_CODONS && (j =? end_ - 2) then st
        else find_inframe_stop n' rs nseqs end_ (j + 3) (stop_in_codon rs nseqs j st)
      else st
  end.

(** The variables the block loop carries from one iteration to the next. *)
Record clean_state : Type := {
  cs_i : Z;
  cs_frame : Z;
  cs_ngaps : list Z;
  cs_block_begs : list Z;
  cs_block_ends : list Z;
  cs_trunc : Z
}.

(** How an iteration of the block loop ends. *)
Inductive loop_exit : Type := Break | Continue.

(** One iteration of the block loop [while (i <= end && retval != 1)]. *)
Definition clean_block (rs : list (list ascii)) (nseqs : Z) (ref : list ascii)
    (refseq min_ncodons beg end_ : Z) (s : clean_state)
  : result (loop_exit * clean_state) :=
  do _ <- assert ((cs_frame s =? 0) || (getc ref (cs_i s) =c? GAP_CHAR))
            "frame == 0 || ref[i] == GAP_CHAR";
  let '(i, frame, _, ngaps) :=
    next_codon_column (Z.to_nat (end_ - cs_i s + 1)) rs nseqs ref end_
      (cs_i s, cs_frame s, true, cs_ngaps s) in
  if end_ <? i then
    Ok (Break, {| cs_i := i; cs_frame := frame; cs_ngaps := ngaps;
                  cs_block_begs := cs_block_begs s;
                  cs_block_ends := cs_block_ends s; cs_trunc := cs_trunc s |})
  else
    do _ <- assert (frame =? 2) "frame == 2";
    let blk_beg := i - 2 in
    let i := next_gap_column (Z.to_nat (end_ - i)) rs nseqs end_ (i + 1) in
    let blk_size := Z.quot (i - blk_beg) 3 in
    let blk_end := blk_beg + blk_size * 3 - 1 in
    let i := blk_end + 1 in
    let frame := if negb (getc ref i =c? GAP_CHAR) then 0 else 2 in
    let s' := {| cs_i := i; cs_frame := frame; cs_ngaps := ngaps;
                 cs_block_begs := cs_block_begs s;
                 cs_block_ends := cs_block_ends s; cs_trunc := cs_trunc s |} in
    if min_ncodons <=? blk_size then
      if (blk_beg =? beg)
         && negb (all_rows (fun j => IS_START (get [] rs j) blk_beg) nseqs)
      then Ok (Continue, s')
      else if (blk_end =? end_) && KEEP_STOP_CODONS
              && negb (all_rows (fun j => IS_STOP (get [] rs j) (blk_end - 2)) nseqs)
      then Ok (Continue, s')
      else
        let trunc :=
          if (0 <? lst_size (cs_block_begs s))
             && negb (all_rows
                        (fun j => Z.rem (lst_get_int ngaps j) 3
                                  =? Z.rem (lst_get_int ngaps refseq) 3)
                        nseqs)
          then lst_get_int (cs_block_ends s) (lst_size (cs_block_ends s) - 1) + 1
          else cs_trunc s in
        let '(trunc, blk_end) :=
          find_inframe_stop (Z.to_nat (blk_end - blk_beg + 1)) rs nseqs end_ blk_beg
            (trunc, blk_end) in
        let '(block_begs, block_ends) :=
          if (trunc =? 0) || (blk_beg <? trunc)
          then (lst_push_int (cs_block_begs s) blk_beg,
                lst_push_int (cs_block_ends s) blk_end)
          else (cs_block_begs s, cs_block_ends s) in
        if negb (trunc =? 0) then
          Ok (Break, {| cs_i := i; cs_frame := frame; cs_ngaps := ngaps;
                        cs_block_begs := block_begs; cs_block_ends := block_ends;
                        cs_trunc := trunc |})
        else
          Ok (Continue,
              {| cs_i := i; cs_frame := frame;
                 cs_ngaps := for_loop 0 nseqs (fun j ngaps => set ngaps j 0) ngaps;
                 cs_block_begs := block_begs; cs_block_ends := block_ends;
                 cs_trunc := trunc |})
    else Ok (Continue, s').

(** The block loop; [None] when [fuel] iterations did not end it. *)
Fixpoint clean_blocks (fuel : nat) (rs : list (list ascii)) (nseqs : Z)
    (ref : list ascii) (refseq min_ncodons beg end_ retval : Z) (s : clean_state)
  : option (result clean_state) :=
  if (cs_i s <=? end_) && negb (retval =? 1) then
    match fuel with
    | O => None
    | S fuel' =>
        match clean_block rs nseqs ref refseq min_ncodons beg end_ s with
        | Fatal msg => Some (Fatal msg)
        | Ok (Break, s') => Some (Ok s')
        | Ok (Continue, s') =>
            clean_blocks fuel' rs nseqs ref refseq min_ncodons beg end_ retval s'
        end
    end
  else Some (Ok s).

(** The loop that overwrites the alignment with the retained blocks; the
    state is the matrix and the write index [i]. *)
Definition keep_blocks (rs : list (list ascii)) (nseqs : Z)
    (block_begs block_ends : list Z) : result (list (list ascii) * Z) :=
  for_loop_r 0 (lst_size block_begs)
    (fun j '(rs, i) =>
       let blk_beg := lst_get_int block_begs j in
       let blk_end := lst_get_int block_ends j in
       do _ <- assert (Z.rem (blk_end - blk_beg + 1) 3 =? 0)
                 "(blk_end - blk_beg + 1) % 3 == 0";
       Ok (for_loop blk_beg (blk_end + 1)
             (fun k '(rs, i) => (copy_column nseqs rs i k, i + 1))
             (rs, i)))
    (rs, 0).

(** The characters other than gaps in columns [i .. length - 1] of a row,
    in order; and whether the first three of them in the whole row are a
    start codon in the sense of [IS_START]. *)
Definition nongap_from (ref : list ascii) (length i : Z) : list ascii :=
  List.filter (fun c => negb (c =c? GAP_CHAR))
    (List.map (getc ref) (seqZ i (length - i))).

Definition begins_with_start_codon (ref : list ascii) (length : Z) : bool :=
  match nongap_from ref length 0 with
  | a :: b :: c :: _ => IS_START [a; b; c] 0
  | _ => false
  end.

Section CodingClean.
(** The comparison [trunc < beg + (end - beg + 1) * 0.8] is made in double
    precision; its outcome for [trunc], [beg] and [end] is an input of the
    model. *)
Variable before_last_fifth : Z -> Z -> Z -> bool.

(** [int msa_coding_clean(MSA *msa, int refseq, int min_ncodons, String
    *errstr)]: the return value, the alignment and the error string after the
    call; [None] if the block loop did not end. *)
Definition msa_coding_clean (u : indeterminate) (msa : MSA)
    (refseq min_ncodons : Z) (errstr : string)
  : option (result (Z * MSA * string)) :=
  match msa_seqs msa with
  | None => Some (Fatal "msa->seqs is NULL")
  | Some rs =>
      let ref := get [] rs refseq in
      let nseqs := msa_nseqs msa in
      let retval := 0 in
      let '(c0, c1, c2) := indet_tmp_codon u in
      let '(i, beg, tmp_codon) :=
        find_start [0; 1; 2] ref (msa_length msa) (0, indet_beg u, [c0; c1; c2]) in
      let '(errstr, retval) :=
        if (i =? msa_length msa) || negb (IS_START tmp_codon 0)
        then (str_append_charstr errstr
                "Reference sequence does not begin with start codon.  ", 1)
        else (errstr, retval) in
      let i := msa_length msa - 1 in
      let '(i, end_, tmp_codon) :=
        find_stop (if KEEP_STOP_CODONS then [2; 1; 0] else [2; 1; 0; -1]) ref beg
          (i, indet_end u, tmp_codon) in
      let '(errstr, retval) :=
        if (i =? beg) || negb (IS_STOP tmp_codon 0)
        then (str_append_charstr errstr
                "Reference sequence does not end with stop codon.", 1)
        else (errstr, retval) in
      let ngaps := replicate (Z.to_nat nseqs) 0 in
      match clean_blocks (Z.to_nat (end_ - beg + 1)) rs nseqs ref refseq min_ncodons
              beg end_ retval
              {| cs_i := beg; cs_frame := 0; cs_ngaps := ngaps;
                 cs_block_begs := []; cs_block_ends := []; cs_trunc := 0 |} with
      | None => None
      | Some (Fatal msg) => Some (Fatal msg)
      | Some (Ok s) =>
          let trunc := cs_trunc s in
          let '(errstr, retval) :=
            if negb (retval =? 1) && (lst_size (cs_block_begs s) =? 0)
            then (str_append_charstr errstr "Nothing left after cleaning.", 1)
            else (errstr, retval) in
          let '(errstr, retval) :=
            if negb (trunc =? 0) && before_last_fifth trunc beg end_
            then (str_append_charstr
                    (str_append_int
                       (str_append_charstr errstr
                          "In-frame stop codon or frame shift not in last 20% of alignment.  See approx. position ")
                       (trunc + 1))
                    ".", 1)
            else (errstr, retval) in
          if negb (retval =? 1) then
            match keep_blocks rs nseqs (cs_block_begs s) (cs_block_ends s) with
            | Fatal msg => Some (Fatal msg)
            | Ok (rs, i) =>
                if Z.rem i 3 =? 0 then
                  let rs :=
                    for_loop 0 nseqs
                      (fun l rs => set rs l (set (get [] rs l) i Chr.NUL)) rs in
                  Some (Ok (retval, set_length (set_seqs msa (Some rs)) i, errstr))
                else Some (Fatal "msa->length % 3 == 0")
            end
          else Some (Ok (retval, msa, errstr))
      end
  end.

End CodingClean.

(** ** Characters read from a file *)

(** [int msa_alph_has_lowercase(MSA *msa)]. *)
Definition msa_alph_has_lowercase (msa : MSA) : bool :=
  existsb (fun a => (Chr.code "a" <=? Chr.code a) && (Chr.code a <=? Chr.code "z"))
    (list_ascii_of_string (msa_alphabet msa)).

(** What the PHYLIP/MPM loop of msa_new_from_file does with the character
    [c] of a line: nothing ([None], white space), or the character it stores
    in the row, or [die]. *)
Definition new_from_file_char (msa : MSA) (do_toupper : bool) (c : ascii)
  : result (option ascii) :=
  if Chr.isspace c then Ok None
  else
    let base := if do_toupper then Chr.toupper c else c in
    if (base =c? ".") && (msa_inv_alphabet msa "." =? -1)
    then Ok (Some (missing0 msa))
    else if negb (base =c? GAP_CHAR) && (msa_is_missing msa base =? 0)
            && (msa_inv_alphabet msa base =? -1)
    then
      if Chr.isalpha base then Ok (Some "N"%char)
      else Fatal ("ERROR: bad character in multiple sequence alignment: '"
                  ++ String base "'.")
    else Ok (Some base).

(** The loop over one line read by [fgets]; the state is the row being
    filled and the write index [j]. *)
Definition new_from_file_line (msa : MSA) (do_toupper : bool) (line : list ascii)
    (st : list ascii * Z) : result (list ascii * Z) :=
  foldl
    (fun r c =>
       do st <- r;
       do stored <- new_from_file_char msa do_toupper c;
       match stored with
       | None => Ok st
       | Some base => Ok (set st.1 st.2 base, st.2 + 1)
       end)
    (Ok st) line.

(** What the scan "scan chars and adjust if necessary" of msa_read_fasta
    stores for the character [c] of a sequence. *)
Definition read_fasta_char (msa : MSA) (do_toupper : bool) (c : ascii) : ascii :=
  let c := if do_toupper then Chr.toupper c else c in
  let c := if (c =c? ".") && (msa_inv_alphabet msa "." =? -1)
           then missing0 msa else c in
  if Chr.isalpha c && (msa_inv_alphabet msa c =? -1) then "N"%char else c.

(** The row that msa_read_fasta builds from the padded sequence [s]. *)
Definition read_fasta_row (msa : MSA) (s : list ascii) (maxlen : Z) : list ascii :=
  let do_toupper := negb (msa_alph_has_lowercase msa) in
  for_loop 0 maxlen
    (fun j row => set row j (read_fasta_char msa do_toupper (getc s j)))
    (replicate (Z.to_nat maxlen) Chr.NUL)
  ++ [Chr.NUL].

(** A C string as the buffer that holds it. *)
Definition cstr (s : string) : list ascii := list_ascii_of_string s ++ [Chr.NUL].

(** An instance for alignments that carry no sufficient statistics, on
    which none of the collaborator's operations is reached; it serves to
    run the transforms on concrete explicit alignments. *)
Definition ss_absent : SuffStats :=
  {| ss_to_msa := fun _ => [];
     ss_from_msas := fun _ t _ => {| tuple_size := t; tuple_idx := None; ss_payload := [] |};
     ss_reverse_compl := fun _ => {| tuple_size := 1; tuple_idx := None; ss_payload := [] |};
     ss_strip_gaps := fun m _ => m;
     ss_update_categories := fun _ => {| tuple_size := 1; tuple_idx := None; ss_payload := [] |};
     ss_reorder_rows := fun _ _ _ => {| tuple_size := 1; tuple_idx := None; ss_payload := [] |};
     ss_get_char_pos := fun _ _ _ _ => Chr.NUL |}.

(** [msa_new(seqs, names, nseqs, length, alphabet)] with the tables built
    from the alphabet and from DEFAULT_MDATA_CHARS. *)
Definition msa_new (seqs : option (list (list ascii))) (names : list string)
    (nseqs length : Z) (alphabet : option string) : MSA :=
  let alph := default DEFAULT_ALPHABET alphabet in
  let inv :=
    for_loop 0 (Z.of_nat (String.length alph))
      (fun i (inv : ascii -> Z) =>
         let a := getc (list_ascii_of_string alph) i in
         fun c => if c =c? a then i else inv c)
      (fun _ => -1) in
  let mis :=
    for_loop 0 (Z.of_nat (String.length DEFAULT_MDATA_CHARS))
      (fun i (mis : ascii -> Z) =>
         let a := getc (list_ascii_of_string DEFAULT_MDATA_CHARS) i in
         fun c => if c =c? a then 1 else mis c)
      (fun _ => 0) in
  {| msa_seqs := seqs; msa_names := names; msa_nseqs := nseqs;
     msa_length := length; msa_alloc_len := length;
     msa_categories := None; msa_ncats := -1; msa_ss := None;
     msa_idx_offset := 0; msa_alphabet := alph;
     msa_missing := DEFAULT_MDATA_CHARS;
     msa_inv_alphabet := inv; msa_is_missing := mis |}.

(** ** Concrete inputs *)

(** The one-row alignment ATGAAATAA of the specification's coding example. *)
Definition atg_aaa_taa : MSA :=
  msa_new (Some [cstr "ATGAAATAA"]) ["ref"%string] 1 9 None.

(** Some values for the locals of msa_coding_clean that start out
    indeterminate. *)
Definition indet_zero : indeterminate :=
  {| indet_beg := 0; indet_end := 0;
     indet_tmp_codon := (Chr.NUL, Chr.NUL, Chr.NUL) |}.

(** The comparison with the 80% mark as the real numbers have it. *)
Definition before_last_fifth_exact (trunc beg end_ : Z) : bool :=
  5 * trunc <? 5 * beg + 4 * (end_ - beg + 1).

(** A category map with the background and two feature types, in which the
    background category itself comes first in the labelling precedence. *)
Definition cm_background_first : CategoryMap :=
  {| ncats := 2;
     ranges := [ {| feature_types := ["background"%string];
                    start_cat_no := 0; end_cat_no := 0 |};
                 {| feature_types := ["CDS"%string];
                    start_cat_no := 1; end_cat_no := 1 |};
                 {| feature_types := ["UTR"%string];
                    start_cat_no := 2; end_cat_no := 2 |} ];
     labelling_precedence := [1; 2; 3] |}.

(** The same types with the usual precedence: none for the background. *)
Definition cm_two_types : CategoryMap :=
  {| ncats := 2;
     ranges := ranges cm_background_first;
     labelling_precedence := [-1; 2; 3] |}.

Definition feat_cds : GFF_Feature :=
  {| feat_feature := "CDS"; feat_start := 1; feat_end := 3;
     feat_strand := "+"; feat_frame := 0 |}.

Definition feat_utr : GFF_Feature :=
  {| feat_feature := "UTR"; feat_start := 2; feat_end := 4;
     feat_strand := "+"; feat_frame := 0 |}.

(** A two-row alignment of five columns. *)
Definition two_rows : MSA :=
  msa_new (Some [cstr "AC-GT"; cstr "A-CGT"]) ["a"%string; "b"%string] 2 5 None.

(** A one-row alignment whose row begins AAA. *)
Definition aaa_aaa_taa : MSA :=
  msa_new (Some [cstr "AAAAAATAA"]) ["ref"%string] 1 9 None.

(** [two_rows] with every column labelled as background. *)
Definition two_rows_labelled : MSA :=
  set_categories two_rows (Some [0; 0; 0; 0; 0]).

(** A second alignment of two rows, three columns long, and a store that
    holds it at address 1 and [two_rows] at address 0. *)
Definition two_rows_more : MSA :=
  msa_new (Some [cstr "GGA"; cstr "G-A"]) ["a"%string; "b"%string] 2 3 None.

Definition two_alignments : heap :=
  <[0%nat := two_rows]> (<[1%nat := two_rows_more]> ∅).

(** A feature that ends exactly on the last of the five columns. *)
Definition feat_last_column : GFF_Feature :=
  {| feat_feature := "CDS"; feat_start := 4; feat_end := 5;
     feat_strand := "+"; feat_frame := 0 |}.

(** * The rest of msa.c *)

(** ** Reverse complement of a segment *)

(** [void msa_reverse_compl_seq_segment(char *seq, int start, int end)];
    [start] and [end] are 1-based and inclusive. *)
Definition msa_reverse_compl_seq_segment (seq : list ascii) (start end_ : Z)
  : list ascii :=
  let start := start - 1 in
  let end_ := end_ - 1 in
  if end_ <? start then seq
  else
    let midpt := start + Z.quot (end_ - start) 2 in
    for_loop start (midpt + 1)
      (fun i seq =>
         let tmp := msa_compl_char (getc seq i) in
         let seq := set seq i (msa_compl_char (getc seq (end_ - i + start))) in
         set seq (end_ - i + start) tmp)
      seq.

(** [void msa_reverse_data_segment(int *data, int start, int end)]. *)
Definition msa_reverse_data_segment (data : list Z) (start end_ : Z) : list Z :=
  let start := start - 1 in
  let end_ := end_ - 1 in
  if end_ <? start then data
  else
    let midpt := start + Z.quot (end_ - start) 2 in
    for_loop start (midpt + 1)
      (fun i data =>
         let tmp := get 0 data i in
         let data := set data i (get 0 data (end_ - i + start)) in
         set data (end_ - i + start) tmp)
      data.

(** [void msa_reverse_compl_segment(MSA *msa, int start, int end)]; without
    a matrix the first row access is a null dereference. *)
Definition msa_reverse_compl_segment (msa : MSA) (start end_ : Z) : result MSA :=
  do _ <- assert (bool_decide (msa_ss msa = None)) "msa->ss == NULL";
  match msa_seqs msa with
  | Some rs =>
      Ok (set_seqs msa
            (Some (for_loop 0 (msa_nseqs msa)
                     (fun i rs =>
                        set rs i (msa_reverse_compl_seq_segment (get [] rs i) start end_))
                     rs)))
  | None => if 0 <? msa_nseqs msa then Fatal "msa->seqs is NULL" else Ok msa
  end.

(** ** Counting gapped columns *)

(** The tuple table of sufficient_stats.h, which is not among the sources,
    through what msa.c reads of it: the number of distinct tuples, the number
    of columns that hold tuple [i] (overall and per category), and the
    accessor of a character of a tuple. *)
Class TupleTable : Type := {
  ss_ntuples : MSA_SS -> Z;
  ss_counts : MSA_SS -> Z -> Z;
  ss_cat_counts : MSA_SS -> Z -> Z -> Z;
  ss_get_char_tuple : MSA -> Z -> Z -> Z -> ascii
}.

(** The columns of [0, length) that satisfy [keep], in ascending order. *)
Definition kept_columns (keep : Z -> bool) (length : Z) : list Z :=
  List.filter keep (seqZ 0 length).

(** The row scan of msa_num_gapped_cols with its two [break]s, over the
    characters [char_of j] of the rows [js] still to visit. *)
Fixpoint gapped_scan (js : list Z) (char_of : Z -> ascii)
    (gap_strip_mode : Z) (has_gap : bool) : bool :=
  match js with
  | [] => has_gap
  | j :: js =>
      if (gap_strip_mode =? STRIP_ANY_GAPS) && (char_of j =c? GAP_CHAR) then true
      else if (gap_strip_mode =? STRIP_ALL_GAPS) && negb (char_of j =c? GAP_CHAR)
      then false
      else gapped_scan js char_of gap_strip_mode has_gap
  end.

Section Counting.
Context {SS : SuffStats} {TT : TupleTable}.

(** [char msa_get_char(MSA *msa, int seq, int pos)]. *)
Definition msa_get_char (msa : MSA) (seq pos : Z) : ascii :=
  match msa_seqs msa with
  | Some rs => seq_at rs seq pos
  | None => ss_get_char_pos msa pos seq 0
  end.

(** [int msa_num_gapped_cols(MSA *msa, int gap_strip_mode, int start, int end)]. *)
Definition msa_num_gapped_cols (msa : MSA) (gap_strip_mode start end_ : Z)
  : result Z :=
  let s := if 0 <? start then start else 0 in
  let e := if 0 <? end_ then end_ else msa_length msa in
  do _ <- assert ((gap_strip_mode =? STRIP_ALL_GAPS)
                  || (gap_strip_mode =? STRIP_ANY_GAPS))
            "gap_strip_mode == STRIP_ALL_GAPS || gap_strip_mode == STRIP_ANY_GAPS";
  do _ <- match msa_ss msa with
          | Some ss =>
              if negb (start =? -1) || negb (end_ =? -1)
              then assert (bool_decide (tuple_idx ss <> None))
                     "msa->ss->tuple_idx != NULL"
              else Ok tt
          | None => Ok tt
          end;
  let over_columns :=
    for_loop s e
      (fun i k =>
         let has_gap :=
           gapped_scan (seqZ 0 (msa_nseqs msa)) (fun j => msa_get_char msa j i)
             gap_strip_mode (gap_strip_mode =? STRIP_ALL_GAPS) in
         if has_gap then k + 1 else k)
      0 in
  match msa_ss msa with
  | Some ss =>
      if (start =? -1) && (end_ =? -1) then
        Ok (for_loop 0 (ss_ntuples ss)
              (fun i k =>
                 let has_gap :=
                   gapped_scan (seqZ 0 (msa_nseqs msa))
                     (fun j => ss_get_char_tuple msa i j 0)
                     gap_strip_mode (gap_strip_mode =? STRIP_ALL_GAPS) in
                 if has_gap then k + ss_counts ss i else k)
              0)
      else Ok over_columns
  | None => Ok over_columns
  end.

End Counting.

(** Column [i] of the matrix [rs] counts as gapped in mode
    [gap_strip_mode]. *)
Definition gapped_column (nseqs : Z) (rs : list (list ascii))
    (gap_strip_mode i : Z) : bool :=
  gapped_scan (seqZ 0 nseqs) (fun j => seq_at rs j i)
    gap_strip_mode (gap_strip_mode =? STRIP_ALL_GAPS).

(** The state of a loop that moves the columns it keeps to the front,
    after the columns before [i]: [k] is the number of columns kept, they
    stand in the first [k] columns in their old order, the categories with
    them, and the columns from [i] on are still those of the matrix [rs0] and
    the categories [c0] the loop began with. *)
Definition compacted (nseqs : Z) (keep : Z -> bool) (rs0 : list (list ascii))
    (c0 : option (list Z)) (i : Z)
    (st : list (list ascii) * option (list Z) * Z) : Prop :=
  let '(rs, cats, k) := st in
  let kept := kept_columns keep i in
  k = Z.of_nat (List.length kept) /\ k <= i /\
  List.length rs = List.length rs0 /\
  (forall j, List.length (get [] rs j) = List.length (get [] rs0 j)) /\
  (forall j c, i <= c -> seq_at rs j c = seq_at rs0 j c) /\
  (forall j c, 0 <= j < nseqs -> 0 <= c < k ->
     seq_at rs j c = seq_at rs0 j (get 0 kept c)) /\
  match cats, c0 with
  | Some c, Some c0 =>
      List.length c = List.length c0 /\
      (forall x, i <= x -> get 0 c x = get 0 c0 x) /\
      (forall x, 0 <= x < k -> get 0 c x = get 0 c0 (get 0 kept x))
  | None, None => True
  | _, _ => False
  end.

(** ** Coordinate maps and the characters they count *)

(** The number of characters other than the gap among [f 0 .. f (n-1)]. *)
Fixpoint count_nongap (f : Z -> ascii) (n : nat) : Z :=
  match n with
  | O => 0
  | S n' => count_nongap f n' + (if f (Z.of_nat n') =c? GAP_CHAR then 0 else 1)
  end.

(** The number of characters other than gaps that row [refseq] (1-based)
    has in the alignment columns 1 to [q]. *)
Definition nongaps_upto (rs : list (list ascii)) (refseq q : Z) : Z :=
  count_nongap (seq_at rs (refseq - 1)) (Z.to_nat q).

(** What the scan of msa_build_coord_map has established after [i] columns
    of the row [f], in terms of [N q], the number of non-gap characters in
    the columns 1 to [q]: an anchor pairs the first column of a run of
    non-gap characters with the rank of its character, and the anchor that
    governs a column [q] gives [N q] by the arithmetic of msa_map_msa_to_seq;
    [N q] is 0 before the first anchor. *)
Definition runs_ok (f : Z -> ascii) (i : Z) (st : list Z * list Z * Z * bool)
  : Prop :=
  let '(ml, sl, j, last) := st in
  let N := fun q => count_nongap f (Z.to_nat q) in
  lst_size ml = lst_size sl /\
  j = N i /\
  (forall a, 0 <= a < lst_size sl ->
     1 <= lst_get_int ml a <= i /\
     lst_get_int sl a = N (lst_get_int ml a) /\
     N (lst_get_int ml a - 1) = lst_get_int sl a - 1) /\
  (forall a, 0 <= a -> a + 1 < lst_size sl ->
     lst_get_int ml a < lst_get_int ml (a + 1)) /\
  (forall q a, 1 <= q <= i -> 0 <= a < lst_size sl ->
     lst_get_int ml a <= q ->
     (a + 1 < lst_size sl -> q < lst_get_int ml (a + 1)) ->
     N q = Z.min (lst_get_int sl a + (q - lst_get_int ml a))
             ((if a + 1 <? lst_size sl then lst_get_int sl (a + 1) else j + 1) - 1)) /\
  (forall q, 1 <= q <= i -> lst_size sl = 0 \/ q < lst_get_int ml 0 -> N q = 0) /\
  (last = false ->
     0 < lst_size sl /\
     j = lst_get_int sl (lst_size sl - 1) + (i - lst_get_int ml (lst_size sl - 1))).

(** ** Sub-alignments *)

Definition set_idx_offset (m : MSA) (n : Z) : MSA :=
  {| msa_seqs := msa_seqs m; msa_names := msa_names m; msa_nseqs := msa_nseqs m;
     msa_length := msa_length m; msa_alloc_len := msa_alloc_len m;
     msa_categories := msa_categories m; msa_ncats := msa_ncats m;
     msa_ss := msa_ss m; msa_idx_offset := n;
     msa_alphabet := msa_alphabet m; msa_missing := msa_missing m;
     msa_inv_alphabet := msa_inv_alphabet m;
     msa_is_missing := msa_is_missing m |}.

(** The collaborator's counterpart of msa_sub_alignment for an alignment
    held as sufficient statistics only. *)
Class SuffStatsSub : Type := {
  ss_sub_alignment : MSA -> list string -> list Z -> Z -> Z -> MSA
}.

(** The rows that msa_sub_alignment takes: the list given, its complement
    in exclude mode, or every row without a list. *)
Definition sub_include_list (msa : MSA) (seqlist : option (list Z)) (include : bool)
  : list Z :=
  match seqlist with
  | Some l =>
      if negb include then
        let tmparray :=
          for_loop 0 (lst_size l) (fun i t => set t (lst_get_int l i) 0)
            (replicate (Z.to_nat (msa_nseqs msa)) 1) in
        for_loop 0 (msa_nseqs msa)
          (fun i include_list =>
             if get 0 tmparray i =? 1 then lst_push_int include_list i
             else include_list)
          []
      else l
  | None => for_loop 0 (msa_nseqs msa) (fun i include_list => lst_push_int include_list i) []
  end.

Section SubAlignment.
Context {SSS : SuffStatsSub}.
(** What a cell handed out by [smalloc] holds before it is written. *)
Variable uninit : ascii.

(** [MSA* msa_sub_alignment(MSA *msa, List *seqlist, int include,
    int start_col, int end_col)]. *)
Definition msa_sub_alignment (msa : MSA) (seqlist : option (list Z)) (include : bool)
    (start_col end_col : Z) : result MSA :=
  let new_len := end_col - start_col in
  do _ <- assert (0 <? new_len) "new_len > 0";
  do _ <- assert (bool_decide (msa_seqs msa <> None)
                  || bool_decide (msa_ss msa <> None))
            "msa->seqs != NULL || msa->ss != NULL";
  do _ <- match seqlist with
          | Some l =>
              for_loop_r 0 (lst_size l)
                (fun i _ =>
                   if (lst_get_int l i <? 0) || (msa_nseqs msa <=? lst_get_int l i)
                   then Fatal "ERROR: sequence index out of range in msa_sub_alignment."
                   else Ok tt)
                tt
          | None => Ok tt
          end;
  let include_list := sub_include_list msa seqlist include in
  let new_nseqs := lst_size include_list in
  let new_names :=
    for_loop 0 (lst_size include_list)
      (fun i new_names =>
         set new_names i (get EmptyString (msa_names msa) (lst_get_int include_list i)))
      (replicate (Z.to_nat new_nseqs) EmptyString) in
  let new_msa :=
    match msa_seqs msa with
    | Some rs =>
        let new_seqs :=
          for_loop 0 (lst_size include_list)
            (fun i new_seqs =>
               let seq := lst_get_int include_list i in
               set new_seqs i
                 (for_loop 0 new_len
                    (fun j row => set row j (seq_at rs seq (start_col + j)))
                    (replicate (Z.to_nat (new_len + 1)) uninit)))
            (replicate (Z.to_nat new_nseqs) []) in
        let new_msa :=
          msa_new (Some new_seqs) new_names new_nseqs new_len
            (Some (msa_alphabet msa)) in
        match msa_categories msa with
        | Some cats =>
            if 0 <=? msa_ncats msa then
              set_categories (set_ncats new_msa (msa_ncats msa))
                (Some (for_loop 0 new_len
                         (fun j c => set c j (get 0 cats (start_col + j)))
                         (replicate (Z.to_nat new_len) 0)))
            else new_msa
        | None => new_msa
        end
    | None => ss_sub_alignment msa new_names include_list start_col end_col
    end in
  Ok (set_idx_offset new_msa (msa_idx_offset msa + start_col)).

End SubAlignment.

(** ** Columns without alignment information *)

(** The row loop of msa_missing_col with its early return; [js] are the
    rows still to visit and [char_of] gives the character of a row in the
    column. *)
Fixpoint missing_col_scan (js : list Z) (is_missing : ascii -> Z)
    (char_of : Z -> ascii) (ref : Z) : bool :=
  match js with
  | [] => true
  | i :: js =>
      if i =? ref - 1 then missing_col_scan js is_missing char_of ref
      else if is_missing (char_of i) =? 0 then false
      else missing_col_scan js is_missing char_of ref
  end.

(** The row loop of msa_ninformative_sites for one column, which leaves as
    soon as two informative characters have been seen: [ninf] counts those
    seen so far, the answer tells whether the column is counted. *)
Fixpoint informative_scan (js : list Z) (is_missing : ascii -> Z)
    (char_of : Z -> ascii) (ninf : Z) : bool :=
  match js with
  | [] => false
  | j :: js =>
      let ninf :=
        if negb (char_of j =c? GAP_CHAR) && (is_missing (char_of j) =? 0)
        then ninf + 1 else ninf in
      if 2 <=? ninf then true
      else informative_scan js is_missing char_of ninf
  end.

(** The same loop over the tuples of the sufficient statistics, where the
    test for two sits inside the branch that counts a character. *)
Fixpoint informative_scan_tuple (js : list Z) (is_missing : ascii -> Z)
    (char_of : Z -> ascii) (ninf : Z) : bool :=
  match js with
  | [] => false
  | j :: js =>
      if negb (char_of j =c? GAP_CHAR) && (is_missing (char_of j) =? 0) then
        if 2 <=? ninf + 1 then true
        else informative_scan_tuple js is_missing char_of (ninf + 1)
      else informative_scan_tuple js is_missing char_of ninf
  end.

Section MissingColumns.
Context {SS : SuffStats} {TT : TupleTable}.

(** [int msa_missing_col(MSA *msa, int ref, int pos)]. *)
Definition msa_missing_col (msa : MSA) (ref pos : Z) : bool :=
  missing_col_scan (seqZ 0 (msa_nseqs msa)) (msa_is_missing msa)
    (fun i => msa_get_char msa i pos) ref.

(** The body of the column loop of msa_find_noaln at column [j]; the state
    is the array and [run_start]. *)
Definition find_noaln_column (msa : MSA) (refseqidx min_block_size j : Z)
    (st : list Z * Z) : list Z * Z :=
  let '(noaln, run_start) := st in
  let noaln := set noaln j 0 in
  let allbutref := msa_missing_col msa refseqidx j in
  if (run_start =? -1) && allbutref then (noaln, j)
  else if (0 <=? run_start) && negb allbutref then
    let noaln :=
      if min_block_size <=? j - run_start
      then for_loop run_start j (fun k noaln => set noaln k 1) noaln
      else noaln in
    (noaln, -1)
  else (noaln, run_start).

(** [void msa_find_noaln(MSA *msa, int refseqidx, int min_block_size,
    int *noaln)]; the array comes from the caller. *)
Definition msa_find_noaln (msa : MSA) (refseqidx min_block_size : Z)
    (noaln : list Z) : result (list Z) :=
  do _ <- assert (bool_decide (msa_seqs msa <> None)
                  || match msa_ss msa with
                     | Some ss => bool_decide (tuple_idx ss <> None)
                     | None => false
                     end)
            "msa->seqs != NULL || (msa->ss != NULL && msa->ss->tuple_idx != NULL)";
  let '(noaln, run_start) :=
    for_loop 0 (msa_length msa) (find_noaln_column msa refseqidx min_block_size)
      (noaln, -1) in
  Ok (if 0 <=? run_start
      then for_loop run_start (msa_length msa) (fun k noaln => set noaln k 1) noaln
      else noaln).

(** [unsigned int msa_ninformative_sites(MSA *msa, int cat)]; reading the
    label of a column of an alignment without labels, or a character of an
    alignment without matrix, is a null dereference. *)
Definition msa_ninformative_sites (msa : MSA) (cat : Z) : result Z :=
  match msa_ss msa with
  | Some ss =>
      Ok (for_loop 0 (ss_ntuples ss)
            (fun i retval =>
               if informative_scan_tuple (seqZ 0 (msa_nseqs msa)) (msa_is_missing msa)
                    (fun j => ss_get_char_tuple msa i j 0) 0
               then retval + (if 0 <=? cat then ss_cat_counts ss cat i
                              else ss_counts ss i)
               else retval)
            0)
  | None =>
      for_loop_r 0 (msa_length msa)
        (fun i retval =>
           do skip <- if 0 <=? cat then
                        match msa_categories msa with
                        | Some cats => Ok (negb (get 0 cats i =? cat))
                        | None => Fatal "msa->categories is NULL"
                        end
                      else Ok false;
           if skip then Ok retval
           else
             match msa_seqs msa with
             | Some rs =>
                 Ok (if informative_scan (seqZ 0 (msa_nseqs msa)) (msa_is_missing msa)
                          (fun j => seq_at rs j i) 0
                     then retval + 1 else retval)
             | None =>
                 if 0 <? msa_nseqs msa then Fatal "msa->seqs is NULL" else Ok retval
             end)
        0
  end.

End MissingColumns.

(** The number of rows in [js] whose character is neither a gap nor
    missing data. *)
Definition informative_rows (js : list Z) (is_missing : ascii -> Z)
    (char_of : Z -> ascii) : Z :=
  Z.of_nat (List.length
    (List.filter
       (fun j => negb (char_of j =c? GAP_CHAR) && (is_missing (char_of j) =? 0)) js)).

(** Column [k] lies in a block of at least [min_block_size] columns that
    all satisfy [missing], bounded on the left by the start of the alignment
    or a column that does not, and on the right by a column before [length]
    that does not. *)
Definition closed_block (missing : Z -> bool) (length min_block_size k : Z) : Prop :=
  exists a b,
    0 <= a <= k /\ k < b < length /\
    (forall x, a <= x < b -> missing x = true) /\
    (a = 0 \/ missing (a - 1) = false) /\
    missing b = false /\ min_block_size <= b - a.

(** What the column loop of msa_find_noaln has established after [j]
    columns: a run of columns satisfying [missing] is open from [run_start]
    on, or none is; the cells before the open run are settled, those of the
    open run are still 0. *)
Definition noaln_ok (missing : Z -> bool) (length min_block_size j : Z)
    (st : list Z * Z) : Prop :=
  let '(noaln, run_start) := st in
  ((run_start = -1 /\ (j = 0 \/ missing (j - 1) = false)) \/
   (0 <= run_start < j /\
    (forall x, run_start <= x < j -> missing x = true) /\
    (run_start = 0 \/ missing (run_start - 1) = false))) /\
  (forall k, 0 <= k < j ->
     (get 0 noaln k = 0 \/ get 0 noaln k = 1) /\
     (get 0 noaln k = 1 <->
      (run_start = -1 \/ k < run_start) /\
      closed_block missing length min_block_size k)).

(** ** The alphabet and its tables *)

Definition set_alphabet (m : MSA) (a : string) : MSA :=
  {| msa_seqs := msa_seqs m; msa_names := msa_names m; msa_nseqs := msa_nseqs m;
     msa_length := msa_length m; msa_alloc_len := msa_alloc_len m;
     msa_categories := msa_categories m; msa_ncats := msa_ncats m;
     msa_ss := msa_ss m; msa_idx_offset := msa_idx_offset m;
     msa_alphabet := a; msa_missing := msa_missing m;
     msa_inv_alphabet := msa_inv_alphabet m;
     msa_is_missing := msa_is_missing m |}.

Definition set_inv_alphabet (m : MSA) (t : ascii -> Z) : MSA :=
  {| msa_seqs := msa_seqs m; msa_names := msa_names m; msa_nseqs := msa_nseqs m;
     msa_length := msa_length m; msa_alloc_len := msa_alloc_len m;
     msa_categories := msa_categories m; msa_ncats := msa_ncats m;
     msa_ss := msa_ss m; msa_idx_offset := msa_idx_offset m;
     msa_alphabet := msa_alphabet m; msa_missing := msa_missing m;
     msa_inv_alphabet := t;
     msa_is_missing := msa_is_missing m |}.

Definition set_is_missing (m : MSA) (t : ascii -> Z) : MSA :=
  {| msa_seqs := msa_seqs m; msa_names := msa_names m; msa_nseqs := msa_nseqs m;
     msa_length := msa_length m; msa_alloc_len := msa_alloc_len m;
     msa_categories := msa_categories m; msa_ncats := msa_ncats m;
     msa_ss := msa_ss m; msa_idx_offset := msa_idx_offset m;
     msa_alphabet := msa_alphabet m; msa_missing := msa_missing m;
     msa_inv_alphabet := msa_inv_alphabet m;
     msa_is_missing := t |}.

(** [table[(int)a] = v] on a table indexed by characters. *)
Definition table_set (t : ascii -> Z) (a : ascii) (v : Z) : ascii -> Z :=
  fun c => if c =c? a then v else t c.

(** [table[i] = v] for an integer index: the slot of the character whose
    code is [i]. *)
Definition table_set_index (t : ascii -> Z) (i v : Z) : ascii -> Z :=
  fun c => if Chr.code c =? i then v else t c.

(** [void msa_reset_alphabet(MSA *msa, char *newalph)]; the first loop
    runs over [strlen(newalph)] table slots. *)
Definition msa_reset_alphabet (msa : MSA) (newalph : string) : MSA :=
  let nchars := Z.of_nat (String.length newalph) in
  let msa := set_alphabet msa newalph in
  let '(inv, mis) :=
    for_loop 0 nchars
      (fun i '(inv, mis) => (table_set_index inv i (-1), table_set_index mis i 0))
      (msa_inv_alphabet msa, msa_is_missing msa) in
  let inv :=
    for_loop 0 (Z.of_nat (String.length (msa_alphabet msa)))
      (fun i inv => table_set inv (getc (list_ascii_of_string (msa_alphabet msa)) i) i)
      inv in
  let mis :=
    for_loop 0 (Z.of_nat (String.length (msa_missing msa)))
      (fun i mis => table_set mis (getc (list_ascii_of_string (msa_missing msa)) i) 1)
      mis in
  set_is_missing (set_inv_alphabet msa inv) mis.

(** [strlen] on a buffer: the number of characters before the first NUL. *)
Fixpoint strlen (s : list ascii) : Z :=
  match s with
  | [] => 0
  | c :: s' => if c =c? Chr.NUL then 0 else 1 + strlen s'
  end.

(** The string a buffer holds. *)
Definition string_of_buffer (s : list ascii) : string :=
  string_of_list_ascii (take (Z.to_nat (strlen s)) s).

(** The loop of msa_remove_N_from_alph, whose bound [strlen(msa->alphabet)]
    is taken anew in each round; [fuel] bounds the rounds by the size of the
    buffer. *)
Fixpoint remove_N_loop (fuel : nat) (alphabet : list ascii) (i j : Z)
  : list ascii * Z :=
  match fuel with
  | O => (alphabet, j)
  | S fuel =>
      if i <? strlen alphabet then
        if negb (getc alphabet i =c? "N")
        then remove_N_loop fuel (set alphabet j (getc alphabet i)) (i + 1) (j + 1)
        else remove_N_loop fuel alphabet (i + 1) j
      else (alphabet, j)
  end.

(** [void msa_remove_N_from_alph(MSA *msa)]. *)
Definition msa_remove_N_from_alph (msa : MSA) : MSA :=
  let '(alphabet, j) :=
    remove_N_loop (S (String.length (msa_alphabet msa))) (cstr (msa_alphabet msa)) 0 0 in
  let alphabet := set alphabet j Chr.NUL in
  set_inv_alphabet (set_alphabet msa (string_of_buffer alphabet))
    (table_set (msa_inv_alphabet msa) "N" (-1)).

(** ** Upper-casing *)

(** The collaborator's [set_col_char_in_string], as msa_toupper calls it on
    tuple [i] of the table: the table after the character of row [seq_idx]
    at offset [col_offset] of that tuple has been set to [c]. *)
Class TupleWriter : Type := {
  set_col_char_in_string : MSA -> Z -> Z -> Z -> Z -> ascii -> MSA_SS
}.

(** [c >= 'a' && c <= 'z']. *)
Definition is_lowercase (c : ascii) : bool :=
  (Chr.code "a" <=? Chr.code c) && (Chr.code c <=? Chr.code "z").

(** The alphabet loop of msa_toupper, which runs until it reads the
    terminator of the buffer it rewrites; [fuel] bounds the rounds by the
    size of the buffer. *)
Fixpoint toupper_alphabet_loop (fuel : nat) (alphabet : list ascii)
    (inv : ascii -> Z) (i j : Z) : list ascii * (ascii -> Z) * Z :=
  match fuel with
  | O => (alphabet, inv, j)
  | S fuel =>
      let a := getc alphabet i in
      if negb (a =c? Chr.NUL) then
        if is_lowercase a then
          let newc := Chr.toupper a in
          let inv := table_set inv a (-1) in
          if inv newc <? 0
          then toupper_alphabet_loop fuel (set alphabet j newc)
                 (table_set inv newc j) (i + 1) (j + 1)
          else toupper_alphabet_loop fuel alphabet inv (i + 1) j
        else toupper_alphabet_loop fuel (set alphabet j a) inv (i + 1) (j + 1)
      else (alphabet, inv, j)
  end.

(** [for (j = 0; j < length; j++) seq[j] = toupper(seq[j])]. *)
Definition toupper_row (length : Z) (row : list ascii) : list ascii :=
  for_loop 0 length (fun j row => set row j (Chr.toupper (getc row j))) row.

Section UpperCasing.
Context {TT : TupleTable} {TW : TupleWriter}.

(** [void msa_toupper(MSA *msa)]; the numbers of tuples and of columns in
    a tuple are those the table has before its characters are rewritten. *)
Definition msa_toupper (msa : MSA) : result MSA :=
  do _ <- assert (bool_decide (msa_seqs msa <> None)
                  || bool_decide (msa_ss msa <> None))
            "msa->seqs != NULL || msa->ss != NULL";
  let '(alphabet, inv, j) :=
    toupper_alphabet_loop (S (String.length (msa_alphabet msa)))
      (cstr (msa_alphabet msa)) (msa_inv_alphabet msa) 0 0 in
  let alphabet := set alphabet j Chr.NUL in
  let msa := set_inv_alphabet (set_alphabet msa (string_of_buffer alphabet)) inv in
  let msa :=
    match msa_ss msa with
    | Some ss =>
        for_loop 0 (ss_ntuples ss)
          (fun i msa =>
             for_loop 0 (msa_nseqs msa)
               (fun j msa =>
                  for_loop 0 (tuple_size ss)
                    (fun k msa =>
                       set_ss msa
                         (Some (set_col_char_in_string msa i j (tuple_size ss) (- k)
                                  (Chr.toupper (ss_get_char_tuple msa i j (- k))))))
                    msa)
               msa)
          msa
    | None => msa
    end in
  let msa :=
    match msa_seqs msa with
    | Some rs =>
        set_seqs msa
          (Some (for_loop 0 (msa_nseqs msa)
                   (fun i rs => set rs i (toupper_row (msa_length msa) (get [] rs i)))
                   rs))
    | None => msa
    end in
  Ok msa.

End UpperCasing.

(** No character of the list is the terminator or a lowercase letter. *)
Definition upper_clean (l : list ascii) : Prop :=
  forall c, c ∈ l -> c <> Chr.NUL /\ is_lowercase c = false.

(** ** Masking of long gaps *)

(** The inner loop [for (j = lo; j < hi; j++) seqs[seq][j] = missing[0]]. *)
Definition mask_fill (mis : ascii) (lo hi : Z) (row : list ascii) : list ascii :=
  for_loop lo hi (fun j row => set row j mis) row.

(** The scan of one row in msa_mask_macro_indels: [len] is the length of
    the run of gaps that ends before column [i] and [prev_is_gap] tells
    whether there is one; after the loop [i] is the length of the alignment,
    or 0 for a negative length. *)
Definition mask_row (k : Z) (mis : ascii) (length : Z) (row : list ascii)
  : list ascii :=
  let '(row, len, prev_is_gap) :=
    for_loop 0 length
      (fun i '(row, len, prev_is_gap) =>
         if getc row i =c? GAP_CHAR then (row, len + 1, true)
         else if (prev_is_gap : bool) then
           ((if k <? len then mask_fill mis (i - len) i row else row), 0, false)
         else (row, len, prev_is_gap))
      (row, 0, false) in
  let i := Z.max 0 length in
  if prev_is_gap && (k <? len) then mask_fill mis (i - len) i row else row.

Section MacroIndels.
Context {SS : SuffStats}.

(** [void msa_mask_macro_indels(MSA *msa, int k, int refseq)]. *)
Definition msa_mask_macro_indels (msa : MSA) (k refseq : Z) : result MSA :=
  if bool_decide (msa_seqs msa = None)
     && match msa_ss msa with
        | None => true
        | Some ss => bool_decide (tuple_idx ss = None)
        end
  then Fatal "ERROR: ordered alignment required for msa_mask_macro_indels."
  else
    let msa := match msa_seqs msa with
               | None => set_seqs msa (Some (ss_to_msa msa))
               | Some _ => msa
               end in
    let rs :=
      for_loop 0 (msa_nseqs msa)
        (fun seq rs =>
           if seq =? refseq - 1 then rs
           else set rs seq
                  (mask_row k (missing0 msa) (msa_length msa) (get [] rs seq)))
        (rows_of msa) in
    let msa := set_seqs msa (Some rs) in
    let msa :=
      match msa_ss msa with
      | Some ss =>
          let tuple_size := tuple_size ss in
          let msa := set_ss msa None in
          set_ss msa (Some (ss_from_msas msa tuple_size true))
      | None => msa
      end in
    Ok msa.

End MacroIndels.

(** Column [i] of the row lies in a run of gaps within the first [length]
    columns that is longer than [k]. *)
Definition in_long_gap (row : list ascii) (length k i : Z) : Prop :=
  exists a b, 0 <= a <= i /\ i < b <= length /\ k < b - a /\
    forall x, a <= x < b -> getc row x = GAP_CHAR.

(** The state of the scan of msa_mask_macro_indels before column [i]: the
    open run of gaps is [i - len, i), nothing is written from its start on,
    and every column before it is settled. *)
Definition mask_scan_ok (row : list ascii) (mis : ascii) (L k i : Z)
    (st : list ascii * Z * bool) : Prop :=
  let '(t, len, prev) := st in
  List.length t = List.length row /\
  0 <= len <= i /\ prev = (0 <? len) /\
  (forall x, i - len <= x -> getc t x = getc row x) /\
  (forall x, i - len <= x < i -> getc row x = GAP_CHAR) /\
  (0 < i - len -> getc row (i - len - 1) <> GAP_CHAR) /\
  (forall x, x < i - len ->
     (in_long_gap row L k x -> getc t x = mis) /\
     (~ in_long_gap row L k x -> getc t x = getc row x)).

(** ** More concrete inputs *)

(** A tuple table for alignments without sufficient statistics, on which
    none of its entries is read. *)
Definition tt_absent : TupleTable :=
  {| ss_ntuples := fun _ => 0;
     ss_counts := fun _ _ => 0;
     ss_cat_counts := fun _ _ _ => 0;
     ss_get_char_tuple := fun _ _ _ _ => Chr.NUL |}.

(** Two rows of five columns: the second column holds gaps only, the third
    and the fourth a gap in one row. *)
Definition two_rows_gapped : MSA :=
  msa_new (Some [cstr "A--GT"; cstr "A-C-T"]) ["a"%string; "b"%string] 2 5 None.

(** The counterpart for alignments that always have a matrix. *)
Definition sss_absent : SuffStatsSub :=
  {| ss_sub_alignment := fun m _ _ _ _ => m |}.

(** Three rows of five columns in which the rows below the first hold
    missing data from the second column on. *)
Definition three_rows_missing : MSA :=
  msa_new (Some [cstr "ACGTA"; cstr "A*NNN"; cstr "AN*NN"])
    ["a"%string; "b"%string; "c"%string] 3 5 None.

(** A writer of tuple characters for alignments without a table of tuples,
    on which it is never called. *)
Definition tw_absent : TupleWriter :=
  {| set_col_char_in_string := fun _ _ _ _ _ _ =>
       {| tuple_size := 0; tuple_idx := None; ss_payload := [] |} |}.

(** Two rows of four columns in both cases, over an alphabet that lists
    the bases in both cases and N. *)
Definition two_rows_mixed_case : MSA :=
  msa_new (Some [cstr "AcgT"; cstr "aC-n"]) ["a"%string; "b"%string] 2 4
    (Some "ACGTNacgtn"%string).

(** Two rows of eight columns with runs of one, two and three gaps. *)
Definition two_rows_long_gaps : MSA :=
  msa_new (Some [cstr "A---GT-A"; cstr "AC--G--T"]) ["a"%string; "b"%string] 2 8 None.

(** An aggregate of two rows as msa_new gives it before any column is
    read, and a store that holds it at address 0 and [two_rows_more] at
    address 1. *)
Definition empty_aggregate : MSA :=
  msa_new None ["a"%string; "b"%string] 2 0 None.

Definition aggregate_and_source : heap :=
  <[0%nat := empty_aggregate]> (<[1%nat := two_rows_more]> ∅).
(** ** Buffers and loops: the lemmas every transform below relies on *)

Section BufferFacts.
Context {A : Type} (d : A).

Lemma length_set (s : list A) i x : List.length (set s i x) = List.length s.
Proof. unfold set. destruct (i <? 0); [done | apply length_insert]. Qed.

Lemma get_set_eq (s : list A) i x :
  0 <= i < Z.of_nat (List.length s) -> get d (set s i x) i = x.
Proof.
  intros Hi. unfold get, set.
  destruct (Z.ltb_spec i 0); [lia|].
  rewrite list_lookup_insert_eq by lia. done.
Qed.

Lemma get_set_ne (s : list A) i j x : i <> j -> get d (set s i x) j = get d s j.
Proof.
  intros Hne. unfold get, set.
  destruct (Z.ltb_spec j 0); [done|].
  destruct (Z.ltb_spec i 0); [done|].
  rewrite list_lookup_insert_ne by lia. done.
Qed.

Lemma get_inside (s : list A) i :
  0 <= i < Z.of_nat (List.length s) -> s !! Z.to_nat i = Some (get d s i).
Proof.
  intros Hi. unfold get. destruct (Z.ltb_spec i 0); [lia|].
  destruct (lookup_lt_is_Some_2 s (Z.to_nat i)) as [x Hx]; [lia|].
  by rewrite Hx.
Qed.

Lemma get_outside (s : list A) i :
  Z.of_nat (List.length s) <= i -> get d s i = d.
Proof.
  intros Hi. unfold get. destruct (Z.ltb_spec i 0); [done|].
  rewrite lookup_ge_None_2 by lia. done.
Qed.

(** Two buffers of one size that agree cell by cell are equal. *)
Lemma buffer_ext (s t : list A) :
  List.length s = List.length t ->
  (forall i, 0 <= i < Z.of_nat (List.length s) -> get d s i = get d t i) ->
  s = t.
Proof.
  intros Hlen Hget. apply list_eq_same_length with (List.length s); [done..|].
  intros i x y Hi Hx Hy.
  assert (Hr : 0 <= Z.of_nat i < Z.of_nat (List.length s)) by lia.
  specialize (Hget _ Hr).
  rewrite <- (Nat2Z.id i) in Hx, Hy.
  rewrite (get_inside s) in Hx by lia.
  rewrite (get_inside t) in Hy by lia.
  congruence.
Qed.
End BufferFacts.

Section LoopFacts.
Context {S : Type}.

Lemma for_loop_empty lo hi (body : Z -> S -> S) s :
  hi <= lo -> for_loop lo hi body s = s.
Proof. intros H. unfold for_loop. rewrite seqZ_nil by lia. done. Qed.

Lemma for_loop_first lo hi (body : Z -> S -> S) s :
  lo < hi -> for_loop lo hi body s = for_loop (lo + 1) hi body (body lo s).
Proof.
  intros H. unfold for_loop. rewrite seqZ_cons by lia. simpl.
  do 2 f_equal; lia.
Qed.

Lemma for_loop_last lo hi (body : Z -> S -> S) s :
  lo <= hi -> for_loop lo (hi + 1) body s = body hi (for_loop lo hi body s).
Proof.
  intros H. unfold for_loop.
  replace (hi + 1 - lo) with ((hi - lo) + 1) by lia.
  rewrite seqZ_app by lia. rewrite foldl_app.
  rewrite (seqZ_cons _ 1) by lia. rewrite (seqZ_nil _ (Z.pred 1)) by lia. simpl.
  f_equal. lia.
Qed.

(** Loop invariants: [P i s] holds of the state before the iteration
    at index [i], hence [P hi] of the final state. *)
Lemma for_loop_inv (P : Z -> S -> Prop) lo hi (body : Z -> S -> S) s :
  lo <= hi ->
  P lo s ->
  (forall i s, lo <= i < hi -> P i s -> P (i + 1) (body i s)) ->
  P hi (for_loop lo hi body s).
Proof.
  intros Hle Hinit Hstep.
  replace hi with (lo + Z.of_nat (Z.to_nat (hi - lo))) in * by lia.
  generalize dependent (Z.to_nat (hi - lo)). intros n.
  induction n as [|n IH]; intros _ Hstep.
  - rewrite for_loop_empty by lia. by rewrite Z.add_0_r.
  - replace (lo + Z.of_nat (Datatypes.S n)) with (lo + Z.of_nat n + 1) in * by lia.
    rewrite for_loop_last by lia. apply Hstep; [lia|].
    apply IH; [lia|]. intros i s' Hi. apply Hstep. lia.
Qed.
Lemma for_loop_r_empty lo hi (body : Z -> S -> result S) s :
  hi <= lo -> for_loop_r lo hi body s = Ok s.
Proof. intros H. unfold for_loop_r. by rewrite seqZ_nil by lia. Qed.

Lemma for_loop_r_last lo hi (body : Z -> S -> result S) s :
  lo <= hi ->
  for_loop_r lo (hi + 1) body s = bind (for_loop_r lo hi body s) (body hi).
Proof.
  intros H. unfold for_loop_r.
  replace (hi + 1 - lo) with ((hi - lo) + 1) by lia.
  rewrite seqZ_app by lia. rewrite foldl_app.
  rewrite (seqZ_cons _ 1) by lia. rewrite (seqZ_nil _ (Z.pred 1)) by lia. simpl.
  do 2 f_equal. lia.
Qed.

(** A loop whose body never stops the process returns, and the invariant
    holds of what it returns. *)
Lemma for_loop_r_inv (P : Z -> S -> Prop) lo hi (body : Z -> S -> result S) s :
  lo <= hi ->
  P lo s ->
  (forall i s, lo <= i < hi -> P i s -> exists s', body i s = Ok s' /\ P (i + 1) s') ->
  exists s', for_loop_r lo hi body s = Ok s' /\ P hi s'.
Proof.
  intros Hle Hinit Hstep.
  assert (exists n, hi = lo + Z.of_nat n) as [n ->].
  { exists (Z.to_nat (hi - lo)). lia. }
  clear Hle. induction n as [|n IH].
  - rewrite for_loop_r_empty by lia. rewrite Z.add_0_r. eauto.
  - replace (lo + Z.of_nat (Datatypes.S n)) with (lo + Z.of_nat n + 1) in * by lia.
    rewrite for_loop_r_last by lia.
    destruct IH as (s1 & -> & HP1).
    { intros i s' Hi. apply Hstep. lia. }
    simpl. apply Hstep; [lia|done].
Qed.

(** The invariant also holds of whatever a loop returns when its body may
    stop the process. *)
Lemma for_loop_r_inv_ok (P : Z -> S -> Prop) lo hi (body : Z -> S -> result S) s :
  lo <= hi ->
  P lo s ->
  (forall i s s', lo <= i < hi -> P i s -> body i s = Ok s' -> P (i + 1) s') ->
  forall s', for_loop_r lo hi body s = Ok s' -> P hi s'.
Proof.
  intros Hle Hinit Hstep.
  assert (exists n, hi = lo + Z.of_nat n) as [n ->].
  { exists (Z.to_nat (hi - lo)). lia. }
  clear Hle. induction n as [|n IH]; intros s'.
  - rewrite for_loop_r_empty by lia. rewrite Z.add_0_r. by intros [= <-].
  - replace (lo + Z.of_nat (Datatypes.S n)) with (lo + Z.of_nat n + 1) in * by lia.
    rewrite for_loop_r_last by lia.
    destruct (for_loop_r lo (lo + Z.of_nat n) body s) as [s1|msg] eqn:E; [|done].
    simpl. intros Hbody. eapply Hstep; [|apply IH|exact Hbody]; [lia| |done].
    intros i t t' Hi. apply Hstep. lia.
Qed.

(** A loop stops the process if its body does so at some index whatever
    the state. *)
Lemma for_loop_r_fatal lo hi (body : Z -> S -> result S) s i0 :
  lo <= i0 < hi ->
  (forall s, exists msg, body i0 s = Fatal msg) ->
  exists msg, for_loop_r lo hi body s = Fatal msg.
Proof.
  intros Hi0 Hfatal.
  assert (exists n, hi = i0 + 1 + Z.of_nat n) as [n ->].
  { exists (Z.to_nat (hi - i0 - 1)). lia. }
  induction n as [|n IH].
  - rewrite Z.add_0_r. rewrite for_loop_r_last by lia.
    destruct (for_loop_r lo i0 body s) as [s1|msg]; simpl; eauto.
  - replace (i0 + 1 + Z.of_nat (Datatypes.S n)) with (i0 + 1 + Z.of_nat n + 1) by lia.
    rewrite for_loop_r_last by lia.
    destruct IH as [msg ->]; [lia|]. simpl. eauto.
Qed.

End LoopFacts.

(** Filling an array cell by cell. *)
Lemma for_loop_fill {A} (d : A) (g : Z -> A) (n : nat) :
  let l := for_loop 0 (Z.of_nat n) (fun i l => set l i (g i)) (replicate n d) in
  List.length l = n /\ forall i, 0 <= i < Z.of_nat n -> get d l i = g i.
Proof.
  cut ((fun (k : Z) (l : list A) =>
          List.length l = n /\ forall i, 0 <= i < k -> get d l i = g i)
         (Z.of_nat n)
         (for_loop 0 (Z.of_nat n) (fun i l => set l i (g i)) (replicate n d))).
  { done. }
  apply for_loop_inv; [lia| |].
  - split; [apply length_replicate|]. intros; lia.
  - intros i l Hi [Hlen Hget]. split; [by rewrite length_set|].
    intros k Hk. destruct (Z.eq_dec k i) as [->|Hne].
    + apply get_set_eq. lia.
    + rewrite get_set_ne by lia. apply Hget. lia.
Qed.

(** ** Reverse complement *)

Lemma msa_compl_char_involutive c : msa_compl_char (msa_compl_char c) = c.
Proof.
  destruct c as [[] [] [] [] [] [] [] []]; reflexivity.
Qed.

(** What the swap loop computes: the first [L] cells reversed and
    complemented, the cells behind them untouched. *)
Lemma msa_reverse_compl_seq_spec (s : list ascii) L :
  L <= Z.of_nat (List.length s) ->
  List.length (msa_reverse_compl_seq s L) = List.length s /\
  forall k, 0 <= k < Z.of_nat (List.length s) ->
    getc (msa_reverse_compl_seq s L) k =
      if k <? L then msa_compl_char (getc s (L - 1 - k)) else getc s k.
Proof.
  intros HL. unfold msa_reverse_compl_seq.
  destruct (Z.leb_spec L 0) as [Hle|Hpos].
  { split; [done|]. intros k Hk. destruct (Z.ltb_spec k L); [lia|done]. }
  set (mid := Z.quot (L - 1) 2).
  assert (Hmid : 2 * mid <= L - 1 < 2 * mid + 2).
  { unfold mid. rewrite Z.quot_div_nonneg by lia.
    pose proof (Z.div_mod (L - 1) 2 ltac:(lia)).
    pose proof (Z.mod_pos_bound (L - 1) 2 ltac:(lia)). lia. }
  match goal with |- context [for_loop 0 (mid + 1) ?b s] => set (body := b) end.
  pose (P := fun (i : Z) (t : list ascii) =>
    List.length t = List.length s /\
    forall k, 0 <= k < Z.of_nat (List.length s) ->
      getc t k = if (k <? i) || ((L - i <=? k) && (k <? L))
                 then msa_compl_char (getc s (L - 1 - k)) else getc s k).
  assert (HP : P (mid + 1) (for_loop 0 (mid + 1) body s)).
  { apply for_loop_inv; [lia| |].
    - split; [done|]. intros k Hk.
      destruct (Z.ltb_spec k 0); [lia|].
      destruct (Z.leb_spec (L - 0) k); [|done].
      destruct (Z.ltb_spec k L); [lia|done].
    - intros i t Hi [Hlen Hget]. unfold body. cbv zeta. split.
      { by rewrite !length_set. }
      intros k Hk.
      pose proof (Hget i ltac:(lia)) as Hgi.
      pose proof (Hget (L - i - 1) ltac:(lia)) as Hgj.
      destruct (Z.ltb_spec i i); [lia|].
      destruct (Z.leb_spec (L - i) i); [lia|]. simpl in Hgi.
      destruct (Z.ltb_spec (L - i - 1) i); [lia|].
      destruct (Z.leb_spec (L - i) (L - i - 1)); [lia|]. simpl in Hgj.
      destruct (Z.eq_dec k (L - i - 1)) as [->|Hne1].
      { rewrite get_set_eq by (rewrite length_set; lia).
        rewrite Hgi. replace (L - 1 - (L - i - 1)) with i by lia.
        destruct (Z.ltb_spec (L - i - 1) (i + 1)); simpl; [done|].
        destruct (Z.leb_spec (L - (i + 1)) (L - i - 1)); [|lia].
        destruct (Z.ltb_spec (L - i - 1) L); [done|lia]. }
      rewrite get_set_ne by lia.
      destruct (Z.eq_dec k i) as [->|Hne2].
      { rewrite get_set_eq by lia. rewrite Hgj.
        replace (L - 1 - i) with (L - i - 1) by lia.
        destruct (Z.ltb_spec i (i + 1)); [done|lia]. }
      rewrite get_set_ne by lia. rewrite Hget by done.
      destruct (Z.ltb_spec k i), (Z.ltb_spec k (i + 1)),
        (Z.leb_spec (L - i) k), (Z.leb_spec (L - (i + 1)) k),
        (Z.ltb_spec k L); simpl; try done; lia. }
  destruct HP as [Hlen Hget]. split; [done|].
  intros k Hk. rewrite Hget by done.
  destruct (Z.ltb_spec k (mid + 1)), (Z.leb_spec (L - (mid + 1)) k),
    (Z.ltb_spec k L); simpl; try done; lia.
Qed.

Lemma msa_reverse_compl_seq_involutive (s : list ascii) L :
  L <= Z.of_nat (List.length s) ->
  msa_reverse_compl_seq (msa_reverse_compl_seq s L) L = s.
Proof.
  intros HL.
  destruct (msa_reverse_compl_seq_spec s L HL) as [Hlen1 Hget1].
  destruct (msa_reverse_compl_seq_spec (msa_reverse_compl_seq s L) L) as [Hlen2 Hget2].
  { lia. }
  apply (buffer_ext Chr.NUL); [lia|].
  intros k Hk.
  rewrite Hget2 by lia.
  destruct (Z.ltb_spec k L) as [Hlt|Hge].
  - rewrite Hget1 by lia.
    destruct (Z.ltb_spec (L - 1 - k) L); [|lia].
    rewrite msa_compl_char_involutive. f_equal. lia.
  - rewrite Hget1 by lia. destruct (Z.ltb_spec k L); [lia|done].
Qed.

(** A loop that rewrites every row through [f] maps [f] over the matrix. *)
Lemma for_loop_rows {A} (d : A) (f : A -> A) (rs : list A) :
  for_loop 0 (Z.of_nat (List.length rs)) (fun i rs => set rs i (f (get d rs i))) rs
  = List.map f rs.
Proof.
  pose (P := fun (i : Z) (t : list A) =>
    List.length t = List.length rs /\
    forall k, 0 <= k < Z.of_nat (List.length rs) ->
      get d t k = if k <? i then f (get d rs k) else get d rs k).
  assert (HP : P (Z.of_nat (List.length rs))
                 (for_loop 0 (Z.of_nat (List.length rs))
                    (fun i rs => set rs i (f (get d rs i))) rs)).
  { apply for_loop_inv; [lia| |].
    - split; [done|]. intros k Hk. destruct (Z.ltb_spec k 0); [lia|done].
    - intros i t Hi [Hlen Hget]. split; [by rewrite length_set|].
      intros k Hk. destruct (Z.eq_dec k i) as [->|Hne].
      + rewrite get_set_eq by lia. rewrite Hget by lia.
        destruct (Z.ltb_spec i i); [lia|].
        destruct (Z.ltb_spec i (i + 1)); [done|lia].
      + rewrite get_set_ne by lia. rewrite Hget by lia.
        destruct (Z.ltb_spec k i), (Z.ltb_spec k (i + 1)); try done; lia. }
  destruct HP as [Hlen Hget].
  apply (buffer_ext d); [by rewrite length_map|].
  intros k Hk. rewrite Hget by lia.
  destruct (Z.ltb_spec k (Z.of_nat (List.length rs))); [|lia].
  rewrite Hlen in Hk.
  unfold get at 2. destruct (Z.ltb_spec k 0); [lia|].
  rewrite list_lookup_fmap. rewrite (get_inside d) by lia. done.
Qed.

Lemma explicit_wf_inv m rs :
  msa_seqs m = Some rs -> explicit_wf m = true ->
  msa_nseqs m = Z.of_nat (List.length rs) /\ 0 <= msa_length m /\
  Forall (fun r => msa_length m <= Z.of_nat (List.length r)) rs.
Proof.
  unfold explicit_wf. intros -> Hwf.
  apply andb_prop in Hwf as [Hwf Hrows]. apply andb_prop in Hwf as [Hn Hl].
  split; [lia|]. split; [lia|].
  apply Forall_forall. intros r Hr.
  rewrite forallb_forall in Hrows.
  apply list_elem_of_In in Hr. specialize (Hrows r Hr). lia.
Qed.

Section ReverseComplFacts.
Context {SS : SuffStats}.

(** One application on an explicit alignment that passes the guard:
    it returns, every row buffer went through [msa_reverse_compl_seq], and
    the guard still holds of the result. *)
Lemma msa_reverse_compl_explicit msa rs :
  msa_seqs msa = Some rs ->
  msa_nseqs msa = Z.of_nat (List.length rs) ->
  (msa_ss msa <> None \/ msa_categories msa = None) ->
  exists m1,
    msa_reverse_compl msa = Ok m1 /\
    msa_seqs m1 = Some (List.map (fun r => msa_reverse_compl_seq r (msa_length msa)) rs) /\
    msa_nseqs m1 = msa_nseqs msa /\ msa_length m1 = msa_length msa /\
    (msa_ss m1 <> None \/ msa_categories m1 = None).
Proof.
  intros Hseqs Hn Hguard. unfold msa_reverse_compl.
  destruct (msa_ss msa) as [ss|] eqn:Hss.
  - simpl. destruct (1 <? tuple_size ss) eqn:Hts.
    + rewrite Hseqs. simpl. rewrite Hseqs. simpl.
      assert (Hne : negb (tuple_size ss =? -1) = true).
      { apply Z.ltb_lt in Hts. destruct (Z.eqb_spec (tuple_size ss) (-1)); [lia|done]. }
      rewrite Hne. eexists. split; [done|]. simpl.
      rewrite Hn, (for_loop_rows [] (fun r => msa_reverse_compl_seq r (msa_length msa))).
      repeat split; auto.
    + rewrite Hseqs. simpl. rewrite Hss. simpl.
      eexists. split; [done|]. simpl.
      rewrite Hn, (for_loop_rows [] (fun r => msa_reverse_compl_seq r (msa_length msa))).
      repeat split; auto.
  - destruct Hguard as [Hg|Hg]; [done|]. rewrite Hg. simpl.
    rewrite Hseqs. simpl. rewrite Hss. simpl.
    eexists. split; [done|]. simpl.
    rewrite Hn, (for_loop_rows [] (fun r => msa_reverse_compl_seq r (msa_length msa))).
      repeat split; auto.
Qed.

(** C5 (amended): on an alignment with an explicit matrix that either
    carries sufficient statistics or has no category labels,
    msa_reverse_compl returns both times it is applied, and after the second
    application every row buffer, the row count and the length are what they
    were at the start. *)
Theorem msa_reverse_compl_twice msa rs :
  msa_seqs msa = Some rs ->
  explicit_wf msa = true ->
  (msa_ss msa <> None \/ msa_categories msa = None) ->
  exists m1 m2,
    msa_reverse_compl msa = Ok m1 /\ msa_reverse_compl m1 = Ok m2 /\
    msa_seqs m2 = Some rs /\ msa_nseqs m2 = msa_nseqs msa /\
    msa_length m2 = msa_length msa.
Proof.
  intros Hseqs Hwf Hguard.
  destruct (explicit_wf_inv _ _ Hseqs Hwf) as (Hn & Hlen & Hrows).
  destruct (msa_reverse_compl_explicit msa rs Hseqs Hn Hguard)
    as (m1 & Hm1 & Hs1 & Hn1 & Hl1 & Hg1).
  destruct (msa_reverse_compl_explicit m1 _ Hs1) as (m2 & Hm2 & Hs2 & Hn2 & Hl2 & _).
  { rewrite length_map. congruence. }
  { done. }
  exists m1, m2. repeat split; try congruence.
  rewrite Hs2, Hl1. f_equal.
  rewrite map_map. rewrite <- (map_id rs) at 2.
  apply map_ext_in. intros r Hr.
  apply msa_reverse_compl_seq_involutive.
  rewrite Forall_forall in Hrows. apply Hrows, list_elem_of_In, Hr.
Qed.

End ReverseComplFacts.

(** ** Gap stripping *)

Lemma seq_at_set_row rs j r j' i :
  0 <= j < Z.of_nat (List.length rs) ->
  seq_at (set rs j r) j' i = if j' =? j then getc r i else seq_at rs j' i.
Proof.
  intros Hj. unfold seq_at. destruct (Z.eqb_spec j' j) as [->|Hne].
  - by rewrite get_set_eq.
  - by rewrite get_set_ne.
Qed.

(** A write followed by a read of the same cell: the value written, or the
    write fell outside the buffer and the read yields the default. *)
Lemma get_set_same_cases {A} (d : A) (s : list A) k x :
  get d (set s k x) k = x \/ (set s k x = s /\ get d s k = d).
Proof.
  destruct (Z.ltb_spec k 0) as [Hneg|Hpos].
  { right. unfold set, get. destruct (Z.ltb_spec k 0); [done|lia]. }
  destruct (Z.ltb_spec k (Z.of_nat (List.length s))) as [Hin|Hout].
  - left. by rewrite get_set_eq.
  - right. split; [|by rewrite get_outside].
    unfold set. destruct (k <? 0); [done|]. by rewrite list_insert_ge by lia.
Qed.

Lemma get_nil {A} (d : A) k : get d [] k = d.
Proof. unfold get. destruct (k <? 0); [done|]. by rewrite lookup_nil. Qed.

Lemma set_outside {A} (s : list A) k x :
  ~ (0 <= k < Z.of_nat (List.length s)) -> set s k x = s.
Proof.
  intros Hk. unfold set. destruct (Z.ltb_spec k 0); [done|].
  by rewrite list_insert_ge by lia.
Qed.

(** [copy_column] leaves every column other than [k] alone, and in column
    [k] each row in [0, nseqs) holds what its column [i] held, or NUL where
    the model has no such cell. *)
Lemma copy_column_spec nseqs rs k i :
  (forall j c, c <> k -> seq_at (copy_column nseqs rs k i) j c = seq_at rs j c) /\
  (forall j, 0 <= j < nseqs ->
     seq_at (copy_column nseqs rs k i) j k = seq_at rs j i \/
     seq_at (copy_column nseqs rs k i) j k = Chr.NUL).
Proof.
  unfold copy_column.
  destruct (Z.le_gt_cases nseqs 0) as [Hn|Hn].
  { rewrite for_loop_empty by lia. split; [done|]. intros; lia. }
  pose (P := fun (n : Z) (t : list (list ascii)) =>
    (forall j, n <= j -> get [] t j = get [] rs j) /\
    (forall j c, c <> k -> seq_at t j c = seq_at rs j c) /\
    (forall j, 0 <= j < n ->
       seq_at t j k = seq_at rs j i \/ seq_at t j k = Chr.NUL)).
  assert (HP : P nseqs (for_loop 0 nseqs
      (fun j rs => set rs j (set (get [] rs j) k (seq_at rs j i))) rs)).
  { apply for_loop_inv; [lia| |].
    - split; [done|]. split; [done|]. intros; lia.
    - intros n t Hn' (Hrest & Hother & Hdone).
      assert (Hrow : get [] t n = get [] rs n) by (apply Hrest; lia).
      assert (Hcell : seq_at t n i = seq_at rs n i).
      { unfold seq_at. by rewrite Hrow. }
      generalize dependent (seq_at t n i). intros x Hcell.
      destruct (decide (0 <= n < Z.of_nat (List.length t))) as [Hin|Hout].
      + split; [|split].
        * intros j Hj. rewrite get_set_ne by lia. apply Hrest. lia.
        * intros j c Hc. rewrite seq_at_set_row by done.
          destruct (Z.eqb_spec j n) as [->|Hne]; [|by apply Hother].
          rewrite get_set_ne by lia. by apply Hother.
        * intros j Hj. rewrite seq_at_set_row by done.
          destruct (Z.eqb_spec j n) as [->|Hne]; [|apply Hdone; lia].
          destruct (get_set_same_cases Chr.NUL (get [] t n) k x) as [Hc|[Hc Hd]].
          -- left. by rewrite Hc.
          -- right. by rewrite Hc.
      + rewrite set_outside by done. split; [|split].
        * intros j Hj. apply Hrest. lia.
        * done.
        * intros j Hj. destruct (Z.eq_dec j n) as [->|Hne]; [|apply Hdone; lia].
          right. unfold seq_at.
          assert (Hnone : get [] t n = []).
          { unfold get. destruct (Z.ltb_spec n 0); [done|].
            by rewrite lookup_ge_None_2 by lia. }
          rewrite Hnone. apply get_nil. }
  destruct HP as (_ & Hother & Hdone). split; done.
Qed.

(** In STRIP_ANY_GAPS mode the row scan answers "strip" exactly when some
    visited row has a gap in the column. *)
Lemma strip_scan_any js rs i :
  strip_scan js rs STRIP_ANY_GAPS i false = false <->
  Forall (fun j => seq_at rs j i <> GAP_CHAR) js.
Proof.
  induction js as [|j js IH]; simpl.
  - split; [constructor|done].
  - unfold Chr.eqb. destruct (Ascii.eqb_spec (seq_at rs j i) GAP_CHAR) as [Heq|Hne].
    + split; [done|]. intros Hall. inversion Hall; subst. done.
    + simpl. rewrite IH. split.
      * intros Hall. by constructor.
      * intros Hall. by inversion Hall.
Qed.

Lemma strip_gaps_first_pass nseqs L rs0 c0 :
  exists rs' c' k,
    for_loop 0 L (strip_gaps_column nseqs STRIP_ANY_GAPS) (rs0, c0, 0) = (rs', c', k) /\
    0 <= k /\ gap_free nseqs rs' k.
Proof.
  destruct (Z.le_gt_cases 0 L) as [HL|HL]; cycle 1.
  { exists rs0, c0, 0. rewrite for_loop_empty by lia.
    split; [done|]. split; [done|]. intros c j Hc. lia. }
  pose (P := fun (i : Z) (st : list (list ascii) * option (list Z) * Z) =>
    0 <= st.2 <= i /\ gap_free nseqs st.1.1 st.2).
  assert (HP : P L (for_loop 0 L (strip_gaps_column nseqs STRIP_ANY_GAPS) (rs0, c0, 0))).
  { apply for_loop_inv; [done| |].
    - split; simpl; [lia|]. intros c j Hc. lia.
    - intros i [[rs cats] k] Hi [Hk Hfree]. simpl in Hk, Hfree.
      unfold strip_gaps_column.
      change (STRIP_ANY_GAPS =? STRIP_ALL_GAPS) with false.
      destruct (strip_scan (seqZ 0 nseqs) rs STRIP_ANY_GAPS i false) eqn:Hscan.
      { rewrite andb_false_r. simpl. split; simpl; [lia|done]. }
      apply strip_scan_any in Hscan. rewrite Forall_seqZ in Hscan.
      destruct (Z.eqb_spec k i) as [->|Hne]; simpl.
      + split; simpl; [lia|]. intros c j Hc Hj.
        destruct (Z.eq_dec c i) as [->|Hci]; [apply Hscan; lia|apply Hfree; lia].
      + split; simpl; [lia|]. intros c j Hc Hj.
        destruct (copy_column_spec nseqs rs k i) as [Hother Htarget].
        destruct (Z.eq_dec c k) as [->|Hck].
        * destruct (Htarget j Hj) as [Hv|Hv]; rewrite Hv; [apply Hscan; lia|done].
        * rewrite Hother by done. apply Hfree; lia. }
  destruct (for_loop 0 L _ _) as [[rs' c'] k]. destruct HP as [Hk Hfree].
  exists rs', c', k. simpl in *. split; [done|]. split; [lia|done].
Qed.

Lemma strip_gaps_second_pass nseqs rs' c' k :
  0 <= k -> gap_free nseqs rs' k ->
  for_loop 0 k (strip_gaps_column nseqs STRIP_ANY_GAPS) (rs', c', 0) = (rs', c', k).
Proof.
  intros Hk Hfree.
  apply (for_loop_inv (fun i st => st = (rs', c', i))); [done|done|].
  intros i st Hi ->. unfold strip_gaps_column.
  change (STRIP_ANY_GAPS =? STRIP_ALL_GAPS) with false.
  assert (Hscan : strip_scan (seqZ 0 nseqs) rs' STRIP_ANY_GAPS i false = false).
  { apply strip_scan_any. rewrite Forall_seqZ. intros j Hj. apply Hfree; lia. }
  rewrite Hscan, Z.eqb_refl. done.
Qed.

Section StripGapsFacts.
Context {SS : SuffStats}.

(** C9: on an alignment with an explicit matrix, msa_strip_gaps in
    STRIP_ANY_GAPS mode returns an alignment none of whose columns holds a
    gap, and applied to that alignment it returns it unchanged: same length,
    same row buffers, same categories. *)
Theorem msa_strip_gaps_any_idempotent msa rs :
  msa_seqs msa = Some rs ->
  exists m1 rs1,
    msa_strip_gaps msa STRIP_ANY_GAPS = Ok m1 /\
    msa_seqs m1 = Some rs1 /\
    gap_free (msa_nseqs m1) rs1 (msa_length m1) /\
    msa_strip_gaps m1 STRIP_ANY_GAPS = Ok m1.
Proof.
  intros Hseqs.
  destruct (strip_gaps_first_pass (msa_nseqs msa) (msa_length msa) rs
              (msa_categories msa)) as (rs' & c' & k & Hloop & Hk & Hfree).
  pose (msa0 := match msa_ss msa with Some _ => set_ss msa None | None => msa end).
  exists (set_length (set_categories (set_seqs msa0 (Some rs')) c') k), rs'.
  assert (H0 : msa_ss msa0 = None /\ msa_seqs msa0 = Some rs /\
               msa_nseqs msa0 = msa_nseqs msa /\ msa_length msa0 = msa_length msa /\
               msa_categories msa0 = msa_categories msa).
  { unfold msa0. destruct (msa_ss msa) eqn:E; simpl; auto. }
  destruct H0 as (Hss0 & Hseqs0 & Hn0 & Hl0 & Hc0).
  split; [|split; [done|split; [simpl; by rewrite Hn0|]]].
  - unfold msa_strip_gaps. rewrite Hseqs. fold msa0.
    rewrite Hss0. simpl. rewrite Hseqs0, Hn0, Hl0, Hc0. simpl.
    rewrite Hloop. done.
  - unfold msa_strip_gaps. simpl. rewrite Hss0. simpl.
    rewrite Hn0, (strip_gaps_second_pass _ _ _ _ Hk Hfree).
    rewrite Hss0. clearbody msa0. by destruct msa0.
Qed.

End StripGapsFacts.

(** ** Coordinate maps *)

(** The search answers with the governing index: the last element not
    above [val] within the window, given that everything left of the window
    is below [val] and everything right of it above. *)
Lemma lst_bsearch_loop_spec lst val :
  increasing lst ->
  forall n l r,
    0 <= l -> r < lst_size lst -> l <= r + 1 ->
    r - l + 1 <= Z.of_nat n ->
    (0 < l -> lst_get_int lst (l - 1) < val) ->
    (r + 1 < lst_size lst -> val < lst_get_int lst (r + 1)) ->
    let idx := lst_bsearch_loop n lst val l r in
    -1 <= idx < lst_size lst /\
    (0 <= idx -> lst_get_int lst idx <= val) /\
    (idx + 1 < lst_size lst -> val < lst_get_int lst (idx + 1)).
Proof.
  intros Hinc n. induction n as [|n IH]; intros l r Hl Hr Hlr Hn Hleft Hright; simpl.
  { assert (l = r + 1) as -> by lia.
    replace (r + 1 - 1) with r by lia.
    split; [lia|]. split; [|done].
    intros H0. specialize (Hleft ltac:(lia)).
    replace (r + 1 - 1) with r in Hleft by lia. lia. }
  destruct (Z.leb_spec l r) as [Hle|Hgt]; cycle 1.
  { assert (l = r + 1) as -> by lia.
    replace (r + 1 - 1) with r by lia.
    split; [lia|]. split; [|done].
    intros H0. specialize (Hleft ltac:(lia)).
    replace (r + 1 - 1) with r in Hleft by lia. lia. }
  set (m := Z.quot (l + r) 2).
  assert (Hm : l <= m <= r).
  { unfold m. rewrite Z.quot_div_nonneg by lia.
    pose proof (Z.div_mod (l + r) 2 ltac:(lia)).
    pose proof (Z.mod_pos_bound (l + r) 2 ltac:(lia)). lia. }
  destruct (Z.eqb_spec val (lst_get_int lst m)) as [Heq|Hne].
  { split; [lia|]. split; [lia|]. intros Hnext. rewrite Heq. apply Hinc; lia. }
  destruct (Z.ltb_spec val (lst_get_int lst m)) as [Hlt|Hge].
  - apply IH; try lia. intros _. by replace (m - 1 + 1) with m by lia.
  - apply IH; try lia. intros _. replace (m + 1 - 1) with m by lia. lia.
Qed.

(** The governing index is unique, so the search finds any index known to
    govern. *)
Lemma lst_bsearch_int_governs lst val idx :
  increasing lst ->
  0 <= idx < lst_size lst ->
  lst_get_int lst idx <= val ->
  (idx + 1 < lst_size lst -> val < lst_get_int lst (idx + 1)) ->
  lst_bsearch_int lst val = idx.
Proof.
  intros Hinc Hidx Hlow Hhigh.
  pose proof (lst_bsearch_loop_spec lst val Hinc (List.length lst) 0 (lst_size lst - 1))
    as Hspec.
  fold (lst_bsearch_int lst val) in Hspec. unfold lst_size in Hspec at 4.
  destruct Hspec as (Hrange & Hle & Hgt); try lia.
  set (r := lst_bsearch_int lst val) in *.
  destruct (Z.lt_trichotomy r idx) as [Hlt|[Heq|Hgt']]; [|done|].
  - (* r < idx: val < lst[r+1] <= lst[idx] <= val *)
    specialize (Hgt ltac:(lia)).
    destruct (Z.eq_dec (r + 1) idx) as [E|E]; [rewrite E in Hgt; lia|].
    pose proof (Hinc (r + 1) idx ltac:(lia) ltac:(lia)). lia.
  - (* idx < r: val < lst[idx+1] <= lst[r] <= val *)
    specialize (Hle ltac:(lia)). specialize (Hhigh ltac:(lia)).
    destruct (Z.eq_dec (idx + 1) r) as [E|E]; [rewrite E in Hhigh; lia|].
    pose proof (Hinc (idx + 1) r ltac:(lia) ltac:(lia)). lia.
Qed.

Lemma lst_size_push l x : lst_size (lst_push_int l x) = lst_size l + 1.
Proof. unfold lst_size, lst_push_int. rewrite length_app. simpl. lia. Qed.

Lemma lst_get_push l x a :
  0 <= a ->
  lst_get_int (lst_push_int l x) a =
    if a <? lst_size l then lst_get_int l a
    else if a =? lst_size l then x else 0.
Proof.
  intros Ha. unfold lst_get_int, lst_push_int, lst_size, get.
  destruct (Z.ltb_spec a 0); [lia|].
  destruct (Z.ltb_spec a (Z.of_nat (List.length l))).
  - by rewrite lookup_app_l by lia.
  - rewrite lookup_app_r by lia.
    destruct (Z.eqb_spec a (Z.of_nat (List.length l))) as [->|Hne].
    + by rewrite Nat2Z.id, Nat.sub_diag.
    + destruct (Z.to_nat a - List.length l)%nat as [|k] eqn:E; [lia|].
      by destruct k.
Qed.

Lemma adjacent_increasing l :
  (forall a, 0 <= a -> a + 1 < lst_size l -> lst_get_int l a < lst_get_int l (a + 1)) ->
  increasing l.
Proof.
  intros Hadj a b Hab Hb.
  assert (Ha : 0 <= a) by lia.
  assert (exists n, b = a + 1 + Z.of_nat n) as [n ->].
  { exists (Z.to_nat (b - a - 1)). lia. }
  clear Hab. induction n as [|n IH].
  - rewrite Z.add_0_r in *. apply Hadj; lia.
  - etransitivity; [apply IH; lia|].
    replace (a + 1 + Z.of_nat (S n)) with (a + 1 + Z.of_nat n + 1) in * by lia.
    apply Hadj; lia.
Qed.

Lemma coord_map_column_ok c i st :
  0 <= i -> anchors_ok i st -> anchors_ok (i + 1) (coord_map_column c i st).
Proof.
  intros Hi. destruct st as [[[ml sl] j] last].
  intros (Hsz & Hj & Hadj & Hempty & Hlast). unfold coord_map_column.
  destruct (c =c? GAP_CHAR).
  { split; [done|]. split; [done|]. split; [done|]. split.
    - intros E. by destruct (Hempty E) as [-> _].
    - intros Hne. destruct (Hlast Hne) as (H1 & H2 & H3 & H4 & _).
      cbv zeta. repeat split; try done; lia. }
  destruct last.
  - (* a new run starts: push the anchor (i+1, j+1) *)
    assert (Hsz0 : 0 <= lst_size sl) by (unfold lst_size; lia).
    unfold anchors_ok. rewrite !lst_size_push. split; [lia|]. split; [lia|].
    split; [|split].
    + intros a Ha Ha'.
      rewrite !lst_get_push by lia. rewrite Hsz.
      destruct (Z.ltb_spec a (lst_size sl)); [|lia].
      destruct (Z.ltb_spec (a + 1) (lst_size sl)) as [Hin|Hnew].
      * apply Hadj; lia.
      * destruct (Z.eqb_spec (a + 1) (lst_size sl)); [|lia].
        destruct Hlast as (_ & _ & Hz1 & Hz2 & Hz3); [lia|].
        specialize (Hz3 eq_refl).
        replace (lst_size sl - 1) with a in * by lia. lia.
    + intros Hz. lia.
    + intros _. rewrite !lst_get_push by lia. rewrite Hsz.
      replace (lst_size sl + 1 - 1) with (lst_size sl) by lia.
      destruct (Z.ltb_spec (lst_size sl) (lst_size sl)); [lia|].
      rewrite Z.eqb_refl.
      destruct (Z.ltb_spec 0 (lst_size sl)) as [Hne|He].
      * destruct Hlast as (H1 & H2 & _); [done|]. repeat split; try lia; done.
      * assert (lst_size sl = 0) as E by lia. rewrite E. simpl.
        destruct (Hempty E) as [-> _]. repeat split; try lia; done.
  - (* the current run goes on *)
    assert (Hne : 0 < lst_size sl).
    { destruct (Z.lt_ge_cases 0 (lst_size sl)); [done|].
      assert (lst_size sl = 0) as E by (unfold lst_size in *; lia).
      by destruct (Hempty E). }
    destruct (Hlast Hne) as (H1 & H2 & H3 & H4 & _).
    split; [done|]. split; [lia|]. split; [done|]. split; [lia|].
    intros _. cbv zeta. repeat split; try done; lia.
Qed.

(** The two directions of a map whose anchors are in order compose to the
    identity on the sequence positions. *)
Lemma anchored_round_trip L ml sl j last p :
  anchors_ok L (ml, sl, j, last) ->
  1 <= p <= j ->
  let map := {| msa_list := ml; seq_list := sl; msa_len := L; seq_len := j |} in
  exists q, msa_map_seq_to_msa map p = Ok q /\ 1 <= q <= L /\
            msa_map_msa_to_seq map q = Ok p.
Proof.
  intros (Hsz & Hj & Hadj & Hempty & Hlast) Hp map.
  assert (Hne : 0 < lst_size sl).
  { destruct (Z.lt_ge_cases 0 (lst_size sl)); [done|].
    assert (lst_size sl = 0) as E by (unfold lst_size in *; lia).
    destruct (Hempty E). lia. }
  destruct (Hlast Hne) as (Hs0 & Hm0 & Hz1 & Hz2 & _). clear Hlast Hempty.
  assert (Hinc_s : increasing sl).
  { apply adjacent_increasing. intros a Ha Ha'. by apply Hadj. }
  assert (Hinc_m : increasing ml).
  { apply adjacent_increasing. intros a Ha Ha'. rewrite Hsz in Ha'.
    destruct (Hadj a Ha Ha'). lia. }
  (* the anchor found for [p] *)
  pose proof (lst_bsearch_loop_spec sl p Hinc_s (List.length sl) 0 (lst_size sl - 1))
    as Hspec.
  fold (lst_bsearch_int sl p) in Hspec. unfold lst_size in Hspec at 4.
  destruct Hspec as (Hrange & Hle & Hgt); try lia.
  set (idx := lst_bsearch_int sl p) in *.
  assert (Hidx : 0 <= idx).
  { destruct (Z.lt_ge_cases idx 0); [|done].
    assert (idx = -1) as E by lia. rewrite E in Hgt.
    change (-1 + 1) with 0 in Hgt. specialize (Hgt Hne). lia. }
  specialize (Hle Hidx).
  set (q := lst_get_int ml idx + (p - lst_get_int sl idx)).
  assert (Hm_idx : 1 <= lst_get_int ml idx).
  { destruct (Z.eq_dec idx 0) as [->|]; [done|].
    pose proof (Hinc_m 0 idx ltac:(lia) ltac:(lia)). lia. }
  assert (Hnext : idx + 1 < lst_size sl -> q < lst_get_int ml (idx + 1)).
  { intros Hn. specialize (Hgt Hn). destruct (Hadj idx Hidx Hn). unfold q. lia. }
  assert (HqL : q <= L).
  { destruct (Z.eq_dec idx (lst_size sl - 1)) as [E|E].
    - unfold q. rewrite E. lia.
    - specialize (Hnext ltac:(lia)).
      destruct (Z.eq_dec (idx + 1) (lst_size sl - 1)) as [E'|E'].
      + rewrite E' in Hnext. lia.
      + pose proof (Hinc_m (idx + 1) (lst_size sl - 1) ltac:(lia) ltac:(lia)). lia. }
  exists q. split; [|split; [unfold q; lia|]].
  - unfold msa_map_seq_to_msa. simpl.
    destruct (Z.ltb_spec p 1); [lia|]. destruct (Z.ltb_spec j p); [lia|]. simpl.
    fold idx. rewrite Hsz.
    destruct (Z.leb_spec 0 idx); [|lia].
    destruct (Z.ltb_spec idx (lst_size sl)); [|lia]. done.
  - unfold msa_map_msa_to_seq. simpl.
    destruct (Z.ltb_spec q 1); [unfold q in *; lia|].
    destruct (Z.ltb_spec L q); [lia|]. simpl.
    assert (Hfind : lst_bsearch_int ml q = idx).
    { apply lst_bsearch_int_governs; [done|lia|unfold q; lia|].
      rewrite Hsz. exact Hnext. }
    rewrite Hfind.
    destruct (Z.ltb_spec idx 0); [lia|]. rewrite Hsz.
    destruct (Z.ltb_spec idx (lst_size sl)); [|lia]. simpl.
    f_equal. unfold q.
    replace (lst_get_int sl idx + (lst_get_int ml idx + (p - lst_get_int sl idx)
                                   - lst_get_int ml idx)) with p by lia.
    destruct (Z.ltb_spec idx (lst_size sl - 1)) as [Hin|Hz].
    + specialize (Hgt ltac:(lia)).
      destruct (Z.leb_spec (lst_get_int sl (idx + 1)) p); [lia|done].
    + destruct (Z.leb_spec (j + 1) p); [lia|done].
Qed.

Section CoordinateMapFacts.
Context {SS : SuffStats}.

Lemma msa_build_coord_map_anchors msa rs refseq :
  msa_seqs msa = Some rs ->
  exists ml sl j last,
    msa_build_coord_map msa refseq =
      Ok {| msa_list := ml; seq_list := sl; msa_len := msa_length msa; seq_len := j |} /\
    anchors_ok (Z.max 0 (msa_length msa)) (ml, sl, j, last).
Proof.
  intros Hseqs. unfold msa_build_coord_map. rewrite Hseqs. simpl.
  match goal with |- context [for_loop 0 _ ?b ?s] => set (body := b); set (s0 := s) end.
  assert (Hinit : forall i, anchors_ok i s0).
  { intros i. unfold s0. repeat split; try done; unfold lst_size in *; simpl in *; lia. }
  assert (HP : anchors_ok (Z.max 0 (msa_length msa)) (for_loop 0 (msa_length msa) body s0)).
  { destruct (Z.le_gt_cases 0 (msa_length msa)) as [HL|HL].
    - rewrite Z.max_r by lia. apply (for_loop_inv anchors_ok); [done|apply Hinit|].
      intros i st Hi Hok. unfold body. apply coord_map_column_ok; [lia|done].
    - rewrite for_loop_empty by lia. apply Hinit. }
  destruct (for_loop 0 (msa_length msa) body s0) as [[[ml sl] j] last].
  exists ml, sl, j, last. done.
Qed.

(** C1: for an alignment with an explicit matrix and any reference row,
    msa_build_coord_map returns a map, and for every sequence position [p]
    with 1 <= p <= seq_len of that map, msa_map_seq_to_msa returns an
    alignment position from which msa_map_msa_to_seq returns [p]. *)
Theorem coord_map_round_trip msa rs refseq :
  msa_seqs msa = Some rs ->
  exists map,
    msa_build_coord_map msa refseq = Ok map /\
    forall p, 1 <= p <= seq_len map ->
      exists q, msa_map_seq_to_msa map p = Ok q /\ q <> -1 /\
                msa_map_msa_to_seq map q = Ok p /\
                msa_map_seq_to_seq (Some map) (Some map) p = Ok p.
Proof.
  intros Hseqs.
  destruct (msa_build_coord_map_anchors msa rs refseq Hseqs)
    as (ml & sl & j & last & Hbuild & Hok).
  eexists. split; [exact Hbuild|]. simpl. intros p Hp.
  destruct (anchored_round_trip _ _ _ _ _ p Hok Hp) as (q & Hq & Hrange & Hback).
  assert (HL : Z.max 0 (msa_length msa) = msa_length msa) by lia.
  rewrite HL in *.
  exists q. split; [done|]. split; [lia|]. split; [done|].
  unfold msa_map_seq_to_seq. rewrite Hq. simpl.
  destruct (Z.eqb_spec q (-1)); [lia|done].
Qed.

End CoordinateMapFacts.

(** ** Characters read from a file *)

(** C4 (amended): in the PHYLIP/MPM loop of msa_new_from_file a character
    that is not white space and that, after the optional upper-casing, is
    not a dot, not a gap, not a missing-data symbol and not in the alphabet
    is stored as 'N' when alphabetic and ends the read with a fatal error
    otherwise; a dot that is not in the alphabet is stored as the first
    missing-data symbol.  In msa_read_fasta a character that after the
    upper-casing is alphabetic and not in the alphabet is stored as 'N'. *)
Theorem unrecognized_characters (msa : MSA) (do_toupper : bool) (c : ascii) :
  let base := if do_toupper then Chr.toupper c else c in
  Chr.isspace c = false ->
  (base = "."%char -> msa_inv_alphabet msa "." = -1 ->
     new_from_file_char msa do_toupper c = Ok (Some (missing0 msa))) /\
  (base <> "."%char -> base <> GAP_CHAR -> msa_is_missing msa base = 0 ->
   msa_inv_alphabet msa base = -1 ->
     (Chr.isalpha base = true ->
        new_from_file_char msa do_toupper c = Ok (Some "N"%char)) /\
     (Chr.isalpha base = false ->
        exists msg, new_from_file_char msa do_toupper c = Fatal msg)) /\
  (Chr.isalpha base = true -> msa_inv_alphabet msa base = -1 ->
     read_fasta_char msa do_toupper c = "N"%char).
Proof.
  intros base Hsp. unfold new_from_file_char, read_fasta_char. rewrite Hsp.
  fold base. clearbody base. unfold Chr.eqb. split; [|split].
  - intros -> ->. done.
  - intros Hdot Hgap Hmis Hinv.
    destruct (Ascii.eqb_spec base "."); [done|].
    destruct (Ascii.eqb_spec base GAP_CHAR); [done|].
    rewrite Hmis, Hinv. simpl. split.
    + by intros ->.
    + intros ->. eauto.
  - intros Halpha Hinv.
    destruct (Ascii.eqb_spec base ".") as [E|_].
    { rewrite E in Halpha. done. }
    simpl. by rewrite Halpha, Hinv.
Qed.

(** ** Coding-sequence cleaning *)

Lemma clean_blocks_rejected fuel rs nseqs ref refseq min_ncodons beg end_ s :
  clean_blocks fuel rs nseqs ref refseq min_ncodons beg end_ 1 s = Some (Ok s).
Proof. destruct fuel; simpl; by rewrite andb_false_r. Qed.

Lemma nongap_from_end ref L i : L <= i -> nongap_from ref L i = [].
Proof. intros H. unfold nongap_from. by rewrite seqZ_nil by lia. Qed.

Lemma nongap_from_step ref L i :
  i < L ->
  nongap_from ref L i =
    if getc ref i =c? GAP_CHAR then nongap_from ref L (i + 1)
    else getc ref i :: nongap_from ref L (i + 1).
Proof.
  intros H. unfold nongap_from. rewrite seqZ_cons by lia. simpl.
  replace (Z.succ i) with (i + 1) by lia.
  replace (Z.pred (L - i)) with (L - (i + 1)) by lia.
  by destruct (getc ref i =c? GAP_CHAR).
Qed.

(** The forward scan stops on the first character of the row at or after
    [i] that is not a gap, or at [L]. *)
Lemma skip_gaps_fwd_spec ref L n i :
  L - i <= Z.of_nat n -> i <= L ->
  let i' := skip_gaps_fwd n ref L i in
  i <= i' <= L /\ nongap_from ref L i = nongap_from ref L i' /\
  (i' < L -> (getc ref i' =c? GAP_CHAR) = false).
Proof.
  revert i. induction n as [|n IH]; intros i Hn Hi; simpl.
  - split; [lia|]. split; [done|]. lia.
  - destruct (Z.ltb_spec i L) as [Hlt|Hge]; simpl.
    + destruct (getc ref i =c? GAP_CHAR) eqn:E.
      * destruct (IH (i + 1)) as (H1 & H2 & H3); [lia..|].
        split; [lia|]. split; [|done].
        rewrite nongap_from_step by done. by rewrite E.
      * split; [lia|]. split; [done|]. done.
    + split; [lia|]. split; [done|]. lia.
Qed.

(** When the search for the start codon does not end on the last column,
    [tmp_codon] holds the first three characters of the row that are not
    gaps. *)
Lemma find_start_reads_codon ref L b0 c0 c1 c2 i beg tmp :
  0 <= L ->
  find_start [0; 1; 2] ref L (0, b0, [c0; c1; c2]) = (i, beg, tmp) ->
  i <> L ->
  exists a b c rest, nongap_from ref L 0 = a :: b :: c :: rest /\ tmp = [a; b; c].
Proof.
  intros HL Hrun Hend. simpl in Hrun.
  rewrite Z.sub_0_r in Hrun.
  destruct (skip_gaps_fwd_spec ref L (Z.to_nat L) 0) as (Ha1 & Ha2 & Ha3); [lia..|].
  set (i1 := skip_gaps_fwd (Z.to_nat L) ref L 0) in *.
  destruct (Z.eqb_spec i1 L) as [E|E]; [congruence|].
  destruct (skip_gaps_fwd_spec ref L (Z.to_nat (L - (i1 + 1))) (i1 + 1))
    as (Hb1 & Hb2 & Hb3); [lia..|].
  set (i2 := skip_gaps_fwd (Z.to_nat (L - (i1 + 1))) ref L (i1 + 1)) in *.
  destruct (Z.eqb_spec i2 L) as [E2|E2]; [congruence|].
  destruct (skip_gaps_fwd_spec ref L (Z.to_nat (L - (i2 + 1))) (i2 + 1))
    as (Hc1 & Hc2 & Hc3); [lia..|].
  set (i3 := skip_gaps_fwd (Z.to_nat (L - (i2 + 1))) ref L (i2 + 1)) in *.
  destruct (Z.eqb_spec i3 L) as [E3|E3]; [congruence|].
  injection Hrun as _ _ <-.
  exists (getc ref i1), (getc ref i2), (getc ref i3), (nongap_from ref L (i3 + 1)).
  split; [|done].
  rewrite Ha2, (nongap_from_step ref L i1), Ha3 by lia.
  rewrite Hb2, (nongap_from_step ref L i2), Hb3 by lia.
  rewrite Hc2, (nongap_from_step ref L i3), Hc3 by lia. done.
Qed.

Lemma str_append_assoc (a b c : string) :
  ((a ++ b) ++ c)%string = (a ++ (b ++ c))%string.
Proof.
  induction a as [|x a IH]; [reflexivity|].
  change (String x ((a ++ b) ++ c)%string = String x (a ++ (b ++ c))%string).
  by rewrite IH.
Qed.

Lemma str_append_empty (a : string) : (a ++ "")%string = a.
Proof.
  induction a as [|x a IH]; [reflexivity|].
  change (String x (a ++ "")%string = String x a). by rewrite IH.
Qed.

(** Both column scans of the block loop move forward. *)
Lemma next_codon_column_ge n rs nseqs ref end_ st :
  st.1.1.1 <= (next_codon_column n rs nseqs ref end_ st).1.1.1.
Proof.
  revert st. induction n as [|n IH]; intros [[[i frame] gapless] ngaps]; simpl; [lia|].
  destruct (i <=? end_); [|simpl; lia].
  destruct (count_gaps rs nseqs i (ngaps, gapless)) as [ngaps' gapless'].
  destruct (gapless' && (frame =? 2)); [simpl; lia|].
  destruct (if negb (getc ref (i + 1) =c? GAP_CHAR)
            then if frame + 1 =? 3 then (0, true) else (frame + 1, gapless')
            else (frame, gapless')) as [f' g'].
  specialize (IH (i + 1, f', g', ngaps')). simpl in IH. lia.
Qed.

Lemma next_gap_column_ge n rs nseqs end_ i :
  i <= next_gap_column n rs nseqs end_ i.
Proof.
  revert i. induction n as [|n IH]; intros i; simpl; [lia|].
  destruct (i <=? end_); [|lia].
  destruct (all_rows _ nseqs); [|lia].
  specialize (IH (i + 1)). lia.
Qed.

(** An iteration of the block loop that is followed by another one has
    moved [i] forward. *)
Lemma clean_block_progress rs nseqs ref refseq min_ncodons beg end_ s s' :
  clean_block rs nseqs ref refseq min_ncodons beg end_ s = Ok (Continue, s') ->
  cs_i s < cs_i s'.
Proof.
  unfold clean_block. intros Hrun.
  destruct (assert _ _); simpl in Hrun; [|done].
  pose proof (next_codon_column_ge (Z.to_nat (end_ - cs_i s + 1)) rs nseqs ref end_
                (cs_i s, cs_frame s, true, cs_ngaps s)) as Hge1.
  destruct (next_codon_column _ _ _ _ _ _) as [[[i1 frame1] g1] ngaps1].
  simpl in Hge1.
  destruct (end_ <? i1); [done|].
  destruct (assert _ _); simpl in Hrun; [|done].
  pose proof (next_gap_column_ge (Z.to_nat (end_ - i1)) rs nseqs end_ (i1 + 1)) as Hge2.
  set (i2 := next_gap_column _ _ _ _ _) in *.
  assert (Hsize : 1 <= Z.quot (i2 - (i1 - 2)) 3).
  { rewrite Z.quot_div_nonneg by lia.
    apply Z.div_le_lower_bound; lia. }
  set (blk_size := Z.quot (i2 - (i1 - 2)) 3) in *.
  repeat case_match; simplify_eq; simpl; lia.
Qed.

Lemma clean_blocks_total rs nseqs ref refseq min_ncodons beg end_ retval fuel :
  forall s, end_ - cs_i s + 1 <= Z.of_nat fuel ->
    clean_blocks fuel rs nseqs ref refseq min_ncodons beg end_ retval s <> None.
Proof.
  induction fuel as [|fuel IH]; intros s Hfuel; simpl.
  - destruct (Z.leb_spec (cs_i s) end_); [lia|done].
  - destruct ((cs_i s <=? end_) && negb (retval =? 1)); [|done].
    destruct (clean_block rs nseqs ref refseq min_ncodons beg end_ s)
      as [[[] s']|] eqn:Hblock; [done| |done].
    apply IH. apply clean_block_progress in Hblock. lia.
Qed.

Section CodingCleanFacts.
Variable before_last_fifth : Z -> Z -> Z -> bool.

(** C3: when the first three characters of the reference row that are not
    gaps are not a start codon (or there are no three such characters),
    msa_coding_clean returns 1, leaves the alignment as it was, and the error
    string is the old one followed by the message about the start codon and
    by nothing else than, possibly, the message about the stop codon. *)
Theorem msa_coding_clean_no_start_codon u msa rs refseq min_ncodons errstr :
  msa_seqs msa = Some rs ->
  0 <= msa_length msa ->
  begins_with_start_codon (get [] rs refseq) (msa_length msa) = false ->
  exists rest,
    msa_coding_clean before_last_fifth u msa refseq min_ncodons errstr =
      Some (Ok (1, msa,
                (errstr ++ "Reference sequence does not begin with start codon.  "
                 ++ rest)%string)) /\
    (rest = EmptyString \/
     rest = "Reference sequence does not end with stop codon."%string).
Proof.
  intros Hseqs HL Hno. unfold msa_coding_clean. rewrite Hseqs.
  destruct (indet_tmp_codon u) as [[c0 c1] c2].
  destruct (find_start [0; 1; 2] (get [] rs refseq) (msa_length msa)
              (0, indet_beg u, [c0; c1; c2])) as [[i beg] tmp] eqn:Hstart.
  assert (Hrej : (i =? msa_length msa) || negb (IS_START tmp 0) = true).
  { destruct (Z.eqb_spec i (msa_length msa)) as [|Hne]; [done|]. simpl.
    destruct (find_start_reads_codon _ _ _ _ _ _ _ _ _ HL Hstart Hne)
      as (a & b & c & rest & Hcod & ->).
    unfold begins_with_start_codon in Hno. rewrite Hcod in Hno. by rewrite Hno. }
  rewrite Hrej.
  destruct (find_stop _ _ _ _) as [[i' end_] tmp'].
  destruct ((i' =? beg) || negb (IS_STOP tmp' 0)).
  - rewrite clean_blocks_rejected. simpl.
    eexists. split; [|right; reflexivity].
    unfold str_append_charstr. by rewrite str_append_assoc.
  - rewrite clean_blocks_rejected. simpl.
    exists EmptyString. split; [|by left].
    unfold str_append_charstr. by rewrite str_append_empty.
Qed.

(** C10: msa_coding_clean always comes to an end, and whenever it returns
    a value other than 0 that value is 1, the alignment (length, rows and all
    other fields) is the one it was called with, and the error string is the
    old one with text appended. *)
Theorem msa_coding_clean_atomic u msa refseq min_ncodons errstr :
  (exists outcome,
     msa_coding_clean before_last_fifth u msa refseq min_ncodons errstr = Some outcome) /\
  (forall r msa' errstr',
     msa_coding_clean before_last_fifth u msa refseq min_ncodons errstr
       = Some (Ok (r, msa', errstr')) ->
     r <> 0 ->
     r = 1 /\ msa' = msa /\ exists appended, errstr' = (errstr ++ appended)%string).
Proof.
  split.
  - destruct (msa_coding_clean before_last_fifth u msa refseq min_ncodons errstr)
      as [outcome|] eqn:Hrun; [by exists outcome|].
    exfalso. revert Hrun. unfold msa_coding_clean.
    destruct (msa_seqs msa) as [rs|]; [|done].
    destruct (indet_tmp_codon u) as [[c0 c1] c2].
    destruct (find_start _ _ _ _) as [[i beg] tmp].
    destruct ((i =? msa_length msa) || negb (IS_START tmp 0));
      destruct (find_stop _ _ _ _) as [[i' end_] tmp'];
      destruct ((i' =? beg) || negb (IS_STOP tmp' 0));
      match goal with
      | |- context [clean_blocks ?f ?a ?b ?c ?d ?e ?g ?h ?r ?s] =>
          pose proof (clean_blocks_total a b c d e g h r f s) as Htot;
          destruct (clean_blocks f a b c d e g h r s) as [[s1|msg]|];
            [|done|exfalso; apply Htot; [simpl; lia|done]]
      end;
      repeat case_match; done.
  - intros r msa' errstr' Hrun Hr. revert Hrun. unfold msa_coding_clean.
    unfold str_append_charstr, str_append_int.
    destruct (msa_seqs msa) as [rs|]; [|done].
    destruct (indet_tmp_codon u) as [[c0 c1] c2].
    destruct (find_start _ _ _ _) as [[i beg] tmp].
    destruct ((i =? msa_length msa) || negb (IS_START tmp 0));
      destruct (find_stop _ _ _ _) as [[i' end_] tmp'];
      destruct ((i' =? beg) || negb (IS_STOP tmp' 0));
      destruct (clean_blocks _ _ _ _ _ _ _ _ _ _) as [[s1|msg]|]; try done;
      simpl; repeat case_match; intros; simplify_eq; try done;
      (split; [done|]; split; [done|]);
      rewrite ?str_append_assoc; eauto.
Qed.

(** C2 (amended): on a one-row alignment whose row is the string ATGAAATAA,
    with min_ncodons = 1, msa_coding_clean returns 0 and leaves the error
    string alone; the cleaned alignment has length 6 and its row reads
    ATGAAA, the stop codon being dropped because KEEP_STOP_CODONS is 0 (the
    buffer keeps the two characters behind the new terminator). *)
Theorem msa_coding_clean_atg_aaa_taa u msa errstr :
  msa_seqs msa = Some [cstr "ATGAAATAA"] ->
  msa_nseqs msa = 1 -> msa_length msa = 9 ->
  msa_coding_clean before_last_fifth u msa 0 1 errstr
    = Some (Ok (0,
                set_length (set_seqs msa (Some [cstr "ATGAAA" ++ cstr "AA"])) 6,
                errstr)).
Proof.
  intros Hseqs Hnseqs Hlength. destruct u as [b e [[c0 c1] c2]].
  unfold msa_coding_clean. rewrite Hseqs, Hnseqs, Hlength. reflexivity.
Qed.

End CodingCleanFacts.

(** On ATGAAATAA the call succeeds, but what it keeps is not the whole
    row: the result has 6 columns, not 9. *)
Lemma msa_coding_clean_drops_stop_codon :
  ~ exists msa' errstr',
      msa_coding_clean before_last_fifth_exact indet_zero atg_aaa_taa 0 1 ""
        = Some (Ok (0, msa', errstr')) /\
      msa_length msa' = 9.
Proof.
  intros (msa' & errstr' & Hrun & Hlen).
  vm_compute in Hrun. injection Hrun as <- _. vm_compute in Hlen. done.
Qed.

(** ** Category labelling *)

Lemma lst_get_set_eq (l : list Z) i x :
  0 <= i < lst_size l -> lst_get_int (set l i x) i = x.
Proof. intros. by apply get_set_eq. Qed.

Lemma lst_get_set_ne (l : list Z) i j x :
  i <> j -> lst_get_int (set l i x) j = lst_get_int l j.
Proof. intros. by apply get_set_ne. Qed.

(** The initialisation loop zeroes the first [L] cells. *)
Lemma categories_zeroed (cats : list Z) L :
  L <= lst_size cats ->
  let cats' := for_loop 0 L (fun i categories => set categories i 0) cats in
  lst_size cats' = lst_size cats /\
  forall x, 0 <= x < L -> lst_get_int cats' x = 0.
Proof.
  intros HL. destruct (Z.le_gt_cases 0 L) as [H0|H0]; cycle 1.
  { simpl. rewrite for_loop_empty by lia. split; [done|]. intros; lia. }
  apply (for_loop_inv (fun i (t : list Z) =>
           lst_size t = lst_size cats /\ forall x, 0 <= x < i -> lst_get_int t x = 0));
    [done| |].
  - split; [done|]. intros; lia.
  - intros i t Hi [Hlen Hz]. split.
    + unfold lst_size in *. by rewrite length_set.
    + intros x Hx. destruct (Z.eq_dec x i) as [->|Hne].
      * apply lst_get_set_eq. lia.
      * rewrite lst_get_set_ne by lia. apply Hz. lia.
Qed.

(** The labelling loop of a category that is not cyclic: a covered cell
    takes the category if its label has no precedence or a higher number;
    all other cells stay. *)
Lemma label_noncyclic_loop (prec cats : list Z) cat s e :
  1 <= s -> s <= e + 1 -> e <= lst_size cats ->
  let cats' :=
    for_loop s (e + 1)
      (fun j categories =>
         let oldprec := lst_get_int prec (lst_get_int categories (j - 1)) in
         let newprec := lst_get_int prec cat in
         if (oldprec =? -1) || (negb (newprec =? -1) && (newprec <? oldprec))
         then set categories (j - 1) cat
         else categories)
      cats in
  lst_size cats' = lst_size cats /\
  forall x, lst_get_int cats' x =
    if (s - 1 <=? x) && (x <? e)
    then if (lst_get_int prec (lst_get_int cats x) =? -1)
            || (negb (lst_get_int prec cat =? -1)
                && (lst_get_int prec cat <? lst_get_int prec (lst_get_int cats x)))
         then cat else lst_get_int cats x
    else lst_get_int cats x.
Proof.
  intros Hs Hse He.
  pose (P := fun j (t : list Z) =>
    lst_size t = lst_size cats /\
    forall x, lst_get_int t x =
      if (s - 1 <=? x) && (x <? j - 1)
      then if (lst_get_int prec (lst_get_int cats x) =? -1)
              || (negb (lst_get_int prec cat =? -1)
                  && (lst_get_int prec cat <? lst_get_int prec (lst_get_int cats x)))
           then cat else lst_get_int cats x
      else lst_get_int cats x).
  match goal with |- let _ := for_loop _ _ ?b _ in _ => set (body := b) end.
  cut (P (e + 1) (for_loop s (e + 1) body cats)).
  { intros [H1 H2]. split; [done|]. intros x. rewrite H2.
    by replace (e + 1 - 1) with e by lia. }
  apply for_loop_inv; [done| |]; unfold P, body.
  - split; [done|]. intros x.
    destruct (Z.leb_spec (s - 1) x), (Z.ltb_spec x (s - 1)); try done; lia.
  - intros j t Hj [Hlen Hget]. cbv zeta.
    assert (Hcur : lst_get_int t (j - 1) = lst_get_int cats (j - 1)).
    { rewrite Hget. destruct (Z.ltb_spec (j - 1) (j - 1)); [lia|].
      by rewrite andb_false_r. }
    rewrite Hcur.
    set (win := (lst_get_int prec (lst_get_int cats (j - 1)) =? -1)
                || (negb (lst_get_int prec cat =? -1)
                    && (lst_get_int prec cat
                        <? lst_get_int prec (lst_get_int cats (j - 1))))).
    assert (Hwin : forall x, x = j - 1 ->
      ((lst_get_int prec (lst_get_int cats x) =? -1)
       || (negb (lst_get_int prec cat =? -1)
           && (lst_get_int prec cat <? lst_get_int prec (lst_get_int cats x)))) = win).
    { by intros x ->. }
    clearbody win. split.
    + destruct win; [|done]. unfold lst_size in *. by rewrite length_set.
    + intros x. replace (j + 1 - 1) with j by lia.
      destruct (Z.eq_dec x (j - 1)) as [Hx|Hx].
      * rewrite (Hwin x Hx). subst x.
        destruct (Z.leb_spec (s - 1) (j - 1)); [|lia].
        destruct (Z.ltb_spec (j - 1) j); [|lia]. simpl.
        destruct win; [|done]. apply lst_get_set_eq. lia.
      * assert (Hsame : lst_get_int (if win then set t (j - 1) cat else t) x
                        = lst_get_int t x).
        { destruct win; [|done]. by rewrite lst_get_set_ne by lia. }
        rewrite Hsame, Hget.
        destruct (Z.leb_spec (s - 1) x), (Z.ltb_spec x (j - 1)), (Z.ltb_spec x j);
          simpl; try done; lia.
Qed.

Section LabellingFacts.
Context {SS : SuffStats} {CM : CategoryMaps}.

Lemma covers_noncyclic_inv cm L feat col :
  covers_noncyclic cm L feat col = true ->
  let cat := cm_get_category cm (feat_feature feat) in
  ((cat =? 0) && negb (String.eqb (feat_feature feat) BACKGD_CAT_NAME) = false) /\
  (start_cat_no (get {| feature_types := []; start_cat_no := 0; end_cat_no := 0 |}
                   (ranges cm) cat)
   =? end_cat_no (get {| feature_types := []; start_cat_no := 0; end_cat_no := 0 |}
                    (ranges cm) cat)) = true /\
  precedence cm cat <> -1 /\
  1 <= feat_start feat <= col /\ col <= feat_end feat < L.
Proof.
  unfold covers_noncyclic. intros H.
  repeat (apply andb_prop in H as [H ?]).
  split; [|split; [done|split; [|lia]]].
  - destruct (cm_get_category cm (feat_feature feat) =? 0); [|done].
    simpl in *. by destruct (String.eqb _ _).
  - by destruct (Z.eqb_spec (precedence cm (cm_get_category cm (feat_feature feat))) (-1)).
Qed.

(** What labelling with one covering feature does to the cell of [col]. *)
Lemma label_feature_covering cm L cats err feat col :
  L <= lst_size cats ->
  covers_noncyclic cm L feat col = true ->
  exists cats',
    label_feature cm L (cats, err) feat = (cats', err) /\
    lst_size cats' = lst_size cats /\
    lst_get_int cats' (col - 1) =
      let cat := cm_get_category cm (feat_feature feat) in
      let old := lst_get_int cats (col - 1) in
      if (precedence cm old =? -1) || (precedence cm cat <? precedence cm old)
      then cat else old.
Proof.
  intros HL Hcov.
  destruct (covers_noncyclic_inv _ _ _ _ Hcov) as (Hknown & Hflat & Hprec & Hs & He).
  unfold label_feature. rewrite Hknown.
  destruct (Z.eqb_spec (feat_start feat) (-1)); [lia|].
  destruct (Z.eqb_spec (feat_end feat) (-1)); [lia|].
  destruct (Z.leb_spec L (feat_end feat)); [lia|]. simpl.
  rewrite Hflat.
  destruct (label_noncyclic_loop (labelling_precedence cm) cats
              (cm_get_category cm (feat_feature feat))
              (feat_start feat) (feat_end feat)) as [Hsize Hcell]; [lia..|].
  eexists. split; [reflexivity|]. split; [exact Hsize|].
  rewrite Hcell. unfold precedence in *.
  destruct (Z.leb_spec (feat_start feat - 1) (col - 1)); [|lia].
  destruct (Z.ltb_spec (col - 1) (feat_end feat)); [|lia]. simpl.
  destruct (Z.eqb_spec (lst_get_int (labelling_precedence cm)
                          (cm_get_category cm (feat_feature feat))) (-1)); [done|].
  done.
Qed.

(** C6 (amended): two features of categories that are not cyclic and have
    a precedence cover a column and end before the last column of the
    alignment; the first named has the lower precedence number, and the
    background category 0 has no precedence or a higher number than that.
    Then, in whichever order the two features come, msa_label_categories
    leaves that column labelled with the category of the first. *)
Theorem label_overlapping_features msa cm f1 f2 col :
  categories_fit msa = true ->
  covers_noncyclic cm (msa_length msa) f1 col = true ->
  covers_noncyclic cm (msa_length msa) f2 col = true ->
  precedence cm (cm_get_category cm (feat_feature f1))
    < precedence cm (cm_get_category cm (feat_feature f2)) ->
  (precedence cm 0 = -1 \/
   precedence cm (cm_get_category cm (feat_feature f1)) < precedence cm 0) ->
  category_at (msa_label_categories msa {| features := [f1; f2] |} cm).1 (col - 1)
    = cm_get_category cm (feat_feature f1) /\
  category_at (msa_label_categories msa {| features := [f2; f1] |} cm).1 (col - 1)
    = cm_get_category cm (feat_feature f1).
Proof.
  intros Hfit Hcov1 Hcov2 Hlt Hbg.
  set (c1 := cm_get_category cm (feat_feature f1)) in *.
  set (c2 := cm_get_category cm (feat_feature f2)) in *.
  destruct (covers_noncyclic_inv _ _ _ _ Hcov1) as (_ & _ & Hp1 & Hs1 & He1).
  destruct (covers_noncyclic_inv _ _ _ _ Hcov2) as (_ & _ & Hp2 & _ & _).
  fold c1 in Hp1. fold c2 in Hp2.
  set (cats0 := match msa_categories msa with
                | Some c => c
                | None => replicate (Z.to_nat (msa_length msa)) 0
                end).
  assert (Hsize0 : msa_length msa <= lst_size cats0).
  { unfold cats0, categories_fit, lst_size in *.
    destruct (msa_categories msa); [lia|]. rewrite length_replicate. lia. }
  destruct (categories_zeroed cats0 (msa_length msa) Hsize0) as [Hsz Hzero].
  set (zeroed := for_loop 0 (msa_length msa) (fun i categories => set categories i 0)
                   cats0) in *.
  assert (Hcell0 : lst_get_int zeroed (col - 1) = 0) by (apply Hzero; lia).
  assert (Hrun : forall fa fb,
    covers_noncyclic cm (msa_length msa) fa col = true ->
    covers_noncyclic cm (msa_length msa) fb col = true ->
    exists cats2,
      msa_categories (msa_label_categories msa {| features := [fa; fb] |} cm).1
        = Some cats2 /\
      lst_get_int cats2 (col - 1) =
        let ca := cm_get_category cm (feat_feature fa) in
        let cb := cm_get_category cm (feat_feature fb) in
        let va := if (precedence cm 0 =? -1) || (precedence cm ca <? precedence cm 0)
                  then ca else 0 in
        if (precedence cm va =? -1) || (precedence cm cb <? precedence cm va)
        then cb else va).
  { intros fa fb Ha Hb.
    destruct (label_feature_covering cm (msa_length msa) zeroed [] fa col)
      as (catsA & HrunA & HszA & HcellA); [lia|done|].
    destruct (label_feature_covering cm (msa_length msa) catsA [] fb col)
      as (catsB & HrunB & HszB & HcellB); [lia|done|].
    exists catsB. split.
    - unfold msa_label_categories. cbn -[label_feature for_loop replicate Z.to_nat].
      fold cats0. fold zeroed.
      rewrite HrunA, HrunB. by destruct (msa_ss msa).
    - rewrite HcellB, HcellA, Hcell0. done. }
  unfold category_at. split.
  - destruct (Hrun f1 f2 Hcov1 Hcov2) as (cats2 & -> & Hcell). simpl.
    rewrite Hcell. cbv zeta. fold c1 c2.
    assert (Hfirst : (precedence cm 0 =? -1) || (precedence cm c1 <? precedence cm 0)
                     = true).
    { destruct Hbg as [->|Hbg]; [done|].
      destruct (Z.ltb_spec (precedence cm c1) (precedence cm 0)); [|lia].
      by rewrite orb_true_r. }
    rewrite Hfirst.
    destruct (Z.eqb_spec (precedence cm c1) (-1)); [done|].
    destruct (Z.ltb_spec (precedence cm c2) (precedence cm c1)); [lia|done].
  - destruct (Hrun f2 f1 Hcov2 Hcov1) as (cats2 & -> & Hcell). simpl.
    rewrite Hcell. cbv zeta. fold c1 c2.
    destruct ((precedence cm 0 =? -1) || (precedence cm c2 <? precedence cm 0)).
    + destruct (Z.eqb_spec (precedence cm c2) (-1)); [done|].
      destruct (Z.ltb_spec (precedence cm c1) (precedence cm c2)); [|lia].
      by rewrite orb_true_r.
    + destruct Hbg as [->|Hbg]; [done|].
      destruct (Z.ltb_spec (precedence cm c1) (precedence cm 0)); [|lia].
      by rewrite orb_true_r.
Qed.

End LabellingFacts.

(** ** Concatenation *)

(** Writing [v j] into column [k] of every row [j]: the rows keep their
    sizes and only column [k] changes. *)
Lemma write_column_spec (rs : list (list ascii)) (v : Z -> ascii) k :
  (forall j, 0 <= j < Z.of_nat (List.length rs) ->
     0 <= k < Z.of_nat (List.length (get [] rs j))) ->
  let rs' := for_loop 0 (Z.of_nat (List.length rs))
               (fun j rs => set rs j (set (get [] rs j) k (v j))) rs in
  List.length rs' = List.length rs /\
  forall j, 0 <= j < Z.of_nat (List.length rs) ->
    List.length (get [] rs' j) = List.length (get [] rs j) /\
    forall c, seq_at rs' j c = if c =? k then v j else seq_at rs j c.
Proof.
  intros Hk.
  pose (P := fun (n : Z) (t : list (list ascii)) =>
    List.length t = List.length rs /\
    (forall j, n <= j -> get [] t j = get [] rs j) /\
    (forall j, 0 <= j < n ->
       List.length (get [] t j) = List.length (get [] rs j) /\
       forall c, seq_at t j c = if c =? k then v j else seq_at rs j c)).
  cut (P (Z.of_nat (List.length rs))
         (for_loop 0 (Z.of_nat (List.length rs))
            (fun j rs => set rs j (set (get [] rs j) k (v j))) rs)).
  { intros (H1 & _ & H3). split; [done|]. exact H3. }
  apply for_loop_inv; [lia| |].
  - split; [done|]. split; [done|]. intros; lia.
  - intros n t Hn (Hlen & Hrest & Hdone).
    assert (Hrow : get [] t n = get [] rs n) by (apply Hrest; lia).
    split; [by rewrite length_set|]. split.
    { intros j Hj. rewrite get_set_ne by lia. apply Hrest. lia. }
    intros j Hj. destruct (Z.eq_dec j n) as [->|Hne].
    + unfold seq_at. rewrite get_set_eq by lia. rewrite Hrow.
      split; [by rewrite length_set|]. intros c.
      destruct (Z.eqb_spec c k) as [->|Hc].
      * apply get_set_eq. apply Hk. lia.
      * by rewrite get_set_ne by lia.
    + unfold seq_at. rewrite get_set_ne by lia. apply Hdone. lia.
Qed.

Lemma explicit_wf_rows m :
  explicit_wf m = true ->
  exists rs, msa_seqs m = Some rs /\
    msa_nseqs m = Z.of_nat (List.length rs) /\ 0 <= msa_length m /\
    forall j, 0 <= j < Z.of_nat (List.length rs) ->
      msa_length m <= Z.of_nat (List.length (get [] rs j)).
Proof.
  intros Hwf. unfold explicit_wf in Hwf.
  destruct (msa_seqs m) as [rs|] eqn:Hseqs; [|done].
  exists rs. split; [done|].
  destruct (explicit_wf_inv m rs Hseqs) as (Hn & Hl & Hrows).
  { unfold explicit_wf. by rewrite Hseqs. }
  split; [done|]. split; [done|]. intros j Hj.
  rewrite Forall_forall in Hrows. apply Hrows.
  apply list_elem_of_lookup. exists (Z.to_nat j). by apply get_inside.
Qed.

Section ConcatenationFacts.
Variable uninit : ascii.

Lemma srealloc_chars_spec buf n :
  0 <= n ->
  List.length (srealloc_chars uninit buf n) = Z.to_nat n /\
  forall c, 0 <= c < n -> c < Z.of_nat (List.length buf) ->
    getc (srealloc_chars uninit buf n) c = getc buf c.
Proof.
  intros Hn. unfold srealloc_chars. split.
  - rewrite length_app, length_take, length_replicate. lia.
  - intros c Hc Hc'. unfold get. destruct (Z.ltb_spec c 0); [lia|].
    rewrite lookup_app_l by (rewrite length_take; lia).
    by rewrite lookup_take_lt by lia.
Qed.

(** The allocation part keeps the length, the row count and the first
    [length] characters of every row, and leaves every row buffer with room
    for the source and the terminator. *)
Lemma concatenate_alloc_spec A n :
  explicit_wf A = true -> alloc_wf A = true -> 0 <= n ->
  let A1 := concatenate_alloc uninit A n in
  msa_length A1 = msa_length A /\ msa_nseqs A1 = msa_nseqs A /\
  exists rs1, msa_seqs A1 = Some rs1 /\
    Z.of_nat (List.length rs1) = msa_nseqs A /\
    forall j, 0 <= j < msa_nseqs A ->
      msa_length A + n + 1 <= Z.of_nat (List.length (get [] rs1 j)) /\
      forall c, 0 <= c < msa_length A -> seq_at rs1 j c = seq_at (rows_of A) j c.
Proof.
  intros Hwf Halloc Hn.
  destruct (explicit_wf_rows A Hwf) as (rs & Hseqs & Hnseqs & Hlen & Hrows).
  unfold alloc_wf in Halloc. rewrite Hseqs in Halloc. simpl in Halloc.
  apply andb_prop in Halloc as [Hfit Hbuf].
  assert (Hbuf' : forall j, 0 <= j < Z.of_nat (List.length rs) ->
            msa_alloc_len A + 1 <= Z.of_nat (List.length (get [] rs j))).
  { intros j Hj. rewrite forallb_forall in Hbuf.
    assert (Hin : In (get [] rs j) rs).
    { apply list_elem_of_In, list_elem_of_lookup. exists (Z.to_nat j).
      by apply get_inside. }
    specialize (Hbuf _ Hin). lia. }
  unfold concatenate_alloc, rows_of. rewrite Hseqs. cbv zeta. rewrite !Hseqs. simpl.
  destruct (Z.eqb_spec (msa_alloc_len A) 0) as [Hzero|Hnz].
  - (* fresh buffers; the alignment is empty *)
    simpl. split; [done|]. split; [done|].
    rewrite Hnseqs.
    pose proof (for_loop_rows [] (fun _ => smalloc_chars uninit (msa_length A + n + 1))
                  rs) as E.
    cbv beta in E. rewrite E. clear E.
    eexists. split; [reflexivity|]. split; [by rewrite length_map|].
    intros j Hj. split; [|intros; lia].
    unfold get. destruct (Z.ltb_spec j 0); [lia|].
    rewrite list_lookup_fmap.
    destruct (lookup_lt_is_Some_2 rs (Z.to_nat j)) as [r ->]; [lia|]. simpl.
    unfold smalloc_chars. rewrite length_replicate. lia.
  - destruct (Z.ltb_spec (msa_alloc_len A) (msa_length A + n)) as [Hgrow|Hroom].
    + simpl. split; [done|]. split; [done|].
      rewrite Hnseqs.
      rewrite (for_loop_rows []
                 (fun r => srealloc_chars uninit r (msa_alloc_len A + n * 2 + 1))).
      eexists. split; [reflexivity|]. split; [by rewrite length_map|].
      intros j Hj.
      assert (Hrow : get [] (List.map (fun r => srealloc_chars uninit r
                                          (msa_alloc_len A + n * 2 + 1)) rs) j
                     = srealloc_chars uninit (get [] rs j)
                         (msa_alloc_len A + n * 2 + 1)).
      { unfold get. destruct (Z.ltb_spec j 0); [lia|].
        rewrite list_lookup_fmap.
        by destruct (lookup_lt_is_Some_2 rs (Z.to_nat j)) as [r ->]; [lia|]. }
      destruct (srealloc_chars_spec (get [] rs j) (msa_alloc_len A + n * 2 + 1))
        as [Hsz Hkeep]; [lia|].
      unfold seq_at. rewrite Hrow. split; [lia|].
      intros c Hc. apply Hkeep; [lia|]. specialize (Hrows j ltac:(lia)). lia.
    + split; [done|]. split; [done|].
      exists rs. split; [done|]. split; [lia|].
      intros j Hj. split; [|done]. specialize (Hbuf' j ltac:(lia)). lia.
Qed.

(** The copy loops: behind the first [length] columns of the aggregate
    come the columns of the source, then the terminator. *)
Lemma concatenate_copy_spec A1 B rs1 :
  msa_seqs A1 = Some rs1 ->
  Z.of_nat (List.length rs1) = msa_nseqs A1 ->
  0 <= msa_length A1 -> 0 <= msa_length B ->
  (forall j, 0 <= j < msa_nseqs A1 ->
     msa_length A1 + msa_length B + 1 <= Z.of_nat (List.length (get [] rs1 j))) ->
  let A2 := concatenate_copy false A1 B in
  msa_length A2 = msa_length A1 + msa_length B /\ msa_nseqs A2 = msa_nseqs A1 /\
  forall j, 0 <= j < msa_nseqs A1 -> forall c,
    seq_at (rows_of A2) j c =
      if c =? msa_length A1 + msa_length B then Chr.NUL
      else if (msa_length A1 <=? c) && (c <? msa_length A1 + msa_length B)
           then seq_at (rows_of B) j (c - msa_length A1)
           else seq_at rs1 j c.
Proof.
  intros Hseqs Hn Hm Hnb Hroom.
  set (m := msa_length A1) in *. set (n := msa_length B) in *.
  unfold concatenate_copy. cbv zeta. fold m n. rewrite Hseqs. simpl.
  rewrite <- Hn in *.
  set (bs := default [] (msa_seqs B)).
  pose (P := fun (i : Z) (rs : list (list ascii)) =>
    List.length rs = List.length rs1 /\
    forall j, 0 <= j < Z.of_nat (List.length rs1) ->
      List.length (get [] rs j) = List.length (get [] rs1 j) /\
      forall c, seq_at rs j c =
        if (m <=? c) && (c <? m + i) then seq_at bs j (c - m) else seq_at rs1 j c).
  match goal with
  | |- context [for_loop 0 n ?b rs1] => set (outer := b)
  end.
  assert (HP : P n (for_loop 0 n outer rs1)).
  { apply for_loop_inv; [done| |].
    - split; [done|]. intros j Hj. split; [done|]. intros c.
      destruct (Z.leb_spec m c), (Z.ltb_spec c (m + 0)); try done; lia.
    - intros i rs Hi (Hlen & Hrows). unfold outer.
      destruct (write_column_spec rs (fun j => seq_at bs j i) (i + m)) as [Hlen' Hcol].
      { intros j Hj. destruct (Hrows j ltac:(lia)) as [Hsz _].
        specialize (Hroom j ltac:(lia)). lia. }
      rewrite Hlen in Hlen', Hcol. cbv zeta in Hlen', Hcol.
      split; [exact Hlen'|]. intros j Hj.
      destruct (Hcol j Hj) as [Hsz Hcell]. destruct (Hrows j Hj) as [Hsz0 Hcell0].
      split; [congruence|]. intros c. rewrite Hcell, Hcell0.
      destruct (Z.eqb_spec c (i + m)) as [->|Hne].
      + destruct (Z.leb_spec m (i + m)); [|lia].
        destruct (Z.ltb_spec (i + m) (m + (i + 1))); [|lia]. simpl.
        f_equal. lia.
      + destruct (Z.leb_spec m c), (Z.ltb_spec c (m + i)),
          (Z.ltb_spec c (m + (i + 1))); simpl; try done; lia. }
  destruct HP as (Hlen & Hrows).
  set (rs2 := for_loop 0 n outer rs1) in *.
  destruct (write_column_spec rs2 (fun _ => Chr.NUL) (m + n)) as [Hlen' Hcol].
  { intros j Hj. destruct (Hrows j ltac:(lia)) as [Hsz _].
    specialize (Hroom j ltac:(lia)). lia. }
  rewrite Hlen in Hlen', Hcol. cbv zeta in Hlen', Hcol.
  split; [done|]. split; [done|]. intros j Hj c.
  unfold rows_of. simpl.
  destruct (Hcol j Hj) as [_ Hcell]. rewrite Hcell.
  destruct (Z.eqb_spec c (m + n)); [done|].
  destruct (Hrows j Hj) as [_ Hcell0]. apply Hcell0.
Qed.

(** C8: for two distinct alignments A and B with explicit matrices and the
    same number of rows, msa_concatenate returns, leaves B as it was, and
    leaves A with the sum of the two lengths, its first columns those of A
    before the call, its next columns those of B, and a terminator after
    them. *)
Theorem msa_concatenate_appends (h : heap) (a b : nat) (A B : MSA) :
  a <> b -> h !! a = Some A -> h !! b = Some B ->
  explicit_wf A = true -> alloc_wf A = true -> explicit_wf B = true ->
  msa_nseqs A = msa_nseqs B ->
  exists h' A',
    msa_concatenate uninit a b h = Ok h' /\
    h' !! b = Some B /\ h' !! a = Some A' /\
    msa_length A' = msa_length A + msa_length B /\
    msa_nseqs A' = msa_nseqs A /\
    forall j, 0 <= j < msa_nseqs A ->
      (forall i, 0 <= i < msa_length A ->
         seq_at (rows_of A') j i = seq_at (rows_of A) j i) /\
      (forall i, 0 <= i < msa_length B ->
         seq_at (rows_of A') j (msa_length A + i) = seq_at (rows_of B) j i) /\
      seq_at (rows_of A') j (msa_length A') = Chr.NUL.
Proof.
  intros Hab Ha Hb HwfA HallocA HwfB Hnseqs.
  destruct (explicit_wf_rows B HwfB) as (bs & HseqsB & _ & HlenB & _).
  destruct (explicit_wf_rows A HwfA) as (rs & HseqsA & _ & HlenA & _).
  destruct (concatenate_alloc_spec A (msa_length B) HwfA HallocA HlenB)
    as (Hl1 & Hn1 & rs1 & Hseqs1 & Hrs1 & Hrows1).
  set (A1 := concatenate_alloc uninit A (msa_length B)) in *.
  destruct (concatenate_copy_spec A1 B rs1 Hseqs1) as (Hl2 & Hn2 & Hcells);
    [lia|lia|done| |].
  { intros j Hj. rewrite Hl1. apply Hrows1. lia. }
  set (A2 := concatenate_copy false A1 B) in *.
  exists (<[a := A2]> h), A2.
  split; [|split; [|split; [|split; [|split]]]].
  - unfold msa_concatenate. rewrite Ha, Hb.
    destruct (Z.eqb_spec (msa_nseqs A) (msa_nseqs B)); [|done]. simpl.
    rewrite bool_decide_eq_false_2 by done.
    rewrite HseqsB. simpl. done.
  - by rewrite lookup_insert_ne.
  - by rewrite lookup_insert_eq.
  - lia.
  - lia.
  - intros j Hj. rewrite Hl1 in Hcells. split; [|split].
    + intros i Hi. rewrite Hcells by lia.
      destruct (Z.eqb_spec i (msa_length A + msa_length B)); [lia|].
      destruct (Z.leb_spec (msa_length A) i); [lia|]. simpl.
      apply Hrows1; lia.
    + intros i Hi. rewrite Hcells by lia.
      destruct (Z.eqb_spec (msa_length A + i) (msa_length A + msa_length B)); [lia|].
      destruct (Z.leb_spec (msa_length A) (msa_length A + i)); [|lia].
      destruct (Z.ltb_spec (msa_length A + i) (msa_length A + msa_length B)); [|lia].
      simpl. f_equal. lia.
    + rewrite Hl2, Hl1, Hcells by lia. by rewrite Z.eqb_refl.
Qed.

End ConcatenationFacts.

(** ** Row reordering *)

(** msa_get_seq_idx yields the first row that bears the name, or -1 when
    no row does. *)
Lemma msa_get_seq_idx_spec msa name :
  let idx := msa_get_seq_idx msa name in
  (idx = -1 /\
   forall k, 0 <= k < msa_nseqs msa -> get EmptyString (msa_names msa) k <> name) \/
  (0 <= idx < msa_nseqs msa /\ get EmptyString (msa_names msa) idx = name /\
   forall k, 0 <= k < idx -> get EmptyString (msa_names msa) k <> name).
Proof.
  unfold msa_get_seq_idx.
  destruct (Z.le_gt_cases 0 (msa_nseqs msa)) as [Hn|Hn]; cycle 1.
  { rewrite for_loop_empty by lia. left. split; [done|]. intros; lia. }
  apply (for_loop_inv (fun i retval =>
    (retval = -1 /\
     forall k, 0 <= k < i -> get EmptyString (msa_names msa) k <> name) \/
    (0 <= retval < i /\ get EmptyString (msa_names msa) retval = name /\
     forall k, 0 <= k < retval -> get EmptyString (msa_names msa) k <> name)));
    [done| |].
  - left. split; [done|]. intros; lia.
  - intros i retval Hi [[-> Hnone]|(Hr & Hname & Hfirst)].
    + simpl. destruct (String.eqb_spec name (get EmptyString (msa_names msa) i)) as [E|E].
      * right. split; [lia|]. split; [done|]. exact Hnone.
      * left. split; [done|]. intros k Hk.
        destruct (Z.eq_dec k i) as [->|]; [congruence|]. apply Hnone. lia.
    + destruct (Z.ltb_spec retval 0); [lia|]. right. split; [lia|]. done.
Qed.

Lemma msa_get_seq_idx_found msa name :
  0 <= msa_get_seq_idx msa name ->
  msa_get_seq_idx msa name < msa_nseqs msa /\
  get EmptyString (msa_names msa) (msa_get_seq_idx msa name) = name.
Proof.
  intros H. destruct (msa_get_seq_idx_spec msa name) as [[E _]|(Hr & Hn & _)].
  - lia.
  - split; [lia|done].
Qed.

Lemma get_NoDup {A} (d : A) (l : list A) i j :
  NoDup l ->
  0 <= i < Z.of_nat (List.length l) -> 0 <= j < Z.of_nat (List.length l) ->
  get d l i = get d l j -> i = j.
Proof.
  intros Hnd Hi Hj Heq.
  pose proof (get_inside d l i Hi) as Hli.
  pose proof (get_inside d l j Hj) as Hlj. rewrite <- Heq in Hlj.
  pose proof (NoDup_lookup l _ _ _ Hnd Hli Hlj). lia.
Qed.

Lemma get_elem_of {A} (d : A) (l : list A) i :
  0 <= i < Z.of_nat (List.length l) -> get d l i ∈ l.
Proof.
  intros Hi. apply list_elem_of_lookup. exists (Z.to_nat i). by apply get_inside.
Qed.

Lemma elem_of_get {A} (d : A) (l : list A) x :
  x ∈ l -> exists i, 0 <= i < Z.of_nat (List.length l) /\ get d l i = x.
Proof.
  intros Hx. apply list_elem_of_lookup in Hx as [n Hn].
  pose proof (lookup_lt_Some _ _ _ Hn) as Hlt.
  exists (Z.of_nat n). split; [lia|].
  unfold get. destruct (Z.ltb_spec (Z.of_nat n) 0); [lia|].
  by rewrite Nat2Z.id, Hn.
Qed.

(** With pairwise distinct row names, the row found for the name of row [x]
    is [x]. *)
Lemma msa_get_seq_idx_own msa x :
  NoDup (msa_names msa) ->
  msa_nseqs msa = Z.of_nat (List.length (msa_names msa)) ->
  0 <= x < msa_nseqs msa ->
  msa_get_seq_idx msa (get EmptyString (msa_names msa) x) = x.
Proof.
  intros Hnd Hn Hx.
  destruct (msa_get_seq_idx_spec msa (get EmptyString (msa_names msa) x))
    as [[_ Hnone]|(Hr & Hname & _)].
  - by destruct (Hnone x Hx).
  - apply (get_NoDup EmptyString (msa_names msa)); [done|lia..|done].
Qed.

(** A cell of [covered] is set only for a row that some target name was
    looked up to. *)
Lemma reorder_scan_covered msa target nto cov :
  for_loop_r 0 (Z.of_nat (List.length target)) (reorder_scan msa target)
    (replicate (List.length target) 0, replicate (Z.to_nat (msa_nseqs msa)) 0)
    = Ok (nto, cov) ->
  forall x, lst_get_int cov x <> 0 ->
    exists t, 0 <= t < Z.of_nat (List.length target) /\
              msa_get_seq_idx msa (get EmptyString target t) = x.
Proof.
  intros Hrun.
  pose (P := fun i (st : list Z * list Z) =>
              forall x, lst_get_int st.2 x <> 0 ->
                exists t, 0 <= t < i /\
                          msa_get_seq_idx msa (get EmptyString target t) = x).
  change (P (Z.of_nat (List.length target)) (nto, cov)).
  eapply for_loop_r_inv_ok; [| | |exact Hrun]; unfold P; [lia| |].
  - simpl. intros x Hx. exfalso. apply Hx.
    unfold lst_get_int, get. destruct (x <? 0); [done|].
    destruct (replicate _ 0 !! Z.to_nat x) as [v|] eqn:E; [|done].
    apply lookup_replicate in E as [-> _]. done.
  - intros i [nto' cov'] [nto'' cov''] Hi Hinv Hbody x Hx. simpl in *.
    set (idx := msa_get_seq_idx msa (get EmptyString target i)) in *.
    destruct (0 <=? idx) eqn:Hidx.
    + destruct (lst_get_int cov' idx =? 0); simpl in Hbody; [|done].
      injection Hbody as <- <-.
      destruct (Z.eq_dec x idx) as [->|Hne].
      * exists i. split; [lia|done].
      * unfold lst_get_int in Hx. rewrite get_set_ne in Hx by done.
        destruct (Hinv x Hx) as (t & Ht & Ht'). exists t. split; [lia|done].
    + injection Hbody as <- <-.
      destruct (Hinv x Hx) as (t & Ht & Ht'). exists t. split; [lia|done].
Qed.

Lemma lst_get_replicate_zero n x : lst_get_int (replicate n 0) x = 0.
Proof.
  unfold lst_get_int, get. destruct (x <? 0); [done|].
  destruct (replicate n 0 !! Z.to_nat x) as [v|] eqn:E; [|done].
  by apply lookup_replicate in E as [-> _].
Qed.

(** With distinct row names and distinct target names the first loop passes
    its assertion every time: it fills [new_to_old] with the row found for
    each target name and marks exactly the rows found. *)
Lemma reorder_scan_ok msa target :
  NoDup target ->
  0 <= msa_nseqs msa ->
  exists nto cov,
    for_loop_r 0 (Z.of_nat (List.length target)) (reorder_scan msa target)
      (replicate (List.length target) 0, replicate (Z.to_nat (msa_nseqs msa)) 0)
      = Ok (nto, cov) /\
    List.length nto = List.length target /\
    (forall t, 0 <= t < Z.of_nat (List.length target) ->
       lst_get_int nto t = msa_get_seq_idx msa (get EmptyString target t)) /\
    (forall t, 0 <= t < Z.of_nat (List.length target) ->
       0 <= msa_get_seq_idx msa (get EmptyString target t) ->
       lst_get_int cov (msa_get_seq_idx msa (get EmptyString target t)) <> 0).
Proof.
  intros Hnd Hn.
  pose (P := fun i (st : list Z * list Z) =>
    List.length st.1 = List.length target /\
    List.length st.2 = Z.to_nat (msa_nseqs msa) /\
    (forall t, 0 <= t < i ->
       lst_get_int st.1 t = msa_get_seq_idx msa (get EmptyString target t)) /\
    (forall x, lst_get_int st.2 x <> 0 ->
       exists t, 0 <= t < i /\ msa_get_seq_idx msa (get EmptyString target t) = x) /\
    (forall t, 0 <= t < i ->
       0 <= msa_get_seq_idx msa (get EmptyString target t) ->
       lst_get_int st.2 (msa_get_seq_idx msa (get EmptyString target t)) <> 0)).
  destruct (for_loop_r_inv P 0 (Z.of_nat (List.length target))
              (reorder_scan msa target)
              (replicate (List.length target) 0,
               replicate (Z.to_nat (msa_nseqs msa)) 0))
    as ([nto cov] & Hrun & Hlen & _ & Hnto & _ & Hcov); [lia| | |].
  - unfold P. simpl. rewrite !length_replicate.
    split; [done|]. split; [done|]. split; [intros; lia|]. split; [|intros; lia].
    intros x Hx. by rewrite lst_get_replicate_zero in Hx.
  - intros i [nto cov] Hi (Hlen & Hlenc & Hnto & Hsome & Hcov). simpl in *.
    set (idx := msa_get_seq_idx msa (get EmptyString target i)).
    destruct (Z.leb_spec 0 idx) as [Hidx|Hidx].
    + destruct (msa_get_seq_idx_found msa _ Hidx) as [Hlt Hname]. fold idx in Hlt, Hname.
      assert (Hfree : lst_get_int cov idx = 0).
      { destruct (Z.eq_dec (lst_get_int cov idx) 0) as [|Hne]; [done|].
        destruct (Hsome idx Hne) as (t & Ht & Hidx').
        destruct (msa_get_seq_idx_found msa (get EmptyString target t)) as [_ Hname'];
          [lia|].
        rewrite Hidx' in Hname'.
        assert (t = i); [|lia].
        apply (get_NoDup EmptyString target); [done|lia|lia|congruence]. }
      rewrite Hfree. simpl. eexists. split; [reflexivity|].
      unfold P. simpl. rewrite !length_set.
      split; [done|]. split; [done|]. split; [|split].
      * intros t Ht. destruct (Z.eq_dec t i) as [->|Hne].
        -- apply lst_get_set_eq. unfold lst_size. lia.
        -- rewrite lst_get_set_ne by lia. apply Hnto. lia.
      * intros x Hx. destruct (Z.eq_dec x idx) as [->|Hne].
        -- exists i. split; [lia|done].
        -- rewrite lst_get_set_ne in Hx by lia.
           destruct (Hsome x Hx) as (t & Ht & Ht'). exists t. split; [lia|done].
      * intros t Ht Hpos.
        destruct (Z.eq_dec (msa_get_seq_idx msa (get EmptyString target t)) idx)
          as [->|Hne].
        -- rewrite lst_get_set_eq; [done|]. unfold lst_size. lia.
        -- rewrite lst_get_set_ne by lia. apply Hcov; [|done].
           destruct (Z.eq_dec t i) as [->|]; [done|lia].
    + eexists. split; [reflexivity|].
      unfold P. simpl. rewrite !length_set.
      split; [done|]. split; [done|]. split; [|split].
      * intros t Ht. destruct (Z.eq_dec t i) as [->|Hne].
        -- apply lst_get_set_eq. unfold lst_size. lia.
        -- rewrite lst_get_set_ne by lia. apply Hnto. lia.
      * intros x Hx. destruct (Hsome x Hx) as (t & Ht & Ht').
        exists t. split; [lia|done].
      * intros t Ht Hpos. apply Hcov; [|done].
        destruct (Z.eq_dec t i) as [->|]; [fold idx in Hpos|]; lia.
  - exists nto, cov. done.
Qed.

Section ReorderingFacts.
Context {SS : SuffStats}.

(** A target order that lacks the name of a row: the call ends in a fatal
    error. *)
Lemma msa_reorder_rows_omitted msa target x :
  0 <= x < msa_nseqs msa ->
  get EmptyString (msa_names msa) x ∉ target ->
  exists msg, msa_reorder_rows msa target = Fatal msg.
Proof.
  intros Hx Hout. unfold msa_reorder_rows.
  destruct (for_loop_r 0 (Z.of_nat (List.length target)) (reorder_scan msa target) _)
    as [[nto cov]|msg] eqn:Hscan; [|simpl; eauto].
  simpl.
  assert (Hfree : lst_get_int cov x = 0).
  { destruct (Z.eq_dec (lst_get_int cov x) 0) as [|Hne]; [done|].
    destruct (reorder_scan_covered msa target nto cov Hscan x Hne) as (t & Ht & Hidx).
    destruct (msa_get_seq_idx_found msa (get EmptyString target t)) as [_ Hname];
      [lia|].
    rewrite Hidx in Hname. exfalso. apply Hout. rewrite Hname.
    by apply get_elem_of. }
  destruct (for_loop_r_fatal 0 (msa_nseqs msa) (reorder_check msa cov) tt x Hx)
    as [msg Hfatal]; [|rewrite Hfatal; simpl; eauto].
  intros []. unfold reorder_check. rewrite Hfree. simpl. eauto.
Qed.

(** A target order without repetition that has every row name: the call
    returns, the rows are moved to the places of their names, and every other
    place gets a row of missing data as long as the alignment. *)
Lemma msa_reorder_rows_superset msa rs target :
  msa_seqs msa = Some rs ->
  msa_nseqs msa = Z.of_nat (List.length (msa_names msa)) ->
  NoDup (msa_names msa) -> NoDup target ->
  (forall name, name ∈ msa_names msa -> name ∈ target) ->
  exists msa' rs',
    msa_reorder_rows msa target = Ok msa' /\
    msa_nseqs msa' = Z.of_nat (List.length target) /\
    msa_length msa' = msa_length msa /\
    msa_names msa' = target /\
    msa_seqs msa' = Some rs' /\ List.length rs' = List.length target /\
    forall t, 0 <= t < Z.of_nat (List.length target) ->
      (forall x, 0 <= x < msa_nseqs msa ->
         get EmptyString (msa_names msa) x = get EmptyString target t ->
         get [] rs' t = get [] rs x) /\
      (get EmptyString target t ∉ msa_names msa ->
       get [] rs' t = missing_row msa).
Proof.
  intros Hseqs Hn HndN HndT Hsub.
  destruct (reorder_scan_ok msa target HndT) as (nto & cov & Hscan & Hlen & Hnto & Hcov);
    [lia|].
  unfold msa_reorder_rows. rewrite Hscan. simpl.
  (* every row is covered *)
  assert (Hcheck : for_loop_r 0 (msa_nseqs msa) (reorder_check msa cov) tt = Ok tt).
  { destruct (for_loop_r_inv (fun _ _ => True) 0 (msa_nseqs msa)
                (reorder_check msa cov) tt) as ([] & Hcheck & _); [lia|done| |done].
    intros i [] Hi _. exists tt. split; [|done].
    unfold reorder_check.
    destruct (elem_of_get EmptyString target (get EmptyString (msa_names msa) i))
      as (t & Ht & Hname).
    { apply Hsub, get_elem_of. lia. }
    assert (Hidx : msa_get_seq_idx msa (get EmptyString target t) = i).
    { rewrite Hname. by apply msa_get_seq_idx_own. }
    specialize (Hcov t Ht). rewrite Hidx in Hcov. specialize (Hcov ltac:(lia)).
    by destruct (Z.eqb_spec (lst_get_int cov i) 0). }
  rewrite Hcheck. simpl.
  set (msa0 := match msa_seqs msa, msa_ss msa with
               | Some _, Some _ => set_ss msa None
               | _, _ => msa
               end).
  assert (H0 : msa_seqs msa0 = Some rs /\ msa_names msa0 = msa_names msa /\
               msa_length msa0 = msa_length msa /\ missing_row msa0 = missing_row msa).
  { unfold msa0. rewrite Hseqs. by destruct (msa_ss msa). }
  destruct H0 as (Hseqs0 & Hnames0 & Hlen0 & Hmiss0).
  rewrite Hnames0.
  destruct (for_loop_fill EmptyString
              (fun i => if 0 <=? lst_get_int nto i
                        then get EmptyString (msa_names msa) (lst_get_int nto i)
                        else get EmptyString target i)
              (List.length target)) as [HlenN HgetN].
  cbv zeta in HlenN, HgetN.
  set (new_names := for_loop 0 (Z.of_nat (List.length target)) _
                      (replicate (List.length target) EmptyString)) in *.
  assert (HnamesEq : new_names = target).
  { apply (buffer_ext EmptyString); [done|]. rewrite HlenN. intros t Ht.
    rewrite HgetN by done. rewrite Hnto by done.
    destruct (Z.leb_spec 0 (msa_get_seq_idx msa (get EmptyString target t))) as [Hp|Hp];
      [|done].
    by destruct (msa_get_seq_idx_found msa _ Hp). }
  simpl. rewrite Hseqs0. simpl.
  destruct (for_loop_fill []
              (fun i => if 0 <=? lst_get_int nto i
                        then get [] rs (lst_get_int nto i)
                        else missing_row (set_names msa0 new_names))
              (List.length target)) as [HlenS HgetS].
  cbv zeta in HlenS, HgetS.
  set (new_seqs := for_loop 0 (Z.of_nat (List.length target)) _
                     (replicate (List.length target) [])) in *.
  eexists. exists new_seqs. split; [reflexivity|]. simpl.
  split; [done|]. split; [done|]. split; [done|]. split; [done|]. split; [done|].
  intros t Ht. rewrite HgetS by done. rewrite Hnto by done. split.
  - intros x Hx Hname.
    assert (Hidx : msa_get_seq_idx msa (get EmptyString target t) = x).
    { rewrite <- Hname. by apply msa_get_seq_idx_own. }
    rewrite Hidx. by destruct (Z.leb_spec 0 x); [|lia].
  - intros Hout.
    destruct (Z.leb_spec 0 (msa_get_seq_idx msa (get EmptyString target t))) as [Hp|Hp].
    + destruct (msa_get_seq_idx_found msa _ Hp) as [Hlt Hname].
      exfalso. apply Hout. rewrite <- Hname. apply get_elem_of. lia.
    + unfold missing_row, missing0 in *. simpl. exact Hmiss0.
Qed.

(** C7: with a target order that lacks the name of a row, msa_reorder_rows
    ends in a fatal error.  With pairwise distinct row names and a target
    order without repetition that has them all, it returns; the alignment
    then has one row per target name, in the target order; the row of a name
    of the alignment is the row that bore it; the row of any other name is
    the missing-data character repeated once per column, then the
    terminator. *)
Theorem msa_reorder_rows_spec msa rs target :
  msa_seqs msa = Some rs ->
  msa_nseqs msa = Z.of_nat (List.length (msa_names msa)) ->
  (forall x, 0 <= x < msa_nseqs msa ->
     get EmptyString (msa_names msa) x ∉ target ->
     exists msg, msa_reorder_rows msa target = Fatal msg) /\
  (NoDup (msa_names msa) -> NoDup target ->
   (forall name, name ∈ msa_names msa -> name ∈ target) ->
   exists msa' rs',
     msa_reorder_rows msa target = Ok msa' /\
     msa_nseqs msa' = Z.of_nat (List.length target) /\
     msa_length msa' = msa_length msa /\
     msa_names msa' = target /\
     msa_seqs msa' = Some rs' /\ List.length rs' = List.length target /\
     forall t, 0 <= t < Z.of_nat (List.length target) ->
       (forall x, 0 <= x < msa_nseqs msa ->
          get EmptyString (msa_names msa) x = get EmptyString target t ->
          get [] rs' t = get [] rs x) /\
       (get EmptyString target t ∉ msa_names msa ->
        get [] rs' t
          = replicate (Z.to_nat (msa_length msa)) (missing0 msa) ++ [Chr.NUL])).
Proof.
  intros Hseqs Hn. split.
  - intros x Hx Hout. by apply (msa_reorder_rows_omitted msa target x).
  - intros HndN HndT Hsub. by apply msa_reorder_rows_superset.
Qed.

End ReorderingFacts.

(** ** The theorems at concrete inputs *)

Lemma coord_map_round_trip_witness :
  msa_seqs two_rows = Some [cstr "AC-GT"; cstr "A-CGT"] /\
  exists map,
    msa_build_coord_map (SS := ss_absent) two_rows 1 = Ok map /\
    forall p, 1 <= p <= seq_len map ->
      exists q, msa_map_seq_to_msa map p = Ok q /\ q <> -1 /\
                msa_map_msa_to_seq map q = Ok p /\
                msa_map_seq_to_seq (Some map) (Some map) p = Ok p.
Proof.
  split; [reflexivity|].
  apply (coord_map_round_trip (SS := ss_absent) two_rows
           [cstr "AC-GT"; cstr "A-CGT"] 1).
  reflexivity.
Defined.

Lemma msa_coding_clean_atg_aaa_taa_witness :
  exists msa',
    msa_coding_clean before_last_fifth_exact indet_zero atg_aaa_taa 0 1 ""
      = Some (Ok (0, msa', EmptyString)) /\
    msa_length msa' = 6 /\ msa_seqs msa' = Some [cstr "ATGAAA" ++ cstr "AA"].
Proof.
  eexists. split.
  - apply (msa_coding_clean_atg_aaa_taa before_last_fifth_exact indet_zero
             atg_aaa_taa ""); reflexivity.
  - split; reflexivity.
Defined.

Lemma msa_coding_clean_no_start_codon_witness :
  exists rest,
    msa_coding_clean before_last_fifth_exact indet_zero aaa_aaa_taa 0 1 "" =
      Some (Ok (1, aaa_aaa_taa,
                ("" ++ "Reference sequence does not begin with start codon.  "
                 ++ rest)%string)) /\
    (rest = EmptyString \/
     rest = "Reference sequence does not end with stop codon."%string).
Proof.
  apply (msa_coding_clean_no_start_codon before_last_fifth_exact indet_zero
           aaa_aaa_taa [cstr "AAAAAATAA"] 0 1 "");
    [reflexivity|vm_compute; discriminate|reflexivity].
Defined.

Lemma unrecognized_characters_witness :
  new_from_file_char two_rows true "x" = Ok (Some "N"%char) /\
  (exists msg, new_from_file_char two_rows true "#" = Fatal msg) /\
  read_fasta_char two_rows true "x" = "N"%char.
Proof.
  destruct (unrecognized_characters two_rows true "x" eq_refl) as (_ & Hx & Hf).
  destruct (unrecognized_characters two_rows true "#" eq_refl) as (_ & Hh & _).
  split; [|split].
  - apply Hx; [discriminate|discriminate|reflexivity|reflexivity|reflexivity].
  - apply Hh; [discriminate|discriminate|reflexivity|reflexivity|reflexivity].
  - apply Hf; reflexivity.
Defined.

Lemma msa_reverse_compl_twice_witness :
  exists m1 m2,
    msa_reverse_compl (SS := ss_absent) two_rows = Ok m1 /\
    msa_reverse_compl (SS := ss_absent) m1 = Ok m2 /\
    msa_seqs m2 = Some [cstr "AC-GT"; cstr "A-CGT"] /\
    msa_nseqs m2 = msa_nseqs two_rows /\ msa_length m2 = msa_length two_rows.
Proof.
  apply (msa_reverse_compl_twice (SS := ss_absent) two_rows
           [cstr "AC-GT"; cstr "A-CGT"]);
    [reflexivity|reflexivity|right; reflexivity].
Defined.

Lemma label_overlapping_features_witness :
  category_at
    (msa_label_categories (SS := ss_absent) (CM := cm_by_feature_types) two_rows
       {| features := [feat_cds; feat_utr] |} cm_two_types).1 (2 - 1) = 1 /\
  category_at
    (msa_label_categories (SS := ss_absent) (CM := cm_by_feature_types) two_rows
       {| features := [feat_utr; feat_cds] |} cm_two_types).1 (2 - 1) = 1.
Proof.
  apply (label_overlapping_features (SS := ss_absent) (CM := cm_by_feature_types)
           two_rows cm_two_types feat_cds feat_utr 2);
    [reflexivity|reflexivity|reflexivity|reflexivity|left; reflexivity].
Defined.

Lemma msa_reorder_rows_spec_witness :
  (exists msg, msa_reorder_rows (SS := ss_absent) two_rows ["a"%string] = Fatal msg) /\
  exists msa' rs',
    msa_reorder_rows (SS := ss_absent) two_rows ["b"; "c"; "a"]%string = Ok msa' /\
    msa_nseqs msa' = 3 /\ msa_names msa' = ["b"; "c"; "a"]%string /\
    msa_seqs msa' = Some rs' /\
    get [] rs' 0 = cstr "A-CGT" /\ get [] rs' 1 = cstr "*****" /\
    get [] rs' 2 = cstr "AC-GT".
Proof.
  split.
  - destruct (msa_reorder_rows_spec (SS := ss_absent) two_rows
                [cstr "AC-GT"; cstr "A-CGT"] ["a"%string] eq_refl eq_refl)
      as [Hfail _].
    apply (Hfail 1); [cbn; lia|].
    vm_compute. intros Hin. apply list_elem_of_In in Hin as [Hin|[]]. discriminate.
  - destruct (msa_reorder_rows_spec (SS := ss_absent) two_rows
                [cstr "AC-GT"; cstr "A-CGT"] ["b"; "c"; "a"]%string eq_refl eq_refl)
      as [_ Hok].
    destruct Hok as (msa' & rs' & Hrun & Hn & _ & Hnames & Hseqs & _ & Hrows).
    + apply (bool_decide_unpack _). by vm_compute.
    + apply (bool_decide_unpack _). by vm_compute.
    + intros name Hname. apply (bool_decide_unpack _).
      apply list_elem_of_In in Hname as [<-|[<-|[]]]; by vm_compute.
    + exists msa', rs'. split; [exact Hrun|]. split; [exact Hn|].
      split; [exact Hnames|]. split; [exact Hseqs|].
      split; [|split].
      * apply (proj1 (Hrows 0 ltac:(cbn; lia)) 1);
          [cbn; lia|reflexivity].
      * apply (proj2 (Hrows 1 ltac:(cbn; lia))).
        intros Hin. apply list_elem_of_In in Hin as [Hin|[Hin|[]]]; discriminate.
      * apply (proj1 (Hrows 2 ltac:(cbn; lia)) 0);
          [cbn; lia|reflexivity].
Defined.

Lemma msa_concatenate_appends_witness :
  exists h' A',
    msa_concatenate "?" 0 1 two_alignments = Ok h' /\
    h' !! 1%nat = Some two_rows_more /\ h' !! 0%nat = Some A' /\
    msa_length A' = 5 + 3 /\ msa_nseqs A' = 2 /\
    forall j, 0 <= j < 2 ->
      (forall i, 0 <= i < 5 -> seq_at (rows_of A') j i = seq_at (rows_of two_rows) j i) /\
      (forall i, 0 <= i < 3 ->
         seq_at (rows_of A') j (5 + i) = seq_at (rows_of two_rows_more) j i) /\
      seq_at (rows_of A') j (msa_length A') = Chr.NUL.
Proof.
  apply (msa_concatenate_appends "?" two_alignments 0 1 two_rows two_rows_more);
    [discriminate|reflexivity|reflexivity|reflexivity|reflexivity|reflexivity|reflexivity].
Defined.

Lemma msa_strip_gaps_any_idempotent_witness :
  exists m1 rs1,
    msa_strip_gaps (SS := ss_absent) two_rows STRIP_ANY_GAPS = Ok m1 /\
    msa_seqs m1 = Some rs1 /\
    gap_free (msa_nseqs m1) rs1 (msa_length m1) /\
    msa_strip_gaps (SS := ss_absent) m1 STRIP_ANY_GAPS = Ok m1.
Proof.
  apply (msa_strip_gaps_any_idempotent (SS := ss_absent) two_rows
           [cstr "AC-GT"; cstr "A-CGT"]).
  reflexivity.
Defined.

(** ** Where the code departs from the specification *)

(** A dot that the alphabet lacks is neither a gap nor a missing-data
    symbol nor alphabetic, and the PHYLIP/MPM loop stores it as '*' instead of
    ending the read; a '#' under the same conditions is stored as it is by
    msa_read_fasta. *)
Lemma unrecognized_dot_and_hash :
  ("."%char <> GAP_CHAR /\ msa_is_missing two_rows "." = 0 /\
   msa_inv_alphabet two_rows "." = -1 /\ Chr.isalpha "." = false /\
   new_from_file_char two_rows true "." = Ok (Some "*"%char)) /\
  ("#"%char <> GAP_CHAR /\ msa_is_missing two_rows "#" = 0 /\
   msa_inv_alphabet two_rows "#" = -1 /\ Chr.isalpha "#" = false /\
   read_fasta_char two_rows true "#" = "#"%char).
Proof. repeat split; (discriminate || reflexivity). Qed.

(** An alignment with an explicit matrix and category labels, but without
    sufficient statistics: msa_reverse_compl stops on its assertion, so
    there is no result of applying it twice. *)
Lemma msa_reverse_compl_labelled_aborts :
  explicit_wf two_rows_labelled = true /\
  ~ exists m1 m2,
      msa_reverse_compl (SS := ss_absent) two_rows_labelled = Ok m1 /\
      msa_reverse_compl (SS := ss_absent) m1 = Ok m2 /\
      msa_seqs m2 = msa_seqs two_rows_labelled.
Proof.
  split; [reflexivity|]. intros (m1 & m2 & Hrun & _). vm_compute in Hrun. discriminate.
Qed.

(** Two overlapping features of categories 1 and 2, with precedence 2 and
    3, in a category map that gives the background category precedence 1:
    the column they share keeps the label 0 in both orders. *)
Lemma label_background_precedence :
  covers_noncyclic (CM := cm_by_feature_types) cm_background_first 5 feat_cds 2 = true /\
  covers_noncyclic (CM := cm_by_feature_types) cm_background_first 5 feat_utr 2 = true /\
  precedence cm_background_first 1 = 2 /\ precedence cm_background_first 2 = 3 /\
  category_at
    (msa_label_categories (SS := ss_absent) (CM := cm_by_feature_types) two_rows
       {| features := [feat_cds; feat_utr] |} cm_background_first).1 (2 - 1) <> 1 /\
  category_at
    (msa_label_categories (SS := ss_absent) (CM := cm_by_feature_types) two_rows
       {| features := [feat_utr; feat_cds] |} cm_background_first).1 (2 - 1) <> 1.
Proof. repeat split; (reflexivity || (vm_compute; discriminate)). Qed.

(** A feature whose end is the last column is taken for out of range: the
    test is [feat->end >= msa->length] on coordinates that start at 1, so the
    column stays unlabelled and a warning is printed. *)
Example label_last_column_skipped :
  msa_label_categories (SS := ss_absent) (CM := cm_by_feature_types) two_rows
    {| features := [feat_last_column] |} cm_two_types
  = (set_ncats (set_categories two_rows (Some [0; 0; 0; 0; 0])) 2,
     [Warning "WARNING: ignoring out-of-range feature";
      PrintedFeature feat_last_column]).
Proof. reflexivity. Qed.

(** * Properties of the rest of msa.c *)

(** ** Reverse complement of a segment *)

(** The swap loop shared by the two segment functions, for any map [f]
    applied to the cells as they trade places: the cells [a..b] end up
    reversed and mapped, the others stay. *)
Lemma swap_loop_spec {A} (d : A) (f : A -> A) (s : list A) a b :
  0 <= a <= b -> b < Z.of_nat (List.length s) ->
  let t := for_loop a (a + Z.quot (b - a) 2 + 1)
             (fun i s =>
                let tmp := f (get d s i) in
                let s := set s i (f (get d s (b - i + a))) in
                set s (b - i + a) tmp) s in
  List.length t = List.length s /\
  forall k, 0 <= k < Z.of_nat (List.length s) ->
    get d t k = if (a <=? k) && (k <=? b) then f (get d s (a + b - k)) else get d s k.
Proof.
  intros Hab Hb.
  set (mid := a + Z.quot (b - a) 2).
  assert (Hmid : 2 * mid <= a + b < 2 * mid + 2).
  { unfold mid. rewrite Z.quot_div_nonneg by lia.
    pose proof (Z.div_mod (b - a) 2 ltac:(lia)).
    pose proof (Z.mod_pos_bound (b - a) 2 ltac:(lia)). lia. }
  match goal with |- context [for_loop a (mid + 1) ?bd s] => set (body := bd) end.
  pose (P := fun (i : Z) (t : list A) =>
    List.length t = List.length s /\
    forall k, 0 <= k < Z.of_nat (List.length s) ->
      get d t k = if ((a <=? k) && (k <? i)) || ((a + b - i <? k) && (k <=? b))
                  then f (get d s (a + b - k)) else get d s k).
  assert (HP : P (mid + 1) (for_loop a (mid + 1) body s)).
  { apply for_loop_inv; [lia| |].
    - split; [done|]. intros k Hk.
      destruct (Z.leb_spec a k), (Z.ltb_spec k a), (Z.ltb_spec (a + b - a) k),
        (Z.leb_spec k b); simpl; try done; lia.
    - intros i t Hi [Hlen Hget]. unfold body. cbv zeta. split.
      { by rewrite !length_set. }
      intros k Hk.
      pose proof (Hget i ltac:(lia)) as Hgi.
      pose proof (Hget (b - i + a) ltac:(lia)) as Hgj.
      destruct (Z.ltb_spec i i); [lia|]. rewrite andb_false_r in Hgi.
      destruct (Z.ltb_spec (a + b - i) i); [lia|]. simpl in Hgi.
      destruct (Z.ltb_spec (b - i + a) i); [lia|]. rewrite andb_false_r in Hgj.
      destruct (Z.ltb_spec (a + b - i) (b - i + a)); [lia|]. simpl in Hgj.
      destruct (Z.eq_dec k (b - i + a)) as [->|Hne1].
      { rewrite get_set_eq by (rewrite length_set; lia).
        rewrite Hgi. replace (a + b - (b - i + a)) with i by lia.
        destruct (Z.leb_spec a (b - i + a)), (Z.ltb_spec (b - i + a) (i + 1)),
          (Z.ltb_spec (a + b - (i + 1)) (b - i + a)), (Z.leb_spec (b - i + a) b);
          simpl; try done; lia. }
      rewrite get_set_ne by lia.
      destruct (Z.eq_dec k i) as [->|Hne2].
      { rewrite get_set_eq by lia. rewrite Hgj.
        replace (a + b - i) with (b - i + a) by lia.
        destruct (Z.leb_spec a i), (Z.ltb_spec i (i + 1)); simpl; try done; lia. }
      rewrite get_set_ne by lia. rewrite Hget by done.
      destruct (Z.leb_spec a k), (Z.ltb_spec k i), (Z.ltb_spec k (i + 1)),
        (Z.ltb_spec (a + b - i) k), (Z.ltb_spec (a + b - (i + 1)) k),
        (Z.leb_spec k b); simpl; try done; lia. }
  destruct HP as [Hlen Hget]. split; [done|].
  intros k Hk. rewrite Hget by done.
  destruct (Z.leb_spec a k), (Z.ltb_spec k (mid + 1)),
    (Z.ltb_spec (a + b - (mid + 1)) k), (Z.leb_spec k b); simpl; try done; lia.
Qed.

(** The cells of a buffer after msa_reverse_compl_seq_segment. *)
Lemma reverse_compl_seq_segment_cells (s : list ascii) start end_ :
  1 <= start -> end_ <= Z.of_nat (List.length s) ->
  List.length (msa_reverse_compl_seq_segment s start end_) = List.length s /\
  forall k, 0 <= k < Z.of_nat (List.length s) ->
    getc (msa_reverse_compl_seq_segment s start end_) k =
      if (start - 1 <=? k) && (k <=? end_ - 1)
      then msa_compl_char (getc s (start + end_ - 2 - k)) else getc s k.
Proof.
  intros Hs He. unfold msa_reverse_compl_seq_segment.
  destruct (Z.ltb_spec (end_ - 1) (start - 1)) as [Hlt|Hge].
  { split; [done|]. intros k Hk.
    destruct (Z.leb_spec (start - 1) k), (Z.leb_spec k (end_ - 1)); simpl; try done; lia. }
  destruct (swap_loop_spec Chr.NUL msa_compl_char s (start - 1) (end_ - 1))
    as [Hlen Hget]; [lia..|].
  split; [exact Hlen|]. intros k Hk. etransitivity; [exact (Hget k Hk)|].
  replace (start - 1 + (end_ - 1) - k) with (start + end_ - 2 - k) by lia. done.
Qed.

(** The same for the integer array. *)
Lemma msa_reverse_data_segment_spec (s : list Z) start end_ :
  1 <= start -> end_ <= Z.of_nat (List.length s) ->
  List.length (msa_reverse_data_segment s start end_) = List.length s /\
  forall k, 0 <= k < Z.of_nat (List.length s) ->
    get 0 (msa_reverse_data_segment s start end_) k =
      if (start - 1 <=? k) && (k <=? end_ - 1)
      then get 0 s (start + end_ - 2 - k) else get 0 s k.
Proof.
  intros Hs He. unfold msa_reverse_data_segment.
  destruct (Z.ltb_spec (end_ - 1) (start - 1)) as [Hlt|Hge].
  { split; [done|]. intros k Hk.
    destruct (Z.leb_spec (start - 1) k), (Z.leb_spec k (end_ - 1)); simpl; try done; lia. }
  destruct (swap_loop_spec 0 (fun x => x) s (start - 1) (end_ - 1))
    as [Hlen Hget]; [lia..|].
  split; [exact Hlen|]. intros k Hk. etransitivity; [exact (Hget k Hk)|].
  replace (start - 1 + (end_ - 1) - k) with (start + end_ - 2 - k) by lia. done.
Qed.

Lemma msa_reverse_compl_seq_segment_involutive (s : list ascii) start end_ :
  1 <= start -> end_ <= Z.of_nat (List.length s) ->
  msa_reverse_compl_seq_segment (msa_reverse_compl_seq_segment s start end_) start end_ = s.
Proof.
  intros Hs He.
  destruct (reverse_compl_seq_segment_cells s start end_ Hs He) as [Hlen1 Hget1].
  destruct (reverse_compl_seq_segment_cells
              (msa_reverse_compl_seq_segment s start end_) start end_) as [Hlen2 Hget2];
    [lia..|].
  apply (buffer_ext Chr.NUL); [lia|].
  intros k Hk. rewrite Hget2 by lia.
  destruct ((start - 1 <=? k) && (k <=? end_ - 1)) eqn:Hin.
  - apply andb_prop in Hin as [H1 H2].
    rewrite Hget1 by lia.
    destruct (Z.leb_spec (start - 1) (start + end_ - 2 - k)),
      (Z.leb_spec (start + end_ - 2 - k) (end_ - 1)); simpl; try lia.
    rewrite msa_compl_char_involutive. f_equal. lia.
  - rewrite Hget1 by lia. by rewrite Hin.
Qed.

(** X1: msa_reverse_compl_seq_segment on a segment [start..end] (1-based,
    inclusive) that lies within the buffer keeps the size of the buffer,
    leaves every cell outside the segment as it was and puts in each cell of
    the segment the complement of the cell that mirrors it (with
    [end < start] nothing changes); applied twice it gives the buffer back. *)
Theorem msa_reverse_compl_seq_segment_spec (s : list ascii) start end_ :
  1 <= start -> end_ <= Z.of_nat (List.length s) ->
  List.length (msa_reverse_compl_seq_segment s start end_) = List.length s /\
  (forall k, 0 <= k < Z.of_nat (List.length s) ->
     getc (msa_reverse_compl_seq_segment s start end_) k =
       if (start - 1 <=? k) && (k <=? end_ - 1)
       then msa_compl_char (getc s (start + end_ - 2 - k)) else getc s k) /\
  msa_reverse_compl_seq_segment (msa_reverse_compl_seq_segment s start end_) start end_
  = s.
Proof.
  intros Hs He.
  destruct (reverse_compl_seq_segment_cells s start end_ Hs He) as [Hlen Hget].
  split; [exact Hlen|]. split; [exact Hget|].
  by apply msa_reverse_compl_seq_segment_involutive.
Qed.

(** X2: msa_reverse_data_segment on a segment within the array reverses
    the segment and nothing else, so that applying it twice gives the array
    back. *)
Theorem msa_reverse_data_segment_twice (data : list Z) start end_ :
  1 <= start -> end_ <= Z.of_nat (List.length data) ->
  (forall k, 0 <= k < Z.of_nat (List.length data) ->
     get 0 (msa_reverse_data_segment data start end_) k =
       if (start - 1 <=? k) && (k <=? end_ - 1)
       then get 0 data (start + end_ - 2 - k) else get 0 data k) /\
  msa_reverse_data_segment (msa_reverse_data_segment data start end_) start end_ = data.
Proof.
  intros Hs He.
  destruct (msa_reverse_data_segment_spec data start end_ Hs He) as [Hlen1 Hget1].
  split; [exact Hget1|].
  destruct (msa_reverse_data_segment_spec
              (msa_reverse_data_segment data start end_) start end_) as [Hlen2 Hget2];
    [lia..|].
  apply (buffer_ext 0); [lia|].
  intros k Hk. rewrite Hget2 by lia.
  destruct ((start - 1 <=? k) && (k <=? end_ - 1)) eqn:Hin.
  - apply andb_prop in Hin as [H1 H2].
    rewrite Hget1 by lia.
    destruct (Z.leb_spec (start - 1) (start + end_ - 2 - k)),
      (Z.leb_spec (start + end_ - 2 - k) (end_ - 1)); simpl; try lia.
    f_equal. lia.
  - rewrite Hget1 by lia. by rewrite Hin.
Qed.

(** X3: the segment that spans the first [length] cells is reversed and
    complemented by msa_reverse_compl_seq_segment exactly as
    msa_reverse_compl_seq does it. *)
Theorem msa_reverse_compl_seq_whole_segment (s : list ascii) length :
  length <= Z.of_nat (List.length s) ->
  msa_reverse_compl_seq_segment s 1 length = msa_reverse_compl_seq s length.
Proof.
  intros HL.
  destruct (reverse_compl_seq_segment_cells s 1 length) as [Hlen1 Hget1]; [lia..|].
  destruct (msa_reverse_compl_seq_spec s length HL) as [Hlen2 Hget2].
  apply (buffer_ext Chr.NUL); [lia|].
  intros k Hk. rewrite Hget1 by lia. rewrite Hget2 by lia.
  destruct (Z.leb_spec (1 - 1) k), (Z.leb_spec k (length - 1)), (Z.ltb_spec k length);
    simpl; try done; try lia.
  f_equal. f_equal. lia.
Qed.

Lemma set_seqs_same msa rs : msa_seqs msa = Some rs -> set_seqs msa (Some rs) = msa.
Proof. intros <-. by destruct msa. Qed.

(** X4: msa_reverse_compl_segment stops on an alignment that carries
    sufficient statistics; on an explicit alignment without them it returns,
    and applied twice to a segment within the alignment it gives back the
    alignment it started from. *)
Theorem msa_reverse_compl_segment_twice msa rs start end_ :
  msa_seqs msa = Some rs ->
  explicit_wf msa = true ->
  1 <= start -> end_ <= msa_length msa ->
  match msa_ss msa with
  | Some _ => exists msg, msa_reverse_compl_segment msa start end_ = Fatal msg
  | None =>
      exists m1, msa_reverse_compl_segment msa start end_ = Ok m1 /\
                 msa_reverse_compl_segment m1 start end_ = Ok msa
  end.
Proof.
  intros Hseqs Hwf Hs He.
  destruct (explicit_wf_inv _ _ Hseqs Hwf) as (Hn & Hlen & Hrows).
  unfold msa_reverse_compl_segment.
  destruct (msa_ss msa) as [ss|] eqn:Hss.
  { rewrite bool_decide_false by done. simpl. eauto. }
  rewrite bool_decide_true by done. rewrite Hseqs. simpl. eexists. split; [done|].
  simpl. rewrite Hss. rewrite bool_decide_true by done. simpl. f_equal.
  rewrite Hn.
  rewrite (for_loop_rows [] (fun r => msa_reverse_compl_seq_segment r start end_)).
  replace (Z.of_nat (List.length rs))
    with (Z.of_nat (List.length
            (List.map (fun r => msa_reverse_compl_seq_segment r start end_) rs)))
    by (by rewrite length_map).
  rewrite (for_loop_rows [] (fun r => msa_reverse_compl_seq_segment r start end_)).
  rewrite map_map.
  assert (Hid : List.map (fun r => msa_reverse_compl_seq_segment
                             (msa_reverse_compl_seq_segment r start end_) start end_) rs
                = rs).
  { rewrite <- (map_id rs) at 2. apply map_ext_in. intros r Hr.
    apply msa_reverse_compl_seq_segment_involutive; [done|].
    rewrite Forall_forall in Hrows.
    specialize (Hrows r (proj2 (list_elem_of_In _ _) Hr)). lia. }
  rewrite Hid. clear -Hseqs. destruct msa. simpl in *. by subst.
Qed.

(** ** Loops that move the kept columns to the front *)

Lemma kept_columns_step keep i :
  0 <= i ->
  kept_columns keep (i + 1) = kept_columns keep i ++ (if keep i then [i] else []).
Proof.
  intros Hi. unfold kept_columns.
  rewrite seqZ_app by lia. rewrite List.filter_app. by f_equal.
Qed.

Lemma kept_columns_bound keep L c :
  0 <= c < Z.of_nat (List.length (kept_columns keep L)) ->
  0 <= get 0 (kept_columns keep L) c < L /\ keep (get 0 (kept_columns keep L) c) = true.
Proof.
  intros Hc.
  assert (Hin : In (get 0 (kept_columns keep L) c) (kept_columns keep L)).
  { apply list_elem_of_In. apply list_elem_of_lookup. exists (Z.to_nat c).
    by apply get_inside. }
  unfold kept_columns in Hin at 2. apply List.filter_In in Hin as [Hin Hkeep].
  split; [|done]. apply list_elem_of_In, elem_of_seqZ in Hin. lia.
Qed.

Lemma copy_category_same cats i : copy_category cats i i = cats.
Proof.
  destruct cats as [c|]; [|done]. simpl. f_equal.
  destruct (decide (0 <= i < Z.of_nat (List.length c))) as [Hin|Hout].
  - unfold set. destruct (Z.ltb_spec i 0); [lia|].
    apply list_insert_id. by apply get_inside.
  - by apply set_outside.
Qed.

(** [copy_column] when every row has a cell in column [k]: the matrix keeps
    its shape, column [k] of each row receives its column [i], and nothing
    else changes. *)
Lemma copy_column_exact nseqs rs k i :
  nseqs = Z.of_nat (List.length rs) ->
  (forall j, 0 <= j < nseqs -> 0 <= k < Z.of_nat (List.length (get [] rs j))) ->
  let rs' := copy_column nseqs rs k i in
  List.length rs' = List.length rs /\
  (forall j, List.length (get [] rs' j) = List.length (get [] rs j)) /\
  (forall j c, seq_at rs' j c =
     if (c =? k) && (0 <=? j) && (j <? nseqs) then seq_at rs j i else seq_at rs j c).
Proof.
  intros Hn Hk. unfold copy_column.
  pose (P := fun (n : Z) (t : list (list ascii)) =>
    List.length t = List.length rs /\
    (forall j, n <= j -> get [] t j = get [] rs j) /\
    (forall j, List.length (get [] t j) = List.length (get [] rs j)) /\
    (forall j c, seq_at t j c =
       if (c =? k) && (0 <=? j) && (j <? n) then seq_at rs j i else seq_at rs j c)).
  cut (P nseqs (for_loop 0 nseqs
         (fun j rs => set rs j (set (get [] rs j) k (seq_at rs j i))) rs)).
  { intros (H1 & _ & H3 & H4). done. }
  apply for_loop_inv; [lia| |].
  - split; [done|]. split; [done|]. split; [done|]. intros j c.
    destruct (c =? k), (Z.leb_spec 0 j), (Z.ltb_spec j 0); simpl; try done; lia.
  - intros n t Hn' (Hlen & Hrest & Hshape & Hcells).
    assert (Hrow : get [] t n = get [] rs n) by (apply Hrest; lia).
    assert (Hcell : seq_at t n i = seq_at rs n i).
    { unfold seq_at. by rewrite Hrow. }
    rewrite Hcell. split; [by rewrite length_set|]. split; [|split].
    + intros j Hj. rewrite get_set_ne by lia. apply Hrest. lia.
    + intros j. destruct (Z.eq_dec j n) as [->|Hne].
      * rewrite get_set_eq by lia. rewrite length_set. by rewrite Hrow.
      * rewrite get_set_ne by lia. apply Hshape.
    + intros j c. rewrite seq_at_set_row by lia.
      destruct (Z.eqb_spec j n) as [->|Hne].
      * rewrite Hrow. destruct (Z.eqb_spec c k) as [->|Hc].
        -- rewrite get_set_eq by (apply Hk; lia).
           destruct (Z.leb_spec 0 n), (Z.ltb_spec n (n + 1)); simpl; try done; lia.
        -- rewrite get_set_ne by lia. done.
      * rewrite Hcells.
        destruct (c =? k), (Z.leb_spec 0 j), (Z.ltb_spec j n), (Z.ltb_spec j (n + 1));
          simpl; try done; lia.
Qed.

Lemma compacted_start nseqs keep rs0 c0 : compacted nseqs keep rs0 c0 0 (rs0, c0, 0).
Proof.
  unfold compacted, kept_columns. rewrite seqZ_nil by lia. simpl.
  repeat split; try done; try lia.
  destruct c0; [|done]. repeat split; try done; lia.
Qed.

Lemma compacted_skip nseqs keep rs0 c0 i st :
  0 <= i -> compacted nseqs keep rs0 c0 i st -> keep i = false ->
  compacted nseqs keep rs0 c0 (i + 1) st.
Proof.
  intros Hi. destruct st as [[rs cats] k]. unfold compacted.
  intros (Hk & Hki & Hlen & Hshape & Hrest & Hcells & Hcats) Hkeep.
  rewrite kept_columns_step by done. rewrite Hkeep, app_nil_r.
  split; [done|]. split; [lia|]. split; [done|]. split; [done|].
  split; [intros j c Hc; apply Hrest; lia|]. split; [done|].
  destruct cats as [c|], c0 as [c0'|]; try done.
  destruct Hcats as (H1 & H2 & H3). split; [done|]. split; [|done].
  intros x Hx. apply H2. lia.
Qed.

Section CompactionFacts.
Variables (nseqs : Z) (keep : Z -> bool) (rs0 : list (list ascii))
  (c0 : option (list Z)) (L : Z).
Hypothesis wf_rows : nseqs = Z.of_nat (List.length rs0).
Hypothesis wf_cells : forall j, 0 <= j < nseqs -> L <= Z.of_nat (List.length (get [] rs0 j)).
Hypothesis wf_cats : match c0 with Some c => L <= Z.of_nat (List.length c) | None => True end.

Lemma compacted_keep i rs cats k :
  0 <= i < L -> compacted nseqs keep rs0 c0 i (rs, cats, k) -> keep i = true ->
  compacted nseqs keep rs0 c0 (i + 1)
    (if k =? i then rs else copy_column nseqs rs k i, copy_category cats k i, k + 1).
Proof.
  intros Hi. unfold compacted.
  intros (Hk & Hki & Hlen & Hshape & Hrest & Hcells & Hcats) Hkeep.
  rewrite kept_columns_step by lia. rewrite Hkeep.
  set (kept := kept_columns keep i) in *.
  assert (Hk0 : 0 <= k) by lia.
  assert (Hkept : forall c, 0 <= c <= k ->
            get 0 (kept ++ [i]) c = if c <? k then get 0 kept c else i).
  { intros c Hc. pose proof (lst_get_push kept i c ltac:(lia)) as E.
    unfold lst_get_int, lst_push_int, lst_size in E. rewrite E, <- Hk.
    destruct (Z.ltb_spec c k); [done|].
    destruct (Z.eqb_spec c k); [done|lia]. }
  split; [rewrite length_app; simpl; lia|]. split; [lia|].
  assert (Hcats' : match copy_category cats k i, c0 with
    | Some c, Some c0 =>
        List.length c = List.length c0 /\
        (forall x, i + 1 <= x -> get 0 c x = get 0 c0 x) /\
        (forall x, 0 <= x < k + 1 -> get 0 c x = get 0 c0 (get 0 (kept ++ [i]) x))
    | None, None => True
    | _, _ => False
    end).
  { destruct cats as [c|], c0 as [c0'|]; try done. simpl.
    destruct Hcats as (H1 & H2 & H3). split; [by rewrite length_set|]. split.
    - intros x Hx. rewrite get_set_ne by lia. apply H2. lia.
    - intros x Hx. rewrite Hkept by lia. destruct (Z.ltb_spec x k).
      + rewrite get_set_ne by lia. apply H3. lia.
      + assert (x = k) as -> by lia. rewrite get_set_eq by lia. apply H2. lia. }
  destruct (Z.eqb_spec k i) as [->|Hne].
  - split; [done|]. split; [done|].
    split; [intros j c Hc; apply Hrest; lia|]. split; [|done].
    intros j c Hj Hc. rewrite Hkept by lia. destruct (Z.ltb_spec c i).
    + apply Hcells; lia.
    + assert (c = i) as -> by lia. apply Hrest. lia.
  - destruct (copy_column_exact nseqs rs k i) as (Hlen' & Hshape' & Hcells').
    { lia. }
    { intros j Hj. rewrite Hshape. specialize (wf_cells j Hj). lia. }
    split; [lia|]. split; [intros j; by rewrite Hshape'|].
    split; [|split; [|done]].
    + intros j c Hc. rewrite Hcells'.
      destruct (Z.eqb_spec c k); [lia|]. simpl. apply Hrest. lia.
    + intros j c Hj Hc. rewrite Hcells', Hkept by lia.
      destruct (Z.eqb_spec c k) as [->|Hck].
      * destruct (Z.leb_spec 0 j), (Z.ltb_spec j nseqs), (Z.ltb_spec k k);
          simpl; try lia. apply Hrest. lia.
      * simpl. destruct (Z.ltb_spec c k); [|lia]. apply Hcells; lia.
Qed.

End CompactionFacts.

(** ** Projection *)

Lemma msa_project_loop nseqs refseq rs0 c0 L :
  nseqs = Z.of_nat (List.length rs0) ->
  (forall j, 0 <= j < nseqs -> L <= Z.of_nat (List.length (get [] rs0 j))) ->
  match c0 with Some c => L <= Z.of_nat (List.length c) | None => True end ->
  0 <= L ->
  compacted nseqs (fun i => negb (seq_at rs0 (refseq - 1) i =c? GAP_CHAR)) rs0 c0 L
    (for_loop 0 L
       (fun i '(rs, cats, k) =>
          if negb (seq_at rs (refseq - 1) i =c? GAP_CHAR) then
            let rs := if k =? i then rs else copy_column nseqs rs k i in
            (rs, copy_category cats k i, k + 1)
          else (rs, cats, k))
       (rs0, c0, 0)).
Proof.
  intros Hn Hcells Hcats HL.
  apply (for_loop_inv (compacted nseqs _ rs0 c0)); [done|apply compacted_start|].
  intros i [[rs cats] k] Hi Hinv.
  assert (Hcol : seq_at rs (refseq - 1) i = seq_at rs0 (refseq - 1) i).
  { destruct Hinv as (_ & _ & _ & _ & Hrest & _). apply Hrest. lia. }
  rewrite Hcol.
  destruct (negb (seq_at rs0 (refseq - 1) i =c? GAP_CHAR)) eqn:Hkeep.
  - cbv zeta. by apply (compacted_keep nseqs _ rs0 c0 L).
  - apply compacted_skip; [lia|done|done].
Qed.

Lemma set_get_same {A} (d : A) (s : list A) i : set s i (get d s i) = s.
Proof.
  destruct (decide (0 <= i < Z.of_nat (List.length s))) as [Hin|Hout].
  - unfold set. destruct (Z.ltb_spec i 0); [lia|].
    apply list_insert_id. by apply get_inside.
  - by apply set_outside.
Qed.

Section ProjectionFacts.
Context {SS : SuffStats}.

(** X5: msa_project on a row [refseq] of an alignment with an explicit
    matrix keeps exactly the columns in which that row has no gap, in their
    old order and with their categories: the new length is their number,
    column [c] of every row is the old column number [c] of those kept, and a
    second projection on the same row changes nothing. *)
Theorem msa_project_spec msa rs refseq :
  msa_seqs msa = Some rs ->
  explicit_wf msa = true ->
  categories_fit msa = true ->
  1 <= refseq <= msa_nseqs msa ->
  let kept := kept_columns (fun i => negb (seq_at rs (refseq - 1) i =c? GAP_CHAR))
                (msa_length msa) in
  exists m1 rs1,
    msa_project msa refseq = Ok m1 /\ msa_seqs m1 = Some rs1 /\
    msa_length m1 = Z.of_nat (List.length kept) /\
    (forall j c, 0 <= j < msa_nseqs msa -> 0 <= c < msa_length m1 ->
       seq_at rs1 j c = seq_at rs j (get 0 kept c)) /\
    (forall c, 0 <= c < msa_length m1 ->
       category_at m1 c = category_at msa (get 0 kept c)) /\
    msa_project m1 refseq = Ok m1.
Proof.
  intros Hseqs Hwf Hfit Href kept.
  destruct (explicit_wf_rows _ Hwf) as (rs' & Hseqs' & Hn & HL & Hrows).
  rewrite Hseqs in Hseqs'. injection Hseqs' as <-.
  assert (Hfit' : match msa_categories msa with
                  | Some c => msa_length msa <= Z.of_nat (List.length c)
                  | None => True
                  end).
  { unfold categories_fit in Hfit. destruct (msa_categories msa); [lia|done]. }
  assert (Hrows' : forall j, 0 <= j < msa_nseqs msa ->
            msa_length msa <= Z.of_nat (List.length (get [] rs j))).
  { intros j Hj. apply Hrows. lia. }
  pose proof (msa_project_loop (msa_nseqs msa) refseq rs (msa_categories msa)
                (msa_length msa) Hn Hrows' Hfit' HL) as Hloop.
  unfold msa_project.
  destruct (Z.leb_spec 1 refseq); [|lia].
  destruct (Z.leb_spec refseq (msa_nseqs msa)); [|lia]. simpl. rewrite Hseqs.
  destruct (for_loop 0 (msa_length msa) _ _) as [[rs1 cats1] k] eqn:Eloop.
  destruct Hloop as (Hk & Hki & Hlen & Hshape & Hrest & Hcells & Hcats).
  fold kept in Hk, Hcells, Hcats.
  eexists _, rs1. split; [done|]. simpl. split; [done|]. split; [done|].
  split; [done|]. split.
  { intros c Hc. unfold category_at. simpl.
    destruct cats1 as [c1|], (msa_categories msa) as [c0|]; try done.
    - destruct Hcats as (_ & _ & H3). by apply H3.
    - unfold lst_get_int. simpl. by rewrite !get_nil. }
  destruct (Z.leb_spec 1 refseq); [|lia].
  destruct (Z.leb_spec refseq (msa_nseqs msa)); [|lia]. simpl.
  match goal with |- context [for_loop 0 k ?b ?s] =>
    assert (Hstay : for_loop 0 k b s = (rs1, cats1, k))
  end.
  { pose proof (kept_columns_bound
                  (fun i => negb (seq_at rs (refseq - 1) i =c? GAP_CHAR))
                  (msa_length msa)) as Hb.
    fold kept in Hb. cbv beta in Hb.
    apply (for_loop_inv (fun i st => st = (rs1, cats1, i))); [lia|done|].
    intros i st Hi ->.
    rewrite Hcells by lia.
    destruct (Hb i ltac:(lia)) as [_ Hkeep]. rewrite Hkeep. cbv zeta.
    rewrite Z.eqb_refl, copy_category_same. done. }
  rewrite Hstay. done.
Qed.

End ProjectionFacts.

(** ** Gap stripping in either mode, and the count of gapped columns *)

Lemma strip_scan_gapped js rs mode i b :
  strip_scan js rs mode i b = gapped_scan js (fun j => seq_at rs j i) mode b.
Proof. induction js as [|j js IH]; simpl; [done|]. by rewrite IH. Qed.

Lemma gapped_scan_ext js f g mode b :
  (forall j, In j js -> f j = g j) ->
  gapped_scan js f mode b = gapped_scan js g mode b.
Proof.
  induction js as [|j js IH]; simpl; [done|]. intros Hfg.
  rewrite (Hfg j) by auto. rewrite IH by auto. done.
Qed.

(** In STRIP_ALL_GAPS mode the scan says "gapped" when every row visited
    has a gap, in STRIP_ANY_GAPS mode when one of them has. *)
Lemma gapped_scan_all js f :
  gapped_scan js f STRIP_ALL_GAPS true = true <-> Forall (fun j => f j = GAP_CHAR) js.
Proof.
  induction js as [|j js IH]; simpl.
  - split; [constructor|done].
  - unfold Chr.eqb. destruct (Ascii.eqb_spec (f j) GAP_CHAR) as [Heq|Hne]; simpl.
    + rewrite IH. split; [by constructor|]. intros Hall. by inversion Hall.
    + split; [done|]. intros Hall. by inversion Hall.
Qed.

Lemma gapped_scan_any js f :
  gapped_scan js f STRIP_ANY_GAPS false = true <-> Exists (fun j => f j = GAP_CHAR) js.
Proof.
  induction js as [|j js IH]; simpl.
  - split; [done|]. intros Hex. inversion Hex.
  - unfold Chr.eqb. destruct (Ascii.eqb_spec (f j) GAP_CHAR) as [Heq|Hne]; simpl.
    + split; [|done]. intros _. by constructor.
    + rewrite IH. split; [by constructor|]. intros Hex. by inversion Hex.
Qed.

Lemma gapped_column_all nseqs rs i :
  gapped_column nseqs rs STRIP_ALL_GAPS i = true <->
  forall j, 0 <= j < nseqs -> seq_at rs j i = GAP_CHAR.
Proof.
  unfold gapped_column. change (STRIP_ALL_GAPS =? STRIP_ALL_GAPS) with true.
  rewrite gapped_scan_all, Forall_seqZ. split; intros H j Hj; apply H; lia.
Qed.

Lemma gapped_column_any nseqs rs i :
  gapped_column nseqs rs STRIP_ANY_GAPS i = true <->
  exists j, 0 <= j < nseqs /\ seq_at rs j i = GAP_CHAR.
Proof.
  unfold gapped_column. change (STRIP_ANY_GAPS =? STRIP_ALL_GAPS) with false.
  rewrite gapped_scan_any, Exists_exists. split.
  - intros (j & Hj & Hgap). apply elem_of_seqZ in Hj. exists j. split; [lia|done].
  - intros (j & Hj & Hgap). exists j. split; [|done]. apply elem_of_seqZ. lia.
Qed.

Lemma gapped_column_ext nseqs rs rs' mode i i' :
  (forall j, 0 <= j < nseqs -> seq_at rs j i = seq_at rs' j i') ->
  gapped_column nseqs rs mode i = gapped_column nseqs rs' mode i'.
Proof.
  intros Hcol. unfold gapped_column. apply gapped_scan_ext.
  intros j Hj. apply list_elem_of_In, elem_of_seqZ in Hj. apply Hcol. lia.
Qed.

Lemma msa_strip_gaps_loop nseqs mode rs0 c0 L :
  nseqs = Z.of_nat (List.length rs0) ->
  (forall j, 0 <= j < nseqs -> L <= Z.of_nat (List.length (get [] rs0 j))) ->
  match c0 with Some c => L <= Z.of_nat (List.length c) | None => True end ->
  0 <= L ->
  compacted nseqs (fun i => negb (gapped_column nseqs rs0 mode i)) rs0 c0 L
    (for_loop 0 L (strip_gaps_column nseqs mode) (rs0, c0, 0)).
Proof.
  intros Hn Hcells Hcats HL.
  apply (for_loop_inv (compacted nseqs _ rs0 c0)); [done|apply compacted_start|].
  intros i [[rs cats] k] Hi Hinv. unfold strip_gaps_column.
  rewrite strip_scan_gapped. fold (gapped_column nseqs rs mode i).
  assert (Hcol : gapped_column nseqs rs mode i = gapped_column nseqs rs0 mode i).
  { apply gapped_column_ext. intros j _.
    destruct Hinv as (_ & _ & _ & _ & Hrest & _). apply Hrest. lia. }
  rewrite Hcol.
  destruct (gapped_column nseqs rs0 mode i) eqn:Hgap; simpl.
  - rewrite andb_false_r. apply compacted_skip; [lia|done|].
    cbv beta. by rewrite Hgap.
  - rewrite andb_true_r.
    pose proof (compacted_keep nseqs _ rs0 c0 L Hn Hcells Hcats i rs cats k Hi Hinv)
      as Hkeep.
    cbv beta in Hkeep. rewrite Hgap in Hkeep. specialize (Hkeep eq_refl).
    destruct (Z.eqb_spec k i) as [->|Hne]; [|done].
    by rewrite copy_category_same in Hkeep.
Qed.

(** A second pass over a matrix whose first [k] columns are not gapped
    leaves everything in place. *)
Lemma msa_strip_gaps_stay nseqs mode rs' c' k :
  0 <= k ->
  (forall i, 0 <= i < k -> gapped_column nseqs rs' mode i = false) ->
  for_loop 0 k (strip_gaps_column nseqs mode) (rs', c', 0) = (rs', c', k).
Proof.
  intros Hk Hfree.
  apply (for_loop_inv (fun i st => st = (rs', c', i))); [done|done|].
  intros i st Hi ->. unfold strip_gaps_column.
  rewrite strip_scan_gapped. fold (gapped_column nseqs rs' mode i).
  rewrite Hfree by lia. by rewrite Z.eqb_refl.
Qed.

Lemma count_loop (g : Z -> bool) s e :
  s <= e ->
  for_loop s e (fun i k => if g i then k + 1 else k) 0
  = Z.of_nat (List.length (List.filter g (seqZ s (e - s)))).
Proof.
  intros Hse.
  apply (for_loop_inv (fun i k =>
           k = Z.of_nat (List.length (List.filter g (seqZ s (i - s)))))); [done| |].
  - by rewrite Z.sub_diag.
  - intros i k Hi ->.
    replace (i + 1 - s) with ((i - s) + 1) by lia.
    rewrite seqZ_app by lia. rewrite List.filter_app, length_app.
    rewrite (seqZ_cons _ 1) by lia. rewrite (seqZ_nil _ (Z.pred 1)) by lia.
    simpl. replace (s + (i - s)) with i by lia.
    destruct (g i); simpl; lia.
Qed.

Lemma filter_length_mono {A} (f g : A -> bool) (l : list A) :
  (forall x, f x = true -> g x = true) ->
  (List.length (List.filter f l) <= List.length (List.filter g l))%nat.
Proof.
  intros Hfg. induction l as [|x l IH]; simpl; [done|].
  destruct (f x) eqn:Hf.
  - rewrite (Hfg x Hf). simpl. lia.
  - destruct (g x); simpl; lia.
Qed.

Section StripGapsModes.
Context {SS : SuffStats} {TT : TupleTable}.

(** Running msa_strip_gaps in one of the two modes on an alignment with a
    matrix: the sufficient statistics are dropped and the column loop decides
    the result. *)
Lemma msa_strip_gaps_run msa rs mode :
  msa_seqs msa = Some rs ->
  mode = STRIP_ALL_GAPS \/ mode = STRIP_ANY_GAPS ->
  let msa0 := match msa_ss msa with Some _ => set_ss msa None | None => msa end in
  let st := for_loop 0 (msa_length msa) (strip_gaps_column (msa_nseqs msa) mode)
              (rs, msa_categories msa, 0) in
  msa_strip_gaps msa mode
  = Ok (set_length (set_categories (set_seqs msa0 (Some st.1.1)) st.1.2) st.2).
Proof.
  intros Hseqs Hmode msa0 st.
  assert (H0 : msa_ss msa0 = None /\ msa_seqs msa0 = Some rs /\
               msa_nseqs msa0 = msa_nseqs msa /\ msa_length msa0 = msa_length msa /\
               msa_categories msa0 = msa_categories msa).
  { unfold msa0. destruct (msa_ss msa) eqn:E; simpl; auto. }
  destruct H0 as (Hss0 & Hseqs0 & Hn0 & Hl0 & Hc0).
  assert (Hpos : (0 <? mode) = false) by (by destruct Hmode as [->| ->]).
  assert (Hok : (mode =? STRIP_ALL_GAPS) || (mode =? STRIP_ANY_GAPS) = true)
    by (by destruct Hmode as [->| ->]).
  unfold msa_strip_gaps. rewrite Hseqs. fold msa0.
  rewrite Hss0, Hpos, Hok. simpl. rewrite Hseqs0, Hn0, Hl0, Hc0. simpl.
  fold st. by destruct st as [[rs1 cats1] k].
Qed.

(** X6: msa_strip_gaps in either mode, on an alignment with an explicit
    matrix, keeps exactly the columns that are not gapped in that mode (all
    rows, or some row, holding a gap), in their old order and with their
    categories; applied to its own result it changes nothing. *)
Theorem msa_strip_gaps_spec msa rs mode :
  msa_seqs msa = Some rs ->
  explicit_wf msa = true ->
  categories_fit msa = true ->
  mode = STRIP_ALL_GAPS \/ mode = STRIP_ANY_GAPS ->
  let kept := kept_columns (fun i => negb (gapped_column (msa_nseqs msa) rs mode i))
                (msa_length msa) in
  exists m1 rs1,
    msa_strip_gaps msa mode = Ok m1 /\ msa_seqs m1 = Some rs1 /\
    msa_length m1 = Z.of_nat (List.length kept) /\
    (forall j c, 0 <= j < msa_nseqs msa -> 0 <= c < msa_length m1 ->
       seq_at rs1 j c = seq_at rs j (get 0 kept c)) /\
    (forall c, 0 <= c < msa_length m1 ->
       category_at m1 c = category_at msa (get 0 kept c)) /\
    msa_strip_gaps m1 mode = Ok m1.
Proof.
  intros Hseqs Hwf Hfit Hmode kept.
  destruct (explicit_wf_rows _ Hwf) as (rs' & Hseqs' & Hn & HL & Hrows).
  rewrite Hseqs in Hseqs'. injection Hseqs' as <-.
  assert (Hfit' : match msa_categories msa with
                  | Some c => msa_length msa <= Z.of_nat (List.length c)
                  | None => True
                  end).
  { unfold categories_fit in Hfit. destruct (msa_categories msa); [lia|done]. }
  assert (Hrows' : forall j, 0 <= j < msa_nseqs msa ->
            msa_length msa <= Z.of_nat (List.length (get [] rs j))).
  { intros j Hj. apply Hrows. lia. }
  pose proof (msa_strip_gaps_loop (msa_nseqs msa) mode rs (msa_categories msa)
                (msa_length msa) Hn Hrows' Hfit' HL) as Hloop.
  pose proof (msa_strip_gaps_run msa rs mode Hseqs Hmode) as Hrun.
  cbv zeta in Hrun.
  destruct (for_loop 0 (msa_length msa) _ _) as [[rs1 cats1] k] eqn:Eloop.
  destruct Hloop as (Hk & Hki & Hlen & Hshape & Hrest & Hcells & Hcats).
  fold kept in Hk, Hcells, Hcats. simpl in Hrun.
  set (msa0 := match msa_ss msa with Some _ => set_ss msa None | None => msa end) in *.
  set (m1 := set_length (set_categories (set_seqs msa0 (Some rs1)) cats1) k) in *.
  assert (Hn0 : msa_nseqs msa0 = msa_nseqs msa).
  { unfold msa0. by destruct (msa_ss msa). }
  exists m1, rs1.
  split; [done|split; [done|split; [done|split; [done|split]]]].
  - intros c Hc. unfold category_at. simpl. simpl in Hc.
    destruct cats1 as [c1|], (msa_categories msa) as [c0|]; try done.
    + destruct Hcats as (_ & _ & H3). by apply H3.
    + unfold lst_get_int. simpl. by rewrite !get_nil.
  - rewrite (msa_strip_gaps_run m1 rs1 mode eq_refl Hmode). cbv zeta. simpl.
    rewrite Hn0. rewrite msa_strip_gaps_stay; [| lia |].
    + assert (Hss0 : msa_ss msa0 = None).
      { unfold msa0. by destruct (msa_ss msa) eqn:E. }
      rewrite Hss0. simpl. unfold m1. clearbody msa0. by destruct msa0.
    + intros i Hi.
      rewrite (gapped_column_ext _ rs1 rs mode i (get 0 kept i))
        by (intros j Hj; apply Hcells; lia).
      pose proof (kept_columns_bound
                    (fun i => negb (gapped_column (msa_nseqs msa) rs mode i))
                    (msa_length msa) i) as Hb.
      fold kept in Hb. cbv beta in Hb. destruct Hb as [_ Hb]; [lia|].
      by apply negb_true_iff in Hb.
Qed.

(** What msa_num_gapped_cols counts. *)
Lemma msa_num_gapped_cols_count msa rs mode start end_ :
  msa_seqs msa = Some rs ->
  msa_ss msa = None ->
  mode = STRIP_ALL_GAPS \/ mode = STRIP_ANY_GAPS ->
  let s := if 0 <? start then start else 0 in
  let e := if 0 <? end_ then end_ else msa_length msa in
  msa_num_gapped_cols msa mode start end_
  = Ok (Z.of_nat (List.length
          (List.filter (gapped_column (msa_nseqs msa) rs mode) (seqZ s (e - s))))).
Proof.
  intros Hseqs Hss Hmode s e.
  assert (Hok : (mode =? STRIP_ALL_GAPS) || (mode =? STRIP_ANY_GAPS) = true)
    by (by destruct Hmode as [->| ->]).
  unfold msa_num_gapped_cols. rewrite Hok, Hss. simpl. f_equal.
  fold s e. unfold msa_get_char. rewrite Hseqs.
  destruct (Z.le_gt_cases s e) as [Hse|Hse].
  - apply (count_loop (gapped_column (msa_nseqs msa) rs mode) s e Hse).
  - rewrite for_loop_empty by lia. by rewrite seqZ_nil by lia.
Qed.

(** X7: msa_num_gapped_cols on an explicit alignment without sufficient
    statistics returns the number of columns of the interval (the whole
    alignment when [start] or [end] is not positive) that are gapped in the
    mode asked for: every row holding a gap in STRIP_ALL_GAPS mode, some row
    in STRIP_ANY_GAPS mode. *)
Theorem msa_num_gapped_cols_spec msa rs mode start end_ :
  msa_seqs msa = Some rs ->
  msa_ss msa = None ->
  mode = STRIP_ALL_GAPS \/ mode = STRIP_ANY_GAPS ->
  let s := if 0 <? start then start else 0 in
  let e := if 0 <? end_ then end_ else msa_length msa in
  msa_num_gapped_cols msa mode start end_
  = Ok (Z.of_nat (List.length
          (List.filter (gapped_column (msa_nseqs msa) rs mode) (seqZ s (e - s))))) /\
  forall i,
    gapped_column (msa_nseqs msa) rs mode i = true <->
    if mode =? STRIP_ALL_GAPS
    then forall j, 0 <= j < msa_nseqs msa -> seq_at rs j i = GAP_CHAR
    else exists j, 0 <= j < msa_nseqs msa /\ seq_at rs j i = GAP_CHAR.
Proof.
  intros Hseqs Hss Hmode s e. split.
  - by apply msa_num_gapped_cols_count.
  - intros i. destruct Hmode as [->| ->].
    + apply gapped_column_all.
    + apply gapped_column_any.
Qed.

(** X8: on an explicit alignment without sufficient statistics the columns
    msa_strip_gaps removes are those msa_num_gapped_cols counts over the whole
    alignment: the length after stripping is the old length less that
    count. *)
Theorem msa_strip_gaps_length msa rs mode :
  msa_seqs msa = Some rs ->
  msa_ss msa = None ->
  explicit_wf msa = true ->
  categories_fit msa = true ->
  mode = STRIP_ALL_GAPS \/ mode = STRIP_ANY_GAPS ->
  exists m1 n,
    msa_strip_gaps msa mode = Ok m1 /\
    msa_num_gapped_cols msa mode (-1) (-1) = Ok n /\
    msa_length m1 = msa_length msa - n.
Proof.
  intros Hseqs Hss Hwf Hfit Hmode.
  destruct (explicit_wf_rows _ Hwf) as (rs' & Hseqs' & Hn & HL & Hrows).
  rewrite Hseqs in Hseqs'. injection Hseqs' as <-.
  assert (Hfit' : match msa_categories msa with
                  | Some c => msa_length msa <= Z.of_nat (List.length c)
                  | None => True
                  end).
  { unfold categories_fit in Hfit. destruct (msa_categories msa); [lia|done]. }
  assert (Hrows' : forall j, 0 <= j < msa_nseqs msa ->
            msa_length msa <= Z.of_nat (List.length (get [] rs j))).
  { intros j Hj. apply Hrows. lia. }
  pose proof (msa_strip_gaps_loop (msa_nseqs msa) mode rs (msa_categories msa)
                (msa_length msa) Hn Hrows' Hfit' HL) as Hloop.
  pose proof (msa_strip_gaps_run msa rs mode Hseqs Hmode) as Hrun.
  cbv zeta in Hrun.
  destruct (for_loop 0 (msa_length msa) _ _) as [[rs1 cats1] k] eqn:Eloop.
  destruct Hloop as (Hk & _).
  eexists _, _. split; [exact Hrun|].
  split; [exact (msa_num_gapped_cols_count msa rs mode (-1) (-1) Hseqs Hss Hmode)|].
  simpl. rewrite Hk. unfold kept_columns.
  pose proof (filter_length (gapped_column (msa_nseqs msa) rs mode)
                (seqZ 0 (msa_length msa))) as Hsum.
  rewrite length_seqZ in Hsum. rewrite Z.sub_0_r. lia.
Qed.

(** X9: with at least one row, a column that msa_num_gapped_cols counts in
    STRIP_ALL_GAPS mode is also counted in STRIP_ANY_GAPS mode, so the first
    count never exceeds the second, and neither exceeds the number of columns
    looked at. *)
Theorem msa_num_gapped_cols_all_le_any msa rs start end_ :
  msa_seqs msa = Some rs ->
  msa_ss msa = None ->
  1 <= msa_nseqs msa ->
  let s := if 0 <? start then start else 0 in
  let e := if 0 <? end_ then end_ else msa_length msa in
  exists nall nany,
    msa_num_gapped_cols msa STRIP_ALL_GAPS start end_ = Ok nall /\
    msa_num_gapped_cols msa STRIP_ANY_GAPS start end_ = Ok nany /\
    0 <= nall <= nany /\ nany <= Z.max 0 (e - s).
Proof.
  intros Hseqs Hss Hrows s e.
  pose proof (msa_num_gapped_cols_count msa rs STRIP_ALL_GAPS start end_ Hseqs Hss
                (or_introl eq_refl)) as Hall.
  pose proof (msa_num_gapped_cols_count msa rs STRIP_ANY_GAPS start end_ Hseqs Hss
                (or_intror eq_refl)) as Hany.
  cbv zeta in Hall, Hany. fold s e in Hall, Hany.
  eexists _, _. split; [exact Hall|]. split; [exact Hany|]. split.
  - split; [lia|]. apply inj_le. apply filter_length_mono.
    intros i Hi. apply gapped_column_any.
    exists 0. split; [lia|].
    apply (proj1 (gapped_column_all (msa_nseqs msa) rs i) Hi). lia.
  - pose proof (filter_length_le (gapped_column (msa_nseqs msa) rs STRIP_ANY_GAPS)
                  (seqZ s (e - s))) as Hle.
    rewrite length_seqZ in Hle. lia.
Qed.

End StripGapsModes.

(** ** Coordinate maps: what the two directions compute *)

Lemma count_nongap_step f i :
  0 <= i ->
  count_nongap f (Z.to_nat (i + 1))
  = count_nongap f (Z.to_nat i) + (if f i =c? GAP_CHAR then 0 else 1).
Proof.
  intros Hi. replace (Z.to_nat (i + 1)) with (S (Z.to_nat i)) by lia.
  simpl. by rewrite Z2Nat.id by lia.
Qed.

Lemma count_nongap_grows f x y :
  0 <= x <= y ->
  0 <= count_nongap f (Z.to_nat y) - count_nongap f (Z.to_nat x) <= y - x.
Proof.
  intros Hxy.
  assert (exists n, y = x + Z.of_nat n) as [n ->] by (exists (Z.to_nat (y - x)); lia).
  induction n as [|n IH].
  - rewrite Z.add_0_r. lia.
  - replace (x + Z.of_nat (S n)) with (x + Z.of_nat n + 1) by lia.
    rewrite count_nongap_step by lia.
    specialize (IH ltac:(lia)).
    destruct (f (x + Z.of_nat n) =c? GAP_CHAR); lia.
Qed.

Lemma count_nongap_nonneg f x : 0 <= count_nongap f (Z.to_nat x).
Proof.
  destruct (Z.le_gt_cases 0 x) as [Hx|Hx].
  - pose proof (count_nongap_grows f 0 x ltac:(lia)). simpl in *. lia.
  - replace (Z.to_nat x) with O by lia. done.
Qed.

Lemma runs_start f : runs_ok f 0 ([], [], 0, true).
Proof.
  unfold runs_ok, lst_size. simpl.
  repeat split; try done; try lia.
Qed.

Lemma runs_step f i st :
  0 <= i -> runs_ok f i st -> runs_ok f (i + 1) (coord_map_column (f i) i st).
Proof.
  intros Hi. destruct st as [[[ml sl] j] last].
  intros Hinv. cbv beta iota zeta delta [runs_ok] in Hinv.
  destruct Hinv as (Hsz & Hj & Hanch & Hinc & Hgov & Hlead & Hrun).
  pose proof (count_nongap_step f i Hi) as HN.
  assert (Hsz0 : 0 <= lst_size sl) by (unfold lst_size; lia).
  unfold coord_map_column.
  destruct (f i =c? GAP_CHAR) eqn:Hc.
  - (* a gap column: the lists stay *)
    cbv beta iota zeta delta [runs_ok].
    rewrite HN, Z.add_0_r.
    split; [done|]. split; [done|]. split.
    { intros a Ha. destruct (Hanch a Ha) as (H1 & H2 & H3). repeat split; lia || done. }
    split; [done|]. split.
    { intros q a Hq Ha Hlo Hhi.
      destruct (Z.eq_dec q (i + 1)) as [->|Hne]; [|apply Hgov; try done; lia].
      destruct (Hanch a Ha) as (H1 & _ & _).
      assert (Hz : a + 1 = lst_size sl).
      { destruct (Z.lt_ge_cases (a + 1) (lst_size sl)) as [Hlt|]; [|lia].
        specialize (Hhi Hlt). destruct (Hanch (a + 1) ltac:(lia)) as (H1' & _). lia. }
      pose proof (Hgov i a ltac:(lia) Ha ltac:(lia) ltac:(lia)) as Hq'.
      destruct (Z.ltb_spec (a + 1) (lst_size sl)); [lia|].
      rewrite HN, Z.add_0_r. lia. }
    split; [|done].
    intros q Hq Hcase.
    destruct (Z.eq_dec q (i + 1)) as [->|Hne]; [|apply Hlead; [lia|done]].
    rewrite HN, Z.add_0_r.
    destruct (Z.eq_dec i 0) as [->|Hi0]; [done|].
    apply Hlead; [lia|].
    destruct (Z.eq_dec (lst_size sl) 0) as [E|E]; [by left|right].
    destruct Hcase as [|Hlt]; [lia|].
    destruct (Hanch 0 ltac:(lia)) as (H1 & _). lia.
  - destruct last.
    + (* a run begins: the anchor (i + 1, j + 1) is pushed *)
      cbv beta iota zeta delta [runs_ok].
      rewrite !lst_size_push, HN.
      assert (Hget_m : forall a, 0 <= a <= lst_size sl ->
                lst_get_int (lst_push_int ml (i + 1)) a
                = if a <? lst_size sl then lst_get_int ml a else i + 1).
      { intros a Ha. rewrite lst_get_push by lia. rewrite Hsz.
        destruct (Z.ltb_spec a (lst_size sl)); [done|].
        destruct (Z.eqb_spec a (lst_size sl)); [done|lia]. }
      assert (Hget_s : forall a, 0 <= a <= lst_size sl ->
                lst_get_int (lst_push_int sl (j + 1)) a
                = if a <? lst_size sl then lst_get_int sl a else j + 1).
      { intros a Ha. rewrite lst_get_push by lia.
        destruct (Z.ltb_spec a (lst_size sl)); [done|].
        destruct (Z.eqb_spec a (lst_size sl)); [done|lia]. }
      split; [lia|]. split; [lia|]. split.
      { intros a Ha. rewrite Hget_m, Hget_s by lia.
        destruct (Z.ltb_spec a (lst_size sl)) as [Hlt|Hge].
        - destruct (Hanch a ltac:(lia)) as (H1 & H2 & H3). repeat split; lia || done.
        - replace (i + 1 - 1) with i by lia. rewrite HN. repeat split; lia. }
      split.
      { intros a Ha Ha'. rewrite !Hget_m by lia.
        destruct (Z.ltb_spec a (lst_size sl)); [|lia].
        destruct (Z.ltb_spec (a + 1) (lst_size sl)) as [Hlt|Hge].
        - apply Hinc; lia.
        - destruct (Hanch a ltac:(lia)) as (H1 & _). lia. }
      split.
      { intros q a Hq Ha. rewrite (Hget_m a), (Hget_s a) by lia.
        destruct (Z.ltb_spec a (lst_size sl)) as [Hlt|Hge].
        - intros Hlo Hhi.
          rewrite (Hget_m (a + 1)) in Hhi by lia.
          rewrite (Hget_s (a + 1)) by lia.
          destruct (Z.ltb_spec (a + 1) (lst_size sl + 1)); [|lia].
          specialize (Hhi ltac:(lia)).
          destruct (Z.ltb_spec (a + 1) (lst_size sl)) as [Hlt'|Hge'].
          + pose proof (Hgov q a) as Hq'.
            destruct (Z.ltb_spec (a + 1) (lst_size sl)); [|lia].
            apply Hq'; try lia. destruct (Hanch (a + 1) ltac:(lia)) as (H1 & _). lia.
          + pose proof (Hgov q a) as Hq'.
            destruct (Z.ltb_spec (a + 1) (lst_size sl)); [lia|].
            rewrite Hq'; try lia.
        - intros Hlo _. assert (q = i + 1) as -> by lia.
          destruct (Z.ltb_spec (a + 1) (lst_size sl + 1)); [lia|].
          rewrite HN. lia. }
      split; [|intros _; split; [lia|]].
      { intros q Hq Hcase. rewrite (Hget_m 0) in Hcase by lia.
        destruct (Z.ltb_spec 0 (lst_size sl)) as [Hpos|Hnone].
        - apply Hlead; [|right; lia].
          destruct Hcase as [|Hlt]; [lia|].
          destruct (Hanch 0 ltac:(lia)) as (H1 & _). lia.
        - apply Hlead; [|left; lia]. lia. }
      replace (lst_size sl + 1 - 1) with (lst_size sl) by lia.
      rewrite Hget_m, Hget_s by lia.
      destruct (Z.ltb_spec (lst_size sl) (lst_size sl)); lia.
    + (* the run goes on *)
      destruct (Hrun eq_refl) as [Hpos Hjz].
      cbv beta iota zeta delta [runs_ok]. rewrite HN.
      split; [done|]. split; [lia|]. split.
      { intros a Ha. destruct (Hanch a Ha) as (H1 & H2 & H3). repeat split; lia || done. }
      split; [done|]. split.
      { intros q a Hq Ha Hlo Hhi.
        destruct (Z.ltb_spec (a + 1) (lst_size sl)) as [Hlt|Hge].
        - pose proof (Hgov q a) as Hq'.
          destruct (Z.ltb_spec (a + 1) (lst_size sl)); [|lia].
          apply Hq'; try lia; try done.
          specialize (Hhi Hlt). destruct (Hanch (a + 1) ltac:(lia)) as (H1 & _). lia.
        - assert (a = lst_size sl - 1) as -> by lia.
          destruct (Z.eq_dec q (i + 1)) as [->|Hne]; [rewrite HN; lia|].
          pose proof (Hgov q (lst_size sl - 1)) as Hq'.
          destruct (Z.ltb_spec (lst_size sl - 1 + 1) (lst_size sl)); [lia|].
          rewrite Hq'; try lia. }
      split; [|intros _; split; [done|lia]].
      intros q Hq Hcase. apply Hlead; [|done].
      destruct Hcase as [|Hlt]; [lia|].
      destruct (Hanch 0 ltac:(lia)) as (H1 & _). lia.
Qed.

Lemma lst_bsearch_int_spec lst val :
  increasing lst ->
  let idx := lst_bsearch_int lst val in
  -1 <= idx < lst_size lst /\
  (0 <= idx -> lst_get_int lst idx <= val) /\
  (idx + 1 < lst_size lst -> val < lst_get_int lst (idx + 1)).
Proof.
  intros Hinc.
  apply (lst_bsearch_loop_spec lst val Hinc (List.length lst) 0 (lst_size lst - 1));
    unfold lst_size; lia.
Qed.

(** On a finished scan, msa_map_msa_to_seq returns the number of non-gap
    characters up to the column, or -1 where there is none yet. *)
Lemma runs_msa_to_seq f L ml sl j last q :
  runs_ok f L (ml, sl, j, last) ->
  1 <= q <= L ->
  msa_map_msa_to_seq {| msa_list := ml; seq_list := sl; msa_len := L; seq_len := j |} q
  = Ok (if count_nongap f (Z.to_nat q) =? 0 then -1
        else count_nongap f (Z.to_nat q)).
Proof.
  intros (Hsz & Hj & Hanch & Hinc & Hgov & Hlead & Hrun) Hq.
  assert (Hinc_m : increasing ml).
  { apply adjacent_increasing. intros a Ha Ha'. apply Hinc; lia. }
  destruct (lst_bsearch_int_spec ml q Hinc_m) as (Hrange & Hle & Hgt).
  unfold msa_map_msa_to_seq. simpl.
  destruct (Z.ltb_spec q 1); [lia|]. destruct (Z.ltb_spec L q); [lia|]. simpl.
  set (idx := lst_bsearch_int ml q) in *.
  destruct (Z.ltb_spec idx 0) as [Hneg|Hidx].
  - assert (idx = -1) as E by lia. rewrite E in Hgt. change (-1 + 1) with 0 in Hgt.
    rewrite Hlead; [done|lia|].
    destruct (Z.eq_dec (lst_size sl) 0); [by left|right]. apply Hgt. lia.
  - destruct (Z.ltb_spec idx (lst_size ml)); [|lia]. simpl. f_equal.
    specialize (Hle Hidx).
    pose proof (Hgov q idx ltac:(lia) ltac:(lia) Hle) as HN.
    rewrite HN by (intros Hn; apply Hgt; lia).
    destruct (Hanch idx ltac:(lia)) as (Ha1 & Ha2 & Ha3).
    pose proof (count_nongap_nonneg f (lst_get_int ml idx - 1)).
    pose proof (count_nongap_grows f (lst_get_int ml idx) q ltac:(lia)) as Hgrow.
    rewrite HN in Hgrow by (intros Hn; apply Hgt; lia).
    replace (lst_size sl - 1) with (lst_size sl + -1) by lia.
    destruct (Z.ltb_spec (idx + 1) (lst_size sl)), (Z.ltb_spec idx (lst_size sl + -1));
      try lia.
    + destruct (Z.leb_spec (lst_get_int sl (idx + 1))
                  (lst_get_int sl idx + (q - lst_get_int ml idx)));
        destruct (Z.eqb_spec (Z.min (lst_get_int sl idx + (q - lst_get_int ml idx))
                                (lst_get_int sl (idx + 1) - 1)) 0); lia.
    + destruct (Z.leb_spec (j + 1) (lst_get_int sl idx + (q - lst_get_int ml idx)));
        destruct (Z.eqb_spec (Z.min (lst_get_int sl idx + (q - lst_get_int ml idx))
                                (j + 1 - 1)) 0); lia.
Qed.

(** On a finished scan, msa_map_seq_to_msa returns the column that holds
    the [p]-th non-gap character. *)
Lemma runs_seq_to_msa f L ml sl j last p :
  0 <= L ->
  runs_ok f L (ml, sl, j, last) ->
  1 <= p <= j ->
  exists q,
    msa_map_seq_to_msa {| msa_list := ml; seq_list := sl; msa_len := L; seq_len := j |} p
    = Ok q /\
    1 <= q <= L /\ f (q - 1) <> GAP_CHAR /\ count_nongap f (Z.to_nat q) = p.
Proof.
  intros HL (Hsz & Hj & Hanch & Hinc & Hgov & Hlead & Hrun) Hp.
  assert (Hne : 0 < lst_size sl).
  { destruct (Z.lt_ge_cases 0 (lst_size sl)); [done|].
    assert (E : lst_size sl = 0) by (unfold lst_size in *; lia).
    destruct (Z.eq_dec L 0) as [->|]; [simpl in Hj; lia|].
    rewrite (Hlead L) in Hj; [lia|lia|by left]. }
  assert (Hadj_s : forall a, 0 <= a -> a + 1 < lst_size sl ->
            lst_get_int sl a < lst_get_int sl (a + 1)).
  { intros a Ha Ha'.
    destruct (Hanch a) as (A1 & A2 & A3); [lia|].
    destruct (Hanch (a + 1)) as (B1 & B2 & B3); [lia|].
    pose proof (Hinc a Ha Ha').
    pose proof (count_nongap_grows f (lst_get_int ml a) (lst_get_int ml (a + 1) - 1)
                  ltac:(lia)).
    lia. }
  assert (Hinc_s : increasing sl) by (by apply adjacent_increasing).
  destruct (lst_bsearch_int_spec sl p Hinc_s) as (Hrange & Hle & Hgt).
  set (idx := lst_bsearch_int sl p) in *.
  assert (Hs0 : lst_get_int sl 0 = 1).
  { destruct (Hanch 0) as (A1 & A2 & A3); [lia|].
    destruct (Z.eq_dec (lst_get_int ml 0) 1) as [E|E].
    - rewrite E in A3. simpl in A3. lia.
    - rewrite (Hlead (lst_get_int ml 0 - 1)) in A3; [lia|lia|right; lia]. }
  assert (Hidx : 0 <= idx).
  { destruct (Z.lt_ge_cases idx 0); [|done].
    assert (idx = -1) as E by lia. rewrite E in Hgt.
    change (-1 + 1) with 0 in Hgt. specialize (Hgt Hne). lia. }
  specialize (Hle Hidx).
  destruct (Hanch idx ltac:(lia)) as (A1 & A2 & A3).
  set (q := lst_get_int ml idx + (p - lst_get_int sl idx)).
  assert (Hnext : idx + 1 < lst_size sl -> q < lst_get_int ml (idx + 1)).
  { intros Hn. specialize (Hgt Hn).
    destruct (Hanch (idx + 1) ltac:(lia)) as (B1 & B2 & B3).
    pose proof (Hinc idx Hidx Hn).
    pose proof (count_nongap_grows f (lst_get_int ml idx)
                  (lst_get_int ml (idx + 1) - 1) ltac:(lia)).
    unfold q. lia. }
  assert (HqL : q <= L).
  { destruct (Z.lt_ge_cases (idx + 1) (lst_size sl)) as [Hn|Hn].
    - specialize (Hnext Hn). destruct (Hanch (idx + 1) ltac:(lia)) as (B1 & _). lia.
    - pose proof (count_nongap_grows f (lst_get_int ml idx) L ltac:(lia)).
      unfold q. lia. }
  assert (HNq : forall t, 0 <= t <= p - lst_get_int sl idx ->
            count_nongap f (Z.to_nat (lst_get_int ml idx + t)) = lst_get_int sl idx + t).
  { intros t Ht. rewrite (Hgov (lst_get_int ml idx + t) idx) by (unfold q in Hnext; lia).
    destruct (Z.ltb_spec (idx + 1) (lst_size sl)) as [Hn|Hn]; [|lia].
    specialize (Hgt Hn). lia. }
  exists q. split; [|split; [unfold q; lia|split]].
  - unfold msa_map_seq_to_msa. simpl.
    destruct (Z.ltb_spec p 1); [lia|]. destruct (Z.ltb_spec j p); [lia|]. simpl.
    fold idx. rewrite Hsz.
    destruct (Z.leb_spec 0 idx); [|lia].
    destruct (Z.ltb_spec idx (lst_size sl)); [|lia]. done.
  - assert (Hstep : count_nongap f (Z.to_nat q) = count_nongap f (Z.to_nat (q - 1)) + 1).
    { destruct (Z.eq_dec p (lst_get_int sl idx)) as [E|E].
      - unfold q. rewrite E, Z.sub_diag, Z.add_0_r. lia.
      - pose proof (HNq (p - lst_get_int sl idx) ltac:(lia)).
        pose proof (HNq (p - lst_get_int sl idx - 1) ltac:(lia)).
        unfold q.
        replace (lst_get_int ml idx + (p - lst_get_int sl idx) - 1)
          with (lst_get_int ml idx + (p - lst_get_int sl idx - 1)) by lia.
        lia. }
    pose proof (count_nongap_step f (q - 1) ltac:(unfold q; lia)) as Hs.
    replace (q - 1 + 1) with q in Hs by lia.
    intros Hgap. rewrite Hgap in Hs. unfold Chr.eqb in Hs.
    rewrite Ascii.eqb_refl in Hs. lia.
  - unfold q. rewrite HNq; lia.
Qed.

Section CoordinateMapCounts.
Context {SS : SuffStats}.

Lemma msa_build_coord_map_runs msa rs refseq :
  msa_seqs msa = Some rs ->
  exists ml sl j last,
    msa_build_coord_map msa refseq =
      Ok {| msa_list := ml; seq_list := sl; msa_len := msa_length msa; seq_len := j |} /\
    runs_ok (seq_at rs (refseq - 1)) (Z.max 0 (msa_length msa)) (ml, sl, j, last).
Proof.
  intros Hseqs. unfold msa_build_coord_map. rewrite Hseqs. simpl.
  match goal with |- context [for_loop 0 _ ?b ?s] => set (body := b); set (s0 := s) end.
  assert (HP : runs_ok (seq_at rs (refseq - 1)) (Z.max 0 (msa_length msa))
                 (for_loop 0 (msa_length msa) body s0)).
  { destruct (Z.le_gt_cases 0 (msa_length msa)) as [HL|HL].
    - rewrite Z.max_r by lia.
      apply (for_loop_inv (runs_ok (seq_at rs (refseq - 1)))); [done|apply runs_start|].
      intros i st Hi Hok. unfold body. apply runs_step; [lia|done].
    - rewrite for_loop_empty by lia. rewrite Z.max_l by lia. apply runs_start. }
  destruct (for_loop 0 (msa_length msa) body s0) as [[[ml sl] j] last].
  exists ml, sl, j, last. done.
Qed.

End CoordinateMapCounts.

Section CoordinateMapTheorems.
Context {SS : SuffStats}.

(** X10: the map that msa_build_coord_map builds for a row of an explicit
    alignment records as [seq_len] the number of non-gap characters of the
    row, and msa_map_msa_to_seq sends every column [q] of the alignment to the
    number of non-gap characters the row has in columns 1 to [q], or to -1
    when it has none there (the column lies in the gaps that lead the row). *)
Theorem msa_map_msa_to_seq_counts msa rs refseq :
  msa_seqs msa = Some rs ->
  exists map,
    msa_build_coord_map msa refseq = Ok map /\
    seq_len map = nongaps_upto rs refseq (msa_length msa) /\
    forall q, 1 <= q <= msa_length msa ->
      msa_map_msa_to_seq map q =
        Ok (if nongaps_upto rs refseq q =? 0 then -1 else nongaps_upto rs refseq q).
Proof.
  intros Hseqs.
  destruct (msa_build_coord_map_runs msa rs refseq Hseqs)
    as (ml & sl & j & last & Hbuild & Hok).
  eexists. split; [exact Hbuild|]. simpl. split.
  - destruct Hok as (_ & Hj & _). rewrite Hj. unfold nongaps_upto.
    f_equal. lia.
  - intros q Hq. rewrite Z.max_r in Hok by lia.
    apply (runs_msa_to_seq _ _ _ _ _ _ q Hok Hq).
Qed.

(** X11: for every position [p] of a row (1 <= p <= seq_len),
    msa_map_seq_to_msa on the map of that row returns the alignment column
    that holds the [p]-th non-gap character of the row: a column within the
    alignment, in which the row has no gap, and up to which the row has
    exactly [p] non-gap characters. *)
Theorem msa_map_seq_to_msa_nth msa rs refseq :
  msa_seqs msa = Some rs ->
  exists map,
    msa_build_coord_map msa refseq = Ok map /\
    forall p, 1 <= p <= seq_len map ->
      exists q,
        msa_map_seq_to_msa map p = Ok q /\ 1 <= q <= msa_length msa /\
        seq_at rs (refseq - 1) (q - 1) <> GAP_CHAR /\
        nongaps_upto rs refseq q = p.
Proof.
  intros Hseqs.
  destruct (msa_build_coord_map_runs msa rs refseq Hseqs)
    as (ml & sl & j & last & Hbuild & Hok).
  eexists. split; [exact Hbuild|]. simpl. intros p Hp.
  destruct (runs_seq_to_msa _ (Z.max 0 (msa_length msa)) _ _ _ _ p ltac:(lia) Hok Hp)
    as (q & Hq & Hrange & Hgap & HN).
  assert (HL : 0 < msa_length msa).
  { destruct (Z.lt_ge_cases 0 (msa_length msa)); [done|]. lia. }
  rewrite Z.max_r in Hq, Hrange by lia.
  exists q. done.
Qed.

(** X12: msa_map_seq_to_seq from one row of an explicit alignment to
    another sends position [p] of the first row to the number of non-gap
    characters the second row has up to the column of the [p]-th non-gap
    character of the first, or to -1 when the second row has none there. *)
Theorem msa_map_seq_to_seq_counts msa rs from_seq to_seq :
  msa_seqs msa = Some rs ->
  exists from_map to_map,
    msa_build_coord_map msa from_seq = Ok from_map /\
    msa_build_coord_map msa to_seq = Ok to_map /\
    forall p, 1 <= p <= seq_len from_map ->
      exists q,
        1 <= q <= msa_length msa /\
        seq_at rs (from_seq - 1) (q - 1) <> GAP_CHAR /\
        nongaps_upto rs from_seq q = p /\
        msa_map_seq_to_seq (Some from_map) (Some to_map) p =
          Ok (if nongaps_upto rs to_seq q =? 0 then -1
              else nongaps_upto rs to_seq q).
Proof.
  intros Hseqs.
  destruct (msa_build_coord_map_runs msa rs from_seq Hseqs)
    as (ml & sl & j & last & Hbuild & Hok).
  destruct (msa_build_coord_map_runs msa rs to_seq Hseqs)
    as (ml' & sl' & j' & last' & Hbuild' & Hok').
  eexists _, _. split; [exact Hbuild|]. split; [exact Hbuild'|].
  simpl. intros p Hp.
  destruct (runs_seq_to_msa _ (Z.max 0 (msa_length msa)) _ _ _ _ p ltac:(lia) Hok Hp)
    as (q & Hq & Hrange & Hgap & HN).
  assert (HL : 0 < msa_length msa).
  { destruct (Z.lt_ge_cases 0 (msa_length msa)); [done|]. lia. }
  rewrite Z.max_r in Hq, Hrange, Hok' by lia.
  exists q. split; [done|]. split; [done|]. split; [done|].
  unfold msa_map_seq_to_seq. rewrite Hq. simpl.
  destruct (Z.eqb_spec q (-1)); [lia|].
  apply (runs_msa_to_seq _ _ _ _ _ _ q Hok' Hrange).
Qed.

End CoordinateMapTheorems.


(** ** Sub-alignments *)

(** Filling the first [n] cells of a buffer. *)
Lemma for_loop_fill_prefix {A} (d : A) (g : Z -> A) (l0 : list A) n :
  0 <= n <= Z.of_nat (List.length l0) ->
  let l := for_loop 0 n (fun i l => set l i (g i)) l0 in
  List.length l = List.length l0 /\
  forall i, 0 <= i < Z.of_nat (List.length l0) ->
    get d l i = if i <? n then g i else get d l0 i.
Proof.
  intros Hn.
  apply (for_loop_inv (fun k l =>
           List.length l = List.length l0 /\
           forall i, 0 <= i < Z.of_nat (List.length l0) ->
             get d l i = if i <? k then g i else get d l0 i)); [lia| |].
  - split; [done|]. intros i Hi. destruct (Z.ltb_spec i 0); [lia|done].
  - intros k l Hk [Hlen Hget]. split; [by rewrite length_set|].
    intros i Hi. destruct (Z.eq_dec i k) as [->|Hne].
    + rewrite get_set_eq by lia. destruct (Z.ltb_spec k (k + 1)); [done|lia].
    + rewrite get_set_ne by lia. rewrite Hget by lia.
      destruct (Z.ltb_spec i k), (Z.ltb_spec i (k + 1)); try done; lia.
Qed.

(** Collecting the indices below [n] that pass a test. *)
Lemma for_loop_collect (p : Z -> bool) n :
  for_loop 0 n (fun i il => if p i then lst_push_int il i else il) []
  = kept_columns p n.
Proof.
  destruct (Z.le_gt_cases 0 n) as [Hn|Hn]; cycle 1.
  { rewrite for_loop_empty by lia. unfold kept_columns. by rewrite seqZ_nil by lia. }
  apply (for_loop_inv (fun i il => il = kept_columns p i)); [done|done|].
  intros i il Hi ->. rewrite kept_columns_step by lia.
  unfold lst_push_int. destruct (p i); [done|by rewrite app_nil_r].
Qed.

Lemma kept_columns_all n : kept_columns (fun _ => true) n = seqZ 0 n.
Proof.
  unfold kept_columns. induction (seqZ 0 n) as [|x l IH]; simpl; [done|by rewrite IH].
Qed.

Lemma kept_columns_ext p p' n :
  (forall i, 0 <= i < n -> p i = p' i) -> kept_columns p n = kept_columns p' n.
Proof.
  intros Hp. unfold kept_columns. apply List.filter_ext_in.
  intros i Hi. apply list_elem_of_In, elem_of_seqZ in Hi. apply Hp. lia.
Qed.

(** The marks of the exclude mode: a row keeps its 1 unless the list names
    it. *)
Lemma exclude_marks (l : list Z) nseqs x :
  0 <= x < nseqs ->
  get 0 (for_loop 0 (lst_size l) (fun i t => set t (lst_get_int l i) 0)
           (replicate (Z.to_nat nseqs) 1)) x
  = if bool_decide (x ∈ l) then 0 else 1.
Proof.
  intros Hx.
  cut ((fun i t =>
          List.length t = Z.to_nat nseqs /\
          get 0 t x = if bool_decide (x ∈ take (Z.to_nat i) l) then 0 else 1)
         (lst_size l)
         (for_loop 0 (lst_size l) (fun i t => set t (lst_get_int l i) 0)
            (replicate (Z.to_nat nseqs) 1))).
  { intros [_ H]. rewrite H. unfold lst_size. rewrite Nat2Z.id.
    by rewrite firstn_all. }
  apply for_loop_inv; [unfold lst_size; lia| |].
  - split; [apply length_replicate|]. simpl.
    unfold get. destruct (Z.ltb_spec x 0); [lia|].
    rewrite lookup_replicate_2 by lia. done.
  - intros i t Hi [Hlen Hget]. split; [by rewrite length_set|].
    replace (Z.to_nat (i + 1)) with (S (Z.to_nat i)) by lia.
    unfold lst_size in Hi.
    rewrite (take_S_r l (Z.to_nat i) (lst_get_int l i))
      by (unfold lst_get_int; apply get_inside; lia).
    destruct (Z.eq_dec (lst_get_int l i) x) as [E|E].
    + rewrite E. rewrite get_set_eq by lia.
      rewrite bool_decide_true; [done|]. apply elem_of_app. right. by apply list_elem_of_singleton.
    + rewrite get_set_ne by done. rewrite Hget.
      destruct (bool_decide (x ∈ take (Z.to_nat i) l)) eqn:Hin.
      * apply bool_decide_eq_true in Hin.
        rewrite bool_decide_true; [done|]. apply elem_of_app. by left.
      * apply bool_decide_eq_false in Hin.
        rewrite bool_decide_false; [done|].
        intros [H|H]%elem_of_app; [done|]. apply list_elem_of_singleton in H. lia.
Qed.

(** X14: the rows msa_sub_alignment takes are all the rows, in order, when
    it is given no list; the rows of the list, in the order of the list, in
    include mode; and in exclude mode the rows that the list does not name,
    in ascending order. *)
Theorem sub_include_list_spec (msa : MSA) (l : list Z) :
  sub_include_list msa None true = seqZ 0 (msa_nseqs msa) /\
  sub_include_list msa None false = seqZ 0 (msa_nseqs msa) /\
  sub_include_list msa (Some l) true = l /\
  sub_include_list msa (Some l) false
  = List.filter (fun x => negb (bool_decide (x ∈ l))) (seqZ 0 (msa_nseqs msa)).
Proof.
  assert (Hall : for_loop 0 (msa_nseqs msa)
                   (fun i include_list => lst_push_int include_list i) []
                 = seqZ 0 (msa_nseqs msa)).
  { rewrite <- kept_columns_all. apply (for_loop_collect (fun _ => true)). }
  split; [exact Hall|]. split; [exact Hall|]. split; [done|].
  unfold sub_include_list. simpl.
  rewrite (for_loop_collect
             (fun i => get 0 (for_loop 0 (lst_size l)
                                (fun i t => set t (lst_get_int l i) 0)
                                (replicate (Z.to_nat (msa_nseqs msa)) 1)) i =? 1)).
  apply kept_columns_ext. intros x Hx.
  rewrite exclude_marks by done. by destruct (bool_decide (x ∈ l)).
Qed.

Lemma get_map_seqZ {A} (d : A) (g : Z -> A) n i :
  0 <= i < n -> get d (List.map g (seqZ 0 n)) i = g i.
Proof.
  intros Hi. unfold get. destruct (Z.ltb_spec i 0); [lia|].
  change (List.map g (seqZ 0 n)) with (g <$> seqZ 0 n).
  rewrite list_lookup_fmap, lookup_seqZ_lt by lia. simpl. f_equal. lia.
Qed.

(** A buffer filled cell by cell holds the values in the order of the
    cells. *)
Lemma for_loop_fill_map {A} (d : A) (g : Z -> A) n :
  for_loop 0 n (fun i l => set l i (g i)) (replicate (Z.to_nat n) d)
  = List.map g (seqZ 0 n).
Proof.
  destruct (Z.le_gt_cases 0 n) as [Hn|Hn]; cycle 1.
  { rewrite for_loop_empty by lia. rewrite seqZ_nil by lia.
    by replace (Z.to_nat n) with O by lia. }
  destruct (for_loop_fill_prefix d g (replicate (Z.to_nat n) d) n) as [Hlen Hget].
  { rewrite length_replicate. lia. }
  rewrite length_replicate in Hlen, Hget.
  apply (buffer_ext d).
  - rewrite Hlen, length_map, length_seqZ. done.
  - intros i Hi. rewrite Hlen in Hi. rewrite Hget by lia.
    destruct (Z.ltb_spec i n); [|lia]. by rewrite get_map_seqZ by lia.
Qed.

(** The same with one more cell in the buffer than the loop writes. *)
Lemma for_loop_fill_map_spare {A} (d u : A) (g : Z -> A) n :
  0 <= n ->
  for_loop 0 n (fun i l => set l i (g i)) (replicate (Z.to_nat (n + 1)) u)
  = List.map g (seqZ 0 n) ++ [u].
Proof.
  intros Hn.
  destruct (for_loop_fill_prefix d g (replicate (Z.to_nat (n + 1)) u) n) as [Hlen Hget].
  { rewrite length_replicate. lia. }
  rewrite length_replicate in Hlen, Hget.
  apply (buffer_ext d).
  - rewrite Hlen, length_app, length_map, length_seqZ. simpl. lia.
  - intros i Hi. rewrite Hlen in Hi. rewrite Hget by lia.
    unfold get at 2. destruct (Z.ltb_spec i 0); [lia|].
    destruct (Z.ltb_spec i n).
    + rewrite lookup_app_l by (rewrite length_map, length_seqZ; lia).
      change (List.map g (seqZ 0 n)) with (g <$> seqZ 0 n).
      rewrite list_lookup_fmap, lookup_seqZ_lt by lia. simpl. f_equal. lia.
    + rewrite lookup_app_r by (rewrite length_map, length_seqZ; lia).
      rewrite length_map, length_seqZ.
      replace (Z.to_nat i - Z.to_nat n)%nat with O by lia. simpl.
      unfold get. destruct (Z.ltb_spec i 0); [lia|].
      by rewrite lookup_replicate_2 by lia.
Qed.

Lemma map_over_indices {A} (h : Z -> A) (il : list Z) :
  List.map (fun i => h (lst_get_int il i)) (seqZ 0 (lst_size il)) = List.map h il.
Proof.
  apply list_eq. intros i.
  change (List.map ?f ?l) with (f <$> l). rewrite !list_lookup_fmap.
  destruct (il !! i) as [x|] eqn:E.
  - assert (Hi : (i < List.length il)%nat) by (by eapply lookup_lt_Some).
    rewrite lookup_seqZ_lt by (unfold lst_size; lia). simpl. f_equal. f_equal.
    unfold lst_get_int, get. rewrite Z.add_0_l.
    destruct (Z.ltb_spec (Z.of_nat i) 0); [lia|]. by rewrite Nat2Z.id, E.
  - assert (Hi : (List.length il <= i)%nat) by (by apply lookup_ge_None).
    by rewrite lookup_seqZ_ge by (unfold lst_size; lia).
Qed.

Lemma sub_index_check_ok (msa : MSA) (l : list Z) :
  (forall x, x ∈ l -> 0 <= x < msa_nseqs msa) ->
  for_loop_r 0 (lst_size l)
    (fun i (_ : unit) =>
       if (lst_get_int l i <? 0) || (msa_nseqs msa <=? lst_get_int l i)
       then Fatal "ERROR: sequence index out of range in msa_sub_alignment."
       else Ok tt)
    tt = Ok tt.
Proof.
  intros Hl.
  destruct (for_loop_r_inv (fun _ (_ : unit) => True) 0 (lst_size l)
              (fun i (_ : unit) =>
                 if (lst_get_int l i <? 0) || (msa_nseqs msa <=? lst_get_int l i)
                 then Fatal "ERROR: sequence index out of range in msa_sub_alignment."
                 else Ok tt) tt) as ([] & Hrun & _); [unfold lst_size; lia|done| |done].
  intros i [] Hi _. exists tt. split; [|done].
  assert (Hin : lst_get_int l i ∈ l).
  { apply list_elem_of_lookup. exists (Z.to_nat i). apply get_inside. exact Hi. }
  specialize (Hl _ Hin).
  destruct (Z.ltb_spec (lst_get_int l i) 0), (Z.leb_spec (msa_nseqs msa) (lst_get_int l i));
    simpl; try done; lia.
Qed.

Section SubAlignmentFacts.
Context {SSS : SuffStatsSub}.
Variable uninit : ascii.

(** The alignment msa_sub_alignment returns for an explicit alignment, a
    non-empty column range and row indices within the alignment. *)
Lemma msa_sub_alignment_explicit msa rs seqlist include start_col end_col :
  msa_seqs msa = Some rs ->
  start_col < end_col ->
  (forall l, seqlist = Some l -> forall x, x ∈ l -> 0 <= x < msa_nseqs msa) ->
  let il := sub_include_list msa seqlist include in
  let new_len := end_col - start_col in
  let new_msa :=
    msa_new
      (Some (List.map
               (fun seq =>
                  List.map (fun j => seq_at rs seq (start_col + j)) (seqZ 0 new_len)
                  ++ [uninit]) il))
      (List.map (fun seq => get EmptyString (msa_names msa) seq) il)
      (lst_size il) new_len (Some (msa_alphabet msa)) in
  msa_sub_alignment uninit msa seqlist include start_col end_col
  = Ok (set_idx_offset
          match msa_categories msa with
          | Some cats =>
              if 0 <=? msa_ncats msa then
                set_categories (set_ncats new_msa (msa_ncats msa))
                  (Some (List.map (fun j => get 0 cats (start_col + j)) (seqZ 0 new_len)))
              else new_msa
          | None => new_msa
          end
          (msa_idx_offset msa + start_col)).
Proof.
  intros Hseqs Hcols Hl il new_len new_msa.
  unfold msa_sub_alignment. fold new_len.
  destruct (Z.ltb_spec 0 new_len); [|unfold new_len in *; lia]. simpl.
  rewrite Hseqs. rewrite bool_decide_true by done. simpl.
  assert (Hcheck : match seqlist with
            | Some l =>
                for_loop_r 0 (lst_size l)
                  (fun i (_ : unit) =>
                     if (lst_get_int l i <? 0) || (msa_nseqs msa <=? lst_get_int l i)
                     then Fatal "ERROR: sequence index out of range in msa_sub_alignment."
                     else Ok tt) tt
            | None => Ok tt
            end = Ok tt).
  { destruct seqlist as [l|]; [|done]. apply sub_index_check_ok. by apply Hl. }
  rewrite Hcheck. simpl. fold il. f_equal. f_equal.
  assert (Hnames :
    for_loop 0 (lst_size il)
      (fun i new_names =>
         set new_names i (get EmptyString (msa_names msa) (lst_get_int il i)))
      (replicate (Z.to_nat (lst_size il)) EmptyString)
    = List.map (fun seq => get EmptyString (msa_names msa) seq) il).
  { rewrite (for_loop_fill_map EmptyString
               (fun i => get EmptyString (msa_names msa) (lst_get_int il i))).
    apply (map_over_indices (fun seq => get EmptyString (msa_names msa) seq)). }
  assert (Hrows :
    for_loop 0 (lst_size il)
      (fun i new_seqs =>
         set new_seqs i
           (for_loop 0 new_len
              (fun j row => set row j (seq_at rs (lst_get_int il i) (start_col + j)))
              (replicate (Z.to_nat (new_len + 1)) uninit)))
      (replicate (Z.to_nat (lst_size il)) [])
    = List.map
        (fun seq =>
           List.map (fun j => seq_at rs seq (start_col + j)) (seqZ 0 new_len)
           ++ [uninit]) il).
  { rewrite (for_loop_fill_map []
               (fun i => for_loop 0 new_len
                  (fun j row => set row j (seq_at rs (lst_get_int il i) (start_col + j)))
                  (replicate (Z.to_nat (new_len + 1)) uninit))).
    rewrite <- (map_over_indices
                  (fun seq => List.map (fun j => seq_at rs seq (start_col + j))
                                (seqZ 0 new_len) ++ [uninit])).
    apply map_ext. intros i.
    apply (for_loop_fill_map_spare Chr.NUL uninit
             (fun j => seq_at rs (lst_get_int il i) (start_col + j))). lia. }
  rewrite Hnames, Hrows. fold new_msa.
  destruct (msa_categories msa) as [cats|]; [|done].
  destruct (0 <=? msa_ncats msa); [|done].
  by rewrite (for_loop_fill_map 0 (fun j => get 0 cats (start_col + j))).
Qed.

End SubAlignmentFacts.

Lemma get_map {A B} (d : A) (d' : B) (f : A -> B) (l : list A) i :
  0 <= i < Z.of_nat (List.length l) -> get d' (List.map f l) i = f (get d l i).
Proof.
  intros Hi. unfold get. destruct (Z.ltb_spec i 0); [lia|].
  change (List.map f l) with (f <$> l). rewrite list_lookup_fmap.
  destruct (lookup_lt_is_Some_2 l (Z.to_nat i)) as [x Hx]; [lia|]. by rewrite Hx.
Qed.

Lemma get_app_l {A} (d : A) (l1 l2 : list A) i :
  i < Z.of_nat (List.length l1) -> get d (l1 ++ l2) i = get d l1 i.
Proof.
  intros Hi. unfold get. destruct (Z.ltb_spec i 0); [done|].
  by rewrite lookup_app_l by lia.
Qed.

(** A cell of the matrix that msa_sub_alignment builds. *)
Lemma sub_alignment_cell (rs : list (list ascii)) (il : list Z) u start_col new_len i j :
  0 <= i < lst_size il -> 0 <= j < new_len ->
  seq_at (List.map
            (fun seq => List.map (fun j => seq_at rs seq (start_col + j)) (seqZ 0 new_len)
                        ++ [u]) il) i j
  = seq_at rs (lst_get_int il i) (start_col + j).
Proof.
  intros Hi Hj. unfold seq_at at 1.
  rewrite (get_map 0 []) by exact Hi.
  rewrite get_app_l by (rewrite length_map, length_seqZ; lia).
  by rewrite get_map_seqZ by lia.
Qed.

Lemma sub_include_list_all msa include :
  sub_include_list msa None include = seqZ 0 (msa_nseqs msa).
Proof.
  unfold sub_include_list. rewrite <- kept_columns_all.
  apply (for_loop_collect (fun _ => true)).
Qed.

Lemma lst_get_seqZ n i : 0 <= i < n -> lst_get_int (seqZ 0 n) i = i.
Proof.
  intros Hi. unfold lst_get_int, get. destruct (Z.ltb_spec i 0); [lia|].
  rewrite lookup_seqZ_lt by lia. simpl. lia.
Qed.

Lemma lst_size_seqZ n : lst_size (seqZ 0 n) = Z.max 0 n.
Proof. unfold lst_size. rewrite length_seqZ. lia. Qed.

Section SubAlignmentTheorems.
Context {SSS : SuffStatsSub}.
Variable uninit : ascii.


(** X16: msa_sub_alignment stops the process when the column range is
    empty ([end_col <= start_col]), when the alignment has neither a matrix
    nor sufficient statistics, and when the list names a row index outside
    the alignment. *)
Theorem msa_sub_alignment_fatal msa seqlist include start_col end_col :
  end_col <= start_col \/
  (msa_seqs msa = None /\ msa_ss msa = None) \/
  (exists l x, seqlist = Some l /\ x ∈ l /\ ~ (0 <= x < msa_nseqs msa)) ->
  exists msg, msa_sub_alignment uninit msa seqlist include start_col end_col = Fatal msg.
Proof.
  intros Hcase. unfold msa_sub_alignment.
  destruct (Z.ltb_spec 0 (end_col - start_col)) as [Hlen|Hlen]; simpl; [|eauto].
  destruct (bool_decide (msa_seqs msa <> None) || bool_decide (msa_ss msa <> None))
    eqn:Hrep; simpl; [|eauto].
  destruct Hcase as [Hc|[[Hs Hss]|(l & x & -> & Hx & Hout)]]; [lia| |].
  { rewrite Hs, Hss in Hrep. by rewrite !bool_decide_false in Hrep by (by intros []). }
  apply list_elem_of_lookup in Hx as [k Hk].
  assert (Hk' : (k < List.length l)%nat) by (by eapply lookup_lt_Some).
  destruct (for_loop_r_fatal 0 (lst_size l)
              (fun i (_ : unit) =>
                 if (lst_get_int l i <? 0) || (msa_nseqs msa <=? lst_get_int l i)
                 then Fatal "ERROR: sequence index out of range in msa_sub_alignment."
                 else Ok tt) tt (Z.of_nat k)) as [msg Hmsg].
  { unfold lst_size. lia. }
  { intros []. unfold lst_get_int, get.
    destruct (Z.ltb_spec (Z.of_nat k) 0); [lia|]. rewrite Nat2Z.id, Hk. simpl.
    destruct (Z.ltb_spec x 0), (Z.leb_spec (msa_nseqs msa) x); simpl; eauto. lia. }
  rewrite Hmsg. simpl. eauto.
Qed.

(** X17: taking the columns [s2, e2) of the sub-alignment of the columns
    [s1, e1), all rows each time, gives the very alignment that
    msa_sub_alignment returns for the columns [s1 + s2, s1 + e2) of the
    original: same rows, names, labels and [idx_offset]. *)
Theorem msa_sub_alignment_nested msa rs include s1 e1 s2 e2 :
  msa_seqs msa = Some rs ->
  s1 < e1 -> 0 <= s2 < e2 -> e2 <= e1 - s1 ->
  exists m1,
    msa_sub_alignment uninit msa None include s1 e1 = Ok m1 /\
    msa_sub_alignment uninit m1 None include s2 e2
    = msa_sub_alignment uninit msa None include (s1 + s2) (s1 + e2).
Proof.
  intros Hseqs H1 H2 H3.
  rewrite (msa_sub_alignment_explicit uninit msa rs None include s1 e1 Hseqs H1)
    by done.
  rewrite (msa_sub_alignment_explicit uninit msa rs None include (s1 + s2) (s1 + e2)
             Hseqs) by (done || lia).
  cbv zeta. rewrite !sub_include_list_all.
  replace (s1 + e2 - (s1 + s2)) with (e2 - s2) by lia.
  set (n := msa_nseqs msa).
  set (R1 := List.map
               (fun seq => List.map (fun j => seq_at rs seq (s1 + j)) (seqZ 0 (e1 - s1))
                           ++ [uninit]) (seqZ 0 n)).
  set (N1 := List.map (fun seq => get EmptyString (msa_names msa) seq) (seqZ 0 n)).
  assert (Hrows : List.map
            (fun seq => List.map (fun j => seq_at R1 seq (s2 + j)) (seqZ 0 (e2 - s2))
                        ++ [uninit]) (seqZ 0 (lst_size (seqZ 0 n)))
          = List.map
            (fun seq => List.map (fun j => seq_at rs seq (s1 + s2 + j)) (seqZ 0 (e2 - s2))
                        ++ [uninit]) (seqZ 0 n)).
  { rewrite lst_size_seqZ.
    replace (seqZ 0 (Z.max 0 n)) with (seqZ 0 n)
      by (destruct (Z.le_gt_cases 0 n);
          [by rewrite Z.max_r by lia|by rewrite Z.max_l, !seqZ_nil by lia]).
    apply map_ext_in. intros seq Hseq.
    apply list_elem_of_In, elem_of_seqZ in Hseq.
    f_equal. apply map_ext_in. intros j Hj.
    apply list_elem_of_In, elem_of_seqZ in Hj.
    unfold R1. rewrite sub_alignment_cell by (rewrite ?lst_size_seqZ; lia).
    rewrite lst_get_seqZ by lia. f_equal. lia. }
  assert (Hnames : List.map (fun seq => get EmptyString N1 seq)
                     (seqZ 0 (lst_size (seqZ 0 n)))
                   = N1).
  { rewrite lst_size_seqZ.
    replace (seqZ 0 (Z.max 0 n)) with (seqZ 0 n)
      by (destruct (Z.le_gt_cases 0 n);
          [by rewrite Z.max_r by lia|by rewrite Z.max_l, !seqZ_nil by lia]).
    unfold N1. apply map_ext_in. intros seq Hseq.
    apply list_elem_of_In, elem_of_seqZ in Hseq.
    rewrite (get_map 0 EmptyString) by (rewrite length_seqZ; lia).
    f_equal. apply (lst_get_seqZ n seq). lia. }
  assert (Hlabels : forall cats : list Z,
            List.map (fun j => get 0 (List.map (fun j => get 0 cats (s1 + j))
                                        (seqZ 0 (e1 - s1))) (s2 + j))
              (seqZ 0 (e2 - s2))
            = List.map (fun j => get 0 cats (s1 + s2 + j)) (seqZ 0 (e2 - s2))).
  { intros cats. apply map_ext_in. intros j Hj.
    apply list_elem_of_In, elem_of_seqZ in Hj.
    rewrite get_map_seqZ by lia. f_equal. lia. }
  eexists. split; [done|].
  destruct (msa_categories msa) as [cats|] eqn:Hcats.
  - destruct (Z.leb_spec 0 (msa_ncats msa)) as [Hn|Hn].
    + erewrite msa_sub_alignment_explicit; [|simpl; reflexivity|lia|done].
      cbv zeta. rewrite sub_include_list_all. simpl.
      destruct (Z.leb_spec 0 (msa_ncats msa)); [|lia].
      fold n R1 N1. rewrite Hrows, Hnames, Hlabels.
      rewrite !lst_size_seqZ, Z.add_assoc.
      by replace (Z.max 0 (Z.max 0 n)) with (Z.max 0 n) by lia.
    + erewrite msa_sub_alignment_explicit; [|simpl; reflexivity|lia|done].
      cbv zeta. rewrite sub_include_list_all. simpl.
      fold n R1 N1. rewrite Hrows, Hnames.
      rewrite !lst_size_seqZ, Z.add_assoc.
      by replace (Z.max 0 (Z.max 0 n)) with (Z.max 0 n) by lia.
  - erewrite msa_sub_alignment_explicit; [|simpl; reflexivity|lia|done].
    cbv zeta. rewrite sub_include_list_all. simpl.
    fold n R1 N1. rewrite Hrows, Hnames.
    rewrite !lst_size_seqZ, Z.add_assoc.
    by replace (Z.max 0 (Z.max 0 n)) with (Z.max 0 n) by lia.
Qed.

End SubAlignmentTheorems.

(** ** Columns without alignment information *)

Lemma missing_col_scan_spec js is_missing char_of ref :
  missing_col_scan js is_missing char_of ref = true <->
  Forall (fun i => i <> ref - 1 -> is_missing (char_of i) <> 0) js.
Proof.
  induction js as [|i js IH]; simpl.
  - split; [constructor|done].
  - destruct (Z.eqb_spec i (ref - 1)) as [->|Hne].
    + rewrite IH. split.
      * intros Hall. by constructor.
      * intros Hall. by inversion Hall.
    + destruct (Z.eqb_spec (is_missing (char_of i)) 0) as [E|E].
      * split; [done|]. intros Hall. inversion Hall; subst. by destruct (H1 Hne).
      * rewrite IH. split.
        -- intros Hall. by constructor.
        -- intros Hall. by inversion Hall.
Qed.

Section MissingColumnFacts.
Context {SS : SuffStats} {TT : TupleTable}.

(** X18: msa_missing_col answers TRUE exactly when every row other than
    the reference row [ref] (1-based) holds a missing-data character in the
    column; the reference row itself is not looked at, and with [ref]
    outside 1..nseqs every row is. *)
Theorem msa_missing_col_spec msa ref pos :
  msa_missing_col msa ref pos = true <->
  forall i, 0 <= i < msa_nseqs msa -> i <> ref - 1 ->
    msa_is_missing msa (msa_get_char msa i pos) <> 0.
Proof.
  unfold msa_missing_col. rewrite missing_col_scan_spec, Forall_seqZ.
  split; intros H i Hi; apply H; lia.
Qed.

End MissingColumnFacts.

(** Writing one value into the cells [lo, hi) of a buffer. *)
Lemma for_loop_fill_range {A} (d : A) (l : list A) lo hi v :
  0 <= lo -> hi <= Z.of_nat (List.length l) ->
  let l' := for_loop lo hi (fun k l => set l k v) l in
  List.length l' = List.length l /\
  forall k, get d l' k = if (lo <=? k) && (k <? hi) then v else get d l k.
Proof.
  intros Hlo Hhi.
  destruct (Z.le_gt_cases lo hi) as [Hle|Hgt]; cycle 1.
  { rewrite for_loop_empty by lia. split; [done|]. intros k.
    destruct (Z.leb_spec lo k), (Z.ltb_spec k hi); simpl; try done; lia. }
  apply (for_loop_inv (fun i t =>
           List.length t = List.length l /\
           forall k, get d t k = if (lo <=? k) && (k <? i) then v else get d l k));
    [done| |].
  - split; [done|]. intros k.
    destruct (Z.leb_spec lo k), (Z.ltb_spec k lo); simpl; try done; lia.
  - intros i t Hi [Hlen Hget]. split; [by rewrite length_set|].
    intros k. destruct (Z.eq_dec k i) as [->|Hne].
    + rewrite get_set_eq by lia.
      destruct (Z.leb_spec lo i), (Z.ltb_spec i (i + 1)); simpl; try done; lia.
    + rewrite get_set_ne by lia. rewrite Hget.
      destruct (Z.leb_spec lo k), (Z.ltb_spec k i), (Z.ltb_spec k (i + 1));
        simpl; try done; lia.
Qed.

(** A block that is closed on both sides is the only one around its
    columns. *)
Lemma closed_block_unique (missing : Z -> bool) r j a b k :
  r <= k < j -> a <= k < b ->
  (forall x, r <= x < j -> missing x = true) ->
  (r = 0 \/ missing (r - 1) = false) -> missing j = false ->
  (forall x, a <= x < b -> missing x = true) ->
  (a = 0 \/ missing (a - 1) = false) -> missing b = false ->
  0 <= a -> 0 <= r ->
  a = r /\ b = j.
Proof.
  intros Hk Hk' Hrun Hr Hj Hrun' Ha Hb Ha0 Hr0.
  assert (b = j) as ->.
  { destruct (Z.lt_trichotomy b j) as [H|[H|H]]; [|done|].
    - rewrite Hrun in Hb by lia. done.
    - rewrite Hrun' in Hj by lia. done. }
  split; [|done].
  destruct (Z.lt_trichotomy a r) as [H|[H|H]]; [|done|].
  - destruct Hr as [Hr|Hr]; [lia|]. rewrite Hrun' in Hr by lia. done.
  - destruct Ha as [Ha|Ha]; [lia|]. rewrite Hrun in Ha by lia. done.
Qed.

Section FindNoalnFacts.
Context {SS : SuffStats} {TT : TupleTable}.

Lemma find_noaln_column_ok msa refseqidx min_block_size j st :
  0 <= j < msa_length msa ->
  msa_length msa <= Z.of_nat (List.length st.1) ->
  noaln_ok (msa_missing_col msa refseqidx) (msa_length msa) min_block_size j st ->
  List.length (find_noaln_column msa refseqidx min_block_size j st).1 = List.length st.1 /\
  noaln_ok (msa_missing_col msa refseqidx) (msa_length msa) min_block_size (j + 1)
    (find_noaln_column msa refseqidx min_block_size j st).
Proof.
  intros Hj Hsize. destruct st as [noaln r]. simpl in Hsize.
  set (missing := msa_missing_col msa refseqidx).
  intros [Hrun Hcells]. unfold find_noaln_column. fold missing.
  assert (Hset : forall k, get 0 (set noaln j 0) k = if k =? j then 0 else get 0 noaln k).
  { intros k. destruct (Z.eqb_spec k j) as [->|Hne].
    - by rewrite get_set_eq by lia.
    - by rewrite get_set_ne by lia. }
  destruct Hrun as [[-> Hprev]|(Hr & Hall & Hleft)].
  - (* no run is open *)
    simpl. destruct (missing j) eqn:Hm; simpl.
    + split; [by rewrite length_set|]. split.
      * right. split; [lia|]. split; [|exact Hprev].
        intros x Hx. by assert (x = j) as -> by lia.
      * intros k Hk. rewrite Hset. destruct (Z.eqb_spec k j) as [->|Hne].
        -- split; [by left|]. split; [done|]. intros [[?|?] _]; lia.
        -- destruct (Hcells k ltac:(lia)) as [H01 Hiff]. split; [done|].
           rewrite Hiff. split; intros [_ Hc]; (split; [|done]); [right; lia|by left].
    + split; [by rewrite length_set|]. split.
      * left. split; [done|]. right. by replace (j + 1 - 1) with j by lia.
      * intros k Hk. rewrite Hset. destruct (Z.eqb_spec k j) as [->|Hne].
        -- split; [by left|]. split; [done|].
           intros [_ (a & b & Ha & Hb & Hrun' & _)].
           rewrite Hrun' in Hm by lia. done.
        -- apply Hcells. lia.
  - (* a run is open from [r] *)
    destruct (Z.eqb_spec r (-1)); [lia|]. simpl.
    destruct (Z.leb_spec 0 r); [|lia]. simpl.
    destruct (missing j) eqn:Hm; simpl.
    + split; [by rewrite length_set|]. split.
      * right. split; [lia|]. split; [|done].
        intros x Hx. destruct (Z.eq_dec x j) as [->|]; [done|apply Hall; lia].
      * intros k Hk. rewrite Hset. destruct (Z.eqb_spec k j) as [->|Hne].
        -- split; [by left|]. split; [done|]. intros [[?|?] _]; lia.
        -- apply Hcells. lia.
    + assert (Hopen : forall k, r <= k < j -> get 0 noaln k = 0).
      { intros k Hk. destruct (Hcells k ltac:(lia)) as [[H0|H1] Hiff]; [done|].
        apply Hiff in H1 as [[?|?] _]; lia. }
      destruct (Z.leb_spec min_block_size (j - r)) as [Hlong|Hshort].
      * destruct (for_loop_fill_range 0 (set noaln j 0) r j 1) as [Hlen Hfill].
        { lia. } { rewrite length_set. lia. }
        split; [by rewrite Hlen, length_set|]. split.
        -- left. split; [done|]. right. by replace (j + 1 - 1) with j by lia.
        -- intros k Hk. rewrite Hfill, Hset.
           destruct (Z.leb_spec r k), (Z.ltb_spec k j); simpl.
           ++ split; [by right|]. split; [|done]. intros _. split; [by left|].
              exists r, j. repeat split; try done; lia.
           ++ assert (k = j) as -> by lia. rewrite Z.eqb_refl.
              split; [by left|]. split; [done|].
              intros [_ (a & b & Ha & Hb & Hrun' & _)].
              rewrite Hrun' in Hm by lia. done.
           ++ destruct (Z.eqb_spec k j); [lia|].
              destruct (Hcells k ltac:(lia)) as [H01 Hiff]. split; [done|].
              rewrite Hiff. split; intros [_ Hc]; (split; [|done]); [by left|right; lia].
           ++ lia.
      * split; [by rewrite length_set|]. split.
        -- left. split; [done|]. right. by replace (j + 1 - 1) with j by lia.
        -- intros k Hk. rewrite Hset. destruct (Z.eqb_spec k j) as [->|Hne].
           ++ split; [by left|]. split; [done|].
              intros [_ (a & b & Ha & Hb & Hrun' & _)].
              rewrite Hrun' in Hm by lia. done.
           ++ destruct (Z.lt_ge_cases k r) as [Hlt|Hge].
              ** destruct (Hcells k ltac:(lia)) as [H01 Hiff]. split; [done|].
                 rewrite Hiff.
                 split; intros [_ Hc]; (split; [|done]); [by left|right; lia].
              ** rewrite Hopen by lia. split; [by left|]. split; [done|].
                 intros [_ (a & b & Ha & Hb & Hrun' & Hleft' & Hb' & Hmin)].
                 destruct (closed_block_unique missing r j a b k) as [-> ->];
                   try done; lia.
Qed.

(** X19: msa_find_noaln, on an alignment with a matrix and an array with a
    cell for every column, sets every cell to 0 or 1, and to 1 exactly for
    the columns that lie in a block of columns "missing in all rows but the
    reference" (msa_missing_col) that either has at least [min_block_size]
    columns and is followed by a column that is not missing, or reaches the
    end of the alignment; a block at the end is marked whatever its size. *)
Theorem msa_find_noaln_spec msa rs refseqidx min_block_size noaln :
  msa_seqs msa = Some rs ->
  0 <= msa_length msa <= Z.of_nat (List.length noaln) ->
  exists out,
    msa_find_noaln msa refseqidx min_block_size noaln = Ok out /\
    List.length out = List.length noaln /\
    forall k, 0 <= k < msa_length msa ->
      (get 0 out k = 0 \/ get 0 out k = 1) /\
      (get 0 out k = 1 <->
       closed_block (msa_missing_col msa refseqidx) (msa_length msa) min_block_size k \/
       forall x, k <= x < msa_length msa -> msa_missing_col msa refseqidx x = true).
Proof.
  intros Hseqs HL. unfold msa_find_noaln.
  rewrite Hseqs. rewrite bool_decide_true by done. simpl.
  set (missing := msa_missing_col msa refseqidx).
  assert (HP : (fun j st =>
                  List.length st.1 = List.length noaln /\
                  noaln_ok missing (msa_length msa) min_block_size j st)
               (msa_length msa)
               (for_loop 0 (msa_length msa)
                  (find_noaln_column msa refseqidx min_block_size) (noaln, -1))).
  { apply (for_loop_inv (fun j st =>
              List.length st.1 = List.length noaln /\
              noaln_ok missing (msa_length msa) min_block_size j st)); [lia| |].
    - split; [done|]. split; [left; split; [done|by left]|]. intros k Hk. lia.
    - intros j st Hj [Hlen Hok].
      destruct (find_noaln_column_ok msa refseqidx min_block_size j st) as [Hlen' Hok'];
        [lia|lia|exact Hok|]. split; [lia|exact Hok']. }
  destruct (for_loop 0 (msa_length msa) _ _) as [out r].
  destruct HP as [Hlen [Hrun Hcells]]. simpl in Hlen.
  destruct Hrun as [[-> Hprev]|(Hr & Hall & Hleft)].
  - simpl. exists out. split; [done|]. split; [done|].
    intros k Hk. destruct (Hcells k Hk) as [H01 Hiff]. split; [done|].
    rewrite Hiff. split.
    + intros [_ Hc]. by left.
    + intros [Hc|Htrail]; [split; [by left|done]|].
      destruct Hprev as [Hprev|Hprev]; [lia|].
      rewrite Htrail in Hprev by lia. done.
  - destruct (Z.leb_spec 0 r); [|lia].
    destruct (for_loop_fill_range 0 out r (msa_length msa) 1) as [Hlen' Hfill];
      [lia|lia|].
    eexists. split; [done|]. split; [lia|].
    intros k Hk. rewrite Hfill.
    destruct (Z.leb_spec r k), (Z.ltb_spec k (msa_length msa)); simpl; try lia.
    + split; [by right|]. split; [|done]. intros _. right.
      intros x Hx. apply Hall. lia.
    + destruct (Hcells k Hk) as [H01 Hiff]. split; [done|].
      rewrite Hiff. split.
      * intros [_ Hc]. by left.
      * intros [Hc|Htrail]; [split; [right; lia|done]|].
        destruct Hleft as [Hleft|Hleft]; [lia|].
        rewrite Htrail in Hleft by lia. done.
Qed.

End FindNoalnFacts.

(** ** Informative sites *)

Lemma informative_rows_cons j js is_missing char_of :
  informative_rows (j :: js) is_missing char_of
  = (if negb (char_of j =c? GAP_CHAR) && (is_missing (char_of j) =? 0) then 1 else 0)
    + informative_rows js is_missing char_of.
Proof.
  unfold informative_rows. simpl.
  destruct (negb (char_of j =c? GAP_CHAR) && (is_missing (char_of j) =? 0)); simpl; lia.
Qed.

Lemma informative_rows_bound js is_missing char_of :
  0 <= informative_rows js is_missing char_of <= Z.of_nat (List.length js).
Proof.
  unfold informative_rows.
  pose proof (filter_length_le
    (fun j => negb (char_of j =c? GAP_CHAR) && (is_missing (char_of j) =? 0)) js).
  lia.
Qed.

(** The scan with its early exit finds out whether two rows at least are
    informative. *)
Lemma informative_scan_spec js is_missing char_of ninf :
  ninf < 2 ->
  informative_scan js is_missing char_of ninf
  = (2 <=? ninf + informative_rows js is_missing char_of).
Proof.
  revert ninf. induction js as [|j js IH]; intros ninf Hninf.
  - change (informative_rows [] is_missing char_of) with 0. rewrite Z.add_0_r.
    simpl. destruct (Z.leb_spec 2 ninf); [lia|done].
  - rewrite informative_rows_cons. simpl.
    pose proof (informative_rows_bound js is_missing char_of).
    destruct (negb (char_of j =c? GAP_CHAR) && (is_missing (char_of j) =? 0)).
    + destruct (Z.leb_spec 2 (ninf + 1)).
      * destruct (Z.leb_spec 2 (ninf + (1 + informative_rows js is_missing char_of)));
          [done|lia].
      * rewrite IH by lia. f_equal. lia.
    + destruct (Z.leb_spec 2 ninf); [lia|]. rewrite IH by lia. f_equal.
Qed.

Lemma kept_columns_none n : kept_columns (fun _ => false) n = [].
Proof. unfold kept_columns. by induction (seqZ 0 n). Qed.

Section InformativeSites.
Context {SS : SuffStats} {TT : TupleTable}.

(** X20: on an explicit alignment without sufficient statistics (and with
    category labels if a category is asked for), msa_ninformative_sites
    returns the number of columns, among those labelled [cat] when
    [cat >= 0] and among all columns otherwise, in which two rows at least
    hold a character that is neither a gap nor missing data; the number is 0
    when the alignment has fewer than two rows. *)
Theorem msa_ninformative_sites_spec msa rs cat :
  msa_seqs msa = Some rs ->
  msa_ss msa = None ->
  (0 <= cat -> msa_categories msa <> None) ->
  let counted := fun i =>
    ((cat <? 0) || (category_at msa i =? cat))
    && (2 <=? informative_rows (seqZ 0 (msa_nseqs msa)) (msa_is_missing msa)
                (fun j => seq_at rs j i)) in
  exists n,
    msa_ninformative_sites msa cat = Ok n /\
    n = Z.of_nat (List.length (kept_columns counted (msa_length msa))) /\
    0 <= n <= Z.max 0 (msa_length msa) /\
    (msa_nseqs msa < 2 -> n = 0).
Proof.
  intros Hseqs Hss Hcats counted.
  eexists. split; [|split; [reflexivity|split]].
  - unfold msa_ninformative_sites. rewrite Hss, Hseqs.
    destruct (Z.le_gt_cases 0 (msa_length msa)) as [HL|HL]; cycle 1.
    { rewrite for_loop_r_empty by lia. unfold kept_columns.
      by rewrite seqZ_nil by lia. }
    match goal with |- for_loop_r 0 _ ?b 0 = _ => set (body := b) end.
    destruct (for_loop_r_inv
                (fun i retval => retval = Z.of_nat (List.length (kept_columns counted i)))
                0 (msa_length msa) body 0) as (n & Hrun & Hn); [done|done| |by subst].
    intros i retval Hi ->. unfold body.
    rewrite kept_columns_step by lia. rewrite length_app.
    assert (Hc : counted i
                 = ((cat <? 0) || (category_at msa i =? cat))
                   && (2 <=? informative_rows (seqZ 0 (msa_nseqs msa))
                               (msa_is_missing msa) (fun j => seq_at rs j i)))
      by done.
    rewrite Hc. clearbody counted. clear Hc.
    rewrite informative_scan_spec by lia. rewrite Z.add_0_l.
    unfold category_at, lst_get_int.
    destruct (Z.leb_spec 0 cat) as [Hcat|Hcat].
    + destruct (msa_categories msa) as [cats|] eqn:Ec; [|by destruct (Hcats Hcat)].
      simpl. destruct (Z.ltb_spec cat 0); [lia|]. simpl.
      destruct (get 0 cats i =? cat); simpl;
        [destruct (2 <=? informative_rows _ _ _); simpl|];
        eexists; (split; [done|simpl; lia]).
    + simpl. destruct (Z.ltb_spec cat 0); [|lia]. simpl.
      destruct (2 <=? informative_rows _ _ _); simpl;
        eexists; (split; [done|simpl; lia]).
  - unfold kept_columns.
    pose proof (filter_length_le counted (seqZ 0 (msa_length msa))) as Hle.
    rewrite length_seqZ in Hle. lia.
  - intros Hrows.
    rewrite (kept_columns_ext counted (fun _ => false)).
    + by rewrite kept_columns_none.
    + intros i Hi. unfold counted.
      pose proof (informative_rows_bound (seqZ 0 (msa_nseqs msa)) (msa_is_missing msa)
                    (fun j => seq_at rs j i)) as Hb.
      rewrite length_seqZ in Hb.
      destruct (Z.leb_spec 2 (informative_rows (seqZ 0 (msa_nseqs msa))
                                (msa_is_missing msa) (fun j => seq_at rs j i)));
        [lia|]. by rewrite andb_false_r.
Qed.

End InformativeSites.

(** ** The alphabet and its tables *)

Lemma length_list_ascii_of_string (s : string) :
  List.length (list_ascii_of_string s) = String.length s.
Proof. induction s as [|a s IH]; simpl; [done|by rewrite IH]. Qed.

Lemma get_elem {A} (d : A) (l : list A) i :
  0 <= i < Z.of_nat (List.length l) -> get d l i ∈ l.
Proof.
  intros Hi. apply list_elem_of_lookup. exists (Z.to_nat i). by apply get_inside.
Qed.

(** A table filled from a string: a character the string lacks keeps its
    entry, and a character of the string gets the value of its last
    occurrence. *)
Lemma table_loop (s : list ascii) (v : Z -> Z) (t0 : ascii -> Z) :
  let t := for_loop 0 (Z.of_nat (List.length s))
             (fun i t => table_set t (getc s i) (v i)) t0 in
  (forall c, c ∉ s -> t c = t0 c) /\
  (forall i, 0 <= i < Z.of_nat (List.length s) ->
     (forall k, i < k < Z.of_nat (List.length s) -> getc s k <> getc s i) ->
     t (getc s i) = v i).
Proof.
  cut ((fun n t =>
          (forall c, (forall k, 0 <= k < n -> getc s k <> c) -> t c = t0 c) /\
          (forall i, 0 <= i < n -> (forall k, i < k < n -> getc s k <> getc s i) ->
             t (getc s i) = v i))
         (Z.of_nat (List.length s))
         (for_loop 0 (Z.of_nat (List.length s))
            (fun i t => table_set t (getc s i) (v i)) t0)).
  { intros [H1 H2]. split; [|exact H2].
    intros c Hc. apply H1. intros k Hk E. apply Hc. rewrite <- E. by apply get_elem. }
  apply for_loop_inv; [lia| |].
  - split; [done|]. intros i Hi. lia.
  - intros n t Hn [H1 H2]. unfold table_set, Chr.eqb. split.
    + intros c Hc. destruct (Ascii.eqb_spec c (getc s n)) as [->|Hne].
      * by destruct (Hc n ltac:(lia)).
      * apply H1. intros k Hk. apply Hc. lia.
    + intros i Hi Hlast. destruct (Z.eq_dec i n) as [->|Hin].
      * by rewrite Ascii.eqb_refl.
      * destruct (Ascii.eqb_spec (getc s i) (getc s n)) as [E|E].
        -- destruct (Hlast n ltac:(lia)). done.
        -- apply H2; [lia|]. intros k Hk. apply Hlast. lia.
Qed.

(** X21: the tables msa_new builds: a character that the alphabet lacks
    has inverse entry -1, a character of the alphabet has the index of its
    last occurrence (of its only one in an alphabet without repetition), and
    the missing-data table is 1 on '*' and 'N' and 0 elsewhere. *)
Theorem msa_new_tables seqs names nseqs length alphabet :
  let m := msa_new seqs names nseqs length alphabet in
  let alph := list_ascii_of_string (default DEFAULT_ALPHABET alphabet) in
  msa_alphabet m = default DEFAULT_ALPHABET alphabet /\
  (forall c, c ∉ alph -> msa_inv_alphabet m c = -1) /\
  (forall i, 0 <= i < Z.of_nat (List.length alph) ->
     (forall k, i < k < Z.of_nat (List.length alph) -> getc alph k <> getc alph i) ->
     msa_inv_alphabet m (getc alph i) = i) /\
  (forall c, msa_is_missing m c = if (c =c? "*") || (c =c? "N") then 1 else 0).
Proof.
  intros m alph. split; [done|].
  destruct (table_loop alph (fun i => i) (fun _ => -1)) as [H1 H2].
  unfold m, msa_new. simpl. fold alph.
  rewrite <- length_list_ascii_of_string. fold alph.
  split; [exact H1|]. split; [exact H2|].
  intros c. unfold for_loop. simpl.
  change (getc ["*"%char; "N"%char] (Z.of_nat 1 + 0)) with "N"%char.
  change (getc ["*"%char; "N"%char] (Z.of_nat 0 + 0)) with "*"%char.
  destruct (c =c? "*"), (c =c? "N"); done.
Qed.

Lemma code_nonneg c : 0 <= Chr.code c.
Proof. unfold Chr.code. lia. Qed.

(** The first loop of msa_reset_alphabet clears the table slots of the
    characters whose code is below the bound, and no other. *)
Lemma reset_clears (inv0 mis0 : ascii -> Z) n :
  0 <= n ->
  forall c,
    (for_loop 0 n
       (fun i '(inv, mis) => (table_set_index inv i (-1), table_set_index mis i 0))
       (inv0, mis0)).1 c = (if Chr.code c <? n then -1 else inv0 c) /\
    (for_loop 0 n
       (fun i '(inv, mis) => (table_set_index inv i (-1), table_set_index mis i 0))
       (inv0, mis0)).2 c = (if Chr.code c <? n then 0 else mis0 c).
Proof.
  intros Hn.
  apply (for_loop_inv (fun i (st : (ascii -> Z) * (ascii -> Z)) =>
           forall c, st.1 c = (if Chr.code c <? i then -1 else inv0 c) /\
                     st.2 c = (if Chr.code c <? i then 0 else mis0 c))); [done| |].
  - intros c. pose proof (code_nonneg c).
    destruct (Z.ltb_spec (Chr.code c) 0); [lia|done].
  - intros i [inv mis] Hi Hst c. destruct (Hst c) as [H1 H2]. simpl in *.
    unfold table_set_index.
    destruct (Z.eqb_spec (Chr.code c) i) as [E|E].
    + destruct (Z.ltb_spec (Chr.code c) (i + 1)); [done|lia].
    + rewrite H1, H2.
      destruct (Z.ltb_spec (Chr.code c) i), (Z.ltb_spec (Chr.code c) (i + 1));
        try done; lia.
Qed.

Lemma last_occurrence (l : list ascii) c :
  c ∈ l ->
  exists i, 0 <= i < Z.of_nat (List.length l) /\ getc l i = c /\
            forall k, i < k < Z.of_nat (List.length l) -> getc l k <> c.
Proof.
  induction l as [|a l IH] using rev_ind; [by intros ?%elem_of_nil|].
  intros Hc. rewrite length_app. simpl.
  destruct (decide (a = c)) as [->|Hne].
  - exists (Z.of_nat (List.length l)). split; [lia|]. split; [|intros k Hk; lia].
    unfold get. destruct (Z.ltb_spec (Z.of_nat (List.length l)) 0); [lia|].
    rewrite Nat2Z.id. by rewrite list_lookup_middle.
  - apply elem_of_app in Hc as [Hc|Hc]; [|by apply list_elem_of_singleton in Hc].
    destruct (IH Hc) as (i & Hi & Hget & Hlast).
    exists i. split; [lia|]. split; [by rewrite get_app_l by lia|].
    intros k Hk. destruct (Z.eq_dec k (Z.of_nat (List.length l))) as [->|Hk'].
    + unfold get. destruct (Z.ltb_spec (Z.of_nat (List.length l)) 0); [lia|].
      rewrite Nat2Z.id. by rewrite list_lookup_middle.
    + rewrite get_app_l by lia. apply Hlast. lia.
Qed.

(** X22: msa_reset_alphabet installs the new alphabet and gives each of
    its characters the index of its last occurrence, and marks the
    missing-data characters; but it clears the two tables only in the slots
    of the characters whose code is below the length of the new alphabet, so
    that any other character, when the new alphabet lacks it, keeps the
    inverse entry it had (and likewise for the missing-data table). *)
Theorem msa_reset_alphabet_tables msa newalph :
  let m := msa_reset_alphabet msa newalph in
  let alph := list_ascii_of_string newalph in
  let n := Z.of_nat (List.length alph) in
  msa_alphabet m = newalph /\
  (forall i, 0 <= i < n ->
     (forall k, i < k < n -> getc alph k <> getc alph i) ->
     msa_inv_alphabet m (getc alph i) = i) /\
  (forall c, c ∉ alph ->
     msa_inv_alphabet m c = if Chr.code c <? n then -1 else msa_inv_alphabet msa c) /\
  (forall c, c ∈ list_ascii_of_string (msa_missing msa) -> msa_is_missing m c = 1) /\
  (forall c, c ∉ list_ascii_of_string (msa_missing msa) ->
     msa_is_missing m c = if Chr.code c <? n then 0 else msa_is_missing msa c).
Proof.
  intros m alph n. unfold m, msa_reset_alphabet. simpl.
  pose proof (reset_clears (msa_inv_alphabet msa) (msa_is_missing msa)
                (Z.of_nat (String.length newalph)) ltac:(lia)) as Hclear.
  destruct (for_loop 0 (Z.of_nat (String.length newalph)) _ _) as [inv mis].
  simpl in Hclear. simpl.
  rewrite <- !length_list_ascii_of_string. fold alph.
  destruct (table_loop alph (fun i => i) inv) as [H1 H2].
  destruct (table_loop (list_ascii_of_string (msa_missing msa)) (fun _ => 1) mis)
    as [H3 H4].
  rewrite <- length_list_ascii_of_string in Hclear. fold alph n in Hclear.
  split; [done|]. split; [exact H2|]. split; [|split].
  - intros c Hc. rewrite H1 by done. apply Hclear.
  - intros c Hc. destruct (last_occurrence _ c Hc) as (i & Hi & Hget & Hlast).
    rewrite <- Hget. apply H4; [done|]. intros k Hk. rewrite Hget. by apply Hlast.
  - intros c Hc. rewrite H3 by done. apply Hclear.
Qed.

Lemma strlen_app (l r : list ascii) :
  Chr.NUL ∉ l -> strlen (l ++ Chr.NUL :: r) = Z.of_nat (List.length l).
Proof.
  induction l as [|a l IH]; intros Hl; simpl; [done|].
  unfold Chr.eqb. destruct (Ascii.eqb_spec a Chr.NUL) as [->|Hne].
  - destruct Hl. by left.
  - rewrite IH; [lia|]. intros H. apply Hl. by right.
Qed.

Lemma set_app_head {A} (l : list A) x y r :
  set (l ++ x :: r) (Z.of_nat (List.length l)) y = l ++ y :: r.
Proof.
  unfold set. destruct (Z.ltb_spec (Z.of_nat (List.length l)) 0); [lia|].
  rewrite Nat2Z.id. replace (List.length l) with (List.length l + 0)%nat at 1 by lia.
  by rewrite insert_app_r.
Qed.

Lemma get_app_head {A} (d : A) (l : list A) x r :
  get d (l ++ x :: r) (Z.of_nat (List.length l)) = x.
Proof.
  unfold get. destruct (Z.ltb_spec (Z.of_nat (List.length l)) 0); [lia|].
  rewrite Nat2Z.id. by rewrite list_lookup_middle.
Qed.

Lemma filter_not_in (f : ascii -> bool) (l : list ascii) c :
  c ∉ l -> c ∉ List.filter f l.
Proof.
  intros Hc Hin. apply Hc. apply list_elem_of_In in Hin.
  apply List.filter_In in Hin as [Hin _]. by apply list_elem_of_In.
Qed.

(** The compaction loop of msa_remove_N_from_alph on the buffer of a
    string [s0]: when it has looked at the first [i] characters, those that
    are not N stand at the front and the rest of the buffer is as it was; the
    loop ends with every character looked at. *)
Lemma remove_N_loop_spec (s0 : list ascii) :
  Chr.NUL ∉ s0 ->
  forall fuel i j,
    0 <= i <= Z.of_nat (List.length s0) ->
    Z.of_nat (List.length s0) - i < Z.of_nat fuel ->
    j = Z.of_nat (List.length (List.filter (fun c => negb (c =c? "N")) (take (Z.to_nat i) s0))) ->
    remove_N_loop fuel
      (List.filter (fun c => negb (c =c? "N")) (take (Z.to_nat i) s0)
       ++ drop (Z.to_nat j) (s0 ++ [Chr.NUL])) i j
    = (List.filter (fun c => negb (c =c? "N")) s0
       ++ drop (List.length (List.filter (fun c => negb (c =c? "N")) s0)) (s0 ++ [Chr.NUL]),
       Z.of_nat (List.length (List.filter (fun c => negb (c =c? "N")) s0))).
Proof.
  intros Hnul. set (notN := fun c => negb (c =c? "N")).
  induction fuel as [|fuel IH]; intros i j Hi Hfuel Hj; [lia|].
  set (P := List.filter notN (take (Z.to_nat i) s0)) in *.
  assert (HjP : (List.length P <= Z.to_nat i)%nat).
  { unfold P. etransitivity; [apply filter_length_le|]. rewrite length_take. lia. }
  assert (Hdrop : drop (Z.to_nat j) (s0 ++ [Chr.NUL])
                  = drop (Z.to_nat j) s0 ++ [Chr.NUL]).
  { apply drop_app_le. lia. }
  assert (Hlen : strlen (P ++ drop (Z.to_nat j) (s0 ++ [Chr.NUL]))
                 = Z.of_nat (List.length s0)).
  { rewrite Hdrop, app_assoc. change [Chr.NUL] with (Chr.NUL :: []).
    rewrite strlen_app.
    - rewrite length_app, length_drop. lia.
    - intros [H|H]%elem_of_app.
      + apply (filter_not_in notN (take (Z.to_nat i) s0) Chr.NUL); [|exact H].
        intros H'. apply Hnul. rewrite <- (take_drop (Z.to_nat i) s0).
        apply elem_of_app. by left.
      + apply Hnul. rewrite <- (take_drop (Z.to_nat j) s0).
        apply elem_of_app. by right. }
  simpl. rewrite Hlen.
  destruct (Z.ltb_spec i (Z.of_nat (List.length s0))) as [Hlt|Hge].
  - (* the character at [i] *)
    destruct (lookup_lt_is_Some_2 s0 (Z.to_nat i)) as [a Ha]; [lia|].
    assert (Hcell : getc (P ++ drop (Z.to_nat j) (s0 ++ [Chr.NUL])) i = a).
    { unfold get. destruct (Z.ltb_spec i 0); [lia|].
      rewrite lookup_app_r by lia. rewrite lookup_drop.
      replace (Z.to_nat j + (Z.to_nat i - List.length P))%nat with (Z.to_nat i) by lia.
      by rewrite lookup_app_l, Ha by lia. }
    rewrite Hcell.
    assert (Htake : take (Z.to_nat (i + 1)) s0 = take (Z.to_nat i) s0 ++ [a]).
    { replace (Z.to_nat (i + 1)) with (S (Z.to_nat i)) by lia. by apply take_S_r. }
    assert (Hfil : List.filter notN (take (Z.to_nat (i + 1)) s0)
                   = P ++ (if notN a then [a] else [])).
    { by rewrite Htake, List.filter_app. }
    destruct (a =c? "N") eqn:HN; simpl.
    + assert (HnotN : notN a = false) by (unfold notN; by rewrite HN).
      pose proof (IH (i + 1) j ltac:(lia) ltac:(lia)) as IH'.
      rewrite Hfil, HnotN, app_nil_r in IH'. apply IH'. exact Hj.
    + assert (HnotN : notN a = true) by (unfold notN; by rewrite HN).
      destruct (lookup_lt_is_Some_2 (s0 ++ [Chr.NUL]) (Z.to_nat j)) as [x Hx].
      { rewrite length_app. simpl. lia. }
      rewrite (drop_S _ x _ Hx).
      replace j with (Z.of_nat (List.length P)) at 2 by lia.
      rewrite set_app_head.
      pose proof (IH (i + 1) (j + 1) ltac:(lia) ltac:(lia)) as IH'.
      rewrite Hfil, HnotN in IH'.
      replace (Z.to_nat (j + 1)) with (S (Z.to_nat j)) in IH' by lia.
      rewrite <- app_assoc in IH'. simpl in IH'. apply IH'.
      rewrite length_app. simpl. lia.
  - assert (i = Z.of_nat (List.length s0)) as Ei by lia.
    assert (Hall : take (Z.to_nat i) s0 = s0) by (apply take_ge; lia).
    unfold P in *. rewrite Hall in *. rewrite Hj, Nat2Z.id. done.
Qed.

(** X23: msa_remove_N_from_alph leaves as alphabet the old one without
    its N's, the other characters in their order, and sets the inverse entry
    of N to -1; every other inverse entry stays as it was, so the characters
    that stood behind an N keep their old index. *)
Theorem msa_remove_N_from_alph_spec msa :
  Chr.NUL ∉ list_ascii_of_string (msa_alphabet msa) ->
  let m := msa_remove_N_from_alph msa in
  msa_alphabet m
  = string_of_list_ascii
      (List.filter (fun c => negb (c =c? "N")) (list_ascii_of_string (msa_alphabet msa))) /\
  msa_inv_alphabet m "N" = -1 /\
  (forall c, c <> "N"%char -> msa_inv_alphabet m c = msa_inv_alphabet msa c).
Proof.
  intros Hnul m. unfold m, msa_remove_N_from_alph.
  set (s0 := list_ascii_of_string (msa_alphabet msa)) in *.
  set (F := List.filter (fun c => negb (c =c? "N")) s0).
  assert (Hloop : remove_N_loop (S (String.length (msa_alphabet msa)))
                    (cstr (msa_alphabet msa)) 0 0
                  = (F ++ drop (List.length F) (s0 ++ [Chr.NUL]),
                     Z.of_nat (List.length F))).
  { assert (Hlen : List.length s0 = String.length (msa_alphabet msa))
      by apply length_list_ascii_of_string.
    exact (remove_N_loop_spec s0 Hnul (S (String.length (msa_alphabet msa))) 0 0
             ltac:(lia) ltac:(lia) eq_refl). }
  rewrite Hloop.
  assert (HF : (List.length F <= List.length s0)%nat) by apply filter_length_le.
  destruct (lookup_lt_is_Some_2 (s0 ++ [Chr.NUL]) (List.length F)) as [x Hx].
  { rewrite length_app. simpl. lia. }
  rewrite (drop_S _ x _ Hx), set_app_head. simpl.
  split; [|split].
  - unfold string_of_buffer. rewrite strlen_app by (by apply filter_not_in).
    rewrite Nat2Z.id. by rewrite take_app_length.
  - done.
  - intros c Hc. unfold table_set, Chr.eqb.
    by destruct (Ascii.eqb_spec c "N").
Qed.

(** ** Upper-casing *)

Lemma toupper_of_lowercase c :
  is_lowercase c = true ->
  Chr.toupper c <> Chr.NUL /\ is_lowercase (Chr.toupper c) = false.
Proof.
  destruct c as [[] [] [] [] [] [] [] []]; vm_compute; intros H; try discriminate H;
    split; (discriminate || reflexivity).
Qed.

Lemma toupper_idempotent c : Chr.toupper (Chr.toupper c) = Chr.toupper c.
Proof. destruct c as [[] [] [] [] [] [] [] []]; reflexivity. Qed.

Lemma toupper_not_lowercase c : is_lowercase (Chr.toupper c) = false.
Proof. destruct c as [[] [] [] [] [] [] [] []]; reflexivity. Qed.

Lemma upper_clean_snoc P a :
  upper_clean P -> a <> Chr.NUL -> is_lowercase a = false -> upper_clean (P ++ [a]).
Proof.
  intros HP Ha Hl c [Hc|Hc]%elem_of_app; [by apply HP|].
  apply list_elem_of_singleton in Hc as ->. done.
Qed.

(** The alphabet loop of msa_toupper on the buffer of a string [s0]: the
    characters written so far form a front [P] without lowercase letters,
    behind which the buffer is as it was; the loop ends at the terminator
    with such a front. *)
Lemma toupper_alphabet_loop_spec (s0 : list ascii) :
  Chr.NUL ∉ s0 ->
  forall fuel inv i P,
    0 <= i <= Z.of_nat (List.length s0) ->
    Z.of_nat (List.length s0) - i < Z.of_nat fuel ->
    (List.length P <= Z.to_nat i)%nat ->
    upper_clean P ->
    exists P' inv',
      toupper_alphabet_loop fuel (P ++ drop (List.length P) (s0 ++ [Chr.NUL])) inv i
        (Z.of_nat (List.length P))
      = (P' ++ drop (List.length P') (s0 ++ [Chr.NUL]), inv', Z.of_nat (List.length P')) /\
      upper_clean P' /\ (List.length P' <= List.length s0)%nat.
Proof.
  intros Hnul.
  induction fuel as [|fuel IH]; intros inv i P Hi Hfuel HP Hclean; [lia|].
  assert (Hcell : getc (P ++ drop (List.length P) (s0 ++ [Chr.NUL])) i
                  = getc (s0 ++ [Chr.NUL]) i).
  { unfold get. destruct (Z.ltb_spec i 0); [lia|].
    rewrite lookup_app_r by lia. rewrite lookup_drop. do 2 f_equal. lia. }
  simpl. rewrite Hcell.
  destruct (Z.ltb_spec i (Z.of_nat (List.length s0))) as [Hlt|Hge].
  - destruct (lookup_lt_is_Some_2 s0 (Z.to_nat i)) as [a Ha]; [lia|].
    assert (Hget : getc (s0 ++ [Chr.NUL]) i = a).
    { unfold get. destruct (Z.ltb_spec i 0); [lia|].
      by rewrite lookup_app_l, Ha by lia. }
    rewrite Hget.
    assert (Hain : a ∈ s0) by (by eapply list_elem_of_lookup_2).
    assert (HaN : a <> Chr.NUL) by (by intros ->).
    unfold Chr.eqb at 1. destruct (Ascii.eqb_spec a Chr.NUL) as [E|_]; [done|]. simpl.
    destruct (lookup_lt_is_Some_2 (s0 ++ [Chr.NUL]) (List.length P)) as [x Hx].
    { rewrite length_app. simpl. lia. }
    assert (Hset : forall y,
               set (P ++ drop (List.length P) (s0 ++ [Chr.NUL]))
                 (Z.of_nat (List.length P)) y
               = (P ++ [y]) ++ drop (List.length (P ++ [y])) (s0 ++ [Chr.NUL])).
    { intros y. rewrite (drop_S _ x _ Hx), set_app_head.
      rewrite length_app, <- app_assoc. simpl.
      by replace (List.length P + 1)%nat with (S (List.length P)) by lia. }
    assert (Hnext : forall y, Z.of_nat (List.length P) + 1
                              = Z.of_nat (List.length (P ++ [y]))).
    { intros y. rewrite length_app. simpl. lia. }
    destruct (is_lowercase a) eqn:Hlow.
    + destruct (toupper_of_lowercase a Hlow) as [Hu1 Hu2].
      destruct (table_set inv a (-1) (Chr.toupper a) <? 0).
      * rewrite Hset, (Hnext (Chr.toupper a)).
        apply IH; [lia|lia|rewrite length_app; simpl; lia|].
        by apply upper_clean_snoc.
      * apply IH; [lia|lia|lia|done].
    + rewrite Hset, (Hnext a).
      apply IH; [lia|lia|rewrite length_app; simpl; lia|].
      by apply upper_clean_snoc.
  - assert (Hend : getc (s0 ++ [Chr.NUL]) i = Chr.NUL).
    { assert (i = Z.of_nat (List.length s0)) as -> by lia. apply get_app_head. }
    rewrite Hend. simpl. exists P, inv. split; [done|]. split; [done|lia].
Qed.

(** On the buffer of an alphabet without lowercase letters the loop
    changes nothing. *)
Lemma toupper_alphabet_loop_clean (P : list ascii) :
  upper_clean P ->
  forall fuel inv i,
    0 <= i <= Z.of_nat (List.length P) ->
    Z.of_nat (List.length P) - i < Z.of_nat fuel ->
    toupper_alphabet_loop fuel (P ++ [Chr.NUL]) inv i i
    = (P ++ [Chr.NUL], inv, Z.of_nat (List.length P)).
Proof.
  intros Hclean.
  induction fuel as [|fuel IH]; intros inv i Hi Hfuel; [lia|].
  simpl. destruct (Z.ltb_spec i (Z.of_nat (List.length P))) as [Hlt|Hge].
  - rewrite get_app_l by lia.
    destruct (Hclean (getc P i)) as [HN Hlow]; [apply get_elem; lia|].
    unfold Chr.eqb at 1. destruct (Ascii.eqb_spec (getc P i) Chr.NUL); [done|]. simpl.
    rewrite Hlow.
    replace (set (P ++ [Chr.NUL]) i (getc P i)) with (P ++ [Chr.NUL]).
    + apply IH; lia.
    + rewrite <- (get_app_l Chr.NUL P [Chr.NUL] i) by lia. by rewrite set_get_same.
  - assert (i = Z.of_nat (List.length P)) as -> by lia.
    by rewrite get_app_head.
Qed.

Lemma toupper_row_spec L (row : list ascii) :
  L <= Z.of_nat (List.length row) ->
  List.length (toupper_row L row) = List.length row /\
  forall k, 0 <= k < Z.of_nat (List.length row) ->
    getc (toupper_row L row) k = if k <? L then Chr.toupper (getc row k) else getc row k.
Proof.
  intros HL. unfold toupper_row.
  destruct (Z.le_gt_cases 0 L) as [H0|H0]; cycle 1.
  { rewrite for_loop_empty by lia. split; [done|]. intros k Hk.
    destruct (Z.ltb_spec k L); [lia|done]. }
  apply (for_loop_inv (fun i t =>
           List.length t = List.length row /\
           forall k, 0 <= k < Z.of_nat (List.length row) ->
             getc t k = if k <? i then Chr.toupper (getc row k) else getc row k));
    [done| |].
  - split; [done|]. intros k Hk. destruct (Z.ltb_spec k 0); [lia|done].
  - intros i t Hi [Hlen Hget]. split; [by rewrite length_set|].
    intros k Hk. destruct (Z.eq_dec k i) as [->|Hne].
    + rewrite get_set_eq by lia. rewrite Hget by lia.
      destruct (Z.ltb_spec i i); [lia|].
      destruct (Z.ltb_spec i (i + 1)); [done|lia].
    + rewrite get_set_ne by lia. rewrite Hget by lia.
      destruct (Z.ltb_spec k i), (Z.ltb_spec k (i + 1)); try done; lia.
Qed.

Lemma toupper_row_twice L (row : list ascii) :
  L <= Z.of_nat (List.length row) ->
  toupper_row L (toupper_row L row) = toupper_row L row.
Proof.
  intros HL.
  destruct (toupper_row_spec L row HL) as [Hlen1 Hget1].
  destruct (toupper_row_spec L (toupper_row L row)) as [Hlen2 Hget2]; [lia|].
  apply (buffer_ext Chr.NUL); [lia|].
  intros k Hk. rewrite Hget2 by lia. rewrite Hget1 by lia.
  destruct (Z.ltb_spec k L); [|done]. apply toupper_idempotent.
Qed.

(** The alphabet msa_toupper leaves, read back from its buffer. *)
Lemma toupper_alphabet_result (s : string) inv :
  Chr.NUL ∉ list_ascii_of_string s ->
  exists P' inv' x r,
    toupper_alphabet_loop (S (String.length s)) (cstr s) inv 0 0
    = (P' ++ x :: r, inv', Z.of_nat (List.length P')) /\
    upper_clean P' /\
    string_of_buffer (set (P' ++ x :: r) (Z.of_nat (List.length P')) Chr.NUL)
    = string_of_list_ascii P'.
Proof.
  intros Hnul.
  destruct (toupper_alphabet_loop_spec (list_ascii_of_string s) Hnul
              (S (String.length s)) inv 0 [])
    as (P' & inv' & Hloop & Hclean & Hlen).
  { lia. } { rewrite length_list_ascii_of_string. lia. } { simpl. lia. }
  { intros c Hc. by apply elem_of_nil in Hc. }
  destruct (lookup_lt_is_Some_2 (list_ascii_of_string s ++ [Chr.NUL]) (List.length P'))
    as [x Hx].
  { rewrite length_app. simpl. lia. }
  rewrite (drop_S _ x _ Hx) in Hloop.
  exists P', inv', x, (drop (S (List.length P')) (list_ascii_of_string s ++ [Chr.NUL])).
  split; [exact Hloop|]. split; [done|].
  rewrite set_app_head. unfold string_of_buffer.
  rewrite strlen_app by (intros Hin; by destruct (Hclean _ Hin)).
  by rewrite Nat2Z.id, take_app_length.
Qed.

Section UpperCasingFacts.
Context {TT : TupleTable} {TW : TupleWriter}.

(** msa_toupper on an alignment that holds its rows and no table. *)
Lemma msa_toupper_explicit msa rs :
  msa_seqs msa = Some rs ->
  msa_ss msa = None ->
  msa_nseqs msa = Z.of_nat (List.length rs) ->
  msa_toupper msa
  = let '(alphabet, inv, j) :=
      toupper_alphabet_loop (S (String.length (msa_alphabet msa)))
        (cstr (msa_alphabet msa)) (msa_inv_alphabet msa) 0 0 in
    Ok (set_seqs
          (set_inv_alphabet
             (set_alphabet msa (string_of_buffer (set alphabet j Chr.NUL))) inv)
          (Some (List.map (toupper_row (msa_length msa)) rs))).
Proof.
  intros Hseqs Hss Hn. unfold msa_toupper.
  rewrite Hseqs. rewrite bool_decide_true by done.
  generalize (toupper_alphabet_loop (S (String.length (msa_alphabet msa)))
                (cstr (msa_alphabet msa)) (msa_inv_alphabet msa) 0 0).
  intros [[alphabet inv] j]. simpl.
  set (m1 := set_inv_alphabet _ inv).
  assert (Hss1 : msa_ss m1 = None) by exact Hss.
  assert (Hseqs1 : msa_seqs m1 = Some rs) by exact Hseqs.
  assert (Hn1 : msa_nseqs m1 = Z.of_nat (List.length rs)) by exact Hn.
  rewrite Hss, Hseqs1, Hn1. by rewrite (for_loop_rows []).
Qed.

End UpperCasingFacts.

Lemma existsb_lowercase_clean (P : list ascii) :
  upper_clean P -> existsb is_lowercase P = false.
Proof.
  intros Hclean. apply not_true_is_false. intros (c & Hin & Hc)%existsb_exists.
  apply list_elem_of_In in Hin. destruct (Hclean c Hin) as [_ Hlow]. congruence.
Qed.

Lemma string_of_buffer_cstr (P : list ascii) :
  Chr.NUL ∉ P -> string_of_buffer (P ++ [Chr.NUL]) = string_of_list_ascii P.
Proof.
  intros HP. unfold string_of_buffer.
  by rewrite strlen_app, Nat2Z.id, take_app_length.
Qed.

(** X24: msa_toupper on an alignment that holds its rows and no table of
    tuples: it returns; the alphabet it leaves has no lowercase letter, so
    that msa_alph_has_lowercase answers no; every cell of the matrix is the
    upper case of what it was; and a second call changes nothing. *)
Theorem msa_toupper_spec {TT : TupleTable} {TW : TupleWriter} msa rs :
  msa_seqs msa = Some rs ->
  msa_ss msa = None ->
  explicit_wf msa = true ->
  Chr.NUL ∉ list_ascii_of_string (msa_alphabet msa) ->
  exists m rs',
    msa_toupper msa = Ok m /\
    msa_seqs m = Some rs' /\
    msa_nseqs m = msa_nseqs msa /\ msa_length m = msa_length msa /\
    msa_alph_has_lowercase m = false /\
    (forall i j, 0 <= i < msa_nseqs msa -> 0 <= j < msa_length msa ->
       seq_at rs' i j = Chr.toupper (seq_at rs i j)) /\
    msa_toupper m = Ok m.
Proof.
  intros Hseqs Hss Hwf Hnul.
  destruct (explicit_wf_inv msa rs Hseqs Hwf) as (Hn & HL & Hrows).
  destruct (toupper_alphabet_result (msa_alphabet msa) (msa_inv_alphabet msa) Hnul)
    as (P' & inv' & x & r & Hloop & Hclean & Hstr).
  assert (HnulP : Chr.NUL ∉ P') by (intros Hin; by destruct (Hclean _ Hin)).
  pose proof (msa_toupper_explicit msa rs Hseqs Hss Hn) as Heval.
  rewrite Hloop, Hstr in Heval.
  set (rs' := List.map (toupper_row (msa_length msa)) rs) in *.
  set (m := set_seqs _ (Some rs')) in Heval.
  exists m, rs'. split; [exact Heval|]. do 3 (split; [done|]).
  split; [|split].
  - unfold msa_alph_has_lowercase.
    change (msa_alphabet m) with (string_of_list_ascii P').
    rewrite list_ascii_of_string_of_list_ascii.
    by apply existsb_lowercase_clean.
  - intros i j Hi Hj. unfold seq_at, rs'.
    rewrite (get_map [] []) by lia.
    assert (Hrow : msa_length msa <= Z.of_nat (List.length (get [] rs i))).
    { rewrite Forall_forall in Hrows. apply Hrows, get_elem. lia. }
    destruct (toupper_row_spec (msa_length msa) (get [] rs i) Hrow) as [_ Hget].
    rewrite Hget by lia. by destruct (Z.ltb_spec j (msa_length msa)); [|lia].
  - rewrite (msa_toupper_explicit m rs');
      [|done|exact Hss|unfold rs'; rewrite length_map; exact Hn].
    change (msa_alphabet m) with (string_of_list_ascii P').
    change (msa_inv_alphabet m) with inv'.
    change (msa_length m) with (msa_length msa).
    unfold cstr. rewrite <- length_list_ascii_of_string.
    rewrite list_ascii_of_string_of_list_ascii.
    rewrite (toupper_alphabet_loop_clean P' Hclean) by lia.
    rewrite set_app_head, (string_of_buffer_cstr P' HnulP).
    replace (List.map (toupper_row (msa_length msa)) rs') with rs'; [done|].
    unfold rs'. rewrite List.map_map. apply List.map_ext_in.
    intros row Hin. symmetry. apply toupper_row_twice.
    rewrite Forall_forall in Hrows. apply Hrows. by apply list_elem_of_In.
Qed.

(** ** Masking of long gaps *)

Lemma mask_fill_spec mis lo hi (row : list ascii) :
  0 <= lo -> hi <= Z.of_nat (List.length row) ->
  List.length (mask_fill mis lo hi row) = List.length row /\
  forall x, getc (mask_fill mis lo hi row) x
            = if (lo <=? x) && (x <? hi) then mis else getc row x.
Proof.
  intros Hlo Hhi. unfold mask_fill.
  destruct (Z.le_gt_cases lo hi) as [Hle|Hgt]; cycle 1.
  { rewrite for_loop_empty by lia. split; [done|]. intros x.
    destruct (Z.leb_spec lo x), (Z.ltb_spec x hi); simpl; try done. lia. }
  apply (for_loop_inv (fun i t =>
           List.length t = List.length row /\
           forall x, getc t x = if (lo <=? x) && (x <? i) then mis else getc row x));
    [done| |].
  - split; [done|]. intros x.
    destruct (Z.leb_spec lo x), (Z.ltb_spec x lo); simpl; try done. lia.
  - intros i t Hi [Hlen Hget]. split; [by rewrite length_set|].
    intros x. destruct (Z.eq_dec x i) as [->|Hne].
    + rewrite get_set_eq by lia.
      destruct (Z.leb_spec lo i), (Z.ltb_spec i (i + 1)); simpl; try done; lia.
    + rewrite get_set_ne by lia. rewrite Hget.
      destruct (Z.leb_spec lo x), (Z.ltb_spec x i), (Z.ltb_spec x (i + 1));
        simpl; try done; lia.
Qed.

Lemma not_long_gap_nongap row L k x :
  getc row x <> GAP_CHAR -> ~ in_long_gap row L k x.
Proof. intros Hx (a & b & Ha & Hb & _ & Hrun). apply Hx, Hrun. lia. Qed.

(** A column within a run of gaps that is closed on both sides (by another
    character or by an end of the row) lies in a long run exactly when that
    run is long. *)
Lemma long_gap_in_run row L k lo hi x :
  0 <= lo -> lo <= x < hi -> hi <= L ->
  (forall y, lo <= y < hi -> getc row y = GAP_CHAR) ->
  (0 < lo -> getc row (lo - 1) <> GAP_CHAR) ->
  (hi < L -> getc row hi <> GAP_CHAR) ->
  in_long_gap row L k x <-> k < hi - lo.
Proof.
  intros Hlo Hx Hhi Hrun Hleft Hright. split.
  - intros (a & b & Ha & Hb & Hk & Hgaps).
    assert (lo <= a).
    { destruct (Z.le_gt_cases lo a); [done|]. destruct Hleft; [lia|].
      apply Hgaps. lia. }
    assert (b <= hi).
    { destruct (Z.le_gt_cases b hi); [done|]. destruct Hright; [lia|].
      apply Hgaps. lia. }
    lia.
  - intros Hk. exists lo, hi. repeat split; try lia. exact Hrun.
Qed.

Lemma mask_scan_step row mis L k i st :
  L <= Z.of_nat (List.length row) -> 0 <= i < L ->
  mask_scan_ok row mis L k i st ->
  mask_scan_ok row mis L k (i + 1)
    (let '(row, len, prev_is_gap) := st in
     if getc row i =c? GAP_CHAR then (row, len + 1, true)
     else if (prev_is_gap : bool) then
       ((if k <? len then mask_fill mis (i - len) i row else row), 0, false)
     else (row, len, prev_is_gap)).
Proof.
  intros HL Hi. destruct st as [[t len] prev].
  intros (Hlen & Hl & Hprev & Hsame & Hrun & Hleft & Hdone).
  assert (Hcell : getc t i = getc row i) by (apply Hsame; lia).
  rewrite Hcell. unfold Chr.eqb.
  destruct (Ascii.eqb_spec (getc row i) GAP_CHAR) as [Hgap|Hnongap].
  - unfold mask_scan_ok. replace (i + 1 - (len + 1)) with (i - len) by lia.
    split; [done|]. split; [lia|]. split.
    { by destruct (Z.ltb_spec 0 (len + 1)); [|lia]. }
    split; [done|]. split; [|done].
    intros x Hx. destruct (Z.eq_dec x i) as [->|]; [done|]. apply Hrun. lia.
  - destruct prev.
    + assert (0 < len) by (destruct (Z.ltb_spec 0 len); [done|discriminate]).
      destruct (mask_fill_spec mis (i - len) i t) as [Hflen Hfget]; [lia|lia|].
      unfold mask_scan_ok. rewrite !Z.sub_0_r.
      split; [by destruct (k <? len); [rewrite Hflen|]|].
      split; [lia|]. split; [done|]. split; [|split; [intros x; lia|split]].
      * intros x Hx. destruct (k <? len); [|apply Hsame; lia].
        rewrite Hfget. destruct (Z.leb_spec (i - len) x), (Z.ltb_spec x i);
          simpl; try lia; apply Hsame; lia.
      * intros _. by replace (i + 1 - 1) with i by lia.
      * intros x Hx.
        destruct (Z.lt_ge_cases x (i - len)) as [Hbefore|Hin].
        { replace (getc (if k <? len then mask_fill mis (i - len) i t else t) x)
            with (getc t x); [by apply Hdone|].
          destruct (k <? len); [|done]. rewrite Hfget.
          by destruct (Z.leb_spec (i - len) x); [lia|]. }
        destruct (Z.eq_dec x i) as [->|Hne].
        { split; [intros Hlong; by destruct (not_long_gap_nongap row L k i)|].
          intros _. destruct (k <? len); [|done]. rewrite Hfget.
          destruct (Z.leb_spec (i - len) i), (Z.ltb_spec i i); simpl; try lia; done. }
        pose proof (long_gap_in_run row L k (i - len) i x ltac:(lia) ltac:(lia)
                      ltac:(lia) Hrun Hleft (fun _ => Hnongap)) as Hiff.
        destruct (Z.ltb_spec k len) as [Hk|Hk].
        -- rewrite Hfget.
           destruct (Z.leb_spec (i - len) x), (Z.ltb_spec x i); simpl; try lia.
           split; [done|]. intros Hno. destruct Hno. apply Hiff. lia.
        -- split; [intros Hlong; apply Hiff in Hlong; lia|].
           intros _. apply Hsame. lia.
    + assert (len = 0) as -> by (destruct (Z.ltb_spec 0 len); [discriminate|lia]).
      unfold mask_scan_ok. rewrite !Z.sub_0_r in *.
      split; [done|]. split; [lia|]. split; [done|].
      split; [intros x Hx; apply Hsame; lia|]. split; [intros x; lia|]. split.
      * intros _. by replace (i + 1 - 1) with i by lia.
      * intros x Hx. destruct (Z.eq_dec x i) as [->|Hne]; [|apply Hdone; lia].
        split; [intros Hlong; by destruct (not_long_gap_nongap row L k i)|done].
Qed.

(** msa_mask_macro_indels on one row: a column in a run of more than [k]
    gaps receives the missing-data character, every other cell stays. *)
Lemma mask_row_spec k mis L (row : list ascii) :
  L <= Z.of_nat (List.length row) ->
  List.length (mask_row k mis L row) = List.length row /\
  forall x,
    (in_long_gap row L k x -> getc (mask_row k mis L row) x = mis) /\
    (~ in_long_gap row L k x -> getc (mask_row k mis L row) x = getc row x).
Proof.
  intros HL. unfold mask_row.
  destruct (Z.le_gt_cases 0 L) as [H0|H0]; cycle 1.
  { rewrite for_loop_empty by lia. simpl. split; [done|]. intros x.
    split; [|done]. intros (a & b & ? & ? & _). lia. }
  match goal with |- context [for_loop 0 L ?bd ?s] =>
    assert (Hinv : mask_scan_ok row mis L k L (for_loop 0 L bd s))
  end.
  { apply (for_loop_inv (mask_scan_ok row mis L k)); [done| |].
    - unfold mask_scan_ok. rewrite Z.sub_0_r. split; [done|]. split; [lia|].
      split; [done|]. split; [done|]. split; [intros x; lia|]. split; [lia|].
      intros x Hx. split; [|done]. intros (a & b & ? & ? & _). lia.
    - intros i st Hi Hst. by apply mask_scan_step. }
  destruct (for_loop 0 L _ _) as [[t len] prev].
  destruct Hinv as (Hlen & Hl & Hprev & Hsame & Hrun & Hleft & Hdone).
  replace (Z.max 0 L) with L by lia.
  destruct (mask_fill_spec mis (L - len) L t) as [Hflen Hfget]; [lia|lia|].
  assert (Hopen : forall x, L - len <= x < L ->
            in_long_gap row L k x <-> k < len).
  { intros x Hx.
    rewrite (long_gap_in_run row L k (L - len) L x); [|lia|lia|lia|done|done|lia].
    lia. }
  assert (Hout : forall x, L <= x -> ~ in_long_gap row L k x).
  { intros x Hx (a & b & ? & ? & _). lia. }
  destruct prev; simpl.
  - destruct (Z.ltb_spec k len) as [Hk|Hk].
    + split; [by rewrite Hflen|]. intros x. rewrite Hfget.
      destruct (Z.leb_spec (L - len) x), (Z.ltb_spec x L); simpl.
      * split; [done|]. intros Hno. destruct Hno. by apply Hopen.
      * split; [intros Hlong; by destruct (Hout x)|]. intros _. apply Hsame. lia.
      * apply Hdone. lia.
      * apply Hdone. lia.
    + split; [done|]. intros x.
      destruct (Z.lt_ge_cases x (L - len)); [by apply Hdone|].
      split; [|intros _; by apply Hsame].
      intros Hlong. destruct (Z.lt_ge_cases x L); [|by destruct (Hout x)].
      apply Hopen in Hlong; lia.
  - assert (len = 0) as -> by (destruct (Z.ltb_spec 0 len); [discriminate|lia]).
    split; [done|]. intros x.
    destruct (Z.lt_ge_cases x L); [apply Hdone; lia|].
    split; [intros Hlong; by destruct (Hout x)|]. intros _. apply Hsame. lia.
Qed.

(** A loop over the rows that rewrites the rows it does not skip. *)
Lemma for_loop_rows_skipping {A} (d : A) (skip : Z -> bool) (g : A -> A)
    (rs : list A) :
  let out := for_loop 0 (Z.of_nat (List.length rs))
               (fun i t => if skip i then t else set t i (g (get d t i))) rs in
  List.length out = List.length rs /\
  forall s, 0 <= s < Z.of_nat (List.length rs) ->
    get d out s = if skip s then get d rs s else g (get d rs s).
Proof.
  intros out.
  assert (Hinv : List.length out = List.length rs /\
            forall s, 0 <= s < Z.of_nat (List.length rs) ->
              get d out s = if (s <? Z.of_nat (List.length rs)) && negb (skip s)
                            then g (get d rs s) else get d rs s); cycle 1.
  { destruct Hinv as [Hlen Hget]. split; [done|]. intros s Hs. rewrite Hget by done.
    destruct (Z.ltb_spec s (Z.of_nat (List.length rs))); [|lia].
    by destruct (skip s). }
  apply (for_loop_inv (fun i t =>
           List.length t = List.length rs /\
           forall s, 0 <= s < Z.of_nat (List.length rs) ->
             get d t s = if (s <? i) && negb (skip s) then g (get d rs s)
                         else get d rs s)); [lia| |].
  - split; [done|]. intros s Hs. by destruct (Z.ltb_spec s 0); [lia|].
  - intros i t Hi [Hlen Hget].
    assert (Hstay : forall s, 0 <= s < Z.of_nat (List.length rs) -> s <> i ->
              (if (s <? i + 1) && negb (skip s) then g (get d rs s) else get d rs s)
              = (if (s <? i) && negb (skip s) then g (get d rs s) else get d rs s)).
    { intros s Hs Hne.
      by destruct (Z.ltb_spec s i), (Z.ltb_spec s (i + 1)); try lia. }
    destruct (skip i) eqn:Hskip.
    + split; [done|]. intros s Hs. rewrite Hget by done.
      destruct (Z.eq_dec s i) as [->|Hne]; [|by rewrite Hstay].
      rewrite Hskip, !andb_false_r. done.
    + split; [by rewrite length_set|]. intros s Hs.
      destruct (Z.eq_dec s i) as [->|Hne].
      * rewrite get_set_eq by lia. rewrite Hget by done. rewrite Hskip. simpl.
        destruct (Z.ltb_spec i i), (Z.ltb_spec i (i + 1)); try lia. done.
      * rewrite get_set_ne by lia. rewrite Hget by done. by rewrite Hstay.
Qed.

(** After the masking no run of more than [k] gaps is left, as long as the
    missing-data character is not the gap itself. *)
Lemma mask_row_no_long_gap k mis L (row : list ascii) x :
  mis <> GAP_CHAR -> L <= Z.of_nat (List.length row) ->
  ~ in_long_gap (mask_row k mis L row) L k x.
Proof.
  intros Hmis HL (a & b & Ha & Hb & Hk & Hgaps).
  destruct (mask_row_spec k mis L row HL) as [_ Hget].
  assert (Hold : forall y, a <= y < b -> getc row y = GAP_CHAR).
  { intros y Hy. destruct (Hget y) as [Hlong Hshort].
    rewrite <- Hshort; [by apply Hgaps|].
    intros Hin. apply Hmis. rewrite <- (Hlong Hin). by apply Hgaps. }
  destruct (Hget x) as [Hlong _]. apply Hmis.
  rewrite <- Hlong; [apply Hgaps; lia|]. by exists a, b.
Qed.

Lemma mask_row_twice k mis L (row : list ascii) :
  mis <> GAP_CHAR -> L <= Z.of_nat (List.length row) ->
  mask_row k mis L (mask_row k mis L row) = mask_row k mis L row.
Proof.
  intros Hmis HL.
  destruct (mask_row_spec k mis L row HL) as [Hlen _].
  destruct (mask_row_spec k mis L (mask_row k mis L row)) as [Hlen2 Hget2]; [lia|].
  apply (buffer_ext Chr.NUL); [done|].
  intros x _. apply Hget2. by apply mask_row_no_long_gap.
Qed.

Section MacroIndelsFacts.
Context {SS : SuffStats}.

(** msa_mask_macro_indels on an alignment that holds its rows and no
    sufficient statistics. *)
Lemma msa_mask_macro_indels_explicit msa rs k refseq :
  msa_seqs msa = Some rs ->
  msa_ss msa = None ->
  msa_nseqs msa = Z.of_nat (List.length rs) ->
  msa_mask_macro_indels msa k refseq
  = Ok (set_seqs msa
          (Some (for_loop 0 (Z.of_nat (List.length rs))
                   (fun seq t =>
                      if seq =? refseq - 1 then t
                      else set t seq
                             (mask_row k (missing0 msa) (msa_length msa)
                                (get [] t seq)))
                   rs))).
Proof.
  intros Hseqs Hss Hn. unfold msa_mask_macro_indels, rows_of.
  rewrite Hseqs. rewrite bool_decide_false by done. simpl.
  by rewrite Hss, Hseqs, Hn.
Qed.

End MacroIndelsFacts.

(** X25: msa_mask_macro_indels on an explicit alignment without sufficient
    statistics returns the alignment with the same number of rows, in which
    the row [refseq - 1] is as it was and, in every other row, each column
    that lies in a run of more than [k] gaps holds the first missing-data
    character, while every other cell (a gap in a run of at most [k], or any
    other character) is unchanged. *)
Theorem msa_mask_macro_indels_spec {SS : SuffStats} msa rs k refseq :
  msa_seqs msa = Some rs ->
  msa_ss msa = None ->
  explicit_wf msa = true ->
  exists rs',
    msa_mask_macro_indels msa k refseq = Ok (set_seqs msa (Some rs')) /\
    List.length rs' = List.length rs /\
    (forall i, 0 < refseq <= msa_nseqs msa ->
       seq_at rs' (refseq - 1) i = seq_at rs (refseq - 1) i) /\
    (forall s i, 0 <= s < msa_nseqs msa -> s <> refseq - 1 ->
       List.length (get [] rs' s) = List.length (get [] rs s) /\
       (in_long_gap (get [] rs s) (msa_length msa) k i ->
        seq_at rs' s i = missing0 msa) /\
       (~ in_long_gap (get [] rs s) (msa_length msa) k i ->
        seq_at rs' s i = seq_at rs s i)).
Proof.
  intros Hseqs Hss Hwf.
  destruct (explicit_wf_inv msa rs Hseqs Hwf) as (Hn & HL & Hrows).
  rewrite (msa_mask_macro_indels_explicit msa rs k refseq Hseqs Hss Hn).
  destruct (for_loop_rows_skipping [] (fun s => s =? refseq - 1)
              (mask_row k (missing0 msa) (msa_length msa)) rs) as [Hlen Hget].
  eexists. split; [reflexivity|]. split; [exact Hlen|]. split.
  - intros i Hr. unfold seq_at. rewrite Hget by lia. by rewrite Z.eqb_refl.
  - intros s i Hs Hne. unfold seq_at. rewrite Hget by lia.
    destruct (Z.eqb_spec s (refseq - 1)); [done|].
    assert (Hrow : msa_length msa <= Z.of_nat (List.length (get [] rs s))).
    { rewrite Forall_forall in Hrows. apply Hrows, get_elem. lia. }
    destruct (mask_row_spec k (missing0 msa) (msa_length msa) (get [] rs s) Hrow)
      as [Hrlen Hcells].
    split; [done|]. apply Hcells.
Qed.

(** X26: when the first missing-data character is not the gap,
    msa_mask_macro_indels leaves no run of more than [k] gaps in the rows
    it treats, so that a second call with the same arguments changes
    nothing. *)
Theorem msa_mask_macro_indels_twice {SS : SuffStats} msa rs k refseq :
  msa_seqs msa = Some rs ->
  msa_ss msa = None ->
  explicit_wf msa = true ->
  missing0 msa <> GAP_CHAR ->
  exists m rs',
    msa_mask_macro_indels msa k refseq = Ok m /\
    msa_seqs m = Some rs' /\
    (forall s i, 0 <= s < msa_nseqs msa -> s <> refseq - 1 ->
       ~ in_long_gap (get [] rs' s) (msa_length msa) k i) /\
    msa_mask_macro_indels m k refseq = Ok m.
Proof.
  intros Hseqs Hss Hwf Hmis.
  destruct (explicit_wf_inv msa rs Hseqs Hwf) as (Hn & HL & Hrows).
  assert (Hrow : forall s, 0 <= s < Z.of_nat (List.length rs) ->
            msa_length msa <= Z.of_nat (List.length (get [] rs s))).
  { intros s Hs. rewrite Forall_forall in Hrows. apply Hrows, get_elem. lia. }
  rewrite (msa_mask_macro_indels_explicit msa rs k refseq Hseqs Hss Hn).
  destruct (for_loop_rows_skipping [] (fun s => s =? refseq - 1)
              (mask_row k (missing0 msa) (msa_length msa)) rs) as [Hlen Hget].
  set (rs' := for_loop 0 (Z.of_nat (List.length rs)) _ rs) in *.
  exists (set_seqs msa (Some rs')), rs'. split; [done|]. split; [done|]. split.
  - intros s i Hs Hne. rewrite Hget by lia.
    destruct (Z.eqb_spec s (refseq - 1)); [done|].
    apply mask_row_no_long_gap; [done|]. apply Hrow. lia.
  - rewrite (msa_mask_macro_indels_explicit (set_seqs msa (Some rs')) rs' k refseq
               eq_refl Hss); [|simpl; lia].
    destruct (for_loop_rows_skipping [] (fun s => s =? refseq - 1)
                (mask_row k (missing0 msa) (msa_length msa)) rs') as [Hlen2 Hget2].
    change (missing0 (set_seqs msa (Some rs'))) with (missing0 msa).
    change (msa_length (set_seqs msa (Some rs'))) with (msa_length msa).
    set (rs'' := for_loop 0 (Z.of_nat (List.length rs')) _ rs') in *.
    replace rs'' with rs'; [done|].
    apply (buffer_ext []); [lia|].
    intros s Hs. rewrite Hget2, Hget by lia.
    destruct (Z.eqb_spec s (refseq - 1)); [done|].
    symmetry. apply mask_row_twice; [done|]. apply Hrow. lia.
Qed.

(** ** Row names *)

(** X27: msa_get_seq_idx answers -1 exactly when no row bears the name;
    otherwise it answers the first row that bears it, so that it never
    passes a row of that name, and with pairwise distinct names the row
    found for the name of a row is that row. *)
Theorem msa_get_seq_idx_first msa name :
  msa_nseqs msa = Z.of_nat (List.length (msa_names msa)) ->
  -1 <= msa_get_seq_idx msa name < Z.max 0 (msa_nseqs msa) /\
  (msa_get_seq_idx msa name = -1 <-> name ∉ msa_names msa) /\
  (forall x, 0 <= x < msa_nseqs msa ->
     get EmptyString (msa_names msa) x = name ->
     0 <= msa_get_seq_idx msa name <= x /\
     get EmptyString (msa_names msa) (msa_get_seq_idx msa name) = name) /\
  (NoDup (msa_names msa) ->
   forall x, 0 <= x < msa_nseqs msa ->
     msa_get_seq_idx msa (get EmptyString (msa_names msa) x) = x).
Proof.
  intros Hn.
  pose proof (msa_get_seq_idx_spec msa name) as Hspec. cbv zeta in Hspec.
  split; [|split; [|split]].
  - destruct Hspec as [[-> _]|(Hr & _)]; lia.
  - split.
    + intros Hidx Hin.
      destruct (elem_of_get EmptyString _ _ Hin) as (x & Hx & Hname).
      destruct Hspec as [[_ Hnone]|(Hr & _)]; [|lia].
      apply (Hnone x); [lia|done].
    + intros Hout. destruct Hspec as [[-> _]|(Hr & Hname & _)]; [done|].
      destruct Hout. rewrite <- Hname. apply get_elem_of. lia.
  - intros x Hx Hname.
    destruct Hspec as [[_ Hnone]|(Hr & Hfound & Hfirst)].
    + by destruct (Hnone x Hx).
    + split; [|done]. split; [lia|].
      destruct (Z.le_gt_cases (msa_get_seq_idx msa name) x); [done|].
      destruct (Hfirst x); [lia|done].
  - intros Hnd x Hx. by apply msa_get_seq_idx_own.
Qed.

Section LoopPrefix.
Context {S : Type}.

(** A loop that returns has passed every round. *)
Lemma for_loop_r_prefix lo hi (body : Z -> S -> result S) s i0 s' :
  lo <= i0 < hi ->
  for_loop_r lo hi body s = Ok s' ->
  exists s1 s2, for_loop_r lo i0 body s = Ok s1 /\ body i0 s1 = Ok s2.
Proof.
  intros Hi0.
  assert (exists n, hi = i0 + 1 + Z.of_nat n) as [n ->].
  { exists (Z.to_nat (hi - i0 - 1)). lia. }
  revert s'. induction n as [|n IH]; intros s'.
  - rewrite Z.add_0_r. rewrite for_loop_r_last by lia.
    destruct (for_loop_r lo i0 body s) as [s1|msg]; [|done]. simpl. eauto.
  - replace (i0 + 1 + Z.of_nat (Datatypes.S n)) with (i0 + 1 + Z.of_nat n + 1) by lia.
    rewrite for_loop_r_last by lia.
    destruct (for_loop_r lo (i0 + 1 + Z.of_nat n) body s) as [s1|msg] eqn:E; [|done].
    intros _. apply (IH ltac:(lia) s1 eq_refl).
Qed.

End LoopPrefix.

(** Once the first loop of msa_reorder_rows has looked a target name up,
    the row found for it is marked. *)
Lemma reorder_scan_marks msa target i nto cov :
  0 <= i <= Z.of_nat (List.length target) ->
  for_loop_r 0 i (reorder_scan msa target)
    (replicate (List.length target) 0, replicate (Z.to_nat (msa_nseqs msa)) 0)
    = Ok (nto, cov) ->
  forall t, 0 <= t < i ->
    0 <= msa_get_seq_idx msa (get EmptyString target t) ->
    lst_get_int cov (msa_get_seq_idx msa (get EmptyString target t)) = 1.
Proof.
  intros Hi Hrun.
  pose (P := fun i (st : list Z * list Z) =>
              List.length st.2 = Z.to_nat (msa_nseqs msa) /\
              forall t, 0 <= t < i ->
                0 <= msa_get_seq_idx msa (get EmptyString target t) ->
                lst_get_int st.2 (msa_get_seq_idx msa (get EmptyString target t)) = 1).
  cut (P i (nto, cov)); [by intros [_ HP]|].
  eapply for_loop_r_inv_ok; [| | |exact Hrun]; unfold P; [lia| |].
  - simpl. split; [by rewrite length_replicate|]. intros t Ht. lia.
  - intros j [nto' cov'] [nto'' cov''] Hj [Hlen Hinv] Hbody. simpl in *.
    set (idx := msa_get_seq_idx msa (get EmptyString target j)) in *.
    destruct (Z.leb_spec 0 idx) as [Hidx|Hidx].
    + destruct (lst_get_int cov' idx =? 0); simpl in Hbody; [|done].
      injection Hbody as <- <-.
      destruct (msa_get_seq_idx_found msa (get EmptyString target j)) as [Hlt _];
        [done|]. fold idx in Hlt.
      split; [by rewrite length_set|]. intros t Ht Hfound.
      unfold lst_get_int.
      destruct (Z.eq_dec (msa_get_seq_idx msa (get EmptyString target t)) idx)
        as [->|Hne].
      * apply get_set_eq. lia.
      * rewrite get_set_ne by done. apply Hinv; [|done].
        destruct (Z.eq_dec t j) as [->|]; [done|lia].
    + injection Hbody as <- <-. split; [done|]. intros t Ht Hfound.
      apply Hinv; [|done]. destruct (Z.eq_dec t j) as [->|]; [|lia].
      fold idx in Hfound. lia.
Qed.

(** X28: a target order in which two places lead to the same row of the
    alignment (a name of the alignment that occurs twice) makes
    msa_reorder_rows stop at its assertion. *)
Theorem msa_reorder_rows_repeated {SS : SuffStats} msa target t1 t2 :
  0 <= t1 < t2 -> t2 < Z.of_nat (List.length target) ->
  0 <= msa_get_seq_idx msa (get EmptyString target t1) ->
  msa_get_seq_idx msa (get EmptyString target t2)
    = msa_get_seq_idx msa (get EmptyString target t1) ->
  exists msg, msa_reorder_rows msa target = Fatal msg.
Proof.
  intros Ht1 Ht2 Hfound Hsame. unfold msa_reorder_rows.
  destruct (for_loop_r 0 (Z.of_nat (List.length target)) (reorder_scan msa target) _)
    as [[nto cov]|msg] eqn:Hscan; [|simpl; eauto].
  exfalso.
  assert (Hin : 0 <= t2 < Z.of_nat (List.length target)) by lia.
  destruct (for_loop_r_prefix _ _ _ _ t2 _ Hin Hscan)
    as ([nto1 cov1] & st2 & Hpre & Hbody).
  pose proof (reorder_scan_marks msa target t2 nto1 cov1 ltac:(lia) Hpre t1
                ltac:(lia) Hfound) as Hmark.
  unfold reorder_scan in Hbody. rewrite Hsame in Hbody.
  destruct (Z.leb_spec 0 (msa_get_seq_idx msa (get EmptyString target t1))); [|lia].
  rewrite Hmark in Hbody. done.
Qed.

(** ** Concatenation onto a fresh aggregate and onto itself *)

Section ConcatenationMore.
Variable uninit : ascii.

(** The allocation part for an aggregate without rows: every row is a
    fresh buffer with room for the two lengths and the terminator. *)
Lemma concatenate_alloc_fresh A n :
  msa_seqs A = None -> 0 <= msa_nseqs A -> 0 <= msa_length A + n + 1 ->
  let A1 := concatenate_alloc uninit A n in
  msa_length A1 = msa_length A /\ msa_nseqs A1 = msa_nseqs A /\
  msa_alloc_len A1 = msa_length A + n /\
  exists rs1, msa_seqs A1 = Some rs1 /\
    Z.of_nat (List.length rs1) = msa_nseqs A /\
    forall j, 0 <= j < msa_nseqs A ->
      get [] rs1 j = replicate (Z.to_nat (msa_length A + n + 1)) uninit.
Proof.
  intros Hnone Hn Hroom. unfold concatenate_alloc. rewrite Hnone. simpl.
  split; [done|]. split; [done|]. split; [done|].
  eexists. split; [reflexivity|].
  rewrite (for_loop_fill_map []
             (fun _ => smalloc_chars uninit (msa_length A + n + 1)) (msa_nseqs A)).
  split; [rewrite length_map, length_seqZ; lia|].
  intros j Hj. by rewrite (get_map_seqZ [] _ (msa_nseqs A)) by lia.
Qed.

Lemma get_replicate {X} (d x : X) n i :
  0 <= i < Z.of_nat n -> get d (replicate n x) i = x.
Proof.
  intros Hi. unfold get. destruct (Z.ltb_spec i 0); [lia|].
  by rewrite lookup_replicate_2 by lia.
Qed.

(** X29: msa_concatenate onto an aggregate that has no rows yet: the rows
    are allocated with room for exactly the two lengths, the columns of the
    source come behind the [length] columns the aggregate claims to have
    (none, for the empty aggregate that msa_new gives), which are left
    unwritten, and the source is as it was. *)
Theorem msa_concatenate_fresh (h : heap) (a b : nat) (A B : MSA) :
  a <> b -> h !! a = Some A -> h !! b = Some B ->
  msa_seqs A = None -> 0 <= msa_length A ->
  explicit_wf B = true ->
  msa_nseqs A = msa_nseqs B ->
  exists h' A',
    msa_concatenate uninit a b h = Ok h' /\
    h' !! b = Some B /\ h' !! a = Some A' /\
    msa_length A' = msa_length A + msa_length B /\
    msa_alloc_len A' = msa_length A + msa_length B /\
    msa_nseqs A' = msa_nseqs A /\
    forall j, 0 <= j < msa_nseqs A ->
      (forall i, 0 <= i < msa_length A -> seq_at (rows_of A') j i = uninit) /\
      (forall i, 0 <= i < msa_length B ->
         seq_at (rows_of A') j (msa_length A + i) = seq_at (rows_of B) j i) /\
      seq_at (rows_of A') j (msa_length A') = Chr.NUL.
Proof.
  intros Hab Ha Hb Hnone HlenA HwfB Hnseqs.
  destruct (explicit_wf_rows B HwfB) as (bs & HseqsB & HnB & HlenB & _).
  destruct (concatenate_alloc_fresh A (msa_length B) Hnone)
    as (Hl1 & Hn1 & Ha1 & rs1 & Hseqs1 & Hrs1 & Hrows1); [lia|lia|].
  set (A1 := concatenate_alloc uninit A (msa_length B)) in *.
  destruct (concatenate_copy_spec A1 B rs1 Hseqs1) as (Hl2 & Hn2 & Hcells);
    [lia|lia|done| |].
  { intros j Hj. rewrite Hrows1 by lia. rewrite length_replicate. lia. }
  set (A2 := concatenate_copy false A1 B) in *.
  exists (<[a := A2]> h), A2.
  split; [|split; [|split; [|split; [|split; [|split]]]]].
  - unfold msa_concatenate. rewrite Ha, Hb.
    destruct (Z.eqb_spec (msa_nseqs A) (msa_nseqs B)); [|done]. simpl.
    rewrite bool_decide_eq_false_2 by done.
    rewrite HseqsB. simpl. done.
  - by rewrite lookup_insert_ne.
  - by rewrite lookup_insert_eq.
  - lia.
  - exact Ha1.
  - lia.
  - intros j Hj. rewrite Hl1 in Hcells. split; [|split].
    + intros i Hi. rewrite Hcells by lia.
      destruct (Z.eqb_spec i (msa_length A + msa_length B)); [lia|].
      destruct (Z.leb_spec (msa_length A) i); [lia|]. simpl.
      unfold seq_at. rewrite Hrows1 by lia. apply get_replicate. lia.
    + intros i Hi. rewrite Hcells by lia.
      destruct (Z.eqb_spec (msa_length A + i) (msa_length A + msa_length B)); [lia|].
      destruct (Z.leb_spec (msa_length A) (msa_length A + i)); [|lia].
      destruct (Z.ltb_spec (msa_length A + i) (msa_length A + msa_length B)); [|lia].
      simpl. f_equal. lia.
    + rewrite Hl2, Hl1, Hcells by lia. by rewrite Z.eqb_refl.
Qed.

End ConcatenationMore.

(** Copying the first [L] cells of a buffer behind themselves, as the copy
    loop of msa_concatenate does when its two arguments are one. *)
Lemma copy_behind_spec L (row : list ascii) :
  0 <= L -> L + L <= Z.of_nat (List.length row) ->
  let out := for_loop 0 L (fun i row => set row (i + L) (getc row i)) row in
  List.length out = List.length row /\
  forall c, getc out c
            = if (L <=? c) && (c <? L + L) then getc row (c - L) else getc row c.
Proof.
  intros HL Hroom.
  apply (for_loop_inv (fun i t =>
           List.length t = List.length row /\
           forall c, getc t c = if (L <=? c) && (c <? L + i) then getc row (c - L)
                                else getc row c)); [done| |].
  - split; [done|]. intros c.
    destruct (Z.leb_spec L c), (Z.ltb_spec c (L + 0)); simpl; try done; lia.
  - intros i t Hi [Hlen Hget]. split; [by rewrite length_set|]. intros c.
    assert (Hread : getc t i = getc row i).
    { rewrite Hget. by destruct (Z.leb_spec L i); [lia|]. }
    destruct (Z.eq_dec c (i + L)) as [->|Hne].
    + rewrite get_set_eq by lia. rewrite Hread.
      destruct (Z.leb_spec L (i + L)), (Z.ltb_spec (i + L) (L + (i + 1)));
        simpl; try lia. f_equal. lia.
    + rewrite get_set_ne by lia. rewrite Hget.
      destruct (Z.leb_spec L c), (Z.ltb_spec c (L + i)), (Z.ltb_spec c (L + (i + 1)));
        simpl; try done; lia.
Qed.

(** The copy loops of msa_concatenate when the source is the aggregate
    itself: every row is treated on its own. *)
Lemma concatenate_copy_aliased A1 src rs1 :
  msa_seqs A1 = Some rs1 ->
  Z.of_nat (List.length rs1) = msa_nseqs A1 ->
  0 <= msa_length A1 ->
  rows_of (concatenate_copy true A1 src)
  = List.map
      (fun row =>
         set (for_loop 0 (msa_length A1)
                (fun i row => set row (i + msa_length A1) (getc row i)) row)
           (msa_length A1 + msa_length A1) Chr.NUL)
      rs1.
Proof.
  intros Hseqs Hn HL. unfold concatenate_copy, rows_of. cbv zeta.
  rewrite Hseqs. simpl. rewrite <- Hn.
  set (L := msa_length A1) in *.
  set (g := fun (i : Z) (row : list ascii) => set row (i + L) (getc row i)).
  match goal with
  | |- context [for_loop 0 L ?b rs1] =>
      assert (Hcopy : for_loop 0 L b rs1 = List.map (for_loop 0 L g) rs1)
  end.
  { apply (for_loop_inv (fun i rs => rs = List.map (for_loop 0 i g) rs1)); [done| |].
    - rewrite <- (List.map_id rs1) at 1. apply List.map_ext.
      intros row. by rewrite for_loop_empty.
    - intros i rs Hi ->.
      replace (Z.of_nat (List.length rs1))
        with (Z.of_nat (List.length (List.map (for_loop 0 i g) rs1)))
        by (by rewrite length_map).
      rewrite (for_loop_rows [] (g i)). rewrite List.map_map.
      apply List.map_ext. intros row. by rewrite for_loop_last by lia. }
  rewrite Hcopy.
  replace (Z.of_nat (List.length rs1))
    with (Z.of_nat (List.length (List.map (for_loop 0 L g) rs1)))
    by (by rewrite length_map).
  rewrite (for_loop_rows [] (fun row => set row (L + L) Chr.NUL)).
  by rewrite List.map_map.
Qed.

Section SelfConcatenation.
Variable uninit : ascii.

(** X30: msa_concatenate with one alignment as both arguments returns and
    leaves it twice as long, every row being its old columns followed by the
    same columns again and the terminator. *)
Theorem msa_concatenate_self (h : heap) (a : nat) (A : MSA) :
  h !! a = Some A ->
  explicit_wf A = true -> alloc_wf A = true ->
  exists h' A',
    msa_concatenate uninit a a h = Ok h' /\
    h' !! a = Some A' /\
    msa_length A' = msa_length A + msa_length A /\
    msa_nseqs A' = msa_nseqs A /\
    forall j, 0 <= j < msa_nseqs A ->
      (forall i, 0 <= i < msa_length A ->
         seq_at (rows_of A') j i = seq_at (rows_of A) j i /\
         seq_at (rows_of A') j (msa_length A + i) = seq_at (rows_of A) j i) /\
      seq_at (rows_of A') j (msa_length A') = Chr.NUL.
Proof.
  intros Ha Hwf Halloc.
  destruct (explicit_wf_rows A Hwf) as (rs & Hseqs & _ & HL & _).
  destruct (concatenate_alloc_spec uninit A (msa_length A) Hwf Halloc HL)
    as (Hl1 & Hn1 & rs1 & Hseqs1 & Hrs1 & Hrows1).
  set (A1 := concatenate_alloc uninit A (msa_length A)) in *.
  pose proof (concatenate_copy_aliased A1 A rs1 Hseqs1 ltac:(lia) ltac:(lia))
    as Hrows2.
  set (A2 := concatenate_copy true A1 A) in *.
  assert (Hl2 : msa_length A2 = msa_length A + msa_length A).
  { unfold A2, concatenate_copy. simpl. lia. }
  assert (Hn2 : msa_nseqs A2 = msa_nseqs A) by exact Hn1.
  exists (<[a := A2]> h), A2.
  split; [|split; [|split; [|split]]]; [| |done|done|].
  - unfold msa_concatenate. rewrite Ha. rewrite Z.eqb_refl. simpl.
    by rewrite bool_decide_eq_true_2 by done.
  - by rewrite lookup_insert_eq.
  - intros j Hj. rewrite Hl2, Hrows2, Hl1. unfold seq_at.
    destruct (Hrows1 j Hj) as [Hroom Hkept].
    destruct (copy_behind_spec (msa_length A) (get [] rs1 j) HL ltac:(lia))
      as [Hclen Hcget].
    cbv zeta in Hclen, Hcget.
    rewrite (get_map [] []) by lia.
    split.
    + intros i Hi. rewrite !get_set_ne by lia. rewrite !Hcget.
      destruct (Z.leb_spec (msa_length A) i); [lia|]. simpl.
      destruct (Z.leb_spec (msa_length A) (msa_length A + i)); [|lia].
      destruct (Z.ltb_spec (msa_length A + i) (msa_length A + msa_length A)); [|lia].
      simpl. replace (msa_length A + i - msa_length A) with i by lia.
      split; by apply Hkept.
    + apply get_set_eq. lia.
Qed.

End SelfConcatenation.

(** ** The further theorems at concrete inputs *)

Lemma msa_reverse_compl_seq_segment_spec_witness :
  List.length (msa_reverse_compl_seq_segment (cstr "AACGT") 2 4)
  = List.length (cstr "AACGT") /\
  (forall k, 0 <= k < Z.of_nat (List.length (cstr "AACGT")) ->
     getc (msa_reverse_compl_seq_segment (cstr "AACGT") 2 4) k =
       if (2 - 1 <=? k) && (k <=? 4 - 1)
       then msa_compl_char (getc (cstr "AACGT") (2 + 4 - 2 - k))
       else getc (cstr "AACGT") k) /\
  msa_reverse_compl_seq_segment (msa_reverse_compl_seq_segment (cstr "AACGT") 2 4) 2 4
  = cstr "AACGT".
Proof.
  apply (msa_reverse_compl_seq_segment_spec (cstr "AACGT") 2 4); [lia|cbn; lia].
Defined.

Lemma msa_reverse_data_segment_twice_witness :
  (forall k, 0 <= k < Z.of_nat (List.length [10; 20; 30; 40; 50]) ->
     get 0 (msa_reverse_data_segment [10; 20; 30; 40; 50] 2 5) k =
       if (2 - 1 <=? k) && (k <=? 5 - 1)
       then get 0 [10; 20; 30; 40; 50] (2 + 5 - 2 - k)
       else get 0 [10; 20; 30; 40; 50] k) /\
  msa_reverse_data_segment (msa_reverse_data_segment [10; 20; 30; 40; 50] 2 5) 2 5
  = [10; 20; 30; 40; 50].
Proof.
  apply (msa_reverse_data_segment_twice [10; 20; 30; 40; 50] 2 5); [lia|cbn; lia].
Defined.

Lemma msa_reverse_compl_seq_whole_segment_witness :
  msa_reverse_compl_seq_segment (cstr "AACGT") 1 5 = msa_reverse_compl_seq (cstr "AACGT") 5.
Proof.
  apply (msa_reverse_compl_seq_whole_segment (cstr "AACGT") 5). cbn; lia.
Defined.

Lemma msa_reverse_compl_segment_twice_witness :
  exists m1, msa_reverse_compl_segment two_rows 2 4 = Ok m1 /\
             msa_reverse_compl_segment m1 2 4 = Ok two_rows.
Proof.
  apply (msa_reverse_compl_segment_twice two_rows [cstr "AC-GT"; cstr "A-CGT"] 2 4);
    [reflexivity|reflexivity|lia|cbn; lia].
Defined.

Lemma msa_project_spec_witness :
  let kept := kept_columns
                (fun i => negb (seq_at [cstr "AC-GT"; cstr "A-CGT"] (2 - 1) i =c? GAP_CHAR))
                (msa_length two_rows) in
  exists m1 rs1,
    msa_project two_rows 2 = Ok m1 /\ msa_seqs m1 = Some rs1 /\
    msa_length m1 = Z.of_nat (List.length kept) /\
    (forall j c, 0 <= j < msa_nseqs two_rows -> 0 <= c < msa_length m1 ->
       seq_at rs1 j c = seq_at [cstr "AC-GT"; cstr "A-CGT"] j (get 0 kept c)) /\
    (forall c, 0 <= c < msa_length m1 ->
       category_at m1 c = category_at two_rows (get 0 kept c)) /\
    msa_project m1 2 = Ok m1.
Proof.
  apply (msa_project_spec two_rows [cstr "AC-GT"; cstr "A-CGT"] 2);
    [reflexivity|reflexivity|reflexivity|cbn; lia].
Defined.

Lemma msa_strip_gaps_spec_witness :
  let kept := kept_columns
                (fun i => negb (gapped_column (msa_nseqs two_rows_gapped)
                                  [cstr "A--GT"; cstr "A-C-T"] STRIP_ALL_GAPS i))
                (msa_length two_rows_gapped) in
  exists m1 rs1,
    msa_strip_gaps (SS := ss_absent) two_rows_gapped STRIP_ALL_GAPS = Ok m1 /\
    msa_seqs m1 = Some rs1 /\
    msa_length m1 = Z.of_nat (List.length kept) /\
    (forall j c, 0 <= j < msa_nseqs two_rows_gapped -> 0 <= c < msa_length m1 ->
       seq_at rs1 j c = seq_at [cstr "A--GT"; cstr "A-C-T"] j (get 0 kept c)) /\
    (forall c, 0 <= c < msa_length m1 ->
       category_at m1 c = category_at two_rows_gapped (get 0 kept c)) /\
    msa_strip_gaps (SS := ss_absent) m1 STRIP_ALL_GAPS = Ok m1.
Proof.
  apply (msa_strip_gaps_spec (SS := ss_absent) two_rows_gapped
           [cstr "A--GT"; cstr "A-C-T"] STRIP_ALL_GAPS);
    [reflexivity|reflexivity|reflexivity|left; reflexivity].
Defined.

Lemma msa_num_gapped_cols_spec_witness :
  msa_num_gapped_cols (SS := ss_absent) (TT := tt_absent) two_rows_gapped
    STRIP_ANY_GAPS (-1) (-1) = Ok 3.
Proof.
  apply (proj1 (msa_num_gapped_cols_spec (SS := ss_absent) (TT := tt_absent)
                  two_rows_gapped [cstr "A--GT"; cstr "A-C-T"] STRIP_ANY_GAPS (-1) (-1)
                  eq_refl eq_refl (or_intror eq_refl))).
Defined.

Lemma msa_strip_gaps_length_witness :
  exists m1 n,
    msa_strip_gaps (SS := ss_absent) two_rows_gapped STRIP_ANY_GAPS = Ok m1 /\
    msa_num_gapped_cols (SS := ss_absent) (TT := tt_absent) two_rows_gapped
      STRIP_ANY_GAPS (-1) (-1) = Ok n /\
    msa_length m1 = msa_length two_rows_gapped - n.
Proof.
  apply (msa_strip_gaps_length (SS := ss_absent) (TT := tt_absent) two_rows_gapped
           [cstr "A--GT"; cstr "A-C-T"] STRIP_ANY_GAPS);
    [reflexivity|reflexivity|reflexivity|reflexivity|right; reflexivity].
Defined.

Lemma msa_num_gapped_cols_all_le_any_witness :
  exists nall nany,
    msa_num_gapped_cols (SS := ss_absent) (TT := tt_absent) two_rows_gapped
      STRIP_ALL_GAPS 1 4 = Ok nall /\
    msa_num_gapped_cols (SS := ss_absent) (TT := tt_absent) two_rows_gapped
      STRIP_ANY_GAPS 1 4 = Ok nany /\
    0 <= nall <= nany /\ nany <= Z.max 0 (4 - 1).
Proof.
  apply (msa_num_gapped_cols_all_le_any (SS := ss_absent) (TT := tt_absent)
           two_rows_gapped [cstr "A--GT"; cstr "A-C-T"] 1 4);
    [reflexivity|reflexivity|cbn; lia].
Defined.

Lemma msa_map_msa_to_seq_counts_witness :
  exists map,
    msa_build_coord_map (SS := ss_absent) two_rows_gapped 2 = Ok map /\
    seq_len map = nongaps_upto [cstr "A--GT"; cstr "A-C-T"] 2 (msa_length two_rows_gapped) /\
    forall q, 1 <= q <= msa_length two_rows_gapped ->
      msa_map_msa_to_seq map q =
        Ok (if nongaps_upto [cstr "A--GT"; cstr "A-C-T"] 2 q =? 0 then -1
            else nongaps_upto [cstr "A--GT"; cstr "A-C-T"] 2 q).
Proof.
  apply (msa_map_msa_to_seq_counts (SS := ss_absent) two_rows_gapped
           [cstr "A--GT"; cstr "A-C-T"] 2).
  reflexivity.
Defined.

Lemma msa_map_seq_to_msa_nth_witness :
  exists map,
    msa_build_coord_map (SS := ss_absent) two_rows_gapped 2 = Ok map /\
    forall p, 1 <= p <= seq_len map ->
      exists q,
        msa_map_seq_to_msa map p = Ok q /\ 1 <= q <= msa_length two_rows_gapped /\
        seq_at [cstr "A--GT"; cstr "A-C-T"] (2 - 1) (q - 1) <> GAP_CHAR /\
        nongaps_upto [cstr "A--GT"; cstr "A-C-T"] 2 q = p.
Proof.
  apply (msa_map_seq_to_msa_nth (SS := ss_absent) two_rows_gapped
           [cstr "A--GT"; cstr "A-C-T"] 2).
  reflexivity.
Defined.

Lemma msa_map_seq_to_seq_counts_witness :
  exists from_map to_map,
    msa_build_coord_map (SS := ss_absent) two_rows_gapped 1 = Ok from_map /\
    msa_build_coord_map (SS := ss_absent) two_rows_gapped 2 = Ok to_map /\
    forall p, 1 <= p <= seq_len from_map ->
      exists q,
        1 <= q <= msa_length two_rows_gapped /\
        seq_at [cstr "A--GT"; cstr "A-C-T"] (1 - 1) (q - 1) <> GAP_CHAR /\
        nongaps_upto [cstr "A--GT"; cstr "A-C-T"] 1 q = p /\
        msa_map_seq_to_seq (Some from_map) (Some to_map) p =
          Ok (if nongaps_upto [cstr "A--GT"; cstr "A-C-T"] 2 q =? 0 then -1
              else nongaps_upto [cstr "A--GT"; cstr "A-C-T"] 2 q).
Proof.
  apply (msa_map_seq_to_seq_counts (SS := ss_absent) two_rows_gapped
           [cstr "A--GT"; cstr "A-C-T"] 1 2).
  reflexivity.
Defined.



Lemma msa_sub_alignment_fatal_witness :
  exists msg,
    msa_sub_alignment (SSS := sss_absent) "?" two_rows None true 3 1 = Fatal msg.
Proof.
  apply (msa_sub_alignment_fatal (SSS := sss_absent) "?" two_rows None true 3 1).
  left. lia.
Defined.

Lemma msa_sub_alignment_nested_witness :
  exists m1,
    msa_sub_alignment (SSS := sss_absent) "?" two_rows None true 1 5 = Ok m1 /\
    msa_sub_alignment (SSS := sss_absent) "?" m1 None true 1 3
    = msa_sub_alignment (SSS := sss_absent) "?" two_rows None true (1 + 1) (1 + 3).
Proof.
  apply (msa_sub_alignment_nested (SSS := sss_absent) "?" two_rows
           [cstr "AC-GT"; cstr "A-CGT"] true 1 5 1 3); [reflexivity|lia|lia|lia].
Defined.

Lemma msa_find_noaln_spec_witness :
  exists out,
    msa_find_noaln (SS := ss_absent) three_rows_missing 1 2
      [9; 9; 9; 9; 9] = Ok out /\
    List.length out = List.length [9; 9; 9; 9; 9] /\
    forall k, 0 <= k < msa_length three_rows_missing ->
      (get 0 out k = 0 \/ get 0 out k = 1) /\
      (get 0 out k = 1 <->
       closed_block (msa_missing_col (SS := ss_absent) three_rows_missing 1)
         (msa_length three_rows_missing) 2 k \/
       forall x, k <= x < msa_length three_rows_missing ->
         msa_missing_col (SS := ss_absent) three_rows_missing 1 x = true).
Proof.
  apply (msa_find_noaln_spec (SS := ss_absent) three_rows_missing
           [cstr "ACGTA"; cstr "A*NNN"; cstr "AN*NN"] 1 2 [9; 9; 9; 9; 9]);
    [reflexivity|cbn; lia].
Defined.

Lemma msa_ninformative_sites_spec_witness :
  let counted := fun i =>
    ((-1 <? 0) || (category_at two_rows_gapped i =? -1))
    && (2 <=? informative_rows (seqZ 0 (msa_nseqs two_rows_gapped))
                (msa_is_missing two_rows_gapped)
                (fun j => seq_at [cstr "A--GT"; cstr "A-C-T"] j i)) in
  exists n,
    msa_ninformative_sites (TT := tt_absent) two_rows_gapped (-1)
      = Ok n /\
    n = Z.of_nat (List.length (kept_columns counted (msa_length two_rows_gapped))) /\
    0 <= n <= Z.max 0 (msa_length two_rows_gapped) /\
    (msa_nseqs two_rows_gapped < 2 -> n = 0).
Proof.
  apply (msa_ninformative_sites_spec (TT := tt_absent)
           two_rows_gapped [cstr "A--GT"; cstr "A-C-T"] (-1));
    [reflexivity|reflexivity|lia].
Defined.

Lemma msa_remove_N_from_alph_spec_witness :
  let m := msa_remove_N_from_alph two_rows_mixed_case in
  msa_alphabet m
    = string_of_list_ascii
        (List.filter (fun c => negb (c =c? "N"))
           (list_ascii_of_string (msa_alphabet two_rows_mixed_case))) /\
  msa_inv_alphabet m "N" = -1 /\
  (forall c, c <> "N"%char ->
     msa_inv_alphabet m c = msa_inv_alphabet two_rows_mixed_case c).
Proof.
  apply (msa_remove_N_from_alph_spec two_rows_mixed_case).
  apply (bool_decide_unpack _). vm_compute. exact I.
Defined.

Lemma msa_toupper_spec_witness :
  exists m rs',
    msa_toupper (TT := tt_absent) (TW := tw_absent) two_rows_mixed_case = Ok m /\
    msa_seqs m = Some rs' /\
    msa_nseqs m = msa_nseqs two_rows_mixed_case /\
    msa_length m = msa_length two_rows_mixed_case /\
    msa_alph_has_lowercase m = false /\
    (forall i j, 0 <= i < msa_nseqs two_rows_mixed_case ->
                 0 <= j < msa_length two_rows_mixed_case ->
       seq_at rs' i j = Chr.toupper (seq_at [cstr "AcgT"; cstr "aC-n"] i j)) /\
    msa_toupper (TT := tt_absent) (TW := tw_absent) m = Ok m.
Proof.
  apply (msa_toupper_spec (TT := tt_absent) (TW := tw_absent) two_rows_mixed_case
           [cstr "AcgT"; cstr "aC-n"]);
    [reflexivity|reflexivity|reflexivity|].
  apply (bool_decide_unpack _). vm_compute. exact I.
Defined.

Lemma msa_mask_macro_indels_spec_witness :
  exists rs',
    msa_mask_macro_indels (SS := ss_absent) two_rows_long_gaps 2 0
      = Ok (set_seqs two_rows_long_gaps (Some rs')) /\
    List.length rs' = List.length [cstr "A---GT-A"; cstr "AC--G--T"] /\
    (forall i, 0 < 0 <= msa_nseqs two_rows_long_gaps ->
       seq_at rs' (0 - 1) i = seq_at [cstr "A---GT-A"; cstr "AC--G--T"] (0 - 1) i) /\
    (forall s i, 0 <= s < msa_nseqs two_rows_long_gaps -> s <> 0 - 1 ->
       List.length (get [] rs' s)
         = List.length (get [] [cstr "A---GT-A"; cstr "AC--G--T"] s) /\
       (in_long_gap (get [] [cstr "A---GT-A"; cstr "AC--G--T"] s)
          (msa_length two_rows_long_gaps) 2 i ->
        seq_at rs' s i = missing0 two_rows_long_gaps) /\
       (~ in_long_gap (get [] [cstr "A---GT-A"; cstr "AC--G--T"] s)
            (msa_length two_rows_long_gaps) 2 i ->
        seq_at rs' s i = seq_at [cstr "A---GT-A"; cstr "AC--G--T"] s i)).
Proof.
  apply (msa_mask_macro_indels_spec (SS := ss_absent) two_rows_long_gaps
           [cstr "A---GT-A"; cstr "AC--G--T"] 2 0);
    reflexivity.
Defined.

Lemma msa_mask_macro_indels_twice_witness :
  exists m rs',
    msa_mask_macro_indels (SS := ss_absent) two_rows_long_gaps 1 2 = Ok m /\
    msa_seqs m = Some rs' /\
    (forall s i, 0 <= s < msa_nseqs two_rows_long_gaps -> s <> 2 - 1 ->
       ~ in_long_gap (get [] rs' s) (msa_length two_rows_long_gaps) 1 i) /\
    msa_mask_macro_indels (SS := ss_absent) m 1 2 = Ok m.
Proof.
  apply (msa_mask_macro_indels_twice (SS := ss_absent) two_rows_long_gaps
           [cstr "A---GT-A"; cstr "AC--G--T"] 1 2);
    [reflexivity|reflexivity|reflexivity|].
  intros E. vm_compute in E. discriminate E.
Defined.

Lemma msa_get_seq_idx_first_witness :
  -1 <= msa_get_seq_idx two_rows "b" < Z.max 0 (msa_nseqs two_rows) /\
  (msa_get_seq_idx two_rows "b" = -1 <-> "b"%string ∉ msa_names two_rows) /\
  (forall x, 0 <= x < msa_nseqs two_rows ->
     get EmptyString (msa_names two_rows) x = "b"%string ->
     0 <= msa_get_seq_idx two_rows "b" <= x /\
     get EmptyString (msa_names two_rows) (msa_get_seq_idx two_rows "b")
       = "b"%string) /\
  (NoDup (msa_names two_rows) ->
   forall x, 0 <= x < msa_nseqs two_rows ->
     msa_get_seq_idx two_rows (get EmptyString (msa_names two_rows) x) = x).
Proof.
  apply (msa_get_seq_idx_first two_rows "b"). reflexivity.
Defined.

Lemma msa_reorder_rows_repeated_witness :
  exists msg,
    msa_reorder_rows (SS := ss_absent) two_rows ["a"; "b"; "a"]%string = Fatal msg.
Proof.
  apply (msa_reorder_rows_repeated (SS := ss_absent) two_rows
           ["a"; "b"; "a"]%string 0 2);
    [lia|simpl; lia|vm_compute; discriminate|reflexivity].
Defined.

Lemma msa_concatenate_fresh_witness :
  exists h' A',
    msa_concatenate "?" 0 1 aggregate_and_source = Ok h' /\
    h' !! 1%nat = Some two_rows_more /\ h' !! 0%nat = Some A' /\
    msa_length A' = msa_length empty_aggregate + msa_length two_rows_more /\
    msa_alloc_len A' = msa_length empty_aggregate + msa_length two_rows_more /\
    msa_nseqs A' = msa_nseqs empty_aggregate /\
    forall j, 0 <= j < msa_nseqs empty_aggregate ->
      (forall i, 0 <= i < msa_length empty_aggregate ->
         seq_at (rows_of A') j i = "?"%char) /\
      (forall i, 0 <= i < msa_length two_rows_more ->
         seq_at (rows_of A') j (msa_length empty_aggregate + i)
           = seq_at (rows_of two_rows_more) j i) /\
      seq_at (rows_of A') j (msa_length A') = Chr.NUL.
Proof.
  apply (msa_concatenate_fresh "?" aggregate_and_source 0 1
           empty_aggregate two_rows_more);
    [discriminate|reflexivity|reflexivity|reflexivity|simpl; lia|reflexivity
    |reflexivity].
Defined.

Lemma msa_concatenate_self_witness :
  exists h' A',
    msa_concatenate "?" 0 0 two_alignments = Ok h' /\
    h' !! 0%nat = Some A' /\
    msa_length A' = msa_length two_rows + msa_length two_rows /\
    msa_nseqs A' = msa_nseqs two_rows /\
    forall j, 0 <= j < msa_nseqs two_rows ->
      (forall i, 0 <= i < msa_length two_rows ->
         seq_at (rows_of A') j i = seq_at (rows_of two_rows) j i /\
         seq_at (rows_of A') j (msa_length two_rows + i)
           = seq_at (rows_of two_rows) j i) /\
      seq_at (rows_of A') j (msa_length A') = Chr.NUL.
Proof.
  apply (msa_concatenate_self "?" two_alignments 0 two_rows);
    reflexivity.
Defined.
